(** * Chapter thumbnails and chapter tracking of the vue-vimeo-player test app

    A shallow embedding of [test-app/src/utils/videoThumbnails.js] and of the
    script of the test application's root component (chapter tracking and
    chapter navigation), with the properties of the chapter engine stated
    and proved over it.

    Conventions of the embedding
    - A JavaScript number is the rational that the double denotes ([Q]) or
      [NaN]: comparisons, [Math.min], [Math.max], [Math.floor] and [%] are
      exact on doubles. [round64] is the rounding of IEEE 754 binary64;
      the division and the products of [generateEqualChapters] are rounded
      with it, [formatTime64] is [formatTime] with its quotient rounded and
      [clampBound64] is the rounded bound of [clamp]. Elsewhere [-] and
      [/] are exact, and a statement that the rounding could change says
      for which numbers it holds of the doubles too. The two infinities
      are not modelled.
    - The DOM is a store of video elements addressed by their index; an
      element handle is that index, so two handles alias exactly when they
      are equal.
    - Asynchronous code runs on an event loop with a virtual clock: timers
      are kept in deadline order and fire when the clock passes them; what
      the decoder does (state changes, events) is a script given from
      outside.
    - Every call the code makes on the platform is appended to a log. *)

From Stdlib Require Import QArith Qminmax Qround Qpower ZArith List Ascii String Bool Lia Lqa DecimalString.
From Stdlib Require DecimalZ DecimalPos.
From stdpp Require Import base list.
Import ListNotations.


(* ================================================================== *)
(** * Part I: definitions                                              *)
(* ================================================================== *)

(** ** JavaScript numbers *)

Module JS.

Inductive num : Type :=
  | NaN
  | Num (q : Q).

(** [Math.max(a, b)] and [Math.min(a, b)]: [NaN] if either argument is. *)
Definition Math_max (a b : num) : num :=
  match a, b with
  | Num x, Num y => Num (Qmax x y)
  | _, _ => NaN
  end.

Definition Math_min (a b : num) : num :=
  match a, b with
  | Num x, Num y => Num (Qmin x y)
  | _, _ => NaN
  end.

(** [a - b] *)
Definition sub (a b : num) : num :=
  match a, b with
  | Num x, Num y => Num (x - y)
  | _, _ => NaN
  end.

(** *** Doubles

    The code computes in IEEE 754 binary64: the result of [/], [*] and
    [-] is the exact result rounded to the nearest double, ties to the
    even mantissa. [round64] is that rounding up to the largest double;
    beyond it the code gets an infinity, which has no counterpart here. *)

(** [2^e], for an exponent of either sign. *)
Definition pow2 (e : Z) : Q := (2 ^ e)%Q.

(** The exponent of the leading bit of a positive number. *)
Definition ilog2 (q : Q) : Z :=
  let k := (Z.log2 (Qnum q) - Z.log2 (Z.pos (Qden q)))%Z in
  if Qle_bool (pow2 k) q then k else (k - 1)%Z.

(** Rounding to the nearest integer, ties to the even one. *)
Definition roundHalfEven (q : Q) : Z :=
  let f := Qfloor q in
  match Qcompare (q - inject_Z f) (1 # 2) with
  | Lt => f
  | Gt => (f + 1)%Z
  | Eq => if Z.even f then f else (f + 1)%Z
  end.

(** The exponent of the last bit that a double keeps of [q]: 53 bits,
    and no bit below [2^-1074]. *)
Definition ulpExponent (q : Q) : Z := Z.max (ilog2 q - 52) (-1074).

Definition round64_pos (q : Q) : Q :=
  let e := ulpExponent q in
  (inject_Z (roundHalfEven (q / pow2 e)) * pow2 e)%Q.

(** The double nearest to [q], ties to the even mantissa. *)
Definition round64 (q : Q) : Q :=
  match Qcompare q 0 with
  | Eq => 0%Q
  | Gt => round64_pos q
  | Lt => (- round64_pos (- q))%Q
  end.

(** [a / b], [a * b] and [a - b] on doubles. *)
Definition div64 (a b : Q) : Q := round64 (a / b).
Definition mul64 (a b : Q) : Q := round64 (a * b).
Definition sub64 (a b : Q) : Q := round64 (a - b).

(** [a === b] and [a > b] on numbers: false when either is [NaN]. *)
Definition strictEq (a b : num) : bool :=
  match a, b with
  | Num x, Num y => Qeq_bool x y
  | _, _ => false
  end.

Definition Qlt_bool (x y : Q) : bool := negb (Qle_bool y x).

Definition gt (a b : num) : bool :=
  match a, b with
  | Num x, Num y => Qlt_bool y x
  | _, _ => false
  end.

(** [a || 0] on a number: [NaN] and [0] are falsy. *)
Definition or_zero (a : num) : num :=
  match a with
  | Num x => if Qeq_bool x 0 then Num 0 else Num x
  | NaN => Num 0
  end.

(** [`${n}`] for a non-negative integer. *)
Definition show_nat (n : nat) : string :=
  NilZero.string_of_uint (Nat.to_uint n).

(** [s1 || s2] on strings: the empty string is falsy. *)
Definition or_string (s1 s2 : string) : string :=
  match s1 with
  | EmptyString => s2
  | _ => s1
  end.

(** [Array.prototype.findIndex] with the (element, index) callback;
    [-1] when no element satisfies it. *)
Fixpoint findIndex_from {A : Type} (p : A -> nat -> bool) (i : nat) (l : list A) : Z :=
  match l with
  | [] => (-1)%Z
  | x :: l' => if p x i then Z.of_nat i else findIndex_from p (S i) l'
  end.

Definition findIndex {A : Type} (p : A -> nat -> bool) (l : list A) : Z :=
  findIndex_from p 0 l.

(** What an [async] function, seen from its caller, can do: return a value,
    throw (reject), or stay suspended on an [await] that never resumes. *)
Inductive Completion (A : Type) : Type :=
  | Returned (a : A)
  | Threw (msg : string)
  | Pending.

Arguments Returned {A} a.
Arguments Threw {A} msg.
Arguments Pending {A}.

End JS.

Import JS.

(** ** The DOM store, the event loop and the platform log *)

Module Dom.

Inductive EventType : Type :=
  | ev_loadedmetadata
  | ev_canplay
  | ev_seeked
  | ev_error.

(** The functions that the code registers as listeners, by name; a host
    page's own listeners are [hostListener]s. *)
Inductive Handler : Type :=
  | onLoadedMetadata
  | onCanPlay
  | onSeeked
  | onError
  | onCanPlayReady              (* the readiness wait of the batch *)
  | onSeekedResume              (* the seek wait of the chapter navigation *)
  | hostListener (name : string).

Record Listener : Type := mkListener {
  l_type : EventType;
  l_handler : Handler;
  l_once : bool
}.

Record HTMLVideoElement : Type := mkVideo {
  src : string;
  currentSrc : string;
  crossOrigin : option string;
  preload : string;
  muted : bool;
  playsInline : bool;
  duration : num;               (* NaN until the metadata is known *)
  currentTime : Q;
  readyState : nat;
  paused : bool;
  error : option nat;           (* [video.error.code] *)
  frame : option string;        (* what drawing the presented frame on a canvas
                                   and encoding it gives; [None]: that throws *)
  listeners : list Listener
}.

(** [document.createElement('video')] *)
Definition new_video : HTMLVideoElement :=
  {| src := ""; currentSrc := ""; crossOrigin := None; preload := "";
     muted := false; playsInline := false; duration := NaN; currentTime := 0;
     readyState := 0; paused := true; error := None; frame := None;
     listeners := [] |}.

Definition set_src (x : string) (v : HTMLVideoElement) : HTMLVideoElement :=
  mkVideo x (currentSrc v) (crossOrigin v) (preload v) (muted v) (playsInline v)
    (duration v) (currentTime v) (readyState v) (paused v) (error v) (frame v) (listeners v).
Definition set_crossOrigin (x : option string) (v : HTMLVideoElement) : HTMLVideoElement :=
  mkVideo (src v) (currentSrc v) x (preload v) (muted v) (playsInline v)
    (duration v) (currentTime v) (readyState v) (paused v) (error v) (frame v) (listeners v).
Definition set_preload (x : string) (v : HTMLVideoElement) : HTMLVideoElement :=
  mkVideo (src v) (currentSrc v) (crossOrigin v) x (muted v) (playsInline v)
    (duration v) (currentTime v) (readyState v) (paused v) (error v) (frame v) (listeners v).
Definition set_muted (x : bool) (v : HTMLVideoElement) : HTMLVideoElement :=
  mkVideo (src v) (currentSrc v) (crossOrigin v) (preload v) x (playsInline v)
    (duration v) (currentTime v) (readyState v) (paused v) (error v) (frame v) (listeners v).
Definition set_playsInline (x : bool) (v : HTMLVideoElement) : HTMLVideoElement :=
  mkVideo (src v) (currentSrc v) (crossOrigin v) (preload v) (muted v) x
    (duration v) (currentTime v) (readyState v) (paused v) (error v) (frame v) (listeners v).
Definition set_currentTime (x : Q) (v : HTMLVideoElement) : HTMLVideoElement :=
  mkVideo (src v) (currentSrc v) (crossOrigin v) (preload v) (muted v) (playsInline v)
    (duration v) x (readyState v) (paused v) (error v) (frame v) (listeners v).
Definition set_paused (x : bool) (v : HTMLVideoElement) : HTMLVideoElement :=
  mkVideo (src v) (currentSrc v) (crossOrigin v) (preload v) (muted v) (playsInline v)
    (duration v) (currentTime v) (readyState v) x (error v) (frame v) (listeners v).
Definition set_listeners (x : list Listener) (v : HTMLVideoElement) : HTMLVideoElement :=
  mkVideo (src v) (currentSrc v) (crossOrigin v) (preload v) (muted v) (playsInline v)
    (duration v) (currentTime v) (readyState v) (paused v) (error v) (frame v) x.

(** What the decoder of an element reports; the environment moves it. *)
Record DecoderState : Type := mkDecoder {
  d_duration : num;
  d_currentTime : Q;
  d_readyState : nat;
  d_error : option nat;
  d_frame : option string
}.

Definition set_decoder (d : DecoderState) (v : HTMLVideoElement) : HTMLVideoElement :=
  mkVideo (src v) (currentSrc v) (crossOrigin v) (preload v) (muted v) (playsInline v)
    (d_duration d) (d_currentTime d) (d_readyState d) (paused v) (d_error d) (d_frame d)
    (listeners v).

(** [video.load()]: the media element is reset. *)
Definition reset_media (v : HTMLVideoElement) : HTMLVideoElement :=
  mkVideo (src v) (currentSrc v) (crossOrigin v) (preload v) (muted v) (playsInline v)
    NaN 0 0 true None None (listeners v).

(** Timer callbacks of the two capture functions, by what they do. *)
Inductive Callback : Type :=
  | cbTimeout                (* the overall timeout *)
  | cbSeekAfterMetadata      (* 100 ms after loadedmetadata *)
  | cbCaptureAfterSeeked     (* 50 ms after seeked *)
  | cbRetryCapture           (* 200 ms after a capture that found no frame *)
  | cbResume.                (* [resolve] of a promise that only waits *)

Record Timer : Type := mkTimer {
  timer_id : nat;
  deadline : N;
  callback : Callback
}.

Inductive Outcome : Type :=
  | Resolved (dataUrl : string)
  | Rejected (msg : string).

(** The calls made on the platform. *)
Inductive Action : Type :=
  | CreateVideo (id : nat)
  | SetSrc (id : nat) (url : string)
  | Load (id : nat)
  | AddEventListener (id : nat) (ev : EventType) (h : Handler) (once : bool)
  | RemoveEventListener (id : nat) (ev : EventType) (h : Handler)
  | SetCurrentTime (id : nat) (t : Q)
  | DrawImage (id : nat) (width height : nat)
  | Pause (id : nat)
  | Play (id : nat)
  | SetTimeout (tid : nat) (cb : Callback) (ms : N)
  | ClearTimeout (tid : nat)
  | Resolve (dataUrl : string)
  | Reject (msg : string)
  | PlayerSetCurrentTime (t : Q)        (* the embedded player's own API *)
  | PlayerPlay
  | ConsoleLog (msg : string)
  | ConsoleWarn (msg : string)
  | ConsoleError (msg : string).

(** The state that a running capture sees: the platform (store, clock,
    pending timers in deadline order, log) and the two things that change
    in its closure, the [resolved] flag and the state of its promise. *)
Record State : Type := mkState {
  dom : list HTMLVideoElement;
  clock : N;
  timers : list Timer;
  nextTimerId : nat;
  log : list Action;
  resolved : bool;
  settled : option Outcome
}.

Definition set_dom (x : list HTMLVideoElement) (s : State) : State :=
  mkState x (clock s) (timers s) (nextTimerId s) (log s) (resolved s) (settled s).
Definition set_clock (x : N) (s : State) : State :=
  mkState (dom s) x (timers s) (nextTimerId s) (log s) (resolved s) (settled s).
Definition set_timers (x : list Timer) (s : State) : State :=
  mkState (dom s) (clock s) x (nextTimerId s) (log s) (resolved s) (settled s).
Definition set_nextTimerId (x : nat) (s : State) : State :=
  mkState (dom s) (clock s) (timers s) x (log s) (resolved s) (settled s).
Definition set_log (x : list Action) (s : State) : State :=
  mkState (dom s) (clock s) (timers s) (nextTimerId s) x (resolved s) (settled s).
Definition set_resolved (x : bool) (s : State) : State :=
  mkState (dom s) (clock s) (timers s) (nextTimerId s) (log s) x (settled s).
Definition set_settled (x : option Outcome) (s : State) : State :=
  mkState (dom s) (clock s) (timers s) (nextTimerId s) (log s) (resolved s) x.

Definition emit (a : Action) (s : State) : State := set_log (log s ++ [a]) s.

(** Reading an element through its handle. *)
Definition element (id : nat) (s : State) : HTMLVideoElement :=
  default new_video (dom s !! id).

Definition update_element (id : nat) (f : HTMLVideoElement -> HTMLVideoElement)
    (s : State) : State :=
  set_dom (alter f id (dom s)) s.

Definition createElement (s : State) : nat * State :=
  let id := length (dom s) in
  (id, emit (CreateVideo id) (set_dom (dom s ++ [new_video]) s)).

Definition setSrc (id : nat) (url : string) (s : State) : State :=
  emit (SetSrc id url) (update_element id (set_src url) s).

Definition load (id : nat) (s : State) : State :=
  emit (Load id) (update_element id reset_media s).

(** [video.currentTime = t]: a [TypeError] for a value that is not finite,
    which ends the listener or timer callback that made the assignment. *)
Definition setCurrentTime (id : nat) (t : num) (s : State) : State :=
  match t with
  | Num q => emit (SetCurrentTime id q) (update_element id (set_currentTime q) s)
  | NaN => s
  end.

Definition pause (id : nat) (s : State) : State :=
  emit (Pause id) (update_element id (set_paused true) s).

(** [video.play()]; [allowed] is the platform's decision. A refused request
    leaves the element paused and rejects the returned promise. *)
Definition play (id : nat) (allowed : bool) (s : State) : State :=
  emit (Play id)
    (if allowed then update_element id (set_paused false) s else s).

Definition EventType_eqb (a b : EventType) : bool :=
  match a, b with
  | ev_loadedmetadata, ev_loadedmetadata | ev_canplay, ev_canplay
  | ev_seeked, ev_seeked | ev_error, ev_error => true
  | _, _ => false
  end.

Definition Handler_eqb (a b : Handler) : bool :=
  match a, b with
  | onLoadedMetadata, onLoadedMetadata | onCanPlay, onCanPlay
  | onSeeked, onSeeked | onError, onError
  | onCanPlayReady, onCanPlayReady | onSeekedResume, onSeekedResume => true
  | hostListener x, hostListener y => String.eqb x y
  | _, _ => false
  end.

Definition same_listener (ev : EventType) (h : Handler) (l : Listener) : bool :=
  EventType_eqb ev (l_type l) && Handler_eqb h (l_handler l).

Definition drop_listener (ev : EventType) (h : Handler) (v : HTMLVideoElement)
    : HTMLVideoElement :=
  set_listeners (List.filter (fun l => negb (same_listener ev h l)) (listeners v)) v.

(** A listener already registered for the same event is not added twice. *)
Definition add_listener (ev : EventType) (h : Handler) (once : bool)
    (v : HTMLVideoElement) : HTMLVideoElement :=
  if existsb (same_listener ev h) (listeners v) then v
  else set_listeners (listeners v ++ [mkListener ev h once]) v.

Definition addEventListener (id : nat) (ev : EventType) (h : Handler) (once : bool)
    (s : State) : State :=
  emit (AddEventListener id ev h once) (update_element id (add_listener ev h once) s).

Definition removeEventListener (id : nat) (ev : EventType) (h : Handler)
    (s : State) : State :=
  emit (RemoveEventListener id ev h) (update_element id (drop_listener ev h) s).

(** Pending timers are kept in the order in which they will fire. *)
Fixpoint insert_timer (t : Timer) (l : list Timer) : list Timer :=
  match l with
  | [] => [t]
  | u :: l' => if (deadline u <=? deadline t)%N then u :: insert_timer t l' else t :: l
  end.

Definition setTimeout (cb : Callback) (ms : N) (s : State) : nat * State :=
  let id := nextTimerId s in
  (id, emit (SetTimeout id cb ms)
         (set_nextTimerId (S id)
            (set_timers (insert_timer (mkTimer id (clock s + ms)%N cb) (timers s)) s))).

Definition clearTimeout (id : nat) (s : State) : State :=
  emit (ClearTimeout id)
    (set_timers (List.filter (fun t => negb (timer_id t =? id)%nat) (timers s)) s).

(** [await new Promise(resolve => setTimeout(resolve, ms))], when nothing
    else happens meanwhile: the timer is started and has fired. *)
Definition sleep (ms : N) (s : State) : State :=
  let '(id, s1) := setTimeout cbResume ms s in
  set_clock (N.max (clock s1) (clock s + ms)%N)
    (set_timers (List.filter (fun t => negb (timer_id t =? id)%nat) (timers s1)) s1).

(** [resolve(x)] and [reject(e)] of the promise under construction: only
    the first call settles it. *)
Definition settle (o : Outcome) (s : State) : State :=
  let s' := emit (match o with Resolved u => Resolve u | Rejected m => Reject m end) s in
  match settled s with
  | None => set_settled (Some o) s'
  | Some _ => s'
  end.

(** [ctx.drawImage(video, 0, 0, width, height)] followed by
    [canvas.toDataURL('image/jpeg', 0.8)]: the data URL, or [None] when
    one of the two throws. *)
Definition drawFrame (id width height : nat) (s : State) : State * option string :=
  (emit (DrawImage id width height) s, frame (element id s)).

(** *** The event loop *)

(** What happens from outside while a capture is in flight. *)
Inductive Event : Type :=
  | Wait (ms : N)                  (* time passes; due timers fire *)
  | Decoder (d : DecoderState)     (* the decoder of the capture's element moves *)
  | Fire (ev : EventType).         (* that element dispatches an event *)

(** A running piece of code: its listeners and its timer callbacks. *)
Record Program : Type := mkProgram {
  invoke : Handler -> State -> State;
  fire : Callback -> State -> State
}.

Definition registered (l : Listener) (v : HTMLVideoElement) : bool :=
  existsb (same_listener (l_type l) (l_handler l)) (listeners v).

Definition same_type (ev : EventType) (l : Listener) : bool :=
  EventType_eqb ev (l_type l).

(** Dispatch of [ev] on element [id]: the listeners registered when the
    dispatch starts run in order, each only if it is still registered; a
    [once] listener is removed before it runs. *)
Definition deliver (P : Program) (id : nat) (s : State) (l : Listener) : State :=
  if registered l (element id s) then
    let s1 := if l_once l
              then update_element id (drop_listener (l_type l) (l_handler l)) s
              else s in
    invoke P (l_handler l) s1
  else s.

Definition dispatch (P : Program) (id : nat) (ev : EventType) (s : State) : State :=
  fold_left (deliver P id) (List.filter (same_type ev) (listeners (element id s))) s.

(** A timer callback may start at most one further timer
    ([cbCaptureAfterSeeked] starts [cbRetryCapture]); [weight] bounds the
    number of firings that a set of pending timers can lead to. *)
Definition weight1 (t : Timer) : nat :=
  match callback t with
  | cbCaptureAfterSeeked => 2
  | _ => 1
  end.

Definition weight (l : list Timer) : nat := list_sum (map weight1 l).

Definition fire_next (P : Program) (t : Timer) (rest : list Timer) (s : State) : State :=
  fire P (callback t) (set_clock (N.max (clock s) (deadline t)) (set_timers rest s)).

Fixpoint advance_loop (P : Program) (fuel : nat) (target : N) (s : State) : State :=
  match fuel with
  | O => s
  | S fuel' =>
      match timers s with
      | t :: rest =>
          if (deadline t <=? target)%N
          then advance_loop P fuel' target (fire_next P t rest s)
          else s
      | [] => s
      end
  end.

(** The clock moves to [target]; the timers due by then fire in order. *)
Definition advance (P : Program) (target : N) (s : State) : State :=
  let s' := advance_loop P (weight (timers s)) target s in
  set_clock (N.max (clock s') target) s'.

(** The event loop runs until no timer is pending. *)
Fixpoint drain_loop (P : Program) (fuel : nat) (s : State) : State :=
  match fuel with
  | O => s
  | S fuel' =>
      match timers s with
      | t :: rest => drain_loop P fuel' (fire_next P t rest s)
      | [] => s
      end
  end.

Definition drain (P : Program) (s : State) : State :=
  drain_loop P (weight (timers s)) s.

Definition step (P : Program) (id : nat) (s : State) (e : Event) : State :=
  match e with
  | Wait ms => advance P (clock s + ms)%N s
  | Decoder d => update_element id (set_decoder d) s
  | Fire ev => dispatch P id ev s
  end.

Definition run (P : Program) (id : nat) (script : list Event) (s : State) : State :=
  fold_left (step P id) script s.

End Dom.

Import Dom.

(** ** Chapters *)

(** [{ title, startTime }], and after thumbnail generation
    [{ ...chapter, thumbnailUrl }] ([None] is [null]). *)
Record ChapterDefinition : Type := mkChapterDefinition {
  title : string;
  startTime : Q
}.

Record Chapter : Type := mkChapter {
  definition : ChapterDefinition;
  thumbnailUrl : option string
}.

Module Thumbnails.

(** What the listeners and timer callbacks of one capture share: the
    element they work on ([thumbVideo], resp. [video]), the time to seek to
    ([seekTime], resp. [timeSeconds]), the handle of the overall timeout and
    the size of the canvas. *)
Record Closure : Type := mkClosure {
  thumbVideo : nat;
  seekTime : num;
  timeoutId : option nat;
  width : nat;
  height : nat
}.

(** [Math.min(Math.max(0, t), duration - 0.1)], with the difference of
    the rationals. *)
Definition clamp (t duration : num) : num :=
  Math_min (Math_max (Num 0) t) (sub duration (Num 0.1)).

(** The bound [duration - 0.1] as the machine computes it: [0.1] is the
    double nearest to a tenth, and the difference is rounded. *)
Definition clampBound64 (duration : Q) : Q := sub64 duration (round64 0.1).

(** [t === 0 && duration > 0.1 ? 0.1 : t] *)
Definition nudge (t duration : num) : num :=
  if strictEq t (Num 0) && gt duration (Num 0.1) then Num 0.1 else t.

(** The message of whatever [drawImage] or [toDataURL] throws. *)
Definition draw_error : string := "The frame could not be drawn or encoded".

(** *** [captureVideoFrameFromElement] *)

Module FromElement.

(** [cleanup]. A timer handle counts as set when it is not 0. *)
Definition cleanup (c : Closure) (s : State) : State :=
  let s := match timeoutId c with
           | Some id => if (id =? 0)%nat then s else clearTimeout id s
           | None => s
           end in
  let s := removeEventListener (thumbVideo c) ev_seeked onSeeked s in
  let s := removeEventListener (thumbVideo c) ev_error onError s in
  let s := removeEventListener (thumbVideo c) ev_loadedmetadata onLoadedMetadata s in
  let s := removeEventListener (thumbVideo c) ev_canplay onCanPlay s in
  let s := setSrc (thumbVideo c) "" s in
  load (thumbVideo c) s.

(** [resolved = true; cleanup(); resolve(...)] or [...; reject(...)] *)
Definition finish (c : Closure) (o : Outcome) (s : State) : State :=
  settle o (cleanup c (set_resolved true s)).

(** The [try] block around the draw, with its [catch]. *)
Definition drawAndFinish (c : Closure) (s : State) : State :=
  let '(s1, r) := drawFrame (thumbVideo c) (width c) (height c) s in
  match r with
  | Some dataUrl => finish c (Resolved dataUrl) s1
  | None => if resolved s1 then s1 else finish c (Rejected draw_error) s1
  end.

(** [captureFrame] *)
Definition captureFrame (c : Closure) (s : State) : State :=
  if resolved s then s
  else if (2 <=? readyState (element (thumbVideo c) s))%nat
       then drawAndFinish c s
       else snd (setTimeout cbRetryCapture 200 s).

(** The callback of the 200 ms timer inside [captureFrame]. *)
Definition retryCapture (c : Closure) (s : State) : State :=
  if negb (resolved s) && (2 <=? readyState (element (thumbVideo c) s))%nat
  then drawAndFinish c s
  else if negb (resolved s)
       then finish c (Rejected "Video not ready for frame capture") s
       else s.

(** The seek that [onLoadedMetadata]'s timer and [onCanPlay] both make. *)
Definition seekThumb (c : Closure) (s : State) : State :=
  let d := duration (element (thumbVideo c) s) in
  let actualSeekTime := clamp (seekTime c) d in
  let finalSeekTime := nudge actualSeekTime d in
  setCurrentTime (thumbVideo c) finalSeekTime s.

(** The callback of the 100 ms timer of [onLoadedMetadata]. *)
Definition seekAfterMetadata (c : Closure) (s : State) : State :=
  if negb (resolved s) && (1 <=? readyState (element (thumbVideo c) s))%nat
  then seekThumb c s
  else s.

(** [onLoadedMetadata] *)
Definition handleLoadedMetadata (c : Closure) (s : State) : State :=
  snd (setTimeout cbSeekAfterMetadata 100 s).

(** [onCanPlay] *)
Definition handleCanPlay (c : Closure) (s : State) : State :=
  if negb (resolved s)
     && Qeq_bool (currentTime (element (thumbVideo c) s)) 0
     && gt (seekTime c) (Num 0)
  then seekThumb c s
  else s.

(** [onSeeked] *)
Definition handleSeeked (c : Closure) (s : State) : State :=
  if resolved s then s
  else snd (setTimeout cbCaptureAfterSeeked 50 s).

(** The callback of the 50 ms timer of [onSeeked]. *)
Definition captureAfterSeeked (c : Closure) (s : State) : State :=
  if negb (resolved s) then captureFrame c s else s.

(** The message is built after [cleanup()], which has reset the element. *)
Definition errorMessage (c : Closure) (s : State) : string :=
  let errorMsg := match error (element (thumbVideo c) s) with
                  | Some code => ("Code " ++ show_nat code)%string
                  | None => "Unknown error"%string
                  end in
  ("Failed to load video for thumbnail: " ++ errorMsg
    ++ ". CORS may not be enabled on the video server.")%string.

(** [onError] *)
Definition handleError (c : Closure) (s : State) : State :=
  if negb (resolved s)
  then let s1 := cleanup c (set_resolved true s) in
       settle (Rejected (errorMessage c s1)) s1
  else s.

(** The callback of the 10 s timer. *)
Definition timeout (c : Closure) (s : State) : State :=
  if negb (resolved s)
  then finish c (Rejected "Timeout while capturing video frame") s
  else s.

(** Which function a listener or a timer of this capture runs. *)
Definition program (c : Closure) : Program :=
  {| invoke := fun h =>
       match h with
       | onLoadedMetadata => handleLoadedMetadata c
       | onCanPlay => handleCanPlay c
       | onSeeked => handleSeeked c
       | onError => handleError c
       | _ => fun s => s
       end;
     fire := fun cb =>
       match cb with
       | cbTimeout => timeout c
       | cbSeekAfterMetadata => seekAfterMetadata c
       | cbCaptureAfterSeeked => captureAfterSeeked c
       | cbRetryCapture => retryCapture c
       | cbResume => fun s => s
       end |}.

(** The body of the promise executor, up to [thumbVideo.load()]. *)
Definition start (videoElement : nat) (timeSeconds : Q) (w h : nat) (s : State)
    : State * option Closure :=
  let s := set_settled None (set_resolved false s) in
  match dom s !! videoElement with
  | None => (settle (Rejected "Invalid video element provided") s, None)
  | Some v =>
      let videoUrl := or_string (src v) (currentSrc v) in
      let '(thumb, s) := createElement s in
      let s := if String.prefix "http://" videoUrl || String.prefix "https://" videoUrl
               then update_element thumb (set_crossOrigin (Some "anonymous"%string)) s
               else s in
      let s := update_element thumb (set_preload "auto") s in
      let s := update_element thumb (set_muted true) s in
      let s := update_element thumb (set_playsInline true) s in
      let duration := or_zero (duration v) in
      let seekTime := clamp (Num timeSeconds) duration in
      let seekTime := nudge seekTime duration in
      let '(timeoutId, s) := setTimeout cbTimeout 10000 s in
      let s := addEventListener thumb ev_loadedmetadata onLoadedMetadata false s in
      let s := addEventListener thumb ev_canplay onCanPlay false s in
      let s := addEventListener thumb ev_seeked onSeeked true s in
      let s := addEventListener thumb ev_error onError true s in
      let s := setSrc thumb videoUrl s in
      let s := load thumb s in
      (s, Some (mkClosure thumb seekTime (Some timeoutId) w h))
  end.

End FromElement.

(** The capture, with what the decoder of the internal element does while
    it is in flight; the event loop then runs until no timer is left. The
    promise's state is [settled] of the result. *)
Definition captureVideoFrameFromElement (videoElement : nat) (timeSeconds : Q)
    (width height : nat) (script : list Event) (s : State) : State :=
  match FromElement.start videoElement timeSeconds width height s with
  | (s1, None) => s1
  | (s1, Some c) =>
      drain (FromElement.program c)
        (run (FromElement.program c) (thumbVideo c) script s1)
  end.

(** *** [captureVideoFrame] *)

Definition getVideoErrorText (code : nat) : string :=
  match code with
  | 1 => "MEDIA_ERR_ABORTED"
  | 2 => "MEDIA_ERR_NETWORK"
  | 3 => "MEDIA_ERR_DECODE"
  | 4 => "MEDIA_ERR_SRC_NOT_SUPPORTED"
  | _ => "Unknown error"
  end.

Module FromUrl.

(** [cleanup]. Here [thumbVideo c] is [video] and [seekTime c] is
    [timeSeconds]; the handle of the timeout is not used. *)
Definition cleanup (c : Closure) (s : State) : State :=
  let s := setSrc (thumbVideo c) "" s in
  let s := load (thumbVideo c) s in
  let s := removeEventListener (thumbVideo c) ev_loadedmetadata onLoadedMetadata s in
  let s := removeEventListener (thumbVideo c) ev_seeked onSeeked s in
  let s := removeEventListener (thumbVideo c) ev_error onError s in
  removeEventListener (thumbVideo c) ev_canplay onCanPlay s.

Definition finish (c : Closure) (o : Outcome) (s : State) : State :=
  settle o (cleanup c (set_resolved true s)).

(** The seek that [onLoadedMetadata] and [onCanPlay] both make. *)
Definition seekVideo (c : Closure) (s : State) : State :=
  let seekTime := clamp (seekTime c) (duration (element (thumbVideo c) s)) in
  setCurrentTime (thumbVideo c) seekTime s.

(** [onLoadedMetadata] *)
Definition handleLoadedMetadata (c : Closure) (s : State) : State :=
  seekVideo c s.

(** [onCanPlay] *)
Definition handleCanPlay (c : Closure) (s : State) : State :=
  if (2 <=? readyState (element (thumbVideo c) s))%nat then seekVideo c s else s.

(** [onSeeked] *)
Definition handleSeeked (c : Closure) (s : State) : State :=
  if resolved s then s
  else if (2 <=? readyState (element (thumbVideo c) s))%nat
       then let '(s1, r) := drawFrame (thumbVideo c) (width c) (height c) s in
            match r with
            | Some dataUrl => finish c (Resolved dataUrl) s1
            | None => if resolved s1 then s1 else finish c (Rejected draw_error) s1
            end
       else snd (setTimeout cbRetryCapture 200 s).

(** The 200 ms timer of [onSeeked]; an exception of the draw is not caught
    here and only ends the callback. *)
Definition retryCapture (c : Closure) (s : State) : State :=
  if negb (resolved s) && (2 <=? readyState (element (thumbVideo c) s))%nat
  then let '(s1, r) := drawFrame (thumbVideo c) (width c) (height c) s in
       match r with
       | Some dataUrl => finish c (Resolved dataUrl) s1
       | None => s1
       end
  else s.

Definition errorMessage (c : Closure) (s : State) : string :=
  let errorMsg := match error (element (thumbVideo c) s) with
                  | Some code =>
                      ("Code " ++ show_nat code ++ ": " ++ getVideoErrorText code)%string
                  | None => "Unknown error"%string
                  end in
  ("Failed to load video: " ++ errorMsg)%string.

(** [onError] *)
Definition handleError (c : Closure) (s : State) : State :=
  if negb (resolved s)
  then let s1 := cleanup c (set_resolved true s) in
       settle (Rejected (errorMessage c s1)) s1
  else s.

(** The callback of the 15 s timer. *)
Definition timeout (c : Closure) (s : State) : State :=
  if negb (resolved s)
  then finish c (Rejected "Timeout while capturing video frame") s
  else s.

Definition program (c : Closure) : Program :=
  {| invoke := fun h =>
       match h with
       | onLoadedMetadata => handleLoadedMetadata c
       | onCanPlay => handleCanPlay c
       | onSeeked => handleSeeked c
       | onError => handleError c
       | _ => fun s => s
       end;
     fire := fun cb =>
       match cb with
       | cbTimeout => timeout c
       | cbRetryCapture => retryCapture c
       | _ => fun s => s
       end |}.

(** The body of the promise executor, up to [video.load()]. *)
Definition start (videoUrl : string) (timeSeconds : Q) (w h : nat) (s : State)
    : State * Closure :=
  let s := set_settled None (set_resolved false s) in
  let '(video, s) := createElement s in
  let s := update_element video (set_crossOrigin (Some "anonymous"%string)) s in
  let s := update_element video (set_preload "auto") s in
  let s := update_element video (set_muted true) s in
  let s := update_element video (set_playsInline true) s in
  let '(timeout, s) := setTimeout cbTimeout 15000 s in
  let s := addEventListener video ev_loadedmetadata onLoadedMetadata false s in
  let s := addEventListener video ev_canplay onCanPlay false s in
  let s := addEventListener video ev_seeked onSeeked false s in
  let s := addEventListener video ev_error onError false s in
  let s := setSrc video videoUrl s in
  let s := load video s in
  (s, mkClosure video (Num timeSeconds) (Some timeout) w h).

End FromUrl.

(** The capture from a URL, in the same way. *)
Definition captureVideoFrame (videoUrl : string) (timeSeconds : Q)
    (width height : nat) (script : list Event) (s : State) : State :=
  let '(s1, c) := FromUrl.start videoUrl timeSeconds width height s in
  drain (FromUrl.program c) (run (FromUrl.program c) (thumbVideo c) script s1).

(** *** The two batch functions *)

(** What the platform decides during a batch: whether the supplied element
    ever signals [canplay], whether the final [play()] is allowed, and what
    the decoder of the [i]-th capture does. *)
Record BatchEnv : Type := mkBatchEnv {
  canplayFires : bool;
  playAllowed : bool;
  scripts : nat -> list Event
}.

Definition generating (i n : nat) (chapter : ChapterDefinition) : string :=
  ("Generating thumbnail " ++ show_nat (i + 1) ++ "/" ++ show_nat n
     ++ " for " ++ title chapter)%string.

(** The [for] loop of [generateChapterThumbnailsFromElement] from index [i]
    on; [todo] are the chapters not yet visited and [n] is
    [chapters.length]. A capture promise that never settled would leave the
    loop suspended on its [await]. The loop goes on from the state in
    which the event loop has run dry, which is later than the moment at
    which the awaited promise settles: timers of the capture that have
    fired here may still be pending there, and the clock is behind. The
    elements and the records are the same, every such timer finding its
    capture settled. *)
Fixpoint elementLoop (videoElement w h : nat) (env : BatchEnv) (n i : nat)
    (todo : list ChapterDefinition) (chaptersWithThumbnails : list Chapter)
    (s : State) : Completion (State * list Chapter) :=
  match todo with
  | [] => Returned (s, chaptersWithThumbnails)
  | chapter :: todo' =>
      let s := emit (ConsoleLog (generating i n chapter)) s in
      let s := if (0 <? i)%nat then sleep 300 s else s in
      let s := captureVideoFrameFromElement videoElement (startTime chapter) w h
                 (scripts env i) s in
      match settled s with
      | Some (Resolved thumbnailUrl) =>
          elementLoop videoElement w h env n (S i) todo'
            (chaptersWithThumbnails ++ [mkChapter chapter (Some thumbnailUrl)])
            (emit (ConsoleLog ("Thumbnail generated for " ++ title chapter)) s)
      | Some (Rejected error) =>
          elementLoop videoElement w h env n (S i) todo'
            (chaptersWithThumbnails ++ [mkChapter chapter None])
            (emit (ConsoleError ("Failed to generate thumbnail for chapter "
                                   ++ title chapter ++ ": " ++ error)) s)
      | None => Pending
      end
  end.

Definition generateChapterThumbnailsFromElement (videoElement : nat)
    (chapters : list ChapterDefinition) (width height : nat) (env : BatchEnv)
    (s : State) : Completion (State * list Chapter) :=
  match dom s !! videoElement with
  | None => Threw "TypeError: cannot read properties of null (reading 'paused')"
  | Some v =>
      let wasPlaying := negb (paused v) in
      let s := if wasPlaying then pause videoElement s else s in
      let ready :=
        if (readyState (element videoElement s) <? 2)%nat
        then
          let s := addEventListener videoElement ev_canplay onCanPlayReady false s in
          if canplayFires env
          then Returned (removeEventListener videoElement ev_canplay onCanPlayReady s)
          else Pending
        else Returned s in
      match ready with
      | Returned s =>
          match elementLoop videoElement width height env (length chapters) 0
                  chapters [] s with
          | Returned (s, chaptersWithThumbnails) =>
              let s := setCurrentTime videoElement (Num 0) s in
              let s := if wasPlaying then play videoElement (playAllowed env) s else s in
              Returned (s, chaptersWithThumbnails)
          | Threw e => Threw e
          | Pending => Pending
          end
      | Threw e => Threw e
      | Pending => Pending
      end
  end.

(** The [for] loop of [generateChapterThumbnails]; it goes on from the
    state in which the event loop has run dry, as [elementLoop] does. *)
Fixpoint urlLoop (videoUrl : string) (w h : nat) (env : BatchEnv) (n i : nat)
    (todo : list ChapterDefinition) (chaptersWithThumbnails : list Chapter)
    (s : State) : Completion (State * list Chapter) :=
  match todo with
  | [] => Returned (s, chaptersWithThumbnails)
  | chapter :: todo' =>
      let s := emit (ConsoleLog (generating i n chapter)) s in
      let s := captureVideoFrame videoUrl (startTime chapter) w h (scripts env i) s in
      let pace := fun s : State => if (i <? n - 1)%nat then sleep 200 s else s in
      match settled s with
      | Some (Resolved thumbnailUrl) =>
          urlLoop videoUrl w h env n (S i) todo'
            (chaptersWithThumbnails ++ [mkChapter chapter (Some thumbnailUrl)])
            (pace (emit (ConsoleLog ("Thumbnail generated for " ++ title chapter)) s))
      | Some (Rejected error) =>
          urlLoop videoUrl w h env n (S i) todo'
            (chaptersWithThumbnails ++ [mkChapter chapter None])
            (pace (emit (ConsoleError ("Failed to generate thumbnail for chapter "
                                         ++ title chapter ++ ": " ++ error)) s))
      | None => Pending
      end
  end.

Definition generateChapterThumbnails (videoUrl : string)
    (chapters : list ChapterDefinition) (width height : nat) (env : BatchEnv)
    (s : State) : Completion (State * list Chapter) :=
  urlLoop videoUrl width height env (length chapters) 0 chapters [] s.

(** [generateEqualChapters(duration, numChapters, baseTitle)].
    [loop n i chapters] is the [for] loop with [n = numChapters - i]
    iterations left. The division and the products are those of doubles;
    the count and the counter are whole numbers, which are doubles up to
    [2^53]. *)
Section GenerateEqualChapters.
Variable duration : Q.
Variable numChapters : nat.
Variable baseTitle : string.

Definition segmentDuration : Q := div64 duration (inject_Z (Z.of_nat numChapters)).

Fixpoint loop (n i : nat) (chapters : list ChapterDefinition) : list ChapterDefinition :=
    match n with
    | O => chapters
    | S n' =>
        loop n' (S i)
          (chapters ++
           [ {| title := baseTitle ++ " " ++ show_nat (i + 1);
                startTime := mul64 (inject_Z (Z.of_nat i)) segmentDuration |} ])
    end.

Definition generateEqualChapters : list ChapterDefinition :=
    loop numChapters 0 [].
End GenerateEqualChapters.

End Thumbnails.

(** ** The root component of the test application *)

Module App.

(** The refs of the component that chapter tracking and navigation use.
    [playerRefPlayer] says whether [playerRef.value.player] is there,
    [playerInstance] whether [playerInstance.value] is; [videoPlayerRef] is
    the handle of the [<video>] element, once mounted. *)
Record Component : Type := mkComponent {
  useVimeo : bool;
  playerRefPlayer : bool;
  playerInstance : bool;
  videoPlayerRef : option nat;
  chapters : list Chapter;
  currentChapterIndex : Z
}.

Definition set_currentChapterIndex (x : Z) (st : Component) : Component :=
  mkComponent (useVimeo st) (playerRefPlayer st) (playerInstance st)
    (videoPlayerRef st) (chapters st) x.

Definition startOf (ch : Chapter) : Q := startTime (definition ch).

(** The callback given to [findIndex] in [onVideoTimeUpdate]. *)
Definition inChapter (chapters : list Chapter) (currentTime : Q)
    (chapter : Chapter) (idx : nat) : bool :=
  let nextChapter := chapters !! (idx + 1)%nat in
  Qle_bool (startOf chapter) currentTime
  && match nextChapter with
     | None => true
     | Some next => Qlt_bool currentTime (startOf next)
     end.

(** The index that [onVideoTimeUpdate] computes. *)
Definition trackerIndex (chapters : list Chapter) (currentTime : Q) : Z :=
  findIndex (inChapter chapters currentTime) chapters.

(** The assignment to [currentChapterIndex.value] that one time update
    makes, if it makes one. *)
Definition timeUpdateAssignment (st : Component) (s : State) : option Z :=
  match videoPlayerRef st with
  | None => None
  | Some video =>
      let currentTime := currentTime (element video s) in
      let index := trackerIndex (chapters st) currentTime in
      if negb (index =? -1)%Z && negb (currentChapterIndex st =? index)%Z
      then Some index
      else None
  end.

Definition onVideoTimeUpdate (st : Component) (s : State) : Component :=
  match timeUpdateAssignment st s with
  | Some index => set_currentChapterIndex index st
  | None => st
  end.

(** [chapters.value.findIndex(ch => ch.startTime === chapter.startTime)] and
    the guarded assignment that follows it. *)
Definition selectChapter (chapter : Chapter) (st : Component) : Component :=
  let index := findIndex (fun ch _ => Qeq_bool (startOf ch) (startOf chapter))
                 (chapters st) in
  if negb (index =? -1)%Z then set_currentChapterIndex index st else st.

(** How a call of [video.play()] ends. *)
Inductive PlayResult : Type :=
  | PlayResolves
  | PlayRejects
  | PlayReturnsUndefined.

(** What the platform decides during one chapter navigation. *)
Record NavEnv : Type := mkNavEnv {
  seekedFires : bool;          (* within the 500 ms of the wait *)
  firstPlay : PlayResult;
  secondPlay : PlayResult;
  playerSeekOk : bool;         (* the embedded player's promises *)
  playerPlayOk : bool
}.

Definition playWith (video : nat) (r : PlayResult) (s : State) : State :=
  play video (match r with PlayRejects => false | _ => true end) s.

(** The wait for [seeked], with its 500 ms fallback. When the event comes
    first the fallback timer is still pending afterwards. *)
Definition awaitSeeked (video : nat) (env : NavEnv) (s : State) : State :=
  let s := addEventListener video ev_seeked onSeekedResume true s in
  let '(id, s) := setTimeout cbResume 500 s in
  if seekedFires env
  then
    let s := update_element video (drop_listener ev_seeked onSeekedResume) s in
    removeEventListener video ev_seeked onSeekedResume s
  else
    let s := set_clock (clock s + 500)%N
               (set_timers (List.filter (fun t => negb (timer_id t =? id)%nat) (timers s)) s) in
    removeEventListener video ev_seeked onSeekedResume s.

(** The branch of [goToChapter] for the HTML5 [<video>] element. *)
Definition goToChapterVideo (chapter : Chapter) (env : NavEnv) (st : Component)
    (s : State) : Completion (Component * State) :=
  match videoPlayerRef st with
  | None => Returned (st, emit (ConsoleError "Video player not available") s)
  | Some video =>
      (* try *)
      let s := emit (ConsoleLog ("Seeking to chapter: " ++ title (definition chapter))) s in
      let s := setCurrentTime video (Num (startOf chapter)) s in
      let s := awaitSeeked video env s in
      let s := playWith video (firstPlay env) s in
      match firstPlay env with
      | PlayRejects =>
          (* catch (playError) *)
          let s := emit (ConsoleWarn "Autoplay was blocked") s in
          let s := playWith video (secondPlay env) s in
          match secondPlay env with
          | PlayReturnsUndefined =>
              (* [undefined.catch] throws; the outer [catch] takes it *)
              Returned (st, emit (ConsoleError "Error seeking to chapter") s)
          | PlayRejects =>
              Returned (selectChapter chapter st, emit (ConsoleWarn "Video play failed") s)
          | PlayResolves =>
              Returned (selectChapter chapter st, s)
          end
      | _ => Returned (selectChapter chapter st, s)
      end
  end.

(** The branch of [goToChapter] for the embedded player. *)
Definition goToChapterPlayer (chapter : Chapter) (env : NavEnv) (st : Component)
    (s : State) : Completion (Component * State) :=
  let s := if playerRefPlayer st then s
           else emit (ConsoleError "Player instance not available via ref") s in
  if negb (playerRefPlayer st) && negb (playerInstance st)
  then Returned (st, emit (ConsoleError "Player instance not available at all") s)
  else
    (* try *)
    let s := emit (ConsoleLog ("Seeking to chapter: " ++ title (definition chapter))) s in
    let s := emit (PlayerSetCurrentTime (startOf chapter)) s in
    if playerSeekOk env
    then
      let s := emit PlayerPlay s in
      if playerPlayOk env
      then Returned (selectChapter chapter st, s)
      else Returned (st, emit (ConsoleError "Error seeking to chapter") s)
    else Returned (st, emit (ConsoleError "Error seeking to chapter") s).

Definition goToChapter (chapter : Chapter) (env : NavEnv) (st : Component)
    (s : State) : Completion (Component * State) :=
  if useVimeo st
  then goToChapterPlayer chapter env st s
  else goToChapterVideo chapter env st s.

End App.

(** ** Numbers as text *)

Module Text.

(** [Math.floor(x)] *)
Definition Math_floor (x : Q) : Z := Qfloor x.

(** [a % b]: the quotient is truncated towards zero, so the remainder has
    the sign of the dividend. *)
Definition trunc (x : Q) : Z := if Qle_bool 0 x then Qfloor x else Qceiling x.

Definition remainder (a b : Q) : Q := a - b * inject_Z (trunc (a / b)).

(** [n.toString()] for an integer. *)
Definition show_int (n : Z) : string := NilZero.string_of_int (Z.to_int n).

(** [s.padStart(targetLength, '0')] *)
Fixpoint zeros (n : nat) : string :=
  match n with
  | O => EmptyString
  | S n' => String "0"%char (zeros n')
  end.

Definition padStart (targetLength : nat) (s : string) : string :=
  (zeros (targetLength - String.length s) ++ s)%string.

(** [a || b] where [a] is a string, [null] or [undefined]: the empty
    string is falsy too. *)
Definition or_else (a : option string) (b : string) : string :=
  match a with
  | Some (String c a') => String c a'
  | _ => b
  end.

End Text.


(** ** [getVideoDuration] *)

Module Metadata.

(** The promise of [getVideoDuration] resolves with a number. *)
Inductive Settlement : Type :=
  | Fulfilled (duration : num)
  | Broken (msg : string).

(** The platform and the promise of one call. *)
Record Run : Type := mkRun {
  platform : State;
  promise : option Settlement
}.

Definition on (f : State -> State) (r : Run) : Run :=
  mkRun (f (platform r)) (promise r).

(** [resolve(x)] and [reject(e)]: only the first call settles the promise. *)
Definition settleWith (o : Settlement) (r : Run) : Run :=
  match promise r with
  | None => mkRun (platform r) (Some o)
  | Some _ => r
  end.

(** The listener for [loadedmetadata]. *)
Definition handleLoadedMetadata (video : nat) (r : Run) : Run :=
  let duration := duration (element video (platform r)) in
  let r := on (setSrc video "") r in
  let r := on (load video) r in
  settleWith (Fulfilled duration) r.

(** The listener for [error]; [message] is [e.message], empty when the
    event has none. *)
Definition handleError (message : string) (r : Run) : Run :=
  settleWith (Broken ("Failed to load video: " ++ or_string message "Unknown error")) r.

(** The callback of the 10 s timer. *)
Definition timeout (r : Run) : Run :=
  settleWith (Broken "Timeout while loading video metadata") r.

(** The two listeners are anonymous functions; they are registered under
    the names of the events that they listen to. *)
Definition invoke (video : nat) (message : string) (h : Handler) (r : Run) : Run :=
  match h with
  | onLoadedMetadata => handleLoadedMetadata video r
  | onError => handleError message r
  | _ => r
  end.

Definition fire (cb : Callback) (r : Run) : Run :=
  match cb with
  | cbTimeout => timeout r
  | _ => r
  end.

(** The event loop of [Dom], on a [Run]. *)
Definition deliver (video : nat) (message : string) (r : Run) (l : Listener) : Run :=
  if registered l (element video (platform r)) then
    let r1 := if l_once l
              then on (update_element video (drop_listener (l_type l) (l_handler l))) r
              else r in
    invoke video message (l_handler l) r1
  else r.

Definition dispatch (video : nat) (message : string) (ev : EventType) (r : Run) : Run :=
  fold_left (deliver video message)
    (List.filter (same_type ev) (listeners (element video (platform r)))) r.

Definition fire_next (t : Timer) (rest : list Timer) (r : Run) : Run :=
  fire (callback t)
    (on (fun s => set_clock (N.max (clock s) (deadline t)) (set_timers rest s)) r).

(** No callback starts a timer, so the pending ones bound the firings. *)
Fixpoint advance_loop (fuel : nat) (target : N) (r : Run) : Run :=
  match fuel with
  | O => r
  | S fuel' =>
      match timers (platform r) with
      | t :: rest =>
          if (deadline t <=? target)%N
          then advance_loop fuel' target (fire_next t rest r)
          else r
      | [] => r
      end
  end.

Definition advance (target : N) (r : Run) : Run :=
  let r' := advance_loop (length (timers (platform r))) target r in
  on (fun s => set_clock (N.max (clock s) target) s) r'.

Fixpoint drain_loop (fuel : nat) (r : Run) : Run :=
  match fuel with
  | O => r
  | S fuel' =>
      match timers (platform r) with
      | t :: rest => drain_loop fuel' (fire_next t rest r)
      | [] => r
      end
  end.

Definition drain (r : Run) : Run := drain_loop (length (timers (platform r))) r.

Definition step (video : nat) (message : string) (r : Run) (e : Event) : Run :=
  match e with
  | Wait ms => advance (clock (platform r) + ms)%N r
  | Decoder d => on (update_element video (set_decoder d)) r
  | Fire ev => dispatch video message ev r
  end.

(** The body of the promise executor. *)
Definition start (videoUrl : string) (s : State) : nat * Run :=
  let '(video, s) := createElement s in
  let s := update_element video (set_preload "metadata") s in
  let s := update_element video (set_muted true) s in
  let s := addEventListener video ev_loadedmetadata onLoadedMetadata false s in
  let s := addEventListener video ev_error onError false s in
  let s := snd (setTimeout cbTimeout 10000 s) in
  let s := setSrc video videoUrl s in
  (video, mkRun s None).

(** The call while the decoder does [script]. *)
Definition inFlight (videoUrl message : string) (script : list Event) (s : State) : Run :=
  let '(video, r) := start videoUrl s in
  fold_left (step video message) script r.

End Metadata.

(** [getVideoDuration(videoUrl)], with what the decoder of its element does
    while the call is in flight; the event loop then runs until no timer
    is left. *)
Definition getVideoDuration (videoUrl message : string) (script : list Event)
    (s : State) : Metadata.Run :=
  Metadata.drain (Metadata.inFlight videoUrl message script s).

(** ** The rest of the root component *)

Module Page.
Import Text.

(** An entry of [chapters.value]. The chapters of the embedded player carry
    a [fallbackThumbnail]; on those of the HTML5 element that property is
    undefined ([None]). *)
Record ListedChapter : Type := mkListedChapter {
  shown : Chapter;
  fallbackThumbnail : option string
}.

(** The refs of the component. [playerRefPlayer] says whether
    [playerRef.value.player] is there, [playerInstance] whether
    [playerInstance.value] is. *)
Record Refs : Type := mkRefs {
  useVimeo : bool;
  id : string;
  videoUrl : string;
  playerRefPlayer : bool;
  videoPlayerRef : option nat;
  playerInstance : bool;
  playerReady : bool;
  chapters : list ListedChapter;
  loadingChapters : bool;
  currentChapterIndex : Z;
  videoDuration : num
}.

(** The refs as the script sets them up. *)
Definition setup : Refs :=
  mkRefs false "758682785" "/test-video.mp4" false None false false [] false (-1) (Num 0).

Definition set_playerInstance (x : bool) (r : Refs) : Refs :=
  mkRefs (useVimeo r) (id r) (videoUrl r) (playerRefPlayer r) (videoPlayerRef r)
    x (playerReady r) (chapters r) (loadingChapters r) (currentChapterIndex r)
    (videoDuration r).
Definition set_playerReady (x : bool) (r : Refs) : Refs :=
  mkRefs (useVimeo r) (id r) (videoUrl r) (playerRefPlayer r) (videoPlayerRef r)
    (playerInstance r) x (chapters r) (loadingChapters r) (currentChapterIndex r)
    (videoDuration r).
Definition set_chapters (x : list ListedChapter) (r : Refs) : Refs :=
  mkRefs (useVimeo r) (id r) (videoUrl r) (playerRefPlayer r) (videoPlayerRef r)
    (playerInstance r) (playerReady r) x (loadingChapters r) (currentChapterIndex r)
    (videoDuration r).
Definition set_loadingChapters (x : bool) (r : Refs) : Refs :=
  mkRefs (useVimeo r) (id r) (videoUrl r) (playerRefPlayer r) (videoPlayerRef r)
    (playerInstance r) (playerReady r) (chapters r) x (currentChapterIndex r)
    (videoDuration r).
Definition set_currentChapterIndex (x : Z) (r : Refs) : Refs :=
  mkRefs (useVimeo r) (id r) (videoUrl r) (playerRefPlayer r) (videoPlayerRef r)
    (playerInstance r) (playerReady r) (chapters r) (loadingChapters r) x
    (videoDuration r).
Definition set_videoDuration (x : num) (r : Refs) : Refs :=
  mkRefs (useVimeo r) (id r) (videoUrl r) (playerRefPlayer r) (videoPlayerRef r)
    (playerInstance r) (playerReady r) (chapters r) (loadingChapters r)
    (currentChapterIndex r) x.

(** What chapter tracking and chapter navigation see of the refs. *)
Definition component (r : Refs) : App.Component :=
  App.mkComponent (useVimeo r) (playerRefPlayer r) (playerInstance r)
    (videoPlayerRef r) (map shown (chapters r)) (currentChapterIndex r).

(** *** [formatTime] *)

(** With the quotient of the rationals. *)
Definition formatTime (seconds : Q) : string :=
  let mins := Math_floor (seconds / 60) in
  let secs := Math_floor (remainder seconds 60) in
  (show_int mins ++ ":" ++ padStart 2 (show_int secs))%string.

(** With the quotient of doubles, as the script computes it. [%] and
    [Math.floor] are exact on doubles, and a whole number below [2^53]
    prints with all its digits. *)
Definition formatTime64 (seconds : Q) : string :=
  let mins := Math_floor (div64 seconds 60) in
  let secs := Math_floor (remainder seconds 60) in
  (show_int mins ++ ":" ++ padStart 2 (show_int secs))%string.

(** *** [handleThumbnailError] *)

Definition vumbnail (id : string) : string :=
  ("https://vumbnail.com/" ++ id ++ ".jpg")%string.

Definition set_thumbnailUrl (x : option string) (chapter : ListedChapter)
    : ListedChapter :=
  mkListedChapter (mkChapter (definition (shown chapter)) x) (fallbackThumbnail chapter).

(** The assignment that the handler makes to [chapter.thumbnailUrl]. *)
Definition retarget (id : string) (chapter : ListedChapter) : ListedChapter :=
  match fallbackThumbnail chapter with
  | Some (String c f) =>
      let fallback := String c f in
      if match thumbnailUrl (shown chapter) with
         | Some url => String.eqb url fallback
         | None => false
         end
      then set_thumbnailUrl (Some (vumbnail id)) chapter
      else set_thumbnailUrl (Some fallback) chapter
  | _ => set_thumbnailUrl (Some (vumbnail id)) chapter
  end.

(** [handleThumbnailError(chapter)], where [chapter] is the entry at
    index [i] of [chapters.value]: the handler changes that entry in
    place. *)
Definition handleThumbnailError (i : nat) (r : Refs) (s : State) : Refs * State :=
  match chapters r !! i with
  | Some chapter =>
      (set_chapters (alter (retarget (id r)) i (chapters r)) r,
       emit (ConsoleLog ("Thumbnail failed to load, using fallback: "
                           ++ title (definition (shown chapter)))) s)
  | None => (r, s)
  end.

(** *** [onChapterChange] *)

(** [data] is [None] when it is falsy and [Some None] when [data.chapter]
    is; otherwise it holds [data.chapter.startTime]. *)
Definition onChapterChange (data : option (option Q)) (r : Refs) : Refs :=
  match data with
  | Some (Some startTime) =>
      let index := findIndex (fun ch _ => Qeq_bool (App.startOf (shown ch)) startTime)
                     (chapters r) in
      if negb (index =? -1)%Z then set_currentChapterIndex index r else r
  | _ => r
  end.

(** *** [onPlayerReady] *)

(** A response of the REST API: [ok], [status], and how [json()] ends. *)
Record ApiResponse : Type := mkApiResponse {
  ok : bool;
  status : nat;
  json : Completion unit
}.

(** What the player and the network answer: the chapters of
    [player.getChapters()] ([None] is [null]), the [thumbnail_url] of the
    oEmbed document ([None] when it has none; [Threw] when the request or
    its [json()] fails) and the response of the REST API. *)
Record ReadyEnv : Type := mkReadyEnv {
  getChapters : Completion (option (list ChapterDefinition));
  oembed : Completion (option string);
  api : Completion ApiResponse
}.

Definition accessToken : string := "d61b2b0c6f20fdf476cb729ed70306df".

Definition oembedUrl (id : string) : string :=
  ("https://vimeo.com/api/oembed.json?url=https://vimeo.com/" ++ id)%string.

Definition apiUrl (id : string) : string :=
  ("https://api.vimeo.com/videos/" ++ id ++ "/chapters")%string.

(** The block that is guarded by the access token; [requests] are the
    URLs fetched so far. What it reads from the API is not used later. *)
Definition fetchApiChapters (id : string) (env : ReadyEnv) (s : State)
    (requests : list string) : Completion (State * list string) :=
  if negb (accessToken =? "")%string
     && negb (accessToken =? "d61b2b0c6f20fdf476cb729ed70306df")%string
  then
    let requests := requests ++ [apiUrl id] in
    let caught := fun s : State =>
      Returned (emit (ConsoleError "Could not fetch chapters from Vimeo API") s, requests) in
    match api env with
    | Pending => Pending
    | Threw _ => caught s
    | Returned apiResponse =>
        if ok apiResponse
        then match json apiResponse with
             | Pending => Pending
             | Threw _ => caught s
             | Returned _ =>
                 Returned (emit (ConsoleLog "Vimeo API chapters data") s, requests)
             end
        else match json apiResponse with
             | Pending => Pending
             | _ =>
                 let s := emit (ConsoleError ("Vimeo API error: "
                                                ++ show_nat (status apiResponse))) s in
                 let s := if (status apiResponse =? 401)%nat
                          then emit (ConsoleError
                                 "Authentication failed. Please check your access token is correct and has Public scope.") s
                          else s in
                 Returned (s, requests)
             end
    end
  else
    Returned (emit (ConsoleWarn
                "Vimeo access token not set. Replace YOUR_VIMEO_ACCESS_TOKEN_HERE with your actual token.") s,
              requests).

(** [{ ...chapter, thumbnailUrl, fallbackThumbnail }] *)
Definition withThumbnails (thumbnail : string) (chapter : ChapterDefinition)
    : ListedChapter :=
  mkListedChapter (mkChapter chapter (Some thumbnail)) (Some thumbnail).

(** [onPlayerReady(player)]; the result holds the URLs that were fetched. *)
Definition onPlayerReady (env : ReadyEnv) (r : Refs) (s : State)
    : Completion (Refs * State * list string) :=
  let r := set_loadingChapters true (set_playerReady true (set_playerInstance true r)) in
  let caught := fun (s : State) (requests : list string) =>
    Returned (set_loadingChapters false (set_chapters [] r),
              emit (ConsoleError "Error fetching chapters") s, requests) in
  match getChapters env with
  | Pending => Pending
  | Threw _ => caught s []
  | Returned chaptersData =>
      let s := emit (ConsoleLog "Raw chapters data from Player.js") s in
      let requests := [oembedUrl (id r)] in
      match oembed env with
      | Pending => Pending
      | answer =>
          let defaultThumbnail := match answer with
                                  | Returned thumbnail_url => thumbnail_url
                                  | _ => None
                                  end in
          let s := match answer with
                   | Returned _ => s
                   | _ => emit (ConsoleLog "Could not fetch thumbnail from oEmbed") s
                   end in
          match fetchApiChapters (id r) env s requests with
          | Pending => Pending
          | Threw _ => caught s requests
          | Returned (s, requests) =>
              let thumbnail := or_else defaultThumbnail (vumbnail (id r)) in
              let chaptersWithThumbnails :=
                map (withThumbnails thumbnail) (default [] chaptersData) in
              let r := set_chapters chaptersWithThumbnails r in
              Returned (set_loadingChapters false r,
                        emit (ConsoleLog "Chapters loaded with thumbnails") s, requests)
          end
      end
  end.

(** *** [onVideoLoaded] *)

(** What the platform decides while the chapters are loaded: what the
    element reports when it signals [canplay] ([None]: it never does), and
    the environment of the batch. *)
Record LoadEnv : Type := mkLoadEnv {
  canplay : option DecoderState;
  batch : Thumbnails.BatchEnv
}.

Definition numChapters : nat := 5.

Definition onVideoLoaded (env : LoadEnv) (r : Refs) (s : State)
    : Completion (Refs * State) :=
  match videoPlayerRef r with
  | None => Returned (r, s)
  | Some video =>
      let r := set_loadingChapters true (set_playerReady true r) in
      let caught := fun s : State =>
        Returned (set_loadingChapters false (set_chapters [] r),
                  emit (ConsoleError "Error generating chapters") s) in
      match duration (element video s) with
      | NaN => caught s
      | Num duration =>
          if Qeq_bool duration 0 then caught s
          else
            let r := set_videoDuration (Num duration) r in
            let ready :=
              if (readyState (element video s) <? 2)%nat
              then
                let s := addEventListener video ev_canplay (hostListener "onCanPlay")
                           false s in
                match canplay env with
                | Some d =>
                    Returned (removeEventListener video ev_canplay
                                (hostListener "onCanPlay")
                                (update_element video (set_decoder d) s))
                | None => Pending
                end
              else Returned s in
            match ready with
            | Returned s =>
                let chapterDefinitions :=
                  Thumbnails.generateEqualChapters duration numChapters "Chapter" in
                let s := emit (ConsoleLog "Video duration") s in
                let s := emit (ConsoleLog "Generating thumbnails for chapters") s in
                match Thumbnails.generateChapterThumbnailsFromElement video
                        chapterDefinitions 320 180 (batch env) s with
                | Returned (s, chaptersWithThumbnails) =>
                    let r := set_chapters
                               (map (fun c => mkListedChapter c None)
                                  chaptersWithThumbnails) r in
                    let s := emit (ConsoleLog "Chapters loaded with thumbnails") s in
                    let s := setCurrentTime video (Num 0) s in
                    Returned (set_loadingChapters false r, s)
                | Threw _ =>
                    Returned (set_loadingChapters false (set_chapters [] r),
                              emit (ConsoleError "Error generating chapters") s)
                | Pending => Pending
                end
            | Threw e => Threw e
            | Pending => Pending
            end
      end
  end.

End Page.

(* ================================================================== *)
(** * Part II: properties                                              *)
(* ================================================================== *)

Import Thumbnails.

#[local] Arguments String.append : simpl never.

(** ** Rounding to a double *)

Section Rounding.
#[local] Open Scope Q_scope.

(** ** Powers of two *)

Lemma pow2_pos (e : Z) : 0 < pow2 e.
Proof. apply Qpower_0_lt. reflexivity. Qed.

Lemma pow2_add (a b : Z) : pow2 (a + b) == pow2 a * pow2 b.
Proof. apply Qpower_plus. discriminate. Qed.

Lemma pow2_succ (e : Z) : pow2 (e + 1) == 2 * pow2 e.
Proof. rewrite pow2_add. unfold pow2 at 2. simpl. ring. Qed.

Lemma pow2_le (a b : Z) : (a <= b)%Z -> pow2 a <= pow2 b.
Proof. intros H. apply Qpower_le_compat_l; [assumption | discriminate]. Qed.

Lemma pow2_lt (a b : Z) : (a < b)%Z -> pow2 a < pow2 b.
Proof. intros H. apply Qpower_lt_compat_l; [assumption | reflexivity]. Qed.

Lemma pow2_lt_inv (a b : Z) : pow2 a < pow2 b -> (a < b)%Z.
Proof. intros H. apply (Qpower_lt_compat_l_inv 2); [assumption | reflexivity]. Qed.

Lemma pow2_Z (a : Z) : (0 <= a)%Z -> pow2 a == inject_Z (2 ^ a).
Proof. intros H. unfold pow2. now rewrite Zpower_Qpower. Qed.

Lemma pow2_sub (a b : Z) : pow2 (a - b) == pow2 a / pow2 b.
Proof. apply Qpower_minus. discriminate. Qed.

(** ** The leading bit *)

Lemma Qmake_decomp (q : Q) : q == inject_Z (Qnum q) / inject_Z (Z.pos (Qden q)).
Proof.
  destruct q as [n d]. unfold Qeq, Qdiv, Qmult, Qinv, inject_Z. simpl. lia.
Qed.

Lemma ilog2_rough (q : Q) :
  0 < q ->
  let k := (Z.log2 (Qnum q) - Z.log2 (Z.pos (Qden q)))%Z in
  pow2 (k - 1) < q /\ q < pow2 (k + 1).
Proof.
  intros Hq k.
  assert (Hn : (0 < Qnum q)%Z).
  { destruct q as [n d]. unfold Qlt in Hq. simpl in *. lia. }
  set (n := Qnum q) in *. set (d := Z.pos (Qden q)) in *.
  assert (Hd : (0 < d)%Z) by (unfold d; lia).
  destruct (Z.log2_spec n Hn) as [Hn1 Hn2].
  destruct (Z.log2_spec d Hd) as [Hd1 Hd2].
  set (a := Z.log2 n) in *. set (b := Z.log2 d) in *.
  assert (Ha : (0 <= a)%Z) by apply Z.log2_nonneg.
  assert (Hb : (0 <= b)%Z) by apply Z.log2_nonneg.
  assert (Hqd : q == inject_Z n / inject_Z d) by apply Qmake_decomp.
  assert (Hdq : 0 < inject_Z d) by (rewrite <- (Zlt_Qlt 0); assumption).
  assert (E1 : inject_Z n == q * inject_Z d).
  { rewrite Hqd. field. intros E. rewrite E in Hdq. discriminate. }
  assert (P1 : pow2 a <= inject_Z n) by (rewrite pow2_Z, <- Zle_Qle; assumption).
  assert (P2 : inject_Z n < pow2 (a + 1))
    by (rewrite pow2_Z, <- Zlt_Qlt by lia; replace (a + 1)%Z with (Z.succ a) by lia; assumption).
  assert (P3 : pow2 b <= inject_Z d) by (rewrite pow2_Z, <- Zle_Qle; assumption).
  assert (P4 : inject_Z d < pow2 (b + 1))
    by (rewrite pow2_Z, <- Zlt_Qlt by lia; replace (b + 1)%Z with (Z.succ b) by lia; assumption).
  pose proof (pow2_pos b) as Pb. pose proof (pow2_pos (k - 1)) as Pk1.
  pose proof (pow2_pos (k + 1)) as Pk2.
  split.
  - (* pow2 (k-1) * d < pow2 (k-1) * pow2 (b+1) = pow2 a <= n = q d *)
    assert (E : pow2 (k - 1) * pow2 (b + 1) == pow2 a).
    { rewrite <- pow2_add. unfold k. replace (a - b - 1 + (b + 1))%Z with a by lia.
      reflexivity. }
    apply (Qmult_lt_r _ _ (inject_Z d)); [assumption|].
    rewrite <- E1. apply Qlt_le_trans with (pow2 a); [|assumption].
    rewrite <- E. apply Qmult_lt_l; assumption.
  - assert (E : pow2 (k + 1) * pow2 b == pow2 (a + 1)).
    { rewrite <- pow2_add. unfold k. replace (a - b + 1 + b)%Z with (a + 1)%Z by lia.
      reflexivity. }
    apply (Qmult_lt_r _ _ (inject_Z d)); [assumption|].
    rewrite <- E1. apply Qlt_le_trans with (pow2 (a + 1)); [assumption|].
    rewrite <- E. apply Qmult_le_l; assumption.
Qed.

Lemma ilog2_spec (q : Q) : 0 < q -> pow2 (ilog2 q) <= q /\ q < pow2 (ilog2 q + 1).
Proof.
  intros Hq. destruct (ilog2_rough q Hq) as [H1 H2]. unfold ilog2.
  set (k := (Z.log2 (Qnum q) - Z.log2 (Z.pos (Qden q)))%Z) in *.
  destruct (Qle_bool (pow2 k) q) eqn:E.
  - apply Qle_bool_iff in E. split; assumption.
  - split; [now apply Qlt_le_weak|].
    replace (k - 1 + 1)%Z with k by lia.
    apply Qnot_le_lt. intros H. apply Qle_bool_iff in H. congruence.
Qed.

Lemma ilog2_unique (q : Q) (k : Z) :
  pow2 k <= q -> q < pow2 (k + 1) -> ilog2 q = k.
Proof.
  intros H1 H2.
  assert (Hq : 0 < q) by (eapply Qlt_le_trans; [apply (pow2_pos k) | assumption]).
  destruct (ilog2_spec q Hq) as [H3 H4].
  assert (A : (k < ilog2 q + 1)%Z)
    by (apply pow2_lt_inv; eapply Qle_lt_trans; eassumption).
  assert (B : (ilog2 q < k + 1)%Z)
    by (apply pow2_lt_inv; eapply Qle_lt_trans; eassumption).
  lia.
Qed.

Lemma ilog2_comp (q1 q2 : Q) : 0 < q1 -> q1 == q2 -> ilog2 q1 = ilog2 q2.
Proof.
  intros Hq E. destruct (ilog2_spec q1 Hq) as [H1 H2].
  symmetry. apply ilog2_unique; rewrite <- E; assumption.
Qed.

Lemma ilog2_mono (q1 q2 : Q) : 0 < q1 -> q1 <= q2 -> (ilog2 q1 <= ilog2 q2)%Z.
Proof.
  intros Hq H.
  assert (Hq2 : 0 < q2) by (eapply Qlt_le_trans; eassumption).
  destruct (ilog2_spec q1 Hq) as [H1 _]. destruct (ilog2_spec q2 Hq2) as [_ H2].
  assert (A : (ilog2 q1 < ilog2 q2 + 1)%Z).
  { apply pow2_lt_inv. eapply Qle_lt_trans; [eassumption|].
    eapply Qle_lt_trans; eassumption. }
  lia.
Qed.

(** ** Rounding to an integer *)

Lemma Qfloor_unique (x : Q) (z : Z) :
  (inject_Z z <= x)%Q -> (x < inject_Z (z + 1))%Q -> Qfloor x = z.
Proof.
  intros H1 H2.
  pose proof (Qfloor_le x) as F1. pose proof (Qlt_floor x) as F2.
  assert (A : (inject_Z z < inject_Z (Qfloor x + 1))%Q) by (eapply Qle_lt_trans; eassumption).
  assert (B : (inject_Z (Qfloor x) < inject_Z (z + 1))%Q) by (eapply Qle_lt_trans; eassumption).
  rewrite <- Zlt_Qlt in A, B. lia.
Qed.


Lemma roundHalfEven_cases (q : Q) :
  let f := Qfloor q in
  (q - inject_Z f < 1 # 2 /\ roundHalfEven q = f)
  \/ (1 # 2 < q - inject_Z f /\ roundHalfEven q = (f + 1)%Z)
  \/ (q - inject_Z f == 1 # 2
      /\ roundHalfEven q = if Z.even f then f else (f + 1)%Z).
Proof.
  intros f. unfold roundHalfEven. fold f.
  destruct (Qcompare (q - inject_Z f) (1 # 2)) eqn:E.
  - right. right. split; [now apply Qeq_alt | reflexivity].
  - left. split; [now apply Qlt_alt | reflexivity].
  - right. left. split; [now apply Qgt_alt | reflexivity].
Qed.

Lemma floor_bounds (q : Q) : inject_Z (Qfloor q) <= q /\ q < inject_Z (Qfloor q) + 1.
Proof.
  split; [apply Qfloor_le|].
  pose proof (Qlt_floor q) as H. rewrite inject_Z_plus in H. exact H.
Qed.

Lemma roundHalfEven_near (q : Q) :
  q - (1 # 2) <= inject_Z (roundHalfEven q) /\ inject_Z (roundHalfEven q) <= q + (1 # 2).
Proof.
  destruct (floor_bounds q) as [H1 H2].
  destruct (roundHalfEven_cases q) as [[H ->] | [[H ->] | [H ->]]];
    [| | destruct (Z.even (Qfloor q))]; rewrite ?inject_Z_plus;
    change (inject_Z 1) with 1; split; lra.
Qed.

Lemma roundHalfEven_int (z : Z) : roundHalfEven (inject_Z z) = z.
Proof.
  destruct (roundHalfEven_cases (inject_Z z)) as [[H ->] | [[H E] | [H E]]];
    rewrite Qfloor_Z in *; [reflexivity | lra | lra].
Qed.

Lemma roundHalfEven_comp (q1 q2 : Q) : q1 == q2 -> roundHalfEven q1 = roundHalfEven q2.
Proof.
  intros E. unfold roundHalfEven.
  rewrite (Qfloor_comp _ _ E).
  assert (E' : q1 - inject_Z (Qfloor q2) == q2 - inject_Z (Qfloor q2)) by now rewrite E.
  now rewrite (Qcompare_comp _ _ E' (1 # 2) (1 # 2) (Qeq_refl _)).
Qed.

Lemma roundHalfEven_mono (q1 q2 : Q) :
  q1 <= q2 -> (roundHalfEven q1 <= roundHalfEven q2)%Z.
Proof.
  intros H.
  pose proof (Qfloor_resp_le _ _ H) as Hf.
  destruct (floor_bounds q1) as [A1 A2]. destruct (floor_bounds q2) as [B1 B2].
  destruct (Z.eq_dec (Qfloor q1) (Qfloor q2)) as [E | N].
  - destruct (roundHalfEven_cases q1) as [[H1 ->] | [[H1 ->] | [H1 ->]]];
      destruct (roundHalfEven_cases q2) as [[H2 ->] | [[H2 ->] | [H2 ->]]];
      rewrite ?E in *; try destruct (Z.even (Qfloor q2)); try lia; exfalso; lra.
  - assert (L : (roundHalfEven q1 <= Qfloor q1 + 1)%Z).
    { destruct (roundHalfEven_cases q1) as [[_ ->] | [[_ ->] | [_ ->]]];
        [| | destruct (Z.even (Qfloor q1))]; lia. }
    assert (U : (Qfloor q2 <= roundHalfEven q2)%Z).
    { destruct (roundHalfEven_cases q2) as [[_ ->] | [[_ ->] | [_ ->]]];
        [| | destruct (Z.even (Qfloor q2))]; lia. }
    lia.
Qed.

Lemma roundHalfEven_nonneg (q : Q) : 0 <= q -> (0 <= roundHalfEven q)%Z.
Proof.
  intros H. change 0%Z with (roundHalfEven (inject_Z 0)) at 1.
  rewrite roundHalfEven_int. rewrite <- (roundHalfEven_int 0).
  now apply roundHalfEven_mono.
Qed.

(** ** Rounding to a double *)

Lemma ulpExponent_comp (q1 q2 : Q) : 0 < q1 -> q1 == q2 -> ulpExponent q1 = ulpExponent q2.
Proof. intros H E. unfold ulpExponent. now rewrite (ilog2_comp q1 q2 H E). Qed.

Lemma ulpExponent_mono (q1 q2 : Q) :
  0 < q1 -> q1 <= q2 -> (ulpExponent q1 <= ulpExponent q2)%Z.
Proof. intros H L. unfold ulpExponent. pose proof (ilog2_mono q1 q2 H L). lia. Qed.

Lemma ulpExponent_least (q : Q) : (-1074 <= ulpExponent q)%Z.
Proof. unfold ulpExponent. lia. Qed.

(** Scaled by its last bit, a number has at most 53 bits before the
    point, and exactly 53 unless it is subnormal. *)
Lemma scaled_below (q : Q) : 0 < q -> q / pow2 (ulpExponent q) < pow2 53.
Proof.
  intros Hq. destruct (ilog2_spec q Hq) as [_ H].
  pose proof (pow2_pos (ulpExponent q)) as Hp.
  apply Qlt_shift_div_r; [assumption|].
  rewrite <- pow2_add. eapply Qlt_le_trans; [eassumption|].
  apply pow2_le. unfold ulpExponent. lia.
Qed.

Lemma scaled_above (q : Q) :
  0 < q -> (-1074 < ulpExponent q)%Z -> pow2 52 <= q / pow2 (ulpExponent q).
Proof.
  intros Hq He. destruct (ilog2_spec q Hq) as [H _].
  pose proof (pow2_pos (ulpExponent q)) as Hp.
  apply Qle_shift_div_l; [assumption|].
  rewrite <- pow2_add. eapply Qle_trans; [|eassumption].
  apply pow2_le. unfold ulpExponent in *. lia.
Qed.

Lemma round64_pos_comp (q1 q2 : Q) :
  0 < q1 -> q1 == q2 -> round64_pos q1 == round64_pos q2.
Proof.
  intros H E. unfold round64_pos. rewrite (ulpExponent_comp q1 q2 H E).
  assert (E' : q1 / pow2 (ulpExponent q2) == q2 / pow2 (ulpExponent q2)) by now rewrite E.
  now rewrite (roundHalfEven_comp _ _ E').
Qed.

Lemma round64_pos_nonneg (q : Q) : 0 < q -> 0 <= round64_pos q.
Proof.
  intros Hq. unfold round64_pos.
  pose proof (pow2_pos (ulpExponent q)) as Hp.
  apply Qmult_le_0_compat; [|now apply Qlt_le_weak].
  change 0 with (inject_Z 0). rewrite <- Zle_Qle. apply roundHalfEven_nonneg.
  apply Qle_shift_div_l; [assumption|]. rewrite Qmult_0_l. now apply Qlt_le_weak.
Qed.

Lemma round64_pos_mono (q1 q2 : Q) :
  0 < q1 -> q1 <= q2 -> round64_pos q1 <= round64_pos q2.
Proof.
  intros Hq L.
  assert (Hq2 : 0 < q2) by (eapply Qlt_le_trans; eassumption).
  pose proof (ulpExponent_mono q1 q2 Hq L) as He.
  unfold round64_pos.
  set (e1 := ulpExponent q1) in *. set (e2 := ulpExponent q2) in *.
  pose proof (pow2_pos e1) as P1. pose proof (pow2_pos e2) as P2.
  destruct (Z.eq_dec e1 e2) as [E | N].
  - rewrite E. apply Qmult_le_compat_r; [|now apply Qlt_le_weak].
    rewrite <- Zle_Qle. apply roundHalfEven_mono.
    apply Qmult_le_compat_r; [assumption|].
    apply Qlt_le_weak, Qinv_lt_0_compat. assumption.
  - assert (Hlt : (e1 < e2)%Z) by lia.
    assert (A : inject_Z (roundHalfEven (q1 / pow2 e1)) <= pow2 53).
    { rewrite (pow2_Z 53) by lia. rewrite <- Zle_Qle.
      rewrite <- (roundHalfEven_int (2 ^ 53)). apply roundHalfEven_mono.
      rewrite <- (pow2_Z 53) by lia. apply Qlt_le_weak. now apply scaled_below. }
    assert (B : pow2 52 <= inject_Z (roundHalfEven (q2 / pow2 e2))).
    { rewrite (pow2_Z 52) by lia. rewrite <- Zle_Qle.
      rewrite <- (roundHalfEven_int (2 ^ 52)) at 1. apply roundHalfEven_mono.
      rewrite <- (pow2_Z 52) by lia. apply scaled_above; [assumption|].
      pose proof (ulpExponent_least q1). fold e1 in H. fold e2. lia. }
    apply Qle_trans with (pow2 53 * pow2 e1).
    + apply Qmult_le_compat_r; [assumption | now apply Qlt_le_weak].
    + apply Qle_trans with (pow2 52 * pow2 e2).
      * rewrite <- !pow2_add. apply pow2_le. lia.
      * apply Qmult_le_compat_r; [assumption | now apply Qlt_le_weak].
Qed.

(** A number of fewer than 54 bits above [2^-1074] is a double. *)
Lemma round64_pos_dyadic (k e : Z) :
  (0 < k < 2 ^ 53)%Z -> (-1074 <= e)%Z ->
  round64_pos (inject_Z k * pow2 e) == inject_Z k * pow2 e.
Proof.
  intros Hk He. set (q := inject_Z k * pow2 e).
  pose proof (pow2_pos e) as Pe.
  assert (Hq : 0 < q).
  { unfold q. apply Qmult_lt_0_compat; [|assumption].
    rewrite <- (Zlt_Qlt 0). lia. }
  assert (Hle : (ulpExponent q <= e)%Z).
  { destruct (ilog2_spec q Hq) as [H1 _].
    assert (H : pow2 (ilog2 q) < pow2 (53 + e)).
    { eapply Qle_lt_trans; [eassumption|]. unfold q. rewrite pow2_add.
      apply Qmult_lt_compat_r; [assumption|].
      rewrite pow2_Z by lia. rewrite <- Zlt_Qlt. lia. }
    apply pow2_lt_inv in H. unfold ulpExponent. lia. }
  unfold round64_pos. set (u := ulpExponent q) in *.
  pose proof (pow2_pos u) as Pu.
  assert (E : q / pow2 u == inject_Z (k * 2 ^ (e - u))).
  { unfold q. rewrite inject_Z_mult, <- pow2_Z by lia. rewrite pow2_sub.
    field. intros X. rewrite X in Pu. discriminate. }
  rewrite (roundHalfEven_comp _ _ E), roundHalfEven_int.
  rewrite inject_Z_mult, <- pow2_Z by lia. rewrite pow2_sub. unfold q.
  field. intros X. rewrite X in Pu. discriminate.
Qed.

(** The result is a multiple of the last bit. *)
Lemma round64_pos_form (q : Q) :
  exists m : Z, round64_pos q == inject_Z m * pow2 (ulpExponent q).
Proof. eexists. reflexivity. Qed.

Lemma round64_comp (q1 q2 : Q) : q1 == q2 -> round64 q1 == round64 q2.
Proof.
  intros E. unfold round64.
  rewrite (Qcompare_comp _ _ E 0 0 (Qeq_refl 0)).
  destruct (Qcompare q2 0) eqn:C; [reflexivity | |].
  - apply Qlt_alt in C. apply Qopp_comp. (* q2 < 0 *)
    apply round64_pos_comp; [rewrite E; lra | now rewrite E].
  - apply Qgt_alt in C. apply round64_pos_comp; [rewrite E; assumption | assumption].
Qed.

#[global] Instance round64_proper : Proper (Qeq ==> Qeq) round64.
Proof. intros x y E. now apply round64_comp. Qed.

Lemma round64_zero (q : Q) : q == 0 -> round64 q == 0.
Proof. intros E. rewrite (round64_comp _ _ E). reflexivity. Qed.

Lemma round64_of_pos (q : Q) : 0 < q -> round64 q = round64_pos q.
Proof.
  intros H. unfold round64. destruct (Qcompare q 0) eqn:C;
    [apply Qeq_alt in C; lra | apply Qlt_alt in C; lra | reflexivity].
Qed.

Lemma round64_of_neg (q : Q) : q < 0 -> round64 q = - round64_pos (- q).
Proof.
  intros H. unfold round64. destruct (Qcompare q 0) eqn:C;
    [apply Qeq_alt in C; lra | reflexivity | apply Qgt_alt in C; lra].
Qed.

Lemma round64_opp (q : Q) : round64 (- q) == - round64 q.
Proof.
  destruct (Q_dec q 0) as [[H | H] | H].
  - rewrite (round64_of_neg q H), round64_of_pos by lra. ring.
  - rewrite (round64_of_pos q H), round64_of_neg by lra.
    apply Qopp_comp, round64_pos_comp; [lra | ring].
  - rewrite (round64_zero q H), round64_zero by (rewrite H; reflexivity). reflexivity.
Qed.

Lemma round64_nonneg (q : Q) : 0 <= q -> 0 <= round64 q.
Proof.
  intros H. destruct (Qle_lt_or_eq _ _ H) as [L | E].
  - rewrite round64_of_pos by assumption. now apply round64_pos_nonneg.
  - rewrite round64_zero by (now symmetry). apply Qle_refl.
Qed.

Lemma round64_nonpos (q : Q) : q <= 0 -> round64 q <= 0.
Proof.
  intros H. assert (A : 0 <= round64 (- q)) by (apply round64_nonneg; lra).
  rewrite round64_opp in A. lra.
Qed.

Lemma round64_mono (q1 q2 : Q) : q1 <= q2 -> round64 q1 <= round64 q2.
Proof.
  intros L. destruct (Qlt_le_dec 0 q1) as [P1 | N1].
  - rewrite !round64_of_pos by lra. now apply round64_pos_mono.
  - destruct (Qlt_le_dec q2 0) as [N2 | P2].
    + assert (A : round64 (- q2) <= round64 (- q1)).
      { rewrite !round64_of_pos by lra. apply round64_pos_mono; lra. }
      rewrite !round64_opp in A. lra.
    + pose proof (round64_nonpos q1 N1). pose proof (round64_nonneg q2 P2). lra.
Qed.

Lemma round64_dyadic (k e : Z) :
  (Z.abs k < 2 ^ 53)%Z -> (-1074 <= e)%Z ->
  round64 (inject_Z k * pow2 e) == inject_Z k * pow2 e.
Proof.
  intros Hk He. pose proof (pow2_pos e) as Pe.
  destruct (Z.lt_trichotomy k 0) as [N | [Z0 | P]].
  - assert (E : inject_Z k * pow2 e == - (inject_Z (- k) * pow2 e))
      by (rewrite inject_Z_opp; ring).
    rewrite E, round64_opp. apply Qopp_comp.
    rewrite round64_of_pos.
    + apply round64_pos_dyadic; lia.
    + apply Qmult_lt_0_compat; [|assumption]. rewrite <- (Zlt_Qlt 0). lia.
  - subst k. rewrite round64_zero by ring. ring.
  - rewrite round64_of_pos.
    + apply round64_pos_dyadic; lia.
    + apply Qmult_lt_0_compat; [|assumption]. rewrite <- (Zlt_Qlt 0). lia.
Qed.

Lemma round64_int (k : Z) : (Z.abs k < 2 ^ 53)%Z -> round64 (inject_Z k) == inject_Z k.
Proof.
  intros H. assert (E : inject_Z k == inject_Z k * pow2 0) by (unfold pow2; simpl; ring).
  rewrite E at 1. rewrite round64_dyadic by lia. now rewrite <- E.
Qed.

(** Every double is a multiple of the least one. *)
Lemma round64_grid (q : Q) : exists M : Z, round64 q == inject_Z M * pow2 (-1074).
Proof.
  assert (P : forall x, exists M : Z, round64_pos x == inject_Z M * pow2 (-1074)).
  { intros x. unfold round64_pos. set (u := ulpExponent x).
    pose proof (ulpExponent_least x) as Hu. fold u in Hu.
    exists (roundHalfEven (x / pow2 u) * 2 ^ (u + 1074))%Z.
    rewrite inject_Z_mult, <- pow2_Z by lia. rewrite <- Qmult_assoc, <- pow2_add.
    replace (u + 1074 + -1074)%Z with u by lia. reflexivity. }
  unfold round64. destruct (Qcompare q 0).
  - exists 0%Z. ring.
  - destruct (P (- q)) as [M HM]. exists (- M)%Z. rewrite HM, inject_Z_opp. ring.
  - apply P.
Qed.

(** Two numbers that are two last bits apart round to different doubles. *)
Lemma round64_separates (a b : Q) :
  0 <= a -> a + 2 * pow2 (ulpExponent b) <= b -> round64 a < round64 b.
Proof.
  intros Ha Hab. set (e := ulpExponent b) in *. set (g := pow2 e) in *.
  assert (Pg : 0 < g) by apply pow2_pos.
  assert (Hb : 0 < b) by lra.
  pose proof (scaled_below b Hb) as Hs. fold e in Hs. fold g in Hs.
  set (K := Qfloor (b / g)).
  destruct (floor_bounds (b / g)) as [K1 K2]. fold K in K1, K2.
  assert (Eb : b == (b / g) * g) by (field; lra).
  assert (HK : (2 <= K < 2 ^ 53)%Z).
  { split.
    - assert (X : inject_Z 2 <= b / g).
      { apply Qle_shift_div_l; [assumption|]. change (inject_Z 2) with 2. lra. }
      apply Qfloor_resp_le in X. now rewrite Qfloor_Z in X.
    - rewrite Zlt_Qlt. rewrite <- (pow2_Z 53) by lia. lra. }
  pose proof (ulpExponent_least b) as He. fold e in He.
  assert (R2 : round64 (inject_Z K * g) == inject_Z K * g)
    by (apply round64_dyadic; lia).
  assert (R1 : round64 (inject_Z (K - 1) * g) == inject_Z (K - 1) * g)
    by (apply round64_dyadic; lia).
  assert (L2 : inject_Z K * g <= b).
  { apply Qle_trans with (b / g * g); [apply Qmult_le_compat_r; lra|].
    rewrite <- Eb. apply Qle_refl. }
  assert (L1 : a <= inject_Z (K - 1) * g).
  { unfold Zminus. rewrite inject_Z_plus, inject_Z_opp. change (inject_Z 1) with 1.
    assert (X : b < (inject_Z K + 1) * g).
    { apply Qle_lt_trans with (b / g * g); [rewrite <- Eb; apply Qle_refl|].
      apply Qmult_lt_compat_r; lra. }
    lra. }
  apply Qle_lt_trans with (round64 (inject_Z (K - 1) * g)); [now apply round64_mono|].
  apply Qlt_le_trans with (round64 (inject_Z K * g)); [|now apply round64_mono].
  rewrite R1, R2. apply Qmult_lt_compat_r; [assumption|].
  rewrite <- Zlt_Qlt. lia.
Qed.

(** The multiples of a double other than 0 round to different doubles, up
    to [2^51] of them. *)
Lemma round64_multiples (s : Q) (i : Z) :
  0 < round64 s -> (0 <= i < 2 ^ 51)%Z ->
  round64 (inject_Z i * round64 s) < round64 (inject_Z (i + 1) * round64 s).
Proof.
  intros Hs Hi. destruct (round64_grid s) as [M HM].
  set (r := round64 s) in *.
  set (a := inject_Z i * r). set (b := inject_Z (i + 1) * r).
  assert (Hi0 : 0 <= inject_Z i) by (rewrite <- (Zle_Qle 0); lia).
  assert (Eab : b == a + r).
  { unfold a, b. rewrite inject_Z_plus. change (inject_Z 1) with 1. ring. }
  assert (Ha : 0 <= a) by (unfold a; apply Qmult_le_0_compat; lra).
  assert (Hb : 0 < b) by lra.
  pose proof (pow2_pos (-1074)) as Pm.
  assert (HM0 : (0 < M)%Z).
  { rewrite Zlt_Qlt. apply (Qmult_lt_r _ _ (pow2 (-1074))); [assumption|].
    change (inject_Z 0) with 0. rewrite Qmult_0_l, <- HM. assumption. }
  destruct (Z.eq_dec (ulpExponent b) (-1074)%Z) as [E | N].
  - (* both multiples are doubles themselves *)
    pose proof (scaled_below b Hb) as Hs'. rewrite E in Hs'.
    assert (Eb : b == inject_Z ((i + 1) * M) * pow2 (-1074))
      by (unfold b; rewrite HM, inject_Z_mult; ring).
    assert (Ea : a == inject_Z (i * M) * pow2 (-1074))
      by (unfold a; rewrite HM, inject_Z_mult; ring).
    assert (Hk : ((i + 1) * M < 2 ^ 53)%Z).
    { rewrite Zlt_Qlt. rewrite <- (pow2_Z 53) by lia.
      eapply Qle_lt_trans; [|exact Hs']. rewrite Eb. apply Qle_shift_div_l; [assumption|].
      apply Qle_refl. }
    rewrite (round64_comp _ _ Ea), (round64_comp _ _ Eb).
    rewrite !round64_dyadic by nia.
    apply Qmult_lt_compat_r; [assumption|]. rewrite <- Zlt_Qlt. nia.
  - apply round64_separates; [assumption|].
    assert (Hu : (-1074 < ulpExponent b)%Z)
      by (pose proof (ulpExponent_least b); lia).
    pose proof (scaled_above b Hb Hu) as Hs'.
    set (g := pow2 (ulpExponent b)) in *.
    assert (Pg : 0 < g) by apply pow2_pos.
    assert (X : pow2 52 * g <= b).
    { apply Qle_trans with (b / g * g); [apply Qmult_le_compat_r; lra|].
      assert (Eb : b / g * g == b) by (field; lra). rewrite Eb. apply Qle_refl. }
    assert (Hi1 : inject_Z (i + 1) <= pow2 51).
    { rewrite (pow2_Z 51) by lia. rewrite <- Zle_Qle. lia. }
    assert (Y : b <= pow2 51 * r).
    { unfold b. apply Qmult_le_compat_r; lra. }
    assert (P52 : pow2 52 == 2 * pow2 51) by (rewrite <- pow2_succ; reflexivity).
    assert (P51 : 0 < pow2 51) by apply pow2_pos.
    rewrite Eab. apply Qplus_le_r.
    (* 2 g <= r  from  2 * 2^51 * g <= 2^51 * r *)
    apply (Qmult_le_l _ _ (pow2 51)); [assumption|].
    rewrite P52 in X. lra.
Qed.

(** The error of a rounding is at most half of the last bit. *)
Lemma round64_pos_near (q : Q) :
  q - pow2 (ulpExponent q) * (1 # 2) <= round64_pos q
  /\ round64_pos q <= q + pow2 (ulpExponent q) * (1 # 2).
Proof.
  unfold round64_pos. set (g := pow2 (ulpExponent q)).
  assert (Pg : 0 < g) by apply pow2_pos.
  destruct (roundHalfEven_near (q / g)) as [H1 H2].
  assert (A : (q / g - (1 # 2)) * g == q - g * (1 # 2)) by (field; lra).
  assert (B : (q / g + (1 # 2)) * g == q + g * (1 # 2)) by (field; lra).
  split.
  - rewrite <- A. apply Qmult_le_compat_r; lra.
  - rewrite <- B. apply Qmult_le_compat_r; lra.
Qed.

(** A positive number is rounded to 0 exactly when it is at most half of
    the least double. *)
Lemma round64_underflow (q : Q) :
  0 < q -> (round64 q == 0 <-> q <= pow2 (-1075)).
Proof.
  intros Hq.
  assert (P4 : pow2 (-1074) == 2 * pow2 (-1075)) by (rewrite <- pow2_succ; reflexivity).
  pose proof (pow2_pos (-1075)) as P5.
  assert (D : round64 (pow2 (-1074)) == pow2 (-1074)).
  { assert (E : pow2 (-1074) == inject_Z 1 * pow2 (-1074)) by ring.
    rewrite E at 1. rewrite round64_dyadic by lia. now rewrite <- E. }
  assert (U : q < pow2 (-1074) -> ulpExponent q = (-1074)%Z).
  { intros H. destruct (ilog2_spec q Hq) as [H1 _].
    assert (X : (ilog2 q < -1074)%Z)
      by (apply pow2_lt_inv; eapply Qle_lt_trans; eassumption).
    unfold ulpExponent. lia. }
  split.
  - intros Z0. apply Qnot_lt_le. intros H.
    destruct (Qlt_le_dec q (pow2 (-1074))) as [S | L].
    + rewrite round64_of_pos in Z0 by assumption. unfold round64_pos in Z0.
      rewrite (U S) in Z0.
      assert (F : Qfloor (q / pow2 (-1074)) = 0%Z).
      { apply Qfloor_unique; [change (inject_Z 0) with 0 | change (inject_Z (0 + 1)) with 1].
        - apply Qle_shift_div_l; lra.
        - apply Qlt_shift_div_r; lra. }
      assert (G : (1 # 2) < q / pow2 (-1074)) by (apply Qlt_shift_div_l; lra).
      destruct (roundHalfEven_cases (q / pow2 (-1074))) as [[C _] | [[C R] | [C _]]];
        rewrite F in *; change (inject_Z 0) with 0 in *; [lra | | lra].
      rewrite R in Z0. change (inject_Z (0 + 1)) with 1 in Z0. lra.
    + pose proof (round64_mono _ _ L) as M. rewrite D in M. lra.
  - intros H.
    assert (S : q < pow2 (-1074)) by lra.
    rewrite round64_of_pos by assumption. unfold round64_pos. rewrite (U S).
    assert (F : Qfloor (q / pow2 (-1074)) = 0%Z).
    { apply Qfloor_unique; [change (inject_Z 0) with 0 | change (inject_Z (0 + 1)) with 1].
      - apply Qle_shift_div_l; lra.
      - apply Qlt_shift_div_r; lra. }
    assert (G : q / pow2 (-1074) <= 1 # 2) by (apply Qle_shift_div_r; lra).
    destruct (roundHalfEven_cases (q / pow2 (-1074))) as [[_ R] | [[C _] | [_ R]]];
      rewrite F in *; change (inject_Z 0) with 0 in *; [| lra |];
      rewrite R; simpl; ring.
Qed.

(** ** The whole part of a sixtieth *)

(** A double other than 0 is a multiple of its own last bit. *)
Lemma double_form (x : Q) :
  0 < x -> round64 x == x ->
  exists K : Z, x == inject_Z K * pow2 (ulpExponent x).
Proof.
  intros Hx R. rewrite round64_of_pos in R by assumption.
  exists (roundHalfEven (x / pow2 (ulpExponent x))). now rewrite <- R at 1.
Qed.

Lemma pow2_5 : pow2 5 == 32.
Proof. reflexivity. Qed.

(** Between a sixtieth of a double from 1 to [2^55] and an integer that
    it is not equal to, there is room for the rounding of the division. *)
Lemma sixtieth_gap (x : Q) (n : Z) :
  round64 x == x -> 1 <= x -> x < pow2 55 -> ~ x == 60 * inject_Z n ->
  (x / 60 < inject_Z n -> round64 (x / 60) < inject_Z n)
  /\ (inject_Z n < x / 60 -> inject_Z n < round64 (x / 60)).
Proof.
  intros R H1 H55 Hn.
  assert (Hx : 0 < x) by lra.
  destruct (double_form x Hx R) as [K HK].
  set (e := ulpExponent x) in *. set (c := Z.min e 2).
  set (q := x / 60). assert (Eq : x == 60 * q) by (unfold q; field).
  assert (Hq : 0 < q) by lra.
  (* the last bits *)
  assert (L0 : (0 <= ilog2 x)%Z).
  { destruct (ilog2_spec x Hx) as [_ A].
    assert (B : pow2 0 < pow2 (ilog2 x + 1))
      by (eapply Qle_lt_trans; [|exact A]; exact H1).
    apply pow2_lt_inv in B. lia. }
  assert (Le : e = (ilog2 x - 52)%Z) by (unfold e, ulpExponent; lia).
  assert (Lq : (ilog2 q < ilog2 x - 4)%Z /\ (ilog2 q < 50)%Z).
  { destruct (ilog2_spec q Hq) as [A _]. destruct (ilog2_spec x Hx) as [_ B].
    split; apply pow2_lt_inv; (eapply Qle_lt_trans; [exact A|]).
    - assert (E : pow2 (ilog2 x - 4) == pow2 (ilog2 x + 1) / pow2 5).
      { rewrite <- pow2_sub. now replace (ilog2 x + 1 - 5)%Z with (ilog2 x - 4)%Z by lia. }
      rewrite E, pow2_5. apply Qlt_shift_div_l; lra.
    - assert (E : pow2 50 == pow2 55 / pow2 5) by (rewrite <- pow2_sub; reflexivity).
      rewrite E, pow2_5. apply Qlt_shift_div_l; lra. }
  set (u := ulpExponent q).
  assert (Lu : (u + 5 <= c)%Z) by (unfold u, ulpExponent, c; rewrite Le; lia).
  assert (Pc : pow2 (u + 5) <= pow2 c) by now apply pow2_le.
  rewrite pow2_add, pow2_5 in Pc.
  pose proof (pow2_pos u) as Pu.
  (* the distance *)
  set (Zd := (K * 2 ^ (e - c) - 15 * n * 2 ^ (2 - c))%Z).
  assert (ED : x - 60 * inject_Z n == inject_Z Zd * pow2 c).
  { unfold Zd, Zminus. rewrite inject_Z_plus, inject_Z_opp, !inject_Z_mult.
    rewrite <- !pow2_Z by (unfold c; lia).
    assert (A : pow2 (e + - c) * pow2 c == pow2 e)
      by (rewrite <- pow2_add; now replace (e + - c + c)%Z with e by lia).
    assert (B : pow2 (2 + - c) * pow2 c == 4)
      by (rewrite <- pow2_add; now replace (2 + - c + c)%Z with 2%Z by lia).
    change (inject_Z 15) with 15.
    transitivity (inject_Z K * (pow2 (e + - c) * pow2 c)
                  - 15 * inject_Z n * (pow2 (2 + - c) * pow2 c)); [|ring].
    rewrite A, B, <- HK. ring. }
  pose proof (pow2_pos c) as Pcp.
  assert (Near := round64_pos_near q). fold u in Near.
  rewrite <- (round64_of_pos q Hq) in Near. destruct Near as [N1 N2].
  clearbody Zd c u. clearbody q. clear HK Le. clearbody e.
  split; intros Hside.
  - assert (Hz : (Zd <= -1)%Z).
    { assert (X : inject_Z Zd * pow2 c < 0) by (rewrite <- ED; lra).
      assert (Y : (Zd < 0)%Z).
      { rewrite Zlt_Qlt. apply (Qmult_lt_r _ _ (pow2 c)); [assumption|].
        change (inject_Z 0) with 0. now rewrite Qmult_0_l. }
      lia. }
    assert (X : inject_Z Zd * pow2 c <= - pow2 c).
    { rewrite Zle_Qle in Hz. change (inject_Z (-1)) with (-1) in Hz.
      apply Qle_trans with (-1 * pow2 c); [apply Qmult_le_compat_r; lra | lra]. }
    rewrite <- ED in X. lra.
  - assert (Hz : (1 <= Zd)%Z).
    { assert (X : 0 < inject_Z Zd * pow2 c) by (rewrite <- ED; lra).
      assert (Y : (0 < Zd)%Z).
      { rewrite Zlt_Qlt. apply (Qmult_lt_r _ _ (pow2 c)); [assumption|].
        change (inject_Z 0) with 0. now rewrite Qmult_0_l. }
      lia. }
    assert (X : pow2 c <= inject_Z Zd * pow2 c).
    { rewrite Zle_Qle in Hz. change (inject_Z 1) with 1 in Hz.
      apply Qle_trans with (1 * pow2 c); [lra | apply Qmult_le_compat_r; lra]. }
    rewrite <- ED in X. lra.
Qed.

Lemma round64_pow2 (e : Z) : (-1074 <= e)%Z -> round64 (pow2 e) == pow2 e.
Proof.
  intros He. assert (E : pow2 e == inject_Z 1 * pow2 e) by ring.
  rewrite E at 1. rewrite round64_dyadic by lia. now rewrite <- E.
Qed.

Lemma sixtieth_below_2_50 (x : Q) : x < pow2 55 -> x / 60 < pow2 50.
Proof.
  intros H. assert (E : pow2 50 == pow2 55 / pow2 5) by (rewrite <- pow2_sub; reflexivity).
  set (q := x / 60). assert (Eq : x == 60 * q) by (unfold q; field).
  pose proof (pow2_pos 55).
  rewrite E, pow2_5. apply Qlt_shift_div_l; lra.
Qed.

(** The division by 60 of a double below [2^55] is rounded, and the whole
    part of the quotient is that of the exact quotient. *)
Lemma floor_sixtieth (x : Q) :
  round64 x == x -> 0 <= x -> x < pow2 55 ->
  Qfloor (round64 (x / 60)) = Qfloor (x / 60).
Proof.
  intros R H0 H55.
  assert (G := fun n => sixtieth_gap x n R).
  assert (H50 := sixtieth_below_2_50 x H55).
  set (q := x / 60) in *. assert (Eq : x == 60 * q) by (unfold q; field).
  clearbody q.
  destruct (floor_bounds q) as [F1 F2]. set (m := Qfloor q) in *. clearbody m.
  assert (Hm0 : (0 <= m)%Z).
  { assert (X : (-1 < m)%Z) by (rewrite Zlt_Qlt; change (inject_Z (-1)) with (-1); lra).
    lia. }
  assert (Hm : (m < 2 ^ 50)%Z) by (rewrite Zlt_Qlt, <- (pow2_Z 50) by lia; lra).
  assert (X0 : 0 <= inject_Z m) by (rewrite <- (Zle_Qle 0); assumption).
  apply Qfloor_unique.
  - rewrite <- (round64_int m) by lia. now apply round64_mono.
  - rewrite inject_Z_plus. change (inject_Z 1) with 1.
    destruct (Qlt_le_dec x 1) as [S | L].
    + assert (P : pow2 (-1) == 1 # 2) by reflexivity.
      assert (Hh : round64 q <= round64 (pow2 (-1))) by (apply round64_mono; rewrite P; lra).
      rewrite round64_pow2 in Hh by lia. rewrite P in Hh. lra.
    + specialize (G (m + 1)%Z L H55).
      rewrite inject_Z_plus in G. change (inject_Z 1) with 1 in G.
      apply G; [|assumption].
      intros E. rewrite E in Eq. lra.
Qed.

Lemma floor_sixtieth_neg (x : Q) :
  round64 x == x -> x <= - pow2 (-1022) -> - pow2 55 < x ->
  Qfloor (round64 (x / 60)) = Qfloor (x / 60).
Proof.
  intros R Hlo H55. pose proof (pow2_pos (-1022)) as P22.
  set (y := - x). assert (Hy : 0 < y) by (unfold y; lra).
  assert (Ry : round64 y == y) by (unfold y; rewrite round64_opp, R; reflexivity).
  assert (Hy22 : pow2 (-1022) <= y) by (unfold y; lra).
  assert (Hy55 : y < pow2 55) by (unfold y; lra).
  assert (Exq : x / 60 == - (y / 60)) by (unfold y; field).
  assert (Rq : round64 (x / 60) == - round64 (y / 60)) by (rewrite Exq; apply round64_opp).
  rewrite (Qfloor_comp _ _ Rq), (Qfloor_comp _ _ Exq).
  clearbody y. clear x R Hlo H55 Exq Rq.
  assert (G := fun n => sixtieth_gap y n Ry).
  assert (H50 := sixtieth_below_2_50 y Hy55).
  set (p := y / 60) in *. assert (Ep : y == 60 * p) by (unfold p; field).
  clearbody p.
  destruct (floor_bounds (- p)) as [F1 F2]. set (m := Qfloor (- p)) in *. clearbody m.
  assert (Hm1 : (m <= -1)%Z).
  { assert (X : (m < 0)%Z) by (rewrite Zlt_Qlt; change (inject_Z 0) with 0; lra). lia. }
  assert (Hm : (- 2 ^ 50 <= m)%Z).
  { assert (X : (- 2 ^ 50 < m + 1)%Z).
    { rewrite Zlt_Qlt, inject_Z_plus, inject_Z_opp, <- (pow2_Z 50) by lia.
      change (inject_Z 1) with 1. lra. }
    lia. }
  apply Qfloor_unique.
  - assert (X : round64 p <= round64 (inject_Z (- m))).
    { apply round64_mono. rewrite inject_Z_opp. lra. }
    rewrite round64_int in X by lia. rewrite inject_Z_opp in X. lra.
  - rewrite inject_Z_plus. change (inject_Z 1) with 1.
    destruct (Qlt_le_dec y 1) as [S | L].
    + assert (Hp : pow2 (-1028) <= p).
      { assert (E : pow2 (-1028) == pow2 (-1022) / pow2 6) by (rewrite <- pow2_sub; reflexivity).
        assert (P6 : pow2 6 == 64) by reflexivity.
        rewrite E, P6. apply Qle_shift_div_r; [reflexivity|]. lra. }
      assert (X : round64 (pow2 (-1028)) <= round64 p) by now apply round64_mono.
      rewrite round64_pow2 in X by lia. pose proof (pow2_pos (-1028)).
      assert (M : (m = -1)%Z).
      { assert (Y : (-2 < m)%Z) by (rewrite Zlt_Qlt; change (inject_Z (-2)) with (-2); lra).
        lia. }
      rewrite M. change (inject_Z (-1)) with (-1). lra.
    + specialize (G (- m - 1)%Z L Hy55).
      unfold Zminus in G. rewrite !inject_Z_plus, !inject_Z_opp in G.
      change (inject_Z 1) with 1 in G.
      assert (Hne : ~ y == 60 * (- inject_Z m + - (1))) by (intros E; rewrite E in Ep; lra).
      destruct (G Hne) as [_ G2]. specialize (G2 ltac:(lra)). lra.
Qed.

End Rounding.

(** ** Equal division of the duration *)

Section EqualChapters.
Variable duration : Q.
Variable numChapters : nat.
Variable baseTitle : string.

  (** The chapter that the loop pushes at index [i]. *)
Definition equalChapter (i : nat) : ChapterDefinition :=
    {| title := baseTitle ++ " " ++ show_nat (i + 1);
       startTime := mul64 (inject_Z (Z.of_nat i))
                      (div64 duration (inject_Z (Z.of_nat numChapters))) |}.

Lemma loop_pushes (n i : nat) (chapters : list ChapterDefinition) :
    loop duration numChapters baseTitle n i chapters
    = chapters ++ map equalChapter (List.seq i n).
  Proof.
    revert i chapters.
    induction n as [|n IH]; intros i chapters; simpl.
    - now rewrite app_nil_r.
    - rewrite IH, <- app_assoc. reflexivity.
  Qed.

Lemma generateEqualChapters_map :
    generateEqualChapters duration numChapters baseTitle
    = map equalChapter (List.seq 0 numChapters).
  Proof. unfold generateEqualChapters. now rewrite loop_pushes. Qed.

Lemma generateEqualChapters_lookup (i : nat) :
    (i < numChapters)%nat ->
    generateEqualChapters duration numChapters baseTitle !! i = Some (equalChapter i).
  Proof.
    intros Hi. rewrite generateEqualChapters_map, list_lookup_fmap.
    rewrite lookup_seq_lt by assumption. reflexivity.
  Qed.

Lemma generateEqualChapters_lookup_inv (i : nat) (c : ChapterDefinition) :
    generateEqualChapters duration numChapters baseTitle !! i = Some c ->
    (i < numChapters)%nat /\ c = equalChapter i.
  Proof.
    intros H.
    assert (Hi : (i < numChapters)%nat).
    { apply lookup_lt_Some in H.
      now rewrite generateEqualChapters_map, length_map, length_seq in H. }
    split; [assumption|].
    rewrite generateEqualChapters_lookup in H by assumption. congruence.
  Qed.
End EqualChapters.

(** The start times never decrease. *)
Lemma equalChapter_ascending (duration : Q) (count : nat) (prefix : string) (i j : nat) :
  (0 <= duration)%Q -> (i <= j)%nat ->
  (startTime (equalChapter duration count prefix i)
   <= startTime (equalChapter duration count prefix j))%Q.
Proof.
  intros Hd Hij. simpl. unfold mul64. apply round64_mono.
  apply Qmult_le_compat_r.
  - rewrite <- Zle_Qle. lia.
  - unfold div64. apply round64_nonneg.
    unfold Qdiv. apply Qmult_le_0_compat; [assumption|].
    apply Qinv_le_0_compat. rewrite <- (Zle_Qle 0). lia.
Qed.

(** C3. For a positive (finite) duration and at least one chapter, at
    most [2^32 - 1] of them (the longest array that there is),
    [generateEqualChapters] returns exactly [count] definitions; entry [i]
    has the title "{prefix} {i+1}" and starts at [i * (duration / count)],
    the quotient and the product each rounded to a double. The first one
    starts at 0 and the start times never decrease. The segment, that is
    the rounded quotient, is 0 exactly when [duration / count] is at most
    [2^-1075]: then every chapter starts at 0; otherwise the start times
    increase strictly. *)
Theorem generateEqualChapters_equal_division
    (duration : Q) (count : nat) (prefix : string) :
  (0 < duration)%Q -> (1 <= count)%nat -> (Z.of_nat count < 2 ^ 32)%Z ->
  let chapters := generateEqualChapters duration count prefix in
  let segment := div64 duration (inject_Z (Z.of_nat count)) in
  length chapters = count
  /\ (forall i, (i < count)%nat ->
        chapters !! i
        = Some {| title := prefix ++ " " ++ show_nat (i + 1);
                  startTime := mul64 (inject_Z (Z.of_nat i)) segment |})
  /\ (exists first, chapters !! 0%nat = Some first /\ (startTime first == 0)%Q)
  /\ (forall i j ci cj, (i <= j)%nat ->
        chapters !! i = Some ci -> chapters !! j = Some cj ->
        (startTime ci <= startTime cj)%Q)
  /\ ((segment == 0)%Q
      <-> (duration / inject_Z (Z.of_nat count) <= pow2 (-1075))%Q)
  /\ ((segment == 0)%Q ->
      forall i ci, chapters !! i = Some ci -> (startTime ci == 0)%Q)
  /\ (~ (segment == 0)%Q ->
      forall i j ci cj, (i < j)%nat ->
        chapters !! i = Some ci -> chapters !! j = Some cj ->
        (startTime ci < startTime cj)%Q).
Proof.
  intros Hd Hc Hn chapters segment. subst chapters.
  assert (Hq : (0 < duration / inject_Z (Z.of_nat count))%Q).
  { apply Qlt_shift_div_l.
    - change 0%Q with (inject_Z 0). rewrite <- Zlt_Qlt. lia.
    - now rewrite Qmult_0_l. }
  assert (Hs0 : (0 <= segment)%Q) by (apply round64_nonneg, Qlt_le_weak, Hq).
  split; [|split; [|split; [|split; [|split; [|split]]]]].
  - now rewrite generateEqualChapters_map, length_map, length_seq.
  - intros i Hi. now apply generateEqualChapters_lookup.
  - exists (equalChapter duration count prefix 0). split.
    + apply generateEqualChapters_lookup. lia.
    + simpl. unfold mul64. apply round64_zero. apply Qmult_0_l.
  - intros i j ci cj Hij Hi Hj.
    apply generateEqualChapters_lookup_inv in Hi as [_ ->].
    apply generateEqualChapters_lookup_inv in Hj as [_ ->].
    apply equalChapter_ascending; [now apply Qlt_le_weak | assumption].
  - apply round64_underflow, Hq.
  - intros Hs i ci Hi.
    apply generateEqualChapters_lookup_inv in Hi as [_ ->].
    simpl. unfold mul64. apply round64_zero.
    fold segment. rewrite Hs. apply Qmult_0_r.
  - intros Hs.
    assert (Hpos : (0 < round64 (duration / inject_Z (Z.of_nat count)))%Q).
    { destruct (Qle_lt_or_eq _ _ Hs0) as [L | E]; [exact L|].
      exfalso. apply Hs. symmetry. exact E. }
    assert (Hstep : forall i, (S i < count)%nat ->
              (startTime (equalChapter duration count prefix i)
               < startTime (equalChapter duration count prefix (S i)))%Q).
    { intros i Hi. simpl. unfold mul64, div64.
      replace (Z.of_nat (S i)) with (Z.of_nat i + 1)%Z by lia.
      apply round64_multiples; [exact Hpos | lia]. }
    intros i j ci cj Hij Hi Hj.
    apply generateEqualChapters_lookup_inv in Hi as [_ ->].
    apply generateEqualChapters_lookup_inv in Hj as [Hjc ->].
    apply Qlt_le_trans with (startTime (equalChapter duration count prefix (S i))).
    + apply Hstep. lia.
    + apply equalChapter_ascending; [now apply Qlt_le_weak | lia].
Qed.

Lemma twenty_seconds_segment : ~ (div64 100 (inject_Z (Z.of_nat 5)) == 0)%Q.
Proof. intros H. vm_compute in H. discriminate. Qed.

Lemma generateEqualChapters_equal_division_witness :
  (0 < 100)%Q /\ (1 <= 5)%nat /\ (Z.of_nat 5 < 2 ^ 32)%Z
  /\ length (generateEqualChapters 100 5 "Chapter") = 5%nat
  /\ (forall i j ci cj, (i < j)%nat ->
        generateEqualChapters 100 5 "Chapter" !! i = Some ci ->
        generateEqualChapters 100 5 "Chapter" !! j = Some cj ->
        (startTime ci < startTime cj)%Q).
Proof.
  assert (Hd : (0 < 100)%Q) by reflexivity.
  assert (Hc : (1 <= 5)%nat) by lia.
  assert (Hn : (Z.of_nat 5 < 2 ^ 32)%Z) by reflexivity.
  pose proof (generateEqualChapters_equal_division 100 5 "Chapter" Hd Hc Hn) as H.
  cbv zeta in H. destruct H as (Hlen & _ & _ & _ & _ & _ & Hinc).
  exact (conj Hd (conj Hc (conj Hn (conj Hlen (Hinc twenty_seconds_segment))))).
Defined.

(** C3 as stated fails: the least double, 5e-324, is a duration above 0,
    and half of it is rounded to 0, so that both of its two chapters start
    at 0. *)
Lemma generateEqualChapters_underflows :
  (0 < pow2 (-1074))%Q /\ (1 <= 2)%nat /\ (Z.of_nat 2 < 2 ^ 32)%Z
  /\ (round64 (pow2 (-1074)) == pow2 (-1074))%Q
  /\ map (fun c => Qred (startTime c)) (generateEqualChapters (pow2 (-1074)) 2 "Chapter")
     = [0%Q; 0%Q]
  /\ exists ci cj,
       generateEqualChapters (pow2 (-1074)) 2 "Chapter" !! 0%nat = Some ci
       /\ generateEqualChapters (pow2 (-1074)) 2 "Chapter" !! 1%nat = Some cj
       /\ ~ (startTime ci < startTime cj)%Q.
Proof.
  split; [apply pow2_pos|]. split; [lia|]. split; [reflexivity|].
  split; [apply round64_pow2; lia|].
  split; [vm_compute; reflexivity|].
  eexists _, _. split; [reflexivity|]. split; [reflexivity|].
  vm_compute. discriminate.
Qed.

(** The scenario of the specification: 100 s in 5 chapters. *)
Example generateEqualChapters_100_5 :
  map (fun c => (title c, Qred (startTime c))) (generateEqualChapters 100 5 "Chapter")
  = [("Chapter 1"%string, 0%Q); ("Chapter 2"%string, 20%Q);
     ("Chapter 3"%string, 40%Q); ("Chapter 4"%string, 60%Q);
     ("Chapter 5"%string, 80%Q)].
Proof. reflexivity. Qed.

(** ** Chapter tracking *)

Import App.

Lemma Qlt_bool_iff (x y : Q) : Qlt_bool x y = true <-> (x < y)%Q.
Proof.
  unfold Qlt_bool. rewrite negb_true_iff. split.
  - intros H. apply Qnot_le_lt. intros Hle.
    apply Qle_bool_iff in Hle. congruence.
  - intros H. destruct (Qle_bool y x) eqn:E; [|reflexivity].
    apply Qle_bool_iff in E. exfalso. exact (Qlt_not_le _ _ H E).
Qed.

Lemma Qle_bool_false (x y : Q) : Qle_bool x y = false <-> (y < x)%Q.
Proof.
  rewrite <- Qlt_bool_iff. unfold Qlt_bool. now rewrite negb_true_iff.
Qed.

(** [findIndex] returns the first index at which the callback holds. *)
Lemma findIndex_from_spec {A : Type} (p : A -> nat -> bool) (l : list A) (i : nat) :
  (findIndex_from p i l = (-1)%Z
   /\ forall k x, l !! k = Some x -> p x (i + k)%nat = false)
  \/ (exists k x, findIndex_from p i l = Z.of_nat (i + k)
        /\ l !! k = Some x /\ p x (i + k)%nat = true
        /\ forall k' x', (k' < k)%nat -> l !! k' = Some x' -> p x' (i + k')%nat = false).
Proof.
  revert i. induction l as [|a l IH]; intros i; simpl.
  - left. split; [reflexivity|]. intros k x H. discriminate.
  - destruct (p a i) eqn:Hp.
    + right. exists 0%nat, a. rewrite Nat.add_0_r.
      repeat split; try assumption. intros k' x' Hk. lia.
    + destruct (IH (S i)) as [[Hn Hall] | (k & x & Hf & Hl & Hpx & Hbefore)].
      * left. split; [assumption|]. intros [|k] x Hk; simpl in Hk.
        -- injection Hk as <-. now rewrite Nat.add_0_r.
        -- specialize (Hall k x Hk). now rewrite Nat.add_succ_r.
      * right. exists (S k), x. rewrite Nat.add_succ_r.
        repeat split; try assumption.
        intros [|k'] x' Hlt Hk'; simpl in Hk'.
        -- injection Hk' as <-. now rewrite Nat.add_0_r.
        -- rewrite Nat.add_succ_r. apply (Hbefore k' x'); [lia | assumption].
Qed.

(** The caller supplies the chapters in ascending order of start time. *)
Definition ascending (chapters : list Chapter) : Prop :=
  forall i j ci cj, (i <= j)%nat ->
    chapters !! i = Some ci -> chapters !! j = Some cj ->
    (startOf ci <= startOf cj)%Q.

(** [m] is the greatest index whose chapter has started at time [t]. *)
Definition greatestStarted (chapters : list Chapter) (t : Q) (m : nat) : Prop :=
  (exists ch, chapters !! m = Some ch /\ (startOf ch <= t)%Q)
  /\ (forall j cj, chapters !! j = Some cj -> (startOf cj <= t)%Q -> (j <= m)%nat)
  /\ (forall next, chapters !! (m + 1)%nat = Some next -> (t < startOf next)%Q).

Definition noneStarted (chapters : list Chapter) (t : Q) : Prop :=
  forall j cj, chapters !! j = Some cj -> (t < startOf cj)%Q.

Lemma inChapter_true (chapters : list Chapter) (t : Q) (ch : Chapter) (k : nat) :
  inChapter chapters t ch k = true ->
  (startOf ch <= t)%Q
  /\ forall next, chapters !! (k + 1)%nat = Some next -> (t < startOf next)%Q.
Proof.
  unfold inChapter. intros H. apply andb_true_iff in H as [H1 H2].
  apply Qle_bool_iff in H1. split; [assumption|].
  intros next Hn. rewrite Hn in H2. now apply Qlt_bool_iff.
Qed.

Lemma none_in_chapter_none_started (chapters : list Chapter) (t : Q) :
  (forall k ch, chapters !! k = Some ch -> inChapter chapters t ch k = false) ->
  noneStarted chapters t.
Proof.
  intros Hall.
  assert (H : forall d j cj, length chapters = (j + S d)%nat ->
                chapters !! j = Some cj -> (t < startOf cj)%Q).
  { induction d as [|d IH]; intros j cj Hlen Hj.
    - specialize (Hall j cj Hj). unfold inChapter in Hall.
      rewrite (lookup_ge_None_2 chapters (j + 1)) in Hall by lia.
      rewrite andb_true_r in Hall. now apply Qle_bool_false.
    - destruct (lookup_lt_is_Some_2 chapters (j + 1)) as [next Hn]; [lia|].
      assert (Hnext : (t < startOf next)%Q) by (apply (IH (j + 1)%nat); [lia | assumption]).
      specialize (Hall j cj Hj). unfold inChapter in Hall. rewrite Hn in Hall.
      apply Qlt_bool_iff in Hnext. rewrite Hnext, andb_true_r in Hall.
      now apply Qle_bool_false. }
  intros j cj Hj.
  pose proof (lookup_lt_Some _ _ _ Hj) as Hlt.
  apply (H (length chapters - S j)%nat j cj); [lia | assumption].
Qed.

(** What [onVideoTimeUpdate] computes on an ascending list. *)
Lemma trackerIndex_spec (chapters : list Chapter) (t : Q) :
  ascending chapters ->
  (trackerIndex chapters t = (-1)%Z /\ noneStarted chapters t)
  \/ (exists m, trackerIndex chapters t = Z.of_nat m /\ greatestStarted chapters t m).
Proof.
  intros Hasc. unfold trackerIndex, findIndex.
  destruct (findIndex_from_spec (inChapter chapters t) chapters 0)
    as [[Hn Hall] | (k & x & Hf & Hl & Hpx & _)].
  - left. split; [assumption|]. now apply none_in_chapter_none_started.
  - right. exists k. simpl in Hf, Hpx. split; [assumption|].
    apply inChapter_true in Hpx as [Hle Hnext].
    split; [|split].
    + now exists x.
    + intros j cj Hj Hjt.
      destruct (Nat.le_gt_cases j k) as [|Hgt]; [assumption|exfalso].
      destruct (lookup_lt_is_Some_2 chapters (k + 1)) as [next Hn].
      { apply lookup_lt_Some in Hj. lia. }
      specialize (Hnext next Hn).
      assert (Hs : (startOf next <= startOf cj)%Q)
        by (apply (Hasc (k + 1)%nat j); [lia | assumption | assumption]).
      apply (Qlt_not_le _ _ Hnext). now apply Qle_trans with (startOf cj).
    + assumption.
Qed.

(** The two cases exclude each other. *)
Lemma trackerIndex_not_both (chapters : list Chapter) (t : Q) (m : nat) :
  noneStarted chapters t -> greatestStarted chapters t m -> False.
Proof.
  intros Hnone ((ch & Hm & Hle) & _). apply (Qlt_not_le _ _ (Hnone m ch Hm) Hle).
Qed.

Lemma onVideoTimeUpdate_index (st : Component) (s : State) (video : nat) :
  videoPlayerRef st = Some video ->
  let index := trackerIndex (chapters st) (currentTime (element video s)) in
  (index = (-1)%Z -> onVideoTimeUpdate st s = st)
  /\ (index <> (-1)%Z -> currentChapterIndex (onVideoTimeUpdate st s) = index).
Proof.
  intros Hv index. unfold onVideoTimeUpdate, timeUpdateAssignment.
  rewrite Hv. fold index. split; intros Hi.
  - rewrite Hi. reflexivity.
  - destruct (index =? -1)%Z eqn:E1; [apply Z.eqb_eq in E1; contradiction|].
    destruct (currentChapterIndex st =? index)%Z eqn:E2; simpl.
    + now apply Z.eqb_eq in E2.
    + reflexivity.
Qed.

Lemma onVideoTimeUpdate_idempotent (st : Component) (s : State) :
  onVideoTimeUpdate (onVideoTimeUpdate st s) s = onVideoTimeUpdate st s.
Proof.
  assert (Hstep : forall st', onVideoTimeUpdate st' s
            = match timeUpdateAssignment st' s with
              | Some index => set_currentChapterIndex index st'
              | None => st'
              end) by reflexivity.
  rewrite (Hstep st).
  destruct (timeUpdateAssignment st s) as [i|] eqn:E.
  - rewrite Hstep.
    unfold timeUpdateAssignment in *. simpl.
    destruct (videoPlayerRef st) as [video|]; [|discriminate].
    match type of E with (if ?b then _ else _) = _ => destruct b; [|discriminate] end.
    injection E as <-. rewrite Z.eqb_refl, andb_false_r. reflexivity.
  - rewrite Hstep, E. reflexivity.
Qed.

(** C2, as the code has it. On an ascending chapter list a time update sets
    [currentChapterIndex] to the greatest index whose chapter has started
    (the next one, if any, has not) whenever there is one; when no chapter
    has started the stored index is left as it is. The recomputation is
    idempotent, and the stored index is assigned only when the computed
    index differs from it. *)
Theorem onVideoTimeUpdate_tracks (st : Component) (s : State) (video : nat) :
  videoPlayerRef st = Some video ->
  ascending (chapters st) ->
  let t := currentTime (element video s) in
  ((exists m, greatestStarted (chapters st) t m
              /\ currentChapterIndex (onVideoTimeUpdate st s) = Z.of_nat m)
   \/ (noneStarted (chapters st) t /\ onVideoTimeUpdate st s = st))
  /\ onVideoTimeUpdate (onVideoTimeUpdate st s) s = onVideoTimeUpdate st s
  /\ (forall i, timeUpdateAssignment st s = Some i ->
        i <> currentChapterIndex st /\ i = trackerIndex (chapters st) t)
  /\ (trackerIndex (chapters st) t = currentChapterIndex st ->
        timeUpdateAssignment st s = None).
Proof.
  intros Hv Hasc t.
  destruct (onVideoTimeUpdate_index st s video Hv) as [Hnone Hsome].
  fold t in Hnone, Hsome.
  split; [|split; [|split]].
  - destruct (trackerIndex_spec (chapters st) t Hasc) as [[Hi Hn] | (m & Hi & Hg)].
    + right. split; [assumption|]. now apply Hnone.
    + left. exists m. split; [assumption|]. rewrite <- Hi. apply Hsome. lia.
  - apply onVideoTimeUpdate_idempotent.
  - intros i. unfold timeUpdateAssignment. rewrite Hv. fold t.
    destruct (trackerIndex (chapters st) t =? -1)%Z; simpl; [discriminate|].
    destruct (currentChapterIndex st =? trackerIndex (chapters st) t)%Z eqn:E;
      simpl; [discriminate|].
    intros [= <-]. apply Z.eqb_neq in E. split; congruence.
  - intros Heq. unfold timeUpdateAssignment. rewrite Hv. fold t.
    rewrite Heq, Z.eqb_refl, andb_false_r. reflexivity.
Qed.

(** A playing video element of the given duration at playback time [t],
    and a page that holds just that element. *)
Definition videoOf (duration t : Q) : HTMLVideoElement :=
  mkVideo "/test-video.mp4" "/test-video.mp4" None "" false false (Num duration) t 4
    false None (Some "frame"%string) [].

Definition pageOf (duration t : Q) : State :=
  mkState [videoOf duration t] 0 [] 1 [] false None.

Definition videoAt (t : Q) : HTMLVideoElement := videoOf 100 t.

Definition pageAt (t : Q) : State := pageOf 100 t.

(** The chapters that start at the given times. *)
Definition chaptersAt (starts : list Q) : list Chapter :=
  map (fun t => mkChapter (mkChapterDefinition "Chapter" t) None) starts.

Definition tracking (starts : list Q) (index : Z) : Component :=
  mkComponent false false false (Some 0%nat) (chaptersAt starts) index.

(** Decides [ascending] on a list of at most [n] given start times. *)
Tactic Notation "ascending_upto" integer(n) :=
  let i := fresh "i" in let j := fresh "j" in
  let Hij := fresh "Hij" in let Hi := fresh "Hi" in let Hj := fresh "Hj" in
  intros i j ? ? Hij Hi Hj;
  do n (destruct j as [|j];
        [ do n (destruct i as [|i];
                [ first [ exfalso; lia
                        | cbn in Hi, Hj; injection Hi as <-; injection Hj as <-;
                          cbn; discriminate ] | ]);
          exfalso; lia | ]);
  cbn in Hj; discriminate.

Lemma ascending_0_20_40_60_80 : ascending (chaptersAt [0; 20; 40; 60; 80]%Q).
Proof. ascending_upto 5. Qed.

Lemma onVideoTimeUpdate_tracks_witness :
  videoPlayerRef (tracking [0; 20; 40; 60; 80]%Q (-1)) = Some 0%nat
  /\ ascending (chaptersAt [0; 20; 40; 60; 80]%Q)
  /\ onVideoTimeUpdate
       (onVideoTimeUpdate (tracking [0; 20; 40; 60; 80]%Q (-1)) (pageAt 45)) (pageAt 45)
     = onVideoTimeUpdate (tracking [0; 20; 40; 60; 80]%Q (-1)) (pageAt 45).
Proof.
  split; [reflexivity|]. split; [exact ascending_0_20_40_60_80|].
  exact (proj1 (proj2 (onVideoTimeUpdate_tracks
           (tracking [0; 20; 40; 60; 80]%Q (-1)) (pageAt 45) 0 eq_refl
           ascending_0_20_40_60_80))).
Defined.

(** The scenario of the specification: chapters at 0, 20, 40, 60, 80. *)
Example tracker_scenario :
  currentChapterIndex (onVideoTimeUpdate (tracking [0; 20; 40; 60; 80]%Q (-1)) (pageAt 45)) = 2%Z
  /\ currentChapterIndex (onVideoTimeUpdate (tracking [0; 20; 40; 60; 80]%Q 2) (pageAt 79.999)) = 3%Z
  /\ currentChapterIndex (onVideoTimeUpdate (tracking [0; 20; 40; 60; 80]%Q 3) (pageAt 80)) = 4%Z.
Proof. repeat split; reflexivity. Qed.

(** C2 as stated fails: with chapters at 10 s and 20 s, the second one
    current and the playback position back at 5 s, no chapter has started,
    yet the stored index stays 1 instead of becoming -1. *)
Lemma onVideoTimeUpdate_keeps_index_before_first_chapter :
  ascending (chaptersAt [10; 20]%Q)
  /\ noneStarted (chaptersAt [10; 20]%Q) (currentTime (element 0 (pageAt 5)))
  /\ currentChapterIndex (onVideoTimeUpdate (tracking [10; 20]%Q 1) (pageAt 5)) = 1%Z
  /\ currentChapterIndex (onVideoTimeUpdate (tracking [10; 20]%Q 1) (pageAt 5)) <> (-1)%Z.
Proof.
  split; [|split; [|split]].
  - ascending_upto 2.
  - intros j cj Hj.
    do 2 (destruct j as [|j]; [cbn in Hj; injection Hj as <-; reflexivity|]).
    cbn in Hj. discriminate.
  - reflexivity.
  - discriminate.
Qed.

(** ** Chapter navigation *)

Definition isPlay (video : nat) (a : Action) : bool :=
  match a with
  | Play id => (id =? video)%nat
  | _ => false
  end.

(** The number of [video.play()] calls in a log. *)
Definition plays (video : nat) (l : list Action) : nat :=
  length (List.filter (isPlay video) l).

(** What [goToChapter] does on the platform up to its first [play()]. *)
Definition seekLog (video : nat) (chapter : Chapter) (s : State) : list Action :=
  [ ConsoleLog ("Seeking to chapter: " ++ title (definition chapter));
    SetCurrentTime video (startOf chapter);
    AddEventListener video ev_seeked onSeekedResume true;
    SetTimeout (nextTimerId s) cbResume 500;
    RemoveEventListener video ev_seeked onSeekedResume ].

(** What follows the first [play()]: nothing when it is accepted; when it
    is rejected, the warning, the second [play()], and one more line if
    that one fails too. *)
Definition retryLog (video : nat) (env : NavEnv) : list Action :=
  match firstPlay env with
  | PlayRejects =>
      [ ConsoleWarn "Autoplay was blocked"; Play video ]
      ++ match secondPlay env with
         | PlayResolves => []
         | PlayRejects => [ ConsoleWarn "Video play failed" ]
         | PlayReturnsUndefined => [ ConsoleError "Error seeking to chapter" ]
         end
  | _ => []
  end.

Lemma goToChapter_returns (chapter : Chapter) (env : NavEnv) (st : Component) (s : State) :
  exists st' s', goToChapter chapter env st s = Returned (st', s').
Proof.
  unfold goToChapter, goToChapterPlayer, goToChapterVideo.
  destruct (useVimeo st).
  - destruct (negb (playerRefPlayer st) && negb (playerInstance st));
      [eauto|]. destruct (playerSeekOk env); [|eauto].
    destruct (playerPlayOk env); eauto.
  - destruct (videoPlayerRef st); [|eauto].
    destruct (firstPlay env); eauto. destruct (secondPlay env); eauto.
Qed.

Lemma awaitSeeked_log (video : nat) (env : NavEnv) (s : State) :
  log (awaitSeeked video env s)
  = log s ++ [ AddEventListener video ev_seeked onSeekedResume true;
               SetTimeout (nextTimerId s) cbResume 500;
               RemoveEventListener video ev_seeked onSeekedResume ].
Proof.
  unfold awaitSeeked. simpl. destruct (seekedFires env); simpl;
    now rewrite <- !app_assoc.
Qed.

(** C8. Chapter navigation never throws. On the HTML5 element it asks for
    playback once after the seek; if that request is rejected it logs a
    warning and asks exactly once more, and a failure of the second request
    is only logged. *)
Theorem goToChapter_one_retry
    (chapter : Chapter) (env : NavEnv) (st : Component) (s : State) (video : nat) :
  useVimeo st = false ->
  videoPlayerRef st = Some video ->
  exists st' s',
    goToChapter chapter env st s = Returned (st', s')
    /\ log s' = log s ++ seekLog video chapter s ++ [Play video] ++ retryLog video env
    /\ plays video (log s')
       = (plays video (log s)
          + match firstPlay env with PlayRejects => 2 | _ => 1 end)%nat
    /\ (firstPlay env = PlayRejects ->
        In (ConsoleWarn "Autoplay was blocked") (retryLog video env)).
Proof.
  intros Hu Hv.
  destruct (goToChapter_returns chapter env st s) as (st' & s' & Hret).
  exists st', s'. split; [assumption|].
  assert (Hlog : log s' = log s ++ seekLog video chapter s ++ [Play video]
                          ++ retryLog video env).
  { unfold goToChapter, goToChapterVideo in Hret. rewrite Hu, Hv in Hret.
    unfold retryLog, seekLog.
    destruct (firstPlay env), (secondPlay env);
      injection Hret as _ <-; simpl;
      rewrite ?awaitSeeked_log; simpl; rewrite <- ?app_assoc; reflexivity. }
  split; [assumption|]. split.
  - rewrite Hlog. unfold plays, retryLog, seekLog.
    rewrite !List.filter_app, !length_app.
    destruct (firstPlay env); try destruct (secondPlay env);
      simpl; rewrite ?Nat.eqb_refl; simpl; lia.
  - intros Hr. unfold retryLog. rewrite Hr. simpl. now left.
Qed.

Definition blockedOnce : NavEnv := mkNavEnv true PlayRejects PlayRejects true true.

Lemma goToChapter_one_retry_witness :
  useVimeo (tracking [0; 20; 40; 60; 80]%Q 0) = false
  /\ videoPlayerRef (tracking [0; 20; 40; 60; 80]%Q 0) = Some 0%nat
  /\ exists st' s',
       goToChapter (mkChapter (mkChapterDefinition "Chapter" 40) None) blockedOnce
         (tracking [0; 20; 40; 60; 80]%Q 0) (pageAt 0) = Returned (st', s')
       /\ plays 0 (log s') = 2%nat.
Proof.
  split; [reflexivity|]. split; [reflexivity|].
  destruct (goToChapter_one_retry (mkChapter (mkChapterDefinition "Chapter" 40) None)
              blockedOnce (tracking [0; 20; 40; 60; 80]%Q 0) (pageAt 0) 0 eq_refl eq_refl)
    as (st' & s' & Hret & _ & Hplays & _).
  exists st', s'. split; [exact Hret | exact Hplays].
Defined.

(** The scenario of the specification: seeking to the chapter at 40 s while
    paused, with both play requests rejected. *)
Example goToChapter_scenario :
  exists st' s',
    goToChapter (mkChapter (mkChapterDefinition "Chapter" 40) None) blockedOnce
      (tracking [0; 20; 40; 60; 80]%Q 0) (pageAt 0) = Returned (st', s')
    /\ log s'
       = [ ConsoleLog "Seeking to chapter: Chapter"; SetCurrentTime 0 40;
           AddEventListener 0 ev_seeked onSeekedResume true;
           SetTimeout 1 cbResume 500;
           RemoveEventListener 0 ev_seeked onSeekedResume;
           Play 0; ConsoleWarn "Autoplay was blocked"; Play 0;
           ConsoleWarn "Video play failed" ]
    /\ currentChapterIndex st' = 2%Z.
Proof. eexists _, _. split; [reflexivity|]. split; reflexivity. Qed.

(** ** The platform primitives *)

(** [d'] differs from the store [d] at most at handle [i]. *)
Definition only_at (i : nat) (d d' : list HTMLVideoElement) : Prop :=
  length d' = length d /\ forall j, j <> i -> d' !! j = d !! j.

Lemma only_at_refl (i : nat) (d : list HTMLVideoElement) : only_at i d d.
Proof. split; auto. Qed.

Lemma only_at_trans (i : nat) (d1 d2 d3 : list HTMLVideoElement) :
  only_at i d1 d2 -> only_at i d2 d3 -> only_at i d1 d3.
Proof.
  intros [L1 H1] [L2 H2]. split; [congruence|].
  intros j Hj. rewrite H2, H1; auto.
Qed.

Lemma only_at_alter (i : nat) (f : HTMLVideoElement -> HTMLVideoElement)
    (d : list HTMLVideoElement) :
  only_at i d (alter f i d).
Proof.
  split; [apply length_alter|]. intros j Hj. apply list_lookup_alter_ne. congruence.
Qed.

Lemma element_update_element (i : nat) (f : HTMLVideoElement -> HTMLVideoElement)
    (s : State) :
  (i < length (dom s))%nat ->
  element i (update_element i f s) = f (element i s).
Proof.
  intros Hi. unfold element, update_element. simpl.
  rewrite list_lookup_alter_eq.
  destruct (lookup_lt_is_Some_2 (dom s) i Hi) as [v ->]. reflexivity.
Qed.

Lemma length_update_element (i : nat) (f : HTMLVideoElement -> HTMLVideoElement)
    (s : State) :
  length (dom (update_element i f s)) = length (dom s).
Proof. apply length_alter. Qed.

(** Counting the actions of one kind in a log. *)
Definition count (m : Action -> bool) (l : list Action) : nat :=
  length (List.filter m l).

Lemma count_app (m : Action -> bool) (l1 l2 : list Action) :
  count m (l1 ++ l2) = (count m l1 + count m l2)%nat.
Proof. unfold count. now rewrite List.filter_app, length_app. Qed.

Lemma count_quiet (m : Action -> bool) (l : list Action) (a : Action) :
  m a = false -> count m (l ++ [a]) = count m l.
Proof. intros H. rewrite count_app. unfold count at 2. simpl. rewrite H. simpl. lia. Qed.

Lemma Forall_filter_keep {A : Type} (P : A -> Prop) (f : A -> bool) (l : list A) :
  Forall P l -> Forall P (List.filter f l).
Proof.
  induction 1 as [|x l Hx Hl IH]; simpl; [constructor|].
  destruct (f x); [constructor|]; assumption.
Qed.

Lemma Forall_insert_timer (P : Timer -> Prop) (t : Timer) (l : list Timer) :
  P t -> Forall P l -> Forall P (insert_timer t l).
Proof.
  intros Ht. induction 1 as [|u l Hu Hl IH]; simpl.
  - repeat constructor. assumption.
  - destruct (deadline u <=? deadline t)%N; repeat constructor; assumption.
Qed.

Lemma Exists_insert_timer (P : Timer -> Prop) (t : Timer) (l : list Timer) :
  Exists P l -> Exists P (insert_timer t l).
Proof.
  induction 1 as [u l Hu | u l Hl IH]; simpl;
    destruct (deadline u <=? deadline t)%N.
  - now apply Exists_cons_hd.
  - apply Exists_cons_tl. now apply Exists_cons_hd.
  - now apply Exists_cons_tl.
  - do 2 apply Exists_cons_tl. assumption.
Qed.

Lemma weight_insert_timer (t : Timer) (l : list Timer) :
  weight (insert_timer t l) = (weight1 t + weight l)%nat.
Proof.
  unfold weight. induction l as [|u l IH]; simpl; [reflexivity|].
  destruct (deadline u <=? deadline t)%N; simpl; [rewrite IH|]; lia.
Qed.

Lemma weight_filter (f : Timer -> bool) (l : list Timer) :
  (weight (List.filter f l) <= weight l)%nat.
Proof.
  unfold weight. induction l as [|u l IH]; simpl; [lia|].
  destruct (f u); simpl; lia.
Qed.

(** The element that an action names, if it names one. *)
Definition touches (a : Action) : option nat :=
  match a with
  | CreateVideo id | SetSrc id _ | Load id | AddEventListener id _ _ _
  | RemoveEventListener id _ _ | SetCurrentTime id _ | DrawImage id _ _
  | Pause id | Play id => Some id
  | _ => None
  end.

(** The kinds of action that a [cleanup] consists of. *)
Definition releasing (a : Action) : Prop :=
  match a with
  | RemoveEventListener _ _ _ | ClearTimeout _ | SetSrc _ _ | Load _ => True
  | _ => False
  end.

(** The four listeners of a capture. *)
Definition capture_listener (l : Listener) : bool :=
  same_listener ev_loadedmetadata onLoadedMetadata l
  || same_listener ev_canplay onCanPlay l
  || same_listener ev_seeked onSeeked l
  || same_listener ev_error onError l.

Definition is_removal (id : nat) (ev : EventType) (h : Handler) (a : Action) : bool :=
  match a with
  | RemoveEventListener id' ev' h' =>
      (id' =? id)%nat && EventType_eqb ev ev' && Handler_eqb h h'
  | _ => false
  end.

Definition is_clear (tid : nat) (a : Action) : bool :=
  match a with
  | ClearTimeout t => (t =? tid)%nat
  | _ => false
  end.

Definition is_timeout (t : Timer) : Prop := callback t = cbTimeout.

Definition outcomeAction (o : Outcome) : Action :=
  match o with
  | Resolved u => Resolve u
  | Rejected e => Reject e
  end.

Lemma settle_fields (o : Outcome) (s : State) :
  dom (settle o s) = dom s /\ clock (settle o s) = clock s
  /\ timers (settle o s) = timers s /\ nextTimerId (settle o s) = nextTimerId s
  /\ resolved (settle o s) = resolved s
  /\ log (settle o s) = log s ++ [outcomeAction o]
  /\ settled (settle o s) = match settled s with None => Some o | Some x => Some x end.
Proof.
  unfold settle. destruct o, (settled s) eqn:E; simpl; rewrite ?E; repeat split.
Qed.

Lemma element_settle (o : Outcome) (i : nat) (s : State) :
  element i (settle o s) = element i s.
Proof. unfold element. now rewrite (proj1 (settle_fields o s)). Qed.

(** ** One capture in flight *)

(** The two capture functions share their shape: every exit sets
    [resolved], runs [cleanup] and settles the promise; everything else
    starts a timer, seeks, or draws. The invariants of a capture in flight
    are proved once, for any [cleanup] and any program of that shape. *)
Section Capture.
Variable c : Closure.
Variable cleanup : State -> State.
Variable cleanupLog : list Action.   (* what one [cleanup] calls *)
Variable clears : bool.              (* does it clear the overall timeout? *)
Variable tid : nat.                  (* the handle of that timeout *)
Variable P : Program.
Variable s0 : State.                 (* the state once the capture is set up *)
Variable m : Action -> bool.         (* a kind of releasing action, to count *)

Definition onThumb (a : Action) : Prop :=
    forall id, touches a = Some id -> id = thumbVideo c.

Definition kept (t : Timer) : bool := negb (timer_id t =? tid)%nat.

Hypothesis m_releasing : forall a, m a = true -> releasing a.
Hypothesis cleanup_resolved : forall s, resolved (cleanup s) = resolved s.
Hypothesis cleanup_settled : forall s, settled (cleanup s) = settled s.
Hypothesis cleanup_timers : forall s,
    timers (cleanup s) = if clears then List.filter kept (timers s) else timers s.
Hypothesis cleanup_log : forall s, log (cleanup s) = log s ++ cleanupLog.
Hypothesis cleanup_nextTimerId : forall s, nextTimerId (cleanup s) = nextTimerId s.
Hypothesis cleanupLog_onThumb : Forall onThumb cleanupLog.
Hypothesis cleanup_dom : forall s, only_at (thumbVideo c) (dom s) (dom (cleanup s)).
Hypothesis cleanup_listeners : forall s,
    (thumbVideo c < length (dom s))%nat ->
    forallb capture_listener (listeners (element (thumbVideo c) s)) = true ->
    listeners (element (thumbVideo c) (cleanup s)) = [].

  (** What a listener or a timer callback can do to the state. *)
Inductive Eff : State -> State -> Prop :=
    | eff_none s : Eff s s
    | eff_timer s cb ms : cb <> cbTimeout -> Eff s (snd (setTimeout cb ms s))
    | eff_seek s t : Eff s (setCurrentTime (thumbVideo c) t s)
    | eff_draw s : Eff s (emit (DrawImage (thumbVideo c) (width c) (height c)) s)
    | eff_finish s o :
        resolved s = false -> Eff s (settle o (cleanup (set_resolved true s)))
    | eff_then s1 s2 s3 : Eff s1 s2 -> Eff s2 s3 -> Eff s1 s3.

Record Inv (s : State) : Prop := mkInv {
    inv_settled : if resolved s then settled s <> None else settled s = None;
    inv_thumb : (thumbVideo c < length (dom s))%nat;
    inv_frame : only_at (thumbVideo c) (dom s0) (dom s);
    inv_listeners :
      forallb capture_listener (listeners (element (thumbVideo c) s)) = true;
    inv_released : resolved s = true -> listeners (element (thumbVideo c) s) = [];
    inv_timeout_id : Forall (fun t => is_timeout t -> timer_id t = tid) (timers s);
    inv_timeout_gone :
      clears = true -> resolved s = true ->
      Forall (fun t => ~ is_timeout t) (timers s);
    inv_log : exists l, log s = log s0 ++ l /\ Forall onThumb l;
    inv_next : (nextTimerId s0 <= nextTimerId s)%nat;
    inv_count :
      count m (log s)
      = (count m (log s0) + if resolved s then count m cleanupLog else 0)%nat
  }.

  (** While the capture is unresolved its overall timeout is pending. *)
Definition Armed (s : State) : Prop :=
    resolved s = false -> Exists is_timeout (timers s).

Lemma m_quiet (a : Action) : ~ releasing a -> m a = false.
  Proof.
    intros H. destruct (m a) eqn:E; [|reflexivity].
    exfalso. apply H. now apply m_releasing.
  Qed.

Lemma Inv_emit (a : Action) (s : State) :
    ~ releasing a -> onThumb a -> Inv s -> Inv (emit a s).
  Proof.
    intros Hq Ht [].
    constructor; simpl; try assumption.
    - destruct inv_log0 as (l & Hl & Hall). exists (l ++ [a]).
      rewrite Hl, app_assoc. split; [reflexivity|].
      apply Forall_app_2; [assumption | repeat constructor; assumption].
    - rewrite count_quiet by now apply m_quiet. assumption.
  Qed.

Lemma Inv_update (f : HTMLVideoElement -> HTMLVideoElement) (s : State) :
    (forall v, forallb capture_listener (listeners v) = true ->
               forallb capture_listener (listeners (f v)) = true) ->
    (forall v, listeners v = [] -> listeners (f v) = []) ->
    Inv s -> Inv (update_element (thumbVideo c) f s).
  Proof.
    intros Hf1 Hf2 [].
    assert (He : element (thumbVideo c) (update_element (thumbVideo c) f s)
                 = f (element (thumbVideo c) s))
      by now apply element_update_element.
    constructor; try assumption.
    - now rewrite length_update_element.
    - eapply only_at_trans; [eassumption | apply only_at_alter].
    - rewrite He. auto.
    - intros Hr. rewrite He. auto.
  Qed.

Lemma kept_not_timeout (l : list Timer) :
    Forall (fun t => is_timeout t -> timer_id t = tid) l ->
    Forall (fun t => ~ is_timeout t) (List.filter kept l).
  Proof.
    induction 1 as [|t l Ht Hl IH]; simpl; [constructor|].
    unfold kept at 1. destruct (timer_id t =? tid)%nat eqn:E; simpl; [assumption|].
    constructor; [|assumption].
    intros Hto. apply Ht in Hto. apply Nat.eqb_neq in E. contradiction.
  Qed.

Lemma Inv_finish (o : Outcome) (s : State) :
    resolved s = false -> Inv s -> Inv (settle o (cleanup (set_resolved true s))).
  Proof.
    intros Hr [].
    set (s1 := set_resolved true s).
    destruct (settle_fields o (cleanup s1))
      as (Hdom & _ & Htimers & Hnext & Hres & Hlog & Hset).
    assert (Hres' : resolved (settle o (cleanup s1)) = true)
      by now rewrite Hres, cleanup_resolved.
    assert (Hlis : listeners (element (thumbVideo c) (settle o (cleanup s1))) = [])
      by (rewrite element_settle; now apply cleanup_listeners).
    rewrite Hr in inv_settled0, inv_count0.
    subst s1.
    constructor.
    - rewrite Hres', Hset, cleanup_settled. simpl. now rewrite inv_settled0.
    - rewrite Hdom. now rewrite (proj1 (cleanup_dom _)).
    - rewrite Hdom. eapply only_at_trans; [eassumption | apply (cleanup_dom (set_resolved true s))].
    - now rewrite Hlis.
    - intros _. assumption.
    - rewrite Htimers, cleanup_timers. simpl. destruct clears; [|assumption].
      now apply Forall_filter_keep.
    - intros Hc _. rewrite Htimers, cleanup_timers, Hc. simpl.
      now apply kept_not_timeout.
    - destruct inv_log0 as (l & Hl & Hall).
      exists (l ++ cleanupLog ++ [outcomeAction o]).
      rewrite Hlog, cleanup_log. simpl. rewrite Hl, <- !app_assoc.
      split; [reflexivity|].
      apply Forall_app_2; [assumption|].
      apply Forall_app_2; [assumption|].
      repeat constructor. intros id. destruct o; discriminate.
    - rewrite Hnext, cleanup_nextTimerId. assumption.
    - rewrite Hres', Hlog, cleanup_log. simpl.
      rewrite count_quiet by (apply m_quiet; destruct o; simpl; tauto).
      rewrite count_app, inv_count0. lia.
  Qed.

Lemma Inv_eff (s s' : State) : Eff s s' -> Inv s -> Inv s'.
  Proof.
    induction 1 as [s | s cb ms Hcb | s t | s | s o Hr | s1 s2 s3 _ IH1 _ IH2];
      intros HI.
    - assumption.
    - apply Inv_emit; [simpl; tauto | intros id; discriminate |].
      destruct HI. constructor; simpl; try assumption.
      + apply Forall_insert_timer; [|assumption].
        intros Hto. unfold is_timeout in Hto. simpl in Hto. contradiction.
      + intros Hc Hres. apply Forall_insert_timer; [|auto].
        unfold is_timeout. simpl. assumption.
      + lia.
    - destruct t as [|q]; [assumption|]. unfold setCurrentTime.
      apply Inv_emit; [simpl; tauto | intros id [= <-]; reflexivity |].
      apply Inv_update; auto.
    - apply Inv_emit; [simpl; tauto | intros id [= <-]; reflexivity | assumption].
    - now apply Inv_finish.
    - auto.
  Qed.

Lemma Armed_eff (s s' : State) : Eff s s' -> Armed s -> Armed s'.
  Proof.
    induction 1 as [s | s cb ms Hcb | s t | s | s o Hr | s1 s2 s3 _ IH1 _ IH2];
      intros HA.
    - assumption.
    - intros Hres. simpl in *. apply Exists_insert_timer. auto.
    - destruct t as [|q]; assumption.
    - assumption.
    - intros Hres.
      rewrite (proj1 (proj2 (proj2 (proj2 (proj2 (settle_fields o _)))))) in Hres.
      rewrite cleanup_resolved in Hres. discriminate.
    - auto.
  Qed.

  (** *** The event loop keeps the invariants *)

Hypothesis invoke_eff : forall h s, Eff s (invoke P h s).
Hypothesis fire_eff : forall cb s, Eff s (fire P cb s).
Hypothesis fire_timeout :
    forall s, resolved s = false -> resolved (fire P cbTimeout s) = true.
Hypothesis fire_weight : forall t s,
    (weight (timers (fire P (callback t) s)) + 1 <= weight (timers s) + weight1 t)%nat.

Definition Live (s : State) : Prop := Inv s /\ Armed s.

Lemma Live_eff (s s' : State) : Eff s s' -> Live s -> Live s'.
  Proof. intros He [HI HA]. split; [eapply Inv_eff | eapply Armed_eff]; eauto. Qed.

Lemma Inv_pop (k : N) (t : Timer) (rest : list Timer) (s : State) :
    Inv s -> timers s = t :: rest -> Inv (set_clock k (set_timers rest s)).
  Proof.
    intros [] Ht. rewrite Ht in *.
    constructor; simpl; try assumption.
    - eapply Forall_inv_tail; eassumption.
    - intros Hc Hr. eapply Forall_inv_tail; eauto.
  Qed.

Lemma Live_fire_next (t : Timer) (rest : list Timer) (s : State) :
    Live s -> timers s = t :: rest -> Live (fire_next P t rest s).
  Proof.
    intros [HI HA] Ht. unfold fire_next.
    set (s1 := set_clock (N.max (clock s) (deadline t)) (set_timers rest s)).
    assert (HI1 : Inv s1) by (eapply Inv_pop; eassumption).
    split; [eapply Inv_eff; [apply fire_eff | assumption]|].
    destruct (resolved s) eqn:Hr.
    - eapply Armed_eff; [apply fire_eff|]. intros Hr1. simpl in Hr1. congruence.
    - specialize (HA Hr). rewrite Ht in HA.
      apply Exists_cons in HA as [Hto | Hrest].
      + unfold is_timeout in Hto. rewrite Hto. intros Hr'.
        rewrite fire_timeout in Hr' by assumption. discriminate.
      + eapply Armed_eff; [apply fire_eff|]. intros _. assumption.
  Qed.

Lemma forallb_filter_keep {A : Type} (p f : A -> bool) (l : list A) :
    forallb p l = true -> forallb p (List.filter f l) = true.
  Proof.
    induction l as [|x l IH]; simpl; [auto|].
    intros H. apply andb_true_iff in H as [Hx Hl].
    destruct (f x); simpl; [rewrite Hx|]; auto.
  Qed.

Lemma Live_update (f : HTMLVideoElement -> HTMLVideoElement) (s : State) :
    (forall v, forallb capture_listener (listeners v) = true ->
               forallb capture_listener (listeners (f v)) = true) ->
    (forall v, listeners v = [] -> listeners (f v) = []) ->
    Live s -> Live (update_element (thumbVideo c) f s).
  Proof.
    intros Hf1 Hf2 [HI HA]. split; [now apply Inv_update|]. exact HA.
  Qed.

Lemma Live_deliver (s : State) (l : Listener) :
    Live s -> Live (deliver P (thumbVideo c) s l).
  Proof.
    intros HL. unfold deliver.
    destruct (registered l (element (thumbVideo c) s)); [|assumption].
    eapply Live_eff; [apply invoke_eff|].
    destruct (l_once l); [|assumption].
    apply Live_update; [| |assumption]; intros v Hv; simpl.
    - now apply forallb_filter_keep.
    - now rewrite Hv.
  Qed.

Lemma Live_dispatch (ev : EventType) (s : State) :
    Live s -> Live (dispatch P (thumbVideo c) ev s).
  Proof.
    unfold dispatch.
    generalize (List.filter (same_type ev) (listeners (element (thumbVideo c) s))).
    intros ls. revert s. induction ls as [|l ls IH]; intros s HL; simpl.
    - assumption.
    - apply IH. now apply Live_deliver.
  Qed.

Lemma Live_set_clock (k : N) (s : State) : Live s -> Live (set_clock k s).
  Proof. intros [[] HA]. split; [constructor; assumption | exact HA]. Qed.

Lemma Live_advance_loop (fuel : nat) (target : N) (s : State) :
    Live s -> Live (advance_loop P fuel target s).
  Proof.
    revert s. induction fuel as [|fuel IH]; intros s HL; simpl; [assumption|].
    destruct (timers s) as [|t rest] eqn:Ht; [assumption|].
    destruct (deadline t <=? target)%N; [|assumption].
    apply IH. now apply Live_fire_next.
  Qed.

Lemma Live_step (e : Event) (s : State) :
    Live s -> Live (step P (thumbVideo c) s e).
  Proof.
    intros HL. destruct e as [ms | d | ev]; simpl.
    - unfold advance. apply Live_set_clock. now apply Live_advance_loop.
    - apply Live_update; auto.
    - now apply Live_dispatch.
  Qed.

Lemma Live_run (script : list Event) (s : State) :
    Live s -> Live (run P (thumbVideo c) script s).
  Proof.
    unfold run. revert s. induction script as [|e script IH]; intros s HL; simpl.
    - assumption.
    - apply IH. now apply Live_step.
  Qed.

Lemma drain_loop_empties (fuel : nat) (s : State) :
    Live s -> (weight (timers s) <= fuel)%nat ->
    Live (drain_loop P fuel s) /\ timers (drain_loop P fuel s) = [].
  Proof.
    revert s. induction fuel as [|fuel IH]; intros s HL Hw; simpl.
    - split; [assumption|].
      destruct (timers s) as [|t rest]; [reflexivity|].
      unfold weight in Hw. simpl in Hw. unfold weight1 in Hw.
      destruct (callback t); lia.
    - destruct (timers s) as [|t rest] eqn:Ht; [now split|].
      apply IH; [now apply Live_fire_next|].
      unfold fire_next.
      pose proof (fire_weight t
        (set_clock (N.max (clock s) (deadline t)) (set_timers rest s))) as Hf.
      simpl in Hf. unfold weight in Hw. simpl in Hw. fold (weight rest) in Hw. lia.
  Qed.

  (** [advance] has fuel for every timer that is due: it stops only when
      none is left or the next one is due later. *)
Lemma advance_loop_fires_all_due (fuel : nat) (target : N) (s : State) :
    (weight (timers s) <= fuel)%nat ->
    match timers (advance_loop P fuel target s) with
    | [] => True
    | t :: _ => (target < deadline t)%N
    end.
  Proof.
    revert s. induction fuel as [|fuel IH]; intros s Hw; simpl.
    - destruct (timers s) as [|t rest]; [exact I|].
      unfold weight in Hw. simpl in Hw. unfold weight1 in Hw.
      destruct (callback t); lia.
    - destruct (timers s) as [|t rest] eqn:Ht; [now rewrite Ht|].
      destruct (deadline t <=? target)%N eqn:Hd.
      + apply IH. unfold fire_next.
        pose proof (fire_weight t
          (set_clock (N.max (clock s) (deadline t)) (set_timers rest s))) as Hf.
        simpl in Hf. unfold weight in Hw. simpl in Hw. fold (weight rest) in Hw. lia.
      + rewrite Ht. now apply N.leb_gt.
  Qed.

  (** The event loop runs every capture to its end: once no timer is left
      the promise is settled. *)
Lemma drain_settles (s : State) :
    Live s ->
    Live (drain P s) /\ timers (drain P s) = []
    /\ resolved (drain P s) = true /\ settled (drain P s) <> None.
  Proof.
    intros HL. unfold drain.
    destruct (drain_loop_empties (weight (timers s)) s HL (le_n _)) as [HL' He].
    split; [assumption|]. split; [assumption|].
    destruct HL' as [HI HA].
    assert (Hr : resolved (drain_loop P (weight (timers s)) s) = true).
    { destruct (resolved _) eqn:Hr; [reflexivity|].
      specialize (HA Hr). rewrite He in HA. inversion HA. }
    split; [assumption|].
    pose proof (inv_settled _ HI) as Hs. now rewrite Hr in Hs.
  Qed.
End Capture.

(** ** [captureVideoFrameFromElement] in flight *)

Lemma element_emit (i : nat) (a : Action) (s : State) :
  element i (emit a s) = element i s.
Proof. reflexivity. Qed.

Lemma drop_all_capture_listeners (l : list Listener) :
  forallb capture_listener l = true ->
  List.filter (fun x => negb (same_listener ev_canplay onCanPlay x))
    (List.filter (fun x => negb (same_listener ev_loadedmetadata onLoadedMetadata x))
       (List.filter (fun x => negb (same_listener ev_error onError x))
          (List.filter (fun x => negb (same_listener ev_seeked onSeeked x)) l)))
  = [].
Proof.
  induction l as [|x l IH]; simpl; [reflexivity|].
  intros H. apply andb_true_iff in H as [Hx Hl]. specialize (IH Hl).
  unfold capture_listener in Hx.
  destruct (same_listener ev_seeked onSeeked x) eqn:E1; simpl; [assumption|].
  destruct (same_listener ev_error onError x) eqn:E2; simpl; [assumption|].
  destruct (same_listener ev_loadedmetadata onLoadedMetadata x) eqn:E3; simpl;
    [assumption|].
  destruct (same_listener ev_canplay onCanPlay x) eqn:E4; simpl; [assumption|].
  discriminate.
Qed.

Module FromElementFacts.
Import FromElement.

Section Facts.
Variable c : Closure.
Variable tid : nat.
Hypothesis timeoutId_c : timeoutId c = Some tid.
Hypothesis tid_positive : tid <> 0%nat.

  (** What one [cleanup()] calls, in order. *)
Definition el_cleanupLog : list Action :=
    [ ClearTimeout tid;
      RemoveEventListener (thumbVideo c) ev_seeked onSeeked;
      RemoveEventListener (thumbVideo c) ev_error onError;
      RemoveEventListener (thumbVideo c) ev_loadedmetadata onLoadedMetadata;
      RemoveEventListener (thumbVideo c) ev_canplay onCanPlay;
      SetSrc (thumbVideo c) "";
      Load (thumbVideo c) ].

Lemma el_cleanup_unfold (s : State) :
    cleanup c s
    = load (thumbVideo c)
        (setSrc (thumbVideo c) ""
           (removeEventListener (thumbVideo c) ev_canplay onCanPlay
              (removeEventListener (thumbVideo c) ev_loadedmetadata onLoadedMetadata
                 (removeEventListener (thumbVideo c) ev_error onError
                    (removeEventListener (thumbVideo c) ev_seeked onSeeked
                       (clearTimeout tid s)))))).
  Proof.
    unfold cleanup. rewrite timeoutId_c.
    destruct (tid =? 0)%nat eqn:E; [apply Nat.eqb_eq in E; contradiction|].
    reflexivity.
  Qed.

Lemma el_cleanup_resolved (s : State) : resolved (cleanup c s) = resolved s.
  Proof. now rewrite el_cleanup_unfold. Qed.

Lemma el_cleanup_settled (s : State) : settled (cleanup c s) = settled s.
  Proof. now rewrite el_cleanup_unfold. Qed.

Lemma el_cleanup_timers (s : State) :
    timers (cleanup c s) = if true then List.filter (kept tid) (timers s) else timers s.
  Proof. now rewrite el_cleanup_unfold. Qed.

Lemma el_cleanup_log (s : State) : log (cleanup c s) = log s ++ el_cleanupLog.
  Proof. rewrite el_cleanup_unfold. simpl. now rewrite <- !app_assoc. Qed.

Lemma el_cleanup_nextTimerId (s : State) : nextTimerId (cleanup c s) = nextTimerId s.
  Proof. now rewrite el_cleanup_unfold. Qed.

Lemma el_cleanupLog_onThumb : Forall (onThumb c) el_cleanupLog.
  Proof. repeat constructor; intros id H; simpl in H; congruence. Qed.

Lemma el_cleanup_dom (s : State) : only_at (thumbVideo c) (dom s) (dom (cleanup c s)).
  Proof.
    rewrite el_cleanup_unfold. simpl.
    repeat (eapply only_at_trans; [|apply only_at_alter]). apply only_at_refl.
  Qed.

Lemma el_cleanup_listeners (s : State) :
    (thumbVideo c < length (dom s))%nat ->
    forallb capture_listener (listeners (element (thumbVideo c) s)) = true ->
    listeners (element (thumbVideo c) (cleanup c s)) = [].
  Proof.
    intros Hlt Hall. rewrite el_cleanup_unfold.
    unfold load, setSrc, removeEventListener, clearTimeout.
    repeat (rewrite element_emit;
            rewrite element_update_element
              by (repeat (simpl; rewrite ?length_alter); assumption)).
    simpl. rewrite element_emit.
    change (element (thumbVideo c) (set_timers _ s)) with (element (thumbVideo c) s).
    now apply drop_all_capture_listeners.
  Qed.

Lemma el_finish_timers (o : Outcome) (s : State) :
    timers (finish c o s) = List.filter (kept tid) (timers s).
  Proof.
    unfold finish. rewrite (proj1 (proj2 (proj2 (settle_fields o _)))).
    now rewrite el_cleanup_timers.
  Qed.

Lemma el_finish_resolved (o : Outcome) (s : State) : resolved (finish c o s) = true.
  Proof.
    unfold finish. rewrite (proj1 (proj2 (proj2 (proj2 (proj2 (settle_fields o _)))))).
    now rewrite el_cleanup_resolved.
  Qed.

#[local] Abbreviation Eff := (Eff c (cleanup c)).

Lemma el_finish_eff (o : Outcome) (s : State) :
    resolved s = false -> Eff s (finish c o s).
  Proof. intros Hr. unfold finish. now apply eff_finish. Qed.

Lemma el_drawAndFinish_eff (s : State) :
    resolved s = false -> Eff s (drawAndFinish c s).
  Proof.
    intros Hr. unfold drawAndFinish, drawFrame.
    destruct (frame (element (thumbVideo c) s)) as [dataUrl|].
    - eapply eff_then; [apply eff_draw | now apply el_finish_eff].
    - change (resolved (emit (DrawImage (thumbVideo c) (width c) (height c)) s))
        with (resolved s). rewrite Hr.
      eapply eff_then; [apply eff_draw | now apply el_finish_eff].
  Qed.

Lemma el_captureFrame_eff (s : State) : Eff s (captureFrame c s).
  Proof.
    unfold captureFrame. destruct (resolved s) eqn:Hr; [apply eff_none|].
    destruct (2 <=? readyState (element (thumbVideo c) s))%nat.
    - now apply el_drawAndFinish_eff.
    - apply eff_timer. discriminate.
  Qed.

Lemma el_invoke_eff (h : Handler) (s : State) : Eff s (invoke (program c) h s).
  Proof.
    destruct h; simpl; try apply eff_none.
    - unfold handleLoadedMetadata. apply eff_timer. discriminate.
    - unfold handleCanPlay, seekThumb.
      match goal with |- context [if ?b then _ else _] => destruct b end;
        [apply eff_seek | apply eff_none].
    - unfold handleSeeked. destruct (resolved s); [apply eff_none|].
      apply eff_timer. discriminate.
    - unfold handleError. destruct (resolved s) eqn:Hr; cbn [negb andb]; [apply eff_none|].
      now apply eff_finish.
  Qed.

Lemma el_fire_eff (cb : Callback) (s : State) : Eff s (fire (program c) cb s).
  Proof.
    destruct cb; simpl.
    - unfold timeout. destruct (resolved s) eqn:Hr; cbn [negb andb]; [apply eff_none|].
      now apply el_finish_eff.
    - unfold seekAfterMetadata, seekThumb.
      match goal with |- context [if ?b then _ else _] => destruct b end;
        [apply eff_seek | apply eff_none].
    - unfold captureAfterSeeked. destruct (resolved s); cbn [negb andb]; [apply eff_none|].
      apply el_captureFrame_eff.
    - unfold retryCapture. destruct (resolved s) eqn:Hr; cbn [negb andb]; [apply eff_none|].
      destruct (2 <=? readyState (element (thumbVideo c) s))%nat.
      + now apply el_drawAndFinish_eff.
      + now apply el_finish_eff.
    - apply eff_none.
  Qed.

Lemma el_fire_timeout (s : State) :
    resolved s = false -> resolved (fire (program c) cbTimeout s) = true.
  Proof. intros Hr. simpl. unfold timeout. rewrite Hr. simpl. apply el_finish_resolved. Qed.

  (** Once the capture is resolved its timer callbacks do nothing. *)
Lemma el_fire_inert (cb : Callback) (s : State) :
    resolved s = true -> fire (program c) cb s = s.
  Proof.
    intros Hr. destruct cb; cbn [fire program];
      unfold timeout, seekAfterMetadata, captureAfterSeeked, retryCapture;
      rewrite ?Hr; reflexivity.
  Qed.

Lemma el_drawAndFinish_weight (s : State) :
    resolved s = false ->
    (weight (timers (drawAndFinish c s)) <= weight (timers s))%nat.
  Proof.
    intros Hr. unfold drawAndFinish, drawFrame.
    destruct (frame (element (thumbVideo c) s)).
    - rewrite el_finish_timers. apply weight_filter.
    - change (resolved (emit (DrawImage (thumbVideo c) (width c) (height c)) s))
        with (resolved s). rewrite Hr.
      rewrite el_finish_timers. apply weight_filter.
  Qed.

Lemma el_setCurrentTime_timers (i : nat) (t : num) (s : State) :
    timers (setCurrentTime i t s) = timers s.
  Proof. destruct t; reflexivity. Qed.

Lemma el_fire_weight (t : Timer) (s : State) :
    (weight (timers (fire (program c) (callback t) s)) + 1
     <= weight (timers s) + weight1 t)%nat.
  Proof.
    unfold weight1. destruct (callback t); simpl.
    - unfold timeout. destruct (resolved s); cbn [negb andb]; [lia|].
      rewrite el_finish_timers. pose proof (weight_filter (kept tid) (timers s)). lia.
    - unfold seekAfterMetadata, seekThumb.
      match goal with |- context [if ?b then _ else _] => destruct b end;
        rewrite ?el_setCurrentTime_timers; lia.
    - unfold captureAfterSeeked, captureFrame.
      destruct (resolved s) eqn:Hr; cbn [negb andb]; [lia|].
      destruct (2 <=? readyState (element (thumbVideo c) s))%nat.
      + pose proof (el_drawAndFinish_weight s Hr). lia.
      + simpl. rewrite weight_insert_timer. unfold weight1. simpl. lia.
    - unfold retryCapture. destruct (resolved s) eqn:Hr; cbn [negb andb]; [lia|].
      destruct (2 <=? readyState (element (thumbVideo c) s))%nat.
      + pose proof (el_drawAndFinish_weight s Hr). lia.
      + rewrite el_finish_timers. pose proof (weight_filter (kept tid) (timers s)). lia.
    - lia.
  Qed.
End Facts.

End FromElementFacts.

(** A platform on which no timer is pending and which hands out positive
    timer handles, as browsers do. A capture is started in such a state. *)
Definition idle (s : State) : Prop := timers s = [] /\ nextTimerId s <> 0%nat.

Lemma alter_last {A : Type} (f : A -> A) (d : list A) (x : A) :
  alter f (length d) (d ++ [x]) = d ++ [f x].
Proof.
  replace (length d) with (length d + 0)%nat by lia.
  now rewrite alter_app_r.
Qed.

Lemma element_last (d : list HTMLVideoElement) (x : HTMLVideoElement) (s : State) :
  dom s = d ++ [x] -> element (length d) s = x.
Proof.
  intros H. unfold element. rewrite H, lookup_app_r by lia.
  now rewrite Nat.sub_diag.
Qed.

(** The internal element as [start] leaves it. *)
Definition thumbAtStart (videoUrl : string) : HTMLVideoElement :=
  let v := set_playsInline true (set_muted true (set_preload "auto" new_video)) in
  let v := if String.prefix "http://" videoUrl || String.prefix "https://" videoUrl
           then set_crossOrigin (Some "anonymous"%string) v else v in
  reset_media
    (set_src videoUrl
       (set_listeners
          [ mkListener ev_loadedmetadata onLoadedMetadata false;
            mkListener ev_canplay onCanPlay false;
            mkListener ev_seeked onSeeked true;
            mkListener ev_error onError true ] v)).

(** What [start] calls, in order. *)
Definition startLog (thumb tid : nat) (videoUrl : string) : list Action :=
  [ CreateVideo thumb;
    SetTimeout tid cbTimeout 10000;
    AddEventListener thumb ev_loadedmetadata onLoadedMetadata false;
    AddEventListener thumb ev_canplay onCanPlay false;
    AddEventListener thumb ev_seeked onSeeked true;
    AddEventListener thumb ev_error onError true;
    SetSrc thumb videoUrl;
    Load thumb ].

Lemma FromElement_start_spec (videoElement : nat) (timeSeconds : Q) (w h : nat)
    (s : State) (v : HTMLVideoElement) :
  timers s = [] ->
  dom s !! videoElement = Some v ->
  exists c s1,
    FromElement.start videoElement timeSeconds w h s = (s1, Some c)
    /\ thumbVideo c = length (dom s)
    /\ timeoutId c = Some (nextTimerId s)
    /\ seekTime c = nudge (clamp (Num timeSeconds) (or_zero (duration v)))
                      (or_zero (duration v))
    /\ width c = w /\ height c = h
    /\ dom s1 = dom s ++ [thumbAtStart (or_string (src v) (currentSrc v))]
    /\ timers s1 = [mkTimer (nextTimerId s) (clock s + 10000)%N cbTimeout]
    /\ resolved s1 = false /\ settled s1 = None
    /\ log s1 = log s ++ startLog (length (dom s)) (nextTimerId s)
                           (or_string (src v) (currentSrc v))
    /\ nextTimerId s1 = S (nextTimerId s).
Proof.
  intros Ht Hv. unfold FromElement.start, thumbAtStart. simpl. rewrite Hv.
  destruct (String.prefix "http://" (or_string (src v) (currentSrc v))
            || String.prefix "https://" (or_string (src v) (currentSrc v)));
    simpl; (eexists _, _; split; [reflexivity|]); simpl; rewrite Ht; simpl;
    rewrite !alter_last, <- !app_assoc; repeat split.
Qed.

(** The state of a capture in flight, when the decoder has done [script]. *)
Definition inFlightFromElement (videoElement : nat) (timeSeconds : Q)
    (width height : nat) (script : list Event) (s : State) : State :=
  match FromElement.start videoElement timeSeconds width height s with
  | (s1, None) => s1
  | (s1, Some c) => run (FromElement.program c) (thumbVideo c) script s1
  end.

Section FromElementFlight.
Variables (videoElement : nat) (timeSeconds : Q) (w h : nat).
Variables (s : State) (v : HTMLVideoElement).
Hypothesis s_idle : idle s.
Hypothesis v_there : dom s !! videoElement = Some v.
Variable m : Action -> bool.
Hypothesis m_releasing : forall a, m a = true -> releasing a.

Lemma FromElement_flight :
    exists c s1,
      FromElement.start videoElement timeSeconds w h s = (s1, Some c)
      /\ thumbVideo c = length (dom s)
      /\ timeoutId c = Some (nextTimerId s)
      /\ dom s1 = dom s ++ [thumbAtStart (or_string (src v) (currentSrc v))]
      /\ log s1 = log s ++ startLog (length (dom s)) (nextTimerId s)
                             (or_string (src v) (currentSrc v))
      /\ forall script,
           let s' := run (FromElement.program c) (thumbVideo c) script s1 in
           let live := Live c (FromElementFacts.el_cleanupLog c (nextTimerId s)) true
                         (nextTimerId s) s1 m in
           live s' /\ live (drain (FromElement.program c) s')
           /\ timers (drain (FromElement.program c) s') = []
           /\ settled (drain (FromElement.program c) s') <> None.
  Proof.
    destruct s_idle as [Htimers Hnext].
    destruct (FromElement_start_spec videoElement timeSeconds w h s v Htimers v_there)
      as (c & s1 & Hstart & Hthumb & Htid & _ & _ & _ & Hdom & Ht1 & Hr1 & Hs1
          & Hlog & Hn1).
    exists c, s1. repeat (split; [assumption|]).
    assert (Hel : element (thumbVideo c) s1
                  = thumbAtStart (or_string (src v) (currentSrc v)))
      by (rewrite Hthumb; now apply element_last).
    assert (Hlive : Live c (FromElementFacts.el_cleanupLog c (nextTimerId s)) true
                      (nextTimerId s) s1 m s1).
    { split.
      - constructor.
        + now rewrite Hr1.
        + rewrite Hdom, length_app, Hthumb. simpl. lia.
        + apply only_at_refl.
        + rewrite Hel. reflexivity.
        + rewrite Hr1. discriminate.
        + rewrite Ht1. repeat constructor.
        + rewrite Hr1. discriminate.
        + exists []. rewrite app_nil_r. split; [reflexivity | constructor].
        + lia.
        + rewrite Hr1. lia.
      - intros _. rewrite Ht1. apply Exists_cons_hd. reflexivity. }
    pose proof (FromElementFacts.el_cleanup_resolved c _ Htid Hnext) as C1.
    pose proof (FromElementFacts.el_cleanup_settled c _ Htid Hnext) as C2.
    pose proof (FromElementFacts.el_cleanup_timers c _ Htid Hnext) as C3.
    pose proof (FromElementFacts.el_cleanup_log c _ Htid Hnext) as C4.
    pose proof (FromElementFacts.el_cleanup_nextTimerId c _ Htid Hnext) as C5.
    pose proof (FromElementFacts.el_cleanupLog_onThumb c (nextTimerId s)) as C6.
    pose proof (FromElementFacts.el_cleanup_dom c _ Htid Hnext) as C7.
    pose proof (FromElementFacts.el_cleanup_listeners c _ Htid Hnext) as C8.
    pose proof (FromElementFacts.el_invoke_eff c) as P1.
    pose proof (FromElementFacts.el_fire_eff c) as P2.
    pose proof (FromElementFacts.el_fire_timeout c _ Htid Hnext) as P3.
    pose proof (FromElementFacts.el_fire_weight c _ Htid Hnext) as P4.
    intros script s' live.
    assert (Hrun : live s').
    { exact (Live_run c (FromElement.cleanup c)
               (FromElementFacts.el_cleanupLog c (nextTimerId s)) true (nextTimerId s)
               (FromElement.program c) s1 m m_releasing C1 C2 C3 C4 C5 C6 C7 C8
               P1 P2 P3 script s1 Hlive). }
    split; [assumption|].
    destruct (drain_settles c (FromElement.cleanup c)
                (FromElementFacts.el_cleanupLog c (nextTimerId s)) true (nextTimerId s)
                (FromElement.program c) s1 m m_releasing C1 C2 C3 C4 C5 C6 C7 C8
                P2 P3 P4 s' Hrun) as (Hd & He & _ & Hset).
    exact (conj Hd (conj He Hset)).
  Qed.
End FromElementFlight.

(** ** [captureVideoFrame] in flight *)

Lemma drop_all_capture_listeners_url (l : list Listener) :
  forallb capture_listener l = true ->
  List.filter (fun x => negb (same_listener ev_canplay onCanPlay x))
    (List.filter (fun x => negb (same_listener ev_error onError x))
       (List.filter (fun x => negb (same_listener ev_seeked onSeeked x))
          (List.filter
             (fun x => negb (same_listener ev_loadedmetadata onLoadedMetadata x)) l)))
  = [].
Proof.
  induction l as [|x l IH]; simpl; [reflexivity|].
  intros H. apply andb_true_iff in H as [Hx Hl]. specialize (IH Hl).
  unfold capture_listener in Hx.
  destruct (same_listener ev_loadedmetadata onLoadedMetadata x) eqn:E3; simpl;
    [assumption|].
  destruct (same_listener ev_seeked onSeeked x) eqn:E1; simpl; [assumption|].
  destruct (same_listener ev_error onError x) eqn:E2; simpl; [assumption|].
  destruct (same_listener ev_canplay onCanPlay x) eqn:E4; simpl; [assumption|].
  discriminate.
Qed.

Module FromUrlFacts.
Import FromUrl.

Section Facts.
Variable c : Closure.

Definition url_cleanupLog : list Action :=
    [ SetSrc (thumbVideo c) "";
      Load (thumbVideo c);
      RemoveEventListener (thumbVideo c) ev_loadedmetadata onLoadedMetadata;
      RemoveEventListener (thumbVideo c) ev_seeked onSeeked;
      RemoveEventListener (thumbVideo c) ev_error onError;
      RemoveEventListener (thumbVideo c) ev_canplay onCanPlay ].

Lemma url_cleanup_resolved (s : State) : resolved (cleanup c s) = resolved s.
  Proof. reflexivity. Qed.

Lemma url_cleanup_settled (s : State) : settled (cleanup c s) = settled s.
  Proof. reflexivity. Qed.

Lemma url_cleanup_timers (tid : nat) (s : State) :
    timers (cleanup c s)
    = if false then List.filter (kept tid) (timers s) else timers s.
  Proof. reflexivity. Qed.

Lemma url_cleanup_log (s : State) : log (cleanup c s) = log s ++ url_cleanupLog.
  Proof. unfold cleanup. simpl. now rewrite <- !app_assoc. Qed.

Lemma url_cleanup_nextTimerId (s : State) : nextTimerId (cleanup c s) = nextTimerId s.
  Proof. reflexivity. Qed.

Lemma url_cleanupLog_onThumb : Forall (onThumb c) url_cleanupLog.
  Proof. repeat constructor; intros id H; simpl in H; congruence. Qed.

Lemma url_cleanup_dom (s : State) : only_at (thumbVideo c) (dom s) (dom (cleanup c s)).
  Proof.
    unfold cleanup. simpl.
    repeat (eapply only_at_trans; [|apply only_at_alter]). apply only_at_refl.
  Qed.

Lemma url_cleanup_listeners (s : State) :
    (thumbVideo c < length (dom s))%nat ->
    forallb capture_listener (listeners (element (thumbVideo c) s)) = true ->
    listeners (element (thumbVideo c) (cleanup c s)) = [].
  Proof.
    intros Hlt Hall.
    unfold cleanup, load, setSrc, removeEventListener.
    repeat (rewrite element_emit;
            rewrite element_update_element
              by (repeat (simpl; rewrite ?length_alter); assumption)).
    simpl. now apply drop_all_capture_listeners_url.
  Qed.

Lemma url_finish_timers (o : Outcome) (s : State) : timers (finish c o s) = timers s.
  Proof.
    unfold finish. now rewrite (proj1 (proj2 (proj2 (settle_fields o _)))).
  Qed.

Lemma url_finish_resolved (o : Outcome) (s : State) : resolved (finish c o s) = true.
  Proof.
    unfold finish.
    now rewrite (proj1 (proj2 (proj2 (proj2 (proj2 (settle_fields o _)))))).
  Qed.

#[local] Abbreviation Eff := (Eff c (cleanup c)).

Lemma url_finish_eff (o : Outcome) (s : State) :
    resolved s = false -> Eff s (finish c o s).
  Proof. intros Hr. unfold finish. now apply eff_finish. Qed.

Lemma url_invoke_eff (h : Handler) (s : State) : Eff s (invoke (program c) h s).
  Proof.
    destruct h; cbn [invoke program]; try apply eff_none.
    - unfold handleLoadedMetadata, seekVideo. apply eff_seek.
    - unfold handleCanPlay, seekVideo.
      destruct (2 <=? readyState (element (thumbVideo c) s))%nat;
        [apply eff_seek | apply eff_none].
    - unfold handleSeeked, drawFrame.
      destruct (resolved s) eqn:Hr; [apply eff_none|].
      destruct (2 <=? readyState (element (thumbVideo c) s))%nat.
      + destruct (frame (element (thumbVideo c) s)) as [dataUrl|].
        * eapply eff_then; [apply eff_draw | now apply url_finish_eff].
        * change (resolved (emit (DrawImage (thumbVideo c) (width c) (height c)) s))
            with (resolved s). rewrite Hr.
          eapply eff_then; [apply eff_draw | now apply url_finish_eff].
      + apply eff_timer. discriminate.
    - unfold handleError. destruct (resolved s) eqn:Hr; cbn [negb];
        [apply eff_none|]. now apply eff_finish.
  Qed.

Lemma url_fire_eff (cb : Callback) (s : State) : Eff s (fire (program c) cb s).
  Proof.
    destruct cb; cbn [fire program]; try apply eff_none.
    - unfold timeout. destruct (resolved s) eqn:Hr; cbn [negb]; [apply eff_none|].
      now apply url_finish_eff.
    - unfold retryCapture, drawFrame.
      destruct (resolved s) eqn:Hr; cbn [negb andb]; [apply eff_none|].
      destruct (2 <=? readyState (element (thumbVideo c) s))%nat; [|apply eff_none].
      destruct (frame (element (thumbVideo c) s)) as [dataUrl|].
      + eapply eff_then; [apply eff_draw | now apply url_finish_eff].
      + apply eff_draw.
  Qed.

Lemma url_fire_timeout (s : State) :
    resolved s = false -> resolved (fire (program c) cbTimeout s) = true.
  Proof.
    intros Hr. cbn [fire program]. unfold timeout. rewrite Hr. apply url_finish_resolved.
  Qed.

Lemma url_fire_inert (cb : Callback) (s : State) :
    resolved s = true -> fire (program c) cb s = s.
  Proof.
    intros Hr. destruct cb; cbn [fire program];
      unfold timeout, retryCapture; rewrite ?Hr; reflexivity.
  Qed.

Lemma url_fire_weight (t : Timer) (s : State) :
    (weight (timers (fire (program c) (callback t) s)) + 1
     <= weight (timers s) + weight1 t)%nat.
  Proof.
    unfold weight1. destruct (callback t); cbn [fire program]; try lia.
    - unfold timeout. destruct (resolved s); cbn [negb]; [lia|].
      rewrite url_finish_timers. lia.
    - unfold retryCapture, drawFrame.
      destruct (resolved s); cbn [negb andb]; [lia|].
      destruct (2 <=? readyState (element (thumbVideo c) s))%nat; [|lia].
      destruct (frame (element (thumbVideo c) s)).
      + rewrite url_finish_timers. simpl. lia.
      + simpl. lia.
  Qed.
End Facts.

End FromUrlFacts.

Definition videoAtStart (videoUrl : string) : HTMLVideoElement :=
  reset_media
    (set_src videoUrl
       (set_listeners
          [ mkListener ev_loadedmetadata onLoadedMetadata false;
            mkListener ev_canplay onCanPlay false;
            mkListener ev_seeked onSeeked false;
            mkListener ev_error onError false ]
          (set_playsInline true
             (set_muted true
                (set_preload "auto"
                   (set_crossOrigin (Some "anonymous"%string) new_video)))))).

Definition urlStartLog (video tid : nat) (videoUrl : string) : list Action :=
  [ CreateVideo video;
    SetTimeout tid cbTimeout 15000;
    AddEventListener video ev_loadedmetadata onLoadedMetadata false;
    AddEventListener video ev_canplay onCanPlay false;
    AddEventListener video ev_seeked onSeeked false;
    AddEventListener video ev_error onError false;
    SetSrc video videoUrl;
    Load video ].

Lemma FromUrl_start_spec (videoUrl : string) (timeSeconds : Q) (w h : nat) (s : State) :
  timers s = [] ->
  exists c s1,
    FromUrl.start videoUrl timeSeconds w h s = (s1, c)
    /\ thumbVideo c = length (dom s)
    /\ timeoutId c = Some (nextTimerId s)
    /\ seekTime c = Num timeSeconds
    /\ width c = w /\ height c = h
    /\ dom s1 = dom s ++ [videoAtStart videoUrl]
    /\ timers s1 = [mkTimer (nextTimerId s) (clock s + 15000)%N cbTimeout]
    /\ resolved s1 = false /\ settled s1 = None
    /\ log s1 = log s ++ urlStartLog (length (dom s)) (nextTimerId s) videoUrl
    /\ nextTimerId s1 = S (nextTimerId s).
Proof.
  intros Ht. unfold FromUrl.start, videoAtStart. simpl.
  eexists _, _. split; [reflexivity|]. simpl. rewrite Ht. simpl.
  rewrite !alter_last, <- !app_assoc. repeat split.
Qed.

Definition inFlightFromUrl (videoUrl : string) (timeSeconds : Q)
    (width height : nat) (script : list Event) (s : State) : State :=
  let '(s1, c) := FromUrl.start videoUrl timeSeconds width height s in
  run (FromUrl.program c) (thumbVideo c) script s1.

Section FromUrlFlight.
Variables (videoUrl : string) (timeSeconds : Q) (w h : nat) (s : State).
Hypothesis s_idle : idle s.
Variable m : Action -> bool.
Hypothesis m_releasing : forall a, m a = true -> releasing a.

Lemma FromUrl_flight :
    exists c s1,
      FromUrl.start videoUrl timeSeconds w h s = (s1, c)
      /\ thumbVideo c = length (dom s)
      /\ dom s1 = dom s ++ [videoAtStart videoUrl]
      /\ log s1 = log s ++ urlStartLog (length (dom s)) (nextTimerId s) videoUrl
      /\ forall script,
           let s' := run (FromUrl.program c) (thumbVideo c) script s1 in
           let live := Live c (FromUrlFacts.url_cleanupLog c) false (nextTimerId s) s1 m in
           live s' /\ live (drain (FromUrl.program c) s')
           /\ timers (drain (FromUrl.program c) s') = []
           /\ settled (drain (FromUrl.program c) s') <> None.
  Proof.
    destruct s_idle as [Htimers Hnext].
    destruct (FromUrl_start_spec videoUrl timeSeconds w h s Htimers)
      as (c & s1 & Hstart & Hthumb & Htid & _ & _ & _ & Hdom & Ht1 & Hr1 & Hs1
          & Hlog & Hn1).
    exists c, s1. repeat (split; [assumption|]).
    assert (Hel : element (thumbVideo c) s1 = videoAtStart videoUrl)
      by (rewrite Hthumb; now apply element_last).
    assert (Hlive : Live c (FromUrlFacts.url_cleanupLog c) false (nextTimerId s) s1 m s1).
    { split.
      - constructor.
        + now rewrite Hr1.
        + rewrite Hdom, length_app, Hthumb. simpl. lia.
        + apply only_at_refl.
        + rewrite Hel. reflexivity.
        + rewrite Hr1. discriminate.
        + rewrite Ht1. repeat constructor.
        + discriminate.
        + exists []. rewrite app_nil_r. split; [reflexivity | constructor].
        + lia.
        + rewrite Hr1. lia.
      - intros _. rewrite Ht1. apply Exists_cons_hd. reflexivity. }
    pose proof (FromUrlFacts.url_cleanup_resolved c) as C1.
    pose proof (FromUrlFacts.url_cleanup_settled c) as C2.
    pose proof (FromUrlFacts.url_cleanup_timers c (nextTimerId s)) as C3.
    pose proof (FromUrlFacts.url_cleanup_log c) as C4.
    pose proof (FromUrlFacts.url_cleanup_nextTimerId c) as C5.
    pose proof (FromUrlFacts.url_cleanupLog_onThumb c) as C6.
    pose proof (FromUrlFacts.url_cleanup_dom c) as C7.
    pose proof (FromUrlFacts.url_cleanup_listeners c) as C8.
    pose proof (FromUrlFacts.url_invoke_eff c) as P1.
    pose proof (FromUrlFacts.url_fire_eff c) as P2.
    pose proof (FromUrlFacts.url_fire_timeout c) as P3.
    pose proof (FromUrlFacts.url_fire_weight c) as P4.
    intros script s' live.
    assert (Hrun : live s').
    { exact (Live_run c (FromUrl.cleanup c) (FromUrlFacts.url_cleanupLog c) false
               (nextTimerId s) (FromUrl.program c) s1 m m_releasing
               C1 C2 C3 C4 C5 C6 C7 C8 P1 P2 P3 script s1 Hlive). }
    split; [assumption|].
    destruct (drain_settles c (FromUrl.cleanup c) (FromUrlFacts.url_cleanupLog c) false
                (nextTimerId s) (FromUrl.program c) s1 m m_releasing
                C1 C2 C3 C4 C5 C6 C7 C8 P2 P3 P4 s' Hrun) as (Hd & He & _ & Hset).
    exact (conj Hd (conj He Hset)).
  Qed.
End FromUrlFlight.

(** ** What a capture leaves behind *)

Lemma Inv_frame (c : Closure) (cl : list Action) (b : bool) (tid : nat)
    (s1 : State) (m : Action -> bool) (x : State)
    (d : list HTMLVideoElement) (e : HTMLVideoElement) :
  Inv c cl b tid s1 m x ->
  thumbVideo c = length d -> dom s1 = d ++ [e] ->
  length (dom x) = S (length d)
  /\ forall j, (j < length d)%nat -> dom x !! j = d !! j.
Proof.
  intros HI Hthumb Hdom. destruct (inv_frame _ _ _ _ _ _ _ HI) as [Hlen Hsame].
  split.
  - rewrite Hlen, Hdom, length_app. simpl. lia.
  - intros j Hj. rewrite Hsame by lia. rewrite Hdom. now apply lookup_app_l.
Qed.

Lemma Inv_log_from (c : Closure) (cl : list Action) (b : bool) (tid : nat)
    (s1 : State) (m : Action -> bool) (x : State) (lg sl : list Action) :
  Inv c cl b tid s1 m x ->
  log s1 = lg ++ sl -> Forall (onThumb c) sl ->
  exists l, log x = lg ++ l /\ Forall (onThumb c) l.
Proof.
  intros HI Hlog Hsl. destruct (inv_log _ _ _ _ _ _ _ HI) as (l & Hl & Hall).
  exists (sl ++ l). rewrite Hl, Hlog, <- app_assoc. split; [reflexivity|].
  now apply Forall_app_2.
Qed.

Lemma startLog_onThumb (c : Closure) (tid : nat) (url : string) :
  Forall (onThumb c) (startLog (thumbVideo c) tid url).
Proof. repeat constructor; intros id H; simpl in H; congruence. Qed.

Lemma urlStartLog_onThumb (c : Closure) (tid : nat) (url : string) :
  Forall (onThumb c) (urlStartLog (thumbVideo c) tid url).
Proof. repeat constructor; intros id H; simpl in H; congruence. Qed.

Definition never (a : Action) : bool := false.

Lemma never_releasing (a : Action) : never a = true -> releasing a.
Proof. discriminate. Qed.

(** A capture from an element, from start to settlement: it settles, leaves
    the platform idle, adds one element to the store and changes no other,
    and every call it makes names that new element. *)
Lemma captureVideoFrameFromElement_summary (videoElement : nat) (timeSeconds : Q)
    (w h : nat) (script : list Event) (s : State) (v : HTMLVideoElement) :
  idle s -> dom s !! videoElement = Some v ->
  forall x, x = inFlightFromElement videoElement timeSeconds w h script s
            \/ x = captureVideoFrameFromElement videoElement timeSeconds w h script s ->
  length (dom x) = S (length (dom s))
  /\ (forall j, (j < length (dom s))%nat -> dom x !! j = dom s !! j)
  /\ (exists l, log x = log s ++ l
                /\ Forall (fun a => forall id, touches a = Some id -> id = length (dom s)) l)
  /\ nextTimerId x <> 0%nat
  /\ (x = captureVideoFrameFromElement videoElement timeSeconds w h script s ->
      settled x <> None /\ timers x = []).
Proof.
  intros Hidle Hv x Hx.
  destruct (FromElement_flight videoElement timeSeconds w h s v Hidle Hv never
              never_releasing)
    as (c & s1 & Hstart & Hthumb & Htid & Hdom & Hlog & Hflight).
  specialize (Hflight script). cbv zeta in Hflight.
  destruct Hflight as ([HI1 _] & [HI2 _] & Hempty & Hset).
  assert (Hsl : Forall (onThumb c) (startLog (length (dom s)) (nextTimerId s)
                                      (or_string (src v) (currentSrc v))))
    by (rewrite <- Hthumb; apply startLog_onThumb).
  assert (Hin : inFlightFromElement videoElement timeSeconds w h script s
                = run (FromElement.program c) (thumbVideo c) script s1)
    by (unfold inFlightFromElement; now rewrite Hstart).
  assert (Hcap : captureVideoFrameFromElement videoElement timeSeconds w h script s
                 = drain (FromElement.program c)
                     (run (FromElement.program c) (thumbVideo c) script s1))
    by (unfold captureVideoFrameFromElement; now rewrite Hstart).
  assert (HI : Inv c (FromElementFacts.el_cleanupLog c (nextTimerId s)) true
                 (nextTimerId s) s1 never x)
    by (destruct Hx as [-> | ->]; [rewrite Hin | rewrite Hcap]; assumption).
  destruct (Inv_frame _ _ _ _ _ _ _ _ _ HI Hthumb Hdom) as [Hlen Hsame].
  destruct (Inv_log_from _ _ _ _ _ _ _ _ _ HI Hlog Hsl) as (l & Hl & Hall).
  split; [assumption|]. split; [assumption|]. split.
  - exists l. split; [assumption|]. unfold onThumb in Hall. now rewrite Hthumb in Hall.
  - split.
    + pose proof (inv_next _ _ _ _ _ _ _ HI) as Hn.
      destruct (FromElement_start_spec videoElement timeSeconds w h s v
                  (proj1 Hidle) Hv)
        as (c' & s1' & Hstart' & _ & _ & _ & _ & _ & _ & _ & _ & _ & _ & Hn1).
      rewrite Hstart in Hstart'. injection Hstart' as <- <-. lia.
    + intros ->. rewrite Hcap. split; assumption.
Qed.

(** C10. One capture from a supplied element leaves that element as it
    was -- the whole record: [currentTime], [paused], [src], listeners --
    while it is in flight and on every way out, and none of the calls it
    makes names the supplied element: everything happens on the element
    that the capture creates. *)
Theorem captureVideoFrameFromElement_leaves_supplied_element
    (videoElement : nat) (timeSeconds : Q) (w h : nat) (script : list Event)
    (s : State) (v : HTMLVideoElement) :
  idle s -> dom s !! videoElement = Some v ->
  forall x, x = inFlightFromElement videoElement timeSeconds w h script s
            \/ x = captureVideoFrameFromElement videoElement timeSeconds w h script s ->
  dom x !! videoElement = Some v
  /\ exists l, log x = log s ++ l
               /\ Forall (fun a => touches a <> Some videoElement) l.
Proof.
  intros Hidle Hv x Hx.
  destruct (captureVideoFrameFromElement_summary videoElement timeSeconds w h
              script s v Hidle Hv x Hx) as (_ & Hsame & (l & Hl & Hall) & _).
  pose proof (lookup_lt_Some _ _ _ Hv) as Hlt.
  split; [now rewrite Hsame|].
  exists l. split; [assumption|].
  eapply List.Forall_impl; [|exact Hall]. simpl.
  intros a Ha Htouch. apply Ha in Htouch. lia.
Qed.

(** What the decoder does in an undisturbed capture: metadata, then, once
    the code has seeked, the frame at the requested time. *)
Definition decoded (duration time : Q) (ready : nat) (picture : string) : Event :=
  Decoder (mkDecoder (Num duration) time ready None (Some picture)).

Definition undisturbed (duration time : Q) : list Event :=
  [ decoded duration 0 1 ""; Fire ev_loadedmetadata; Wait 100;
    decoded duration time 4 "frame"; Fire ev_seeked; Wait 50 ].

Lemma pageAt_idle (t : Q) : idle (pageAt t).
Proof. split; [reflexivity | discriminate]. Qed.

Lemma captureVideoFrameFromElement_leaves_supplied_element_witness :
  idle (pageAt 45)
  /\ dom (pageAt 45) !! 0%nat = Some (videoAt 45)
  /\ dom (captureVideoFrameFromElement 0 20 320 180 (undisturbed 100 20) (pageAt 45))
       !! 0%nat = Some (videoAt 45).
Proof.
  split; [exact (pageAt_idle 45)|]. split; [reflexivity|].
  exact (proj1 (captureVideoFrameFromElement_leaves_supplied_element
                  0 20 320 180 (undisturbed 100 20) (pageAt 45) (videoAt 45)
                  (pageAt_idle 45) eq_refl _ (or_intror eq_refl))).
Defined.

(** ** Release of subscriptions and timers *)

(** The four subscriptions of a capture. *)
Definition captureListeners : list (EventType * Handler) :=
  [ (ev_loadedmetadata, onLoadedMetadata); (ev_canplay, onCanPlay);
    (ev_seeked, onSeeked); (ev_error, onError) ].

(** 1 once the promise of the capture is settled, 0 before. *)
Definition completions (x : State) : nat :=
  match settled x with
  | Some _ => 1
  | None => 0
  end.

(** In state [x] of a capture started in [s] on element [thumb]: each
    subscription has been removed once if the capture is over and not at
    all if it is not, and none is left when it is over. *)
Definition releasedOnce (thumb : nat) (s x : State) : Prop :=
  (forall ev hd, In (ev, hd) captureListeners ->
     count (is_removal thumb ev hd) (log x)
     = (count (is_removal thumb ev hd) (log s) + completions x)%nat)
  /\ (settled x <> None -> listeners (element thumb x) = []).

(** The same for the overall timeout [tid]: cleared once, on completion,
    and no longer pending afterwards. *)
Definition timeoutClearedOnce (tid : nat) (s x : State) : Prop :=
  count (is_clear tid) (log x) = (count (is_clear tid) (log s) + completions x)%nat
  /\ (settled x <> None -> Forall (fun t => ~ is_timeout t) (timers x)).

Lemma Inv_completions (c : Closure) (cl : list Action) (b : bool) (tid : nat)
    (s1 : State) (m : Action -> bool) (x : State) :
  Inv c cl b tid s1 m x ->
  completions x = (if resolved x then 1 else 0)%nat
  /\ (settled x <> None -> resolved x = true).
Proof.
  intros HI. pose proof (inv_settled _ _ _ _ _ _ _ HI) as H.
  unfold completions. destruct (resolved x).
  - destruct (settled x); [auto | contradiction].
  - rewrite H. split; [reflexivity | contradiction].
Qed.

Lemma is_removal_releasing (id : nat) (ev : EventType) (hd : Handler) (a : Action) :
  is_removal id ev hd a = true -> releasing a.
Proof. destruct a; simpl; solve [discriminate | trivial]. Qed.

Lemma is_clear_releasing (tid : nat) (a : Action) :
  is_clear tid a = true -> releasing a.
Proof. destruct a; simpl; solve [discriminate | trivial]. Qed.

Lemma captureVideoFrameFromElement_releases (videoElement : nat) (timeSeconds : Q)
    (w h : nat) (script : list Event) (s : State) (v : HTMLVideoElement) :
  idle s -> dom s !! videoElement = Some v ->
  forall x, x = inFlightFromElement videoElement timeSeconds w h script s
            \/ x = captureVideoFrameFromElement videoElement timeSeconds w h script s ->
  releasedOnce (length (dom s)) s x /\ timeoutClearedOnce (nextTimerId s) s x.
Proof.
  intros Hidle Hv x Hx.
  assert (Hm : forall m, (forall a, m a = true -> releasing a) ->
            count m (startLog (length (dom s)) (nextTimerId s)
                       (or_string (src v) (currentSrc v))) = 0%nat ->
            exists c, thumbVideo c = length (dom s)
              /\ Inv c (FromElementFacts.el_cleanupLog c (nextTimerId s)) true
                   (nextTimerId s)
                   (fst (FromElement.start videoElement timeSeconds w h s)) m x
              /\ count m (log x)
                 = (count m (log s)
                    + if resolved x
                      then count m (FromElementFacts.el_cleanupLog c (nextTimerId s))
                      else 0)%nat).
  { intros m Hrel Hstart0.
    destruct (FromElement_flight videoElement timeSeconds w h s v Hidle Hv m Hrel)
      as (c & s1 & Hstart & Hthumb & Htid & Hdom & Hlog & Hflight).
    specialize (Hflight script). cbv zeta in Hflight.
    destruct Hflight as ([HI1 _] & [HI2 _] & _).
    exists c. split; [assumption|].
    assert (HI : Inv c (FromElementFacts.el_cleanupLog c (nextTimerId s)) true
                   (nextTimerId s) s1 m x).
    { destruct Hx as [-> | ->].
      - unfold inFlightFromElement. now rewrite Hstart.
      - unfold captureVideoFrameFromElement. now rewrite Hstart. }
    rewrite Hstart. split; [exact HI|].
    rewrite (inv_count _ _ _ _ _ _ _ HI), Hlog, count_app, Hstart0. lia. }
  split; split.
  - intros ev hd Hin.
    destruct (Hm (is_removal (length (dom s)) ev hd)
                (is_removal_releasing _ _ _) eq_refl) as (c & Hthumb & HI & Hcount).
    rewrite Hcount, (proj1 (Inv_completions _ _ _ _ _ _ _ HI)).
    destruct (resolved x); [|reflexivity].
    unfold FromElementFacts.el_cleanupLog, count. rewrite Hthumb.
    simpl in Hin.
    destruct Hin as [[= <- <-] | [[= <- <-] | [[= <- <-] | [[= <- <-] | []]]]];
      simpl; rewrite Nat.eqb_refl; reflexivity.
  - intros Hset.
    destruct (Hm never never_releasing eq_refl) as (c & Hthumb & HI & _).
    rewrite <- Hthumb. apply (inv_released _ _ _ _ _ _ _ HI).
    now apply (Inv_completions _ _ _ _ _ _ _ HI).
  - destruct (Hm (is_clear (nextTimerId s)) (is_clear_releasing _) eq_refl)
      as (c & Hthumb & HI & Hcount).
    rewrite Hcount, (proj1 (Inv_completions _ _ _ _ _ _ _ HI)).
    destruct (resolved x); [|reflexivity].
    unfold FromElementFacts.el_cleanupLog, count. simpl.
    rewrite Nat.eqb_refl. reflexivity.
  - intros Hset.
    destruct (Hm never never_releasing eq_refl) as (c & Hthumb & HI & _).
    apply (inv_timeout_gone _ _ _ _ _ _ _ HI eq_refl).
    now apply (Inv_completions _ _ _ _ _ _ _ HI).
Qed.

Lemma captureVideoFrame_summary (videoUrl : string) (timeSeconds : Q)
    (w h : nat) (script : list Event) (s : State) :
  idle s ->
  forall x, x = inFlightFromUrl videoUrl timeSeconds w h script s
            \/ x = captureVideoFrame videoUrl timeSeconds w h script s ->
  length (dom x) = S (length (dom s))
  /\ (forall j, (j < length (dom s))%nat -> dom x !! j = dom s !! j)
  /\ (exists l, log x = log s ++ l
                /\ Forall (fun a => forall id, touches a = Some id -> id = length (dom s)) l)
  /\ nextTimerId x <> 0%nat
  /\ (x = captureVideoFrame videoUrl timeSeconds w h script s ->
      settled x <> None /\ timers x = []).
Proof.
  intros Hidle x Hx.
  destruct (FromUrl_flight videoUrl timeSeconds w h s Hidle never never_releasing)
    as (c & s1 & Hstart & Hthumb & Hdom & Hlog & Hflight).
  specialize (Hflight script). cbv zeta in Hflight.
  destruct Hflight as ([HI1 _] & [HI2 _] & Hempty & Hset).
  assert (Hsl : Forall (onThumb c) (urlStartLog (length (dom s)) (nextTimerId s) videoUrl))
    by (rewrite <- Hthumb; apply urlStartLog_onThumb).
  assert (Hin : inFlightFromUrl videoUrl timeSeconds w h script s
                = run (FromUrl.program c) (thumbVideo c) script s1)
    by (unfold inFlightFromUrl; now rewrite Hstart).
  assert (Hcap : captureVideoFrame videoUrl timeSeconds w h script s
                 = drain (FromUrl.program c)
                     (run (FromUrl.program c) (thumbVideo c) script s1))
    by (unfold captureVideoFrame; now rewrite Hstart).
  assert (HI : Inv c (FromUrlFacts.url_cleanupLog c) false (nextTimerId s) s1 never x)
    by (destruct Hx as [-> | ->]; [rewrite Hin | rewrite Hcap]; assumption).
  destruct (Inv_frame _ _ _ _ _ _ _ _ _ HI Hthumb Hdom) as [Hlen Hsame].
  destruct (Inv_log_from _ _ _ _ _ _ _ _ _ HI Hlog Hsl) as (l & Hl & Hall).
  split; [assumption|]. split; [assumption|]. split.
  - exists l. split; [assumption|]. unfold onThumb in Hall. now rewrite Hthumb in Hall.
  - split.
    + pose proof (inv_next _ _ _ _ _ _ _ HI) as Hn.
      destruct (FromUrl_start_spec videoUrl timeSeconds w h s (proj1 Hidle))
        as (c' & s1' & Hstart' & _ & _ & _ & _ & _ & _ & _ & _ & _ & _ & Hn1).
      rewrite Hstart in Hstart'. injection Hstart' as <- <-. lia.
    + intros ->. rewrite Hcap. split; assumption.
Qed.

Lemma captureVideoFrame_releases (videoUrl : string) (timeSeconds : Q)
    (w h : nat) (script : list Event) (s : State) :
  idle s ->
  forall x, x = inFlightFromUrl videoUrl timeSeconds w h script s
            \/ x = captureVideoFrame videoUrl timeSeconds w h script s ->
  releasedOnce (length (dom s)) s x.
Proof.
  intros Hidle x Hx.
  assert (Hm : forall m, (forall a, m a = true -> releasing a) ->
            count m (urlStartLog (length (dom s)) (nextTimerId s) videoUrl) = 0%nat ->
            exists c, thumbVideo c = length (dom s)
              /\ Inv c (FromUrlFacts.url_cleanupLog c) false (nextTimerId s)
                   (fst (FromUrl.start videoUrl timeSeconds w h s)) m x
              /\ count m (log x)
                 = (count m (log s)
                    + if resolved x then count m (FromUrlFacts.url_cleanupLog c)
                      else 0)%nat).
  { intros m Hrel Hstart0.
    destruct (FromUrl_flight videoUrl timeSeconds w h s Hidle m Hrel)
      as (c & s1 & Hstart & Hthumb & Hdom & Hlog & Hflight).
    specialize (Hflight script). cbv zeta in Hflight.
    destruct Hflight as ([HI1 _] & [HI2 _] & _).
    exists c. split; [assumption|].
    assert (HI : Inv c (FromUrlFacts.url_cleanupLog c) false (nextTimerId s) s1 m x).
    { destruct Hx as [-> | ->].
      - unfold inFlightFromUrl. now rewrite Hstart.
      - unfold captureVideoFrame. now rewrite Hstart. }
    rewrite Hstart. split; [exact HI|].
    rewrite (inv_count _ _ _ _ _ _ _ HI), Hlog, count_app, Hstart0. lia. }
  split.
  - intros ev hd Hin.
    destruct (Hm (is_removal (length (dom s)) ev hd)
                (is_removal_releasing _ _ _) eq_refl) as (c & Hthumb & HI & Hcount).
    rewrite Hcount, (proj1 (Inv_completions _ _ _ _ _ _ _ HI)).
    destruct (resolved x); [|reflexivity].
    unfold FromUrlFacts.url_cleanupLog, count. rewrite Hthumb.
    simpl in Hin.
    destruct Hin as [[= <- <-] | [[= <- <-] | [[= <- <-] | [[= <- <-] | []]]]];
      simpl; rewrite Nat.eqb_refl; reflexivity.
  - intros Hset.
    destruct (Hm never never_releasing eq_refl) as (c & Hthumb & HI & _).
    rewrite <- Hthumb. apply (inv_released _ _ _ _ _ _ _ HI).
    now apply (Inv_completions _ _ _ _ _ _ _ HI).
Qed.

(** After the capture is resolved, what the event loop still fires changes
    nothing but the clock and the list of pending timers. *)
Lemma drain_loop_inert (P : Program) (fuel : nat) (s : State) :
  (forall cb x, resolved x = true -> fire P cb x = x) ->
  resolved s = true ->
  dom (drain_loop P fuel s) = dom s /\ log (drain_loop P fuel s) = log s
  /\ settled (drain_loop P fuel s) = settled s.
Proof.
  intros Hinert. revert s. induction fuel as [|fuel IH]; intros s Hr; simpl.
  - auto.
  - destruct (timers s) as [|t rest]; [auto|].
    unfold fire_next. rewrite Hinert by assumption.
    destruct (IH (set_clock (N.max (clock s) (deadline t)) (set_timers rest s)) Hr)
      as (H1 & H2 & H3).
    rewrite H1, H2, H3. auto.
Qed.

Lemma captureVideoFrameFromElement_rest_inert (videoElement : nat) (timeSeconds : Q)
    (w h : nat) (script : list Event) (s : State) (v : HTMLVideoElement) :
  idle s -> dom s !! videoElement = Some v ->
  let x := inFlightFromElement videoElement timeSeconds w h script s in
  let y := captureVideoFrameFromElement videoElement timeSeconds w h script s in
  settled x <> None ->
  dom y = dom x /\ log y = log x /\ settled y = settled x.
Proof.
  intros Hidle Hv x y Hset.
  destruct (FromElement_flight videoElement timeSeconds w h s v Hidle Hv never
              never_releasing)
    as (c & s1 & Hstart & _ & _ & _ & _ & Hflight).
  specialize (Hflight script). cbv zeta in Hflight. destruct Hflight as ([HI _] & _).
  subst x y. unfold inFlightFromElement, captureVideoFrameFromElement in *.
  rewrite Hstart in *. unfold drain.
  apply drain_loop_inert.
  - apply FromElementFacts.el_fire_inert.
  - now apply (Inv_completions _ _ _ _ _ _ _ HI).
Qed.

Lemma captureVideoFrame_rest_inert (videoUrl : string) (timeSeconds : Q)
    (w h : nat) (script : list Event) (s : State) :
  idle s ->
  let x := inFlightFromUrl videoUrl timeSeconds w h script s in
  let y := captureVideoFrame videoUrl timeSeconds w h script s in
  settled x <> None ->
  dom y = dom x /\ log y = log x /\ settled y = settled x.
Proof.
  intros Hidle x y Hset.
  destruct (FromUrl_flight videoUrl timeSeconds w h s Hidle never never_releasing)
    as (c & s1 & Hstart & _ & _ & _ & Hflight).
  specialize (Hflight script). cbv zeta in Hflight. destruct Hflight as ([HI _] & _).
  subst x y. unfold inFlightFromUrl, captureVideoFrame in *.
  rewrite Hstart in *. unfold drain.
  apply drain_loop_inert.
  - apply FromUrlFacts.url_fire_inert.
  - now apply (Inv_completions _ _ _ _ _ _ _ HI).
Qed.

(** C4, as the code has it. On every way out of either capture function
    (frame captured, decode error, frame not ready, timeout) [cleanup] has
    run exactly once and not before: each of the four subscriptions has
    been removed once and none is left, and in
    [captureVideoFrameFromElement] the overall timeout has been cleared
    once and is no longer pending. The short settling timers (50, 100 and
    200 ms) are not cleared: one that is still pending when the capture
    ends fires later and does nothing. Every capture ends: when the event
    loop has run, the promise is settled. *)
Theorem capture_cleanup_exactly_once
    (videoElement : nat) (videoUrl : string) (timeSeconds : Q) (w h : nat)
    (script : list Event) (s : State) (v : HTMLVideoElement) :
  idle s -> dom s !! videoElement = Some v ->
  let thumb := length (dom s) in
  let x := inFlightFromElement videoElement timeSeconds w h script s in
  let y := captureVideoFrameFromElement videoElement timeSeconds w h script s in
  let x' := inFlightFromUrl videoUrl timeSeconds w h script s in
  let y' := captureVideoFrame videoUrl timeSeconds w h script s in
  (releasedOnce thumb s x /\ timeoutClearedOnce (nextTimerId s) s x)
  /\ (releasedOnce thumb s y /\ timeoutClearedOnce (nextTimerId s) s y)
  /\ (settled x <> None -> dom y = dom x /\ log y = log x /\ settled y = settled x)
  /\ (settled y <> None /\ timers y = [])
  /\ releasedOnce thumb s x' /\ releasedOnce thumb s y'
  /\ (settled x' <> None -> dom y' = dom x' /\ log y' = log x' /\ settled y' = settled x')
  /\ settled y' <> None.
Proof.
  intros Hidle Hv thumb x y x' y'.
  split; [apply (captureVideoFrameFromElement_releases videoElement timeSeconds w h
                   script s v Hidle Hv); now left|].
  split; [apply (captureVideoFrameFromElement_releases videoElement timeSeconds w h
                   script s v Hidle Hv); now right|].
  split; [apply (captureVideoFrameFromElement_rest_inert videoElement timeSeconds w h
                   script s v Hidle Hv)|].
  split.
  { apply (captureVideoFrameFromElement_summary videoElement timeSeconds w h
             script s v Hidle Hv y (or_intror eq_refl)). reflexivity. }
  split; [apply (captureVideoFrame_releases videoUrl timeSeconds w h script s Hidle);
          now left|].
  split; [apply (captureVideoFrame_releases videoUrl timeSeconds w h script s Hidle);
          now right|].
  split; [apply (captureVideoFrame_rest_inert videoUrl timeSeconds w h script s Hidle)|].
  apply (captureVideoFrame_summary videoUrl timeSeconds w h script s Hidle y'
           (or_intror eq_refl)). reflexivity.
Qed.

Lemma capture_cleanup_exactly_once_witness :
  idle (pageAt 0)
  /\ dom (pageAt 0) !! 0%nat = Some (videoAt 0)
  /\ releasedOnce 1 (pageAt 0)
       (captureVideoFrameFromElement 0 20 320 180 (undisturbed 100 20) (pageAt 0))
  /\ timeoutClearedOnce 1 (pageAt 0)
       (captureVideoFrameFromElement 0 20 320 180 (undisturbed 100 20) (pageAt 0)).
Proof.
  split; [exact (pageAt_idle 0)|]. split; [reflexivity|].
  exact (proj1 (proj2 (capture_cleanup_exactly_once 0 "/test-video.mp4" 20 320 180
                         (undisturbed 100 20) (pageAt 0) (videoAt 0)
                         (pageAt_idle 0) eq_refl))).
Defined.

(** A decode error 10 ms after the metadata, resp. a capture from a URL
    that goes well. *)
Definition errorAfterMetadata : list Event :=
  [ decoded 100 0 1 ""; Fire ev_loadedmetadata; Wait 10; Fire ev_error ].

Definition undisturbedUrl (duration time : Q) : list Event :=
  [ decoded duration 0 1 ""; Fire ev_loadedmetadata;
    decoded duration time 4 "frame"; Fire ev_seeked ].

(** C4 as stated fails. In [captureVideoFrameFromElement] an error that
    comes within 100 ms of the metadata rejects the promise while the
    100 ms timer of [onLoadedMetadata] is still pending, and nothing clears
    it. In [captureVideoFrame] the 15 s timeout is never cleared: it is
    still pending when the promise has resolved. *)
Lemma capture_ends_with_timers_pending :
  (settled (inFlightFromElement 0 20 320 180 errorAfterMetadata (pageAt 0))
   = Some (Rejected
       "Failed to load video for thumbnail: Unknown error. CORS may not be enabled on the video server.")
   /\ timers (inFlightFromElement 0 20 320 180 errorAfterMetadata (pageAt 0))
      = [mkTimer 2 100 cbSeekAfterMetadata])
  /\ (settled (inFlightFromUrl "/test-video.mp4" 20 320 180 (undisturbedUrl 100 20) (pageAt 0))
      = Some (Resolved "frame")
      /\ timers (inFlightFromUrl "/test-video.mp4" 20 320 180 (undisturbedUrl 100 20) (pageAt 0))
         = [mkTimer 1 15000 cbTimeout]
      /\ count (is_clear 1)
           (log (inFlightFromUrl "/test-video.mp4" 20 320 180 (undisturbedUrl 100 20) (pageAt 0)))
         = 0%nat).
Proof. repeat split; vm_compute; reflexivity. Qed.

(** ** Batches *)

(** The [thumbnailUrl] that the loop attaches for a settled capture. *)
Definition thumbnailOf (o : option Outcome) : option string :=
  match o with
  | Some (Resolved dataUrl) => Some dataUrl
  | _ => None
  end.

(** Does the action play, pause or seek element [id]? *)
Definition steers (id : nat) (a : Action) : bool :=
  match a with
  | Play i | Pause i | SetCurrentTime i _ => (i =? id)%nat
  | _ => false
  end.

Lemma not_touching_not_steering (id : nat) (a : Action) :
  touches a <> Some id -> steers id a = false.
Proof.
  destruct a; simpl; try reflexivity; intros H;
    apply Nat.eqb_neq; congruence.
Qed.

Lemma sleep_spec (ms : N) (s : State) :
  idle s ->
  idle (sleep ms s) /\ dom (sleep ms s) = dom s
  /\ log (sleep ms s) = log s ++ [SetTimeout (nextTimerId s) cbResume ms].
Proof.
  intros [Ht Hn]. unfold sleep, idle. simpl. rewrite Ht. simpl.
  rewrite Nat.eqb_refl. simpl. repeat split. discriminate.
Qed.

(** What the loop over the chapters gives: [out] holds, for the chapter at
    position [k], that chapter with the thumbnail of its capture. *)
Definition thumbnailsOf (capture : ChapterDefinition -> nat -> State -> State)
    (ok : State -> Prop) (first : nat) (todo : list ChapterDefinition)
    (out : list Chapter) : Prop :=
  length out = length todo
  /\ forall k ch, todo !! k = Some ch ->
       exists sk, ok sk
         /\ out !! k
            = Some (mkChapter ch (thumbnailOf (settled (capture ch (first + k)%nat sk)))).

Lemma thumbnailsOf_cons (capture : ChapterDefinition -> nat -> State -> State)
    (ok : State -> Prop) (i : nat) (ch : ChapterDefinition)
    (todo : list ChapterDefinition) (out : list Chapter) (si : State) :
  ok si ->
  thumbnailsOf capture ok (S i) todo out ->
  thumbnailsOf capture ok i (ch :: todo)
    (mkChapter ch (thumbnailOf (settled (capture ch i si))) :: out).
Proof.
  intros Hok [Hlen Hout]. split; [simpl; now rewrite Hlen|].
  intros [|k] ch' Hk; simpl in Hk.
  - injection Hk as <-. exists si. rewrite Nat.add_0_r. now split.
  - destruct (Hout k ch' Hk) as (sk & Hsk & Hk').
    exists sk. split; [assumption|]. simpl.
    now replace (i + S k)%nat with (S i + k)%nat by lia.
Qed.

Section ElementLoop.
Variables (videoElement w h : nat) (env : BatchEnv) (n : nat).
Variable v : HTMLVideoElement.

Definition elementCapture (ch : ChapterDefinition) (i : nat) (s : State) : State :=
  captureVideoFrameFromElement videoElement (startTime ch) w h (scripts env i) s.

(** The states in which the loop starts a capture. *)
Definition betweenCaptures (s : State) : Prop :=
  idle s /\ dom s !! videoElement = Some v.

Lemma elementLoop_spec (todo : list ChapterDefinition) :
  forall (i : nat) (acc : list Chapter) (s : State),
    betweenCaptures s ->
    exists s' out,
      elementLoop videoElement w h env n i todo acc s = Returned (s', acc ++ out)
      /\ betweenCaptures s'
      /\ thumbnailsOf elementCapture betweenCaptures i todo out
      /\ exists l, log s' = log s ++ l /\ Forall (fun a => steers videoElement a = false) l.
Proof.
  induction todo as [|ch todo IH]; intros i acc s Hs.
  - exists s, []. simpl. rewrite !app_nil_r. repeat split; try apply Hs.
    + intros k ch Hk. discriminate.
    + exists []. rewrite app_nil_r. split; [reflexivity | constructor].
  - simpl.
    set (s1 := emit (ConsoleLog (generating i n ch)) s).
    set (s2 := if (0 <? i)%nat then sleep 300 s1 else s1).
    assert (H2 : betweenCaptures s2
                  /\ exists l, log s2 = log s ++ l
                               /\ Forall (fun a => steers videoElement a = false) l).
    { destruct Hs as [Hidle Hv]. subst s2. destruct (0 <? i)%nat.
      - destruct (sleep_spec 300 s1 Hidle) as (Hi & Hd & Hl).
        split; [split; [assumption | now rewrite Hd]|].
        eexists. rewrite Hl. unfold s1. simpl. rewrite <- app_assoc.
        split; [reflexivity | repeat constructor].
      - split; [split; assumption|].
        eexists. unfold s1. simpl. split; [reflexivity | repeat constructor]. }
    destruct H2 as ([Hidle2 Hv2] & l2 & Hl2 & Hall2).
    set (s3 := captureVideoFrameFromElement videoElement (startTime ch) w h
                 (scripts env i) s2).
    destruct (captureVideoFrameFromElement_summary videoElement (startTime ch) w h
                (scripts env i) s2 v Hidle2 Hv2 s3 (or_intror eq_refl))
      as (_ & Hsame & (l3 & Hl3 & Hall3) & Hn3 & Hfin).
    destruct (Hfin eq_refl) as [Hset3 Ht3].
    pose proof (lookup_lt_Some _ _ _ Hv2) as Hlt.
    assert (H3 : forall a, betweenCaptures (emit a s3)).
    { intros a. split; [split; assumption|]. simpl. now rewrite Hsame. }
    assert (Hlog3 : forall a, steers videoElement a = false ->
              exists l, log (emit a s3) = log s ++ l
                        /\ Forall (fun a => steers videoElement a = false) l).
    { intros a Ha. exists (l2 ++ l3 ++ [a]). simpl.
      rewrite Hl3, Hl2, <- !app_assoc. split; [reflexivity|].
      apply Forall_app_2; [assumption|]. apply Forall_app_2; [|repeat constructor; assumption].
      eapply List.Forall_impl; [|exact Hall3]. simpl.
      intros b Hb. apply not_touching_not_steering. intros Hc. apply Hb in Hc. lia. }
    assert (Hth : forall out',
              thumbnailsOf elementCapture betweenCaptures (S i) todo out' ->
              thumbnailsOf elementCapture betweenCaptures i (ch :: todo)
                (mkChapter ch (thumbnailOf (settled s3)) :: out')).
    { intros out' Hout. apply (thumbnailsOf_cons elementCapture betweenCaptures
                                 i ch todo out' s2); [split; assumption | assumption]. }
    destruct (settled s3) as [[thumbnailUrl | error]|] eqn:Hs3; [| |contradiction].
    + destruct (IH (S i) (acc ++ [mkChapter ch (Some thumbnailUrl)])
                  (emit (ConsoleLog ("Thumbnail generated for " ++ title ch)) s3)
                  (H3 _)) as (s' & out & Hret & Hb & Hout & l & Hl & Hall).
      exists s', (mkChapter ch (Some thumbnailUrl) :: out).
      rewrite Hret, <- app_assoc. split; [reflexivity|]. split; [assumption|].
      split; [now apply Hth|].
      destruct (Hlog3 (ConsoleLog ("Thumbnail generated for " ++ title ch)) eq_refl)
        as (l' & Hl' & Hall').
      exists (l' ++ l). rewrite Hl, Hl', <- app_assoc.
      split; [reflexivity | now apply Forall_app_2].
    + destruct (IH (S i) (acc ++ [mkChapter ch None])
                  (emit (ConsoleError ("Failed to generate thumbnail for chapter "
                                         ++ title ch ++ ": " ++ error)) s3)
                  (H3 _)) as (s' & out & Hret & Hb & Hout & l & Hl & Hall).
      exists s', (mkChapter ch None :: out).
      rewrite Hret, <- app_assoc. split; [reflexivity|]. split; [assumption|].
      split; [now apply Hth|].
      destruct (Hlog3 (ConsoleError ("Failed to generate thumbnail for chapter "
                                       ++ title ch ++ ": " ++ error)) eq_refl)
        as (l' & Hl' & Hall').
      exists (l' ++ l). rewrite Hl, Hl', <- app_assoc.
      split; [reflexivity | now apply Forall_app_2].
Qed.
End ElementLoop.

Section UrlLoop.
Variables (videoUrl : string) (w h : nat) (env : BatchEnv) (n : nat).

Definition urlCapture (ch : ChapterDefinition) (i : nat) (s : State) : State :=
  captureVideoFrame videoUrl (startTime ch) w h (scripts env i) s.

Lemma urlLoop_spec (todo : list ChapterDefinition) :
  forall (i : nat) (acc : list Chapter) (s : State),
    idle s ->
    exists s' out,
      urlLoop videoUrl w h env n i todo acc s = Returned (s', acc ++ out)
      /\ idle s'
      /\ thumbnailsOf urlCapture idle i todo out.
Proof.
  induction todo as [|ch todo IH]; intros i acc s Hs.
  - exists s, []. simpl. rewrite !app_nil_r. repeat split; try apply Hs.
    intros k ch Hk. discriminate.
  - simpl.
    set (s1 := emit (ConsoleLog (generating i n ch)) s).
    set (s3 := captureVideoFrame videoUrl (startTime ch) w h (scripts env i) s1).
    destruct (captureVideoFrame_summary videoUrl (startTime ch) w h
                (scripts env i) s1 Hs s3 (or_intror eq_refl))
      as (_ & _ & _ & Hn3 & Hfin).
    destruct (Hfin eq_refl) as [Hset3 Ht3].
    assert (H3 : forall a,
              idle (if (i <? n - 1)%nat then sleep 200 (emit a s3) else emit a s3)).
    { intros a. assert (Hi : idle (emit a s3)) by (split; assumption).
      destruct (i <? n - 1)%nat; [apply (sleep_spec 200 _ Hi) | exact Hi]. }
    assert (Hth : forall out',
              thumbnailsOf urlCapture idle (S i) todo out' ->
              thumbnailsOf urlCapture idle i (ch :: todo)
                (mkChapter ch (thumbnailOf (settled s3)) :: out')).
    { intros out' Hout.
      apply (thumbnailsOf_cons urlCapture idle i ch todo out' s1); assumption. }
    destruct (settled s3) as [[thumbnailUrl | error]|] eqn:Hs3; [| |contradiction].
    + destruct (IH (S i) (acc ++ [mkChapter ch (Some thumbnailUrl)]) _
                  (H3 (ConsoleLog ("Thumbnail generated for " ++ title ch))))
        as (s' & out & Hret & Hb & Hout).
      exists s', (mkChapter ch (Some thumbnailUrl) :: out).
      rewrite Hret, <- app_assoc. split; [reflexivity|]. split; [assumption|].
      now apply Hth.
    + destruct (IH (S i) (acc ++ [mkChapter ch None]) _
                  (H3 (ConsoleError ("Failed to generate thumbnail for chapter "
                                       ++ title ch ++ ": " ++ error))))
        as (s' & out & Hret & Hb & Hout).
      exists s', (mkChapter ch None :: out).
      rewrite Hret, <- app_assoc. split; [reflexivity|]. split; [assumption|].
      now apply Hth.
Qed.
End UrlLoop.

Lemma thumbnailsOf_weaken (capture : ChapterDefinition -> nat -> State -> State)
    (ok ok' : State -> Prop) (first : nat) (todo : list ChapterDefinition)
    (out : list Chapter) :
  (forall x, ok x -> ok' x) ->
  thumbnailsOf capture ok first todo out -> thumbnailsOf capture ok' first todo out.
Proof.
  intros Hw [Hlen Hout]. split; [assumption|].
  intros k ch Hk. destruct (Hout k ch Hk) as (sk & Hsk & Hk'). eauto.
Qed.

Lemma thumbnailsOf_definitions (capture : ChapterDefinition -> nat -> State -> State)
    (ok : State -> Prop) (first : nat) (todo : list ChapterDefinition)
    (out : list Chapter) :
  thumbnailsOf capture ok first todo out -> map definition out = todo.
Proof.
  intros [Hlen Hout]. apply list_eq. intros k.
  rewrite list_lookup_fmap.
  destruct (todo !! k) as [ch|] eqn:Hk.
  - destruct (Hout k ch Hk) as (sk & _ & ->). reflexivity.
  - apply lookup_ge_None in Hk.
    rewrite (lookup_ge_None_2 out k) by lia. reflexivity.
Qed.

Lemma lookup_update_element (i : nat) (f : HTMLVideoElement -> HTMLVideoElement)
    (s : State) (v : HTMLVideoElement) :
  dom s !! i = Some v -> dom (update_element i f s) !! i = Some (f v).
Proof. intros H. simpl. now rewrite list_lookup_alter_eq, H. Qed.

Lemma element_lookup (i : nat) (s : State) (v : HTMLVideoElement) :
  dom s !! i = Some v -> element i s = v.
Proof. intros H. unfold element. now rewrite H. Qed.

Lemma add_listener_keeps (ev : EventType) (hd : Handler) (once : bool)
    (v : HTMLVideoElement) :
  paused (add_listener ev hd once v) = paused v
  /\ currentTime (add_listener ev hd once v) = currentTime v.
Proof. unfold add_listener. destruct (existsb _ _); split; reflexivity. Qed.

(** The supplied element when the batch has paused it and waited for it. *)
Definition readied (env : BatchEnv) (v : HTMLVideoElement) : HTMLVideoElement :=
  let v1 := if paused v then v else set_paused true v in
  if (readyState v <? 2)%nat
  then drop_listener ev_canplay onCanPlayReady
         (add_listener ev_canplay onCanPlayReady false v1)
  else v1.

Lemma readied_keeps (env : BatchEnv) (v : HTMLVideoElement) :
  paused (readied env v) = true /\ currentTime (readied env v) = currentTime v.
Proof.
  unfold readied.
  destruct (paused v) eqn:Hp, (readyState v <? 2)%nat; simpl;
    rewrite ?(proj1 (add_listener_keeps _ _ _ _)),
            ?(proj2 (add_listener_keeps _ _ _ _)); simpl; auto.
Qed.

(** What the batch does to the supplied element and says to the platform,
    whenever it returns. *)
Lemma generateChapterThumbnailsFromElement_spec
    (videoElement : nat) (chapters : list ChapterDefinition)
    (w h : nat) (env : BatchEnv) (s : State) (v : HTMLVideoElement) :
  idle s -> dom s !! videoElement = Some v ->
  if (readyState v <? 2)%nat && negb (canplayFires env)
  then generateChapterThumbnailsFromElement videoElement chapters w h env s = Pending
  else
    exists s' out v' l,
      generateChapterThumbnailsFromElement videoElement chapters w h env s
      = Returned (s', out)
      /\ thumbnailsOf (elementCapture videoElement w h env)
           (betweenCaptures videoElement (readied env v)) 0 chapters out
      /\ dom s' !! videoElement = Some v'
      /\ currentTime v' = 0%Q
      /\ paused v' = (if paused v then true else negb (playAllowed env))
      /\ log s'
         = log s ++ (if paused v then [] else [Pause videoElement]) ++ l
             ++ [SetCurrentTime videoElement 0]
             ++ (if paused v then [] else [Play videoElement])
      /\ Forall (fun a => steers videoElement a = false) l.
Proof.
  intros Hidle Hv. unfold generateChapterThumbnailsFromElement. rewrite Hv.
  set (s1 := if negb (paused v) then pause videoElement s else s).
  set (v1 := if paused v then v else set_paused true v).
  assert (H1 : idle s1 /\ dom s1 !! videoElement = Some v1
               /\ log s1 = log s ++ (if paused v then [] else [Pause videoElement])).
  { subst s1 v1. destruct (paused v); simpl.
    - rewrite app_nil_r. auto.
    - split; [exact Hidle|]. split; [|reflexivity].
      now rewrite list_lookup_alter_eq, Hv. }
  destruct H1 as (Hidle1 & Hv1 & Hlog1).
  assert (Hready : readyState (element videoElement s1) = readyState v).
  { rewrite (element_lookup _ _ _ Hv1). subst v1. now destruct (paused v). }
  rewrite Hready.
  destruct (readyState v <? 2)%nat eqn:Hr; simpl.
  - destruct (canplayFires env) eqn:Hc; simpl; [|reflexivity].
    set (s2 := removeEventListener videoElement ev_canplay onCanPlayReady
                 (addEventListener videoElement ev_canplay onCanPlayReady false s1)).
    assert (H2 : betweenCaptures videoElement (readied env v) s2).
    { split; [exact Hidle1|]. subst s2. simpl.
      rewrite !list_lookup_alter_eq, Hv1. simpl. unfold readied. now rewrite Hr. }
    destruct (elementLoop_spec videoElement w h env (length chapters)
                (readied env v) chapters 0 [] s2 H2)
      as (s3 & out & Hret & [Hidle3 Hv3] & Hout & l & Hl & Hall).
    rewrite Hret. simpl.
    destruct (readied_keeps env v) as [Hp Ht].
    assert (Hlog : log s3 = log s ++ (if paused v then [] else [Pause videoElement])
                     ++ [AddEventListener videoElement ev_canplay onCanPlayReady false;
                         RemoveEventListener videoElement ev_canplay onCanPlayReady]
                     ++ l).
    { rewrite Hl. subst s2. simpl. rewrite Hlog1, <- !app_assoc. reflexivity. }
    assert (Hall' : Forall (fun a => steers videoElement a = false)
                      ([AddEventListener videoElement ev_canplay onCanPlayReady false;
                        RemoveEventListener videoElement ev_canplay onCanPlayReady]
                       ++ l))
      by (repeat constructor; assumption).
    destruct (paused v) eqn:Hpv; [|destruct (playAllowed env) eqn:Hpa]; simpl;
      eexists _, out, _, _; (split; [reflexivity|]); (split; [assumption|]);
      simpl; rewrite ?list_lookup_alter_eq, ?list_lookup_alter_eq, Hv3; simpl;
      (split; [reflexivity|]); (split; [reflexivity|]);
      (split; [first [reflexivity | assumption]|]);
      (split; [|exact Hall']); rewrite Hlog; simpl; rewrite <- ?app_assoc; reflexivity.
  - assert (H2 : betweenCaptures videoElement (readied env v) s1).
    { split; [exact Hidle1|]. unfold readied. now rewrite Hr. }
    destruct (elementLoop_spec videoElement w h env (length chapters)
                (readied env v) chapters 0 [] s1 H2)
      as (s3 & out & Hret & [Hidle3 Hv3] & Hout & l & Hl & Hall).
    rewrite Hret. simpl.
    destruct (readied_keeps env v) as [Hp Ht].
    assert (Hlog : log s3 = log s ++ (if paused v then [] else [Pause videoElement])
                     ++ l).
    { rewrite Hl, Hlog1, <- !app_assoc. reflexivity. }
    destruct (paused v) eqn:Hpv; [|destruct (playAllowed env) eqn:Hpa]; simpl;
      eexists _, out, _, _; (split; [reflexivity|]); (split; [assumption|]);
      simpl; rewrite ?list_lookup_alter_eq, ?list_lookup_alter_eq, Hv3; simpl;
      (split; [reflexivity|]); (split; [reflexivity|]);
      (split; [first [reflexivity | assumption]|]);
      (split; [|exact Hall]); rewrite Hlog; simpl; rewrite <- ?app_assoc; reflexivity.
Qed.

(** C1, as the code has it. [generateChapterThumbnails] always returns, and
    [generateChapterThumbnailsFromElement] returns whenever the supplied
    element is ready ([readyState >= 2]) or signals [canplay] later: one
    record per chapter definition, in the order of the definitions, each
    with the data URL of its capture, or with [null] when that capture
    failed. Neither function throws. An element that is not ready and
    never signals [canplay] leaves [generateChapterThumbnailsFromElement]
    waiting: it returns nothing. *)
Theorem batch_returns_one_record_per_chapter
    (videoElement : nat) (videoUrl : string) (chapters : list ChapterDefinition)
    (w h : nat) (env : BatchEnv) (s : State) (v : HTMLVideoElement) :
  idle s -> dom s !! videoElement = Some v ->
  ((2 <= readyState v)%nat \/ canplayFires env = true ->
   exists s' out,
     generateChapterThumbnailsFromElement videoElement chapters w h env s
     = Returned (s', out)
     /\ map definition out = chapters
     /\ thumbnailsOf (elementCapture videoElement w h env)
          (betweenCaptures videoElement (readied env v)) 0 chapters out)
  /\ ((readyState v < 2)%nat /\ canplayFires env = false ->
      generateChapterThumbnailsFromElement videoElement chapters w h env s = Pending)
  /\ (forall e,
        generateChapterThumbnailsFromElement videoElement chapters w h env s <> Threw e)
  /\ (exists s' out,
        generateChapterThumbnails videoUrl chapters w h env s = Returned (s', out)
        /\ map definition out = chapters
        /\ thumbnailsOf (urlCapture videoUrl w h env) idle 0 chapters out).
Proof.
  intros Hidle Hv.
  pose proof (generateChapterThumbnailsFromElement_spec videoElement chapters w h
                env s v Hidle Hv) as Hspec.
  split; [|split; [|split]].
  - intros Hready.
    assert (Hc : (readyState v <? 2)%nat && negb (canplayFires env) = false).
    { destruct Hready as [Hr | Hc].
      - apply Nat.ltb_ge in Hr. now rewrite Hr.
      - rewrite Hc. apply andb_false_r. }
    rewrite Hc in Hspec. destruct Hspec as (s' & out & v' & l & Hret & Hout & _).
    exists s', out. split; [assumption|]. split; [|assumption].
    now apply thumbnailsOf_definitions in Hout.
  - intros [Hr Hc]. apply Nat.ltb_lt in Hr. now rewrite Hr, Hc in Hspec.
  - intros e He.
    destruct ((readyState v <? 2)%nat && negb (canplayFires env)).
    + rewrite Hspec in He. discriminate.
    + destruct Hspec as (s' & out & v' & l & Hret & _). rewrite Hret in He. discriminate.
  - unfold generateChapterThumbnails.
    destruct (urlLoop_spec videoUrl w h env (length chapters) chapters 0 [] s Hidle)
      as (s' & out & Hret & _ & Hout).
    exists s', out. split; [assumption|]. split; [|assumption].
    now apply thumbnailsOf_definitions in Hout.
Qed.

(** A batch environment in which no decoder ever reports anything: every
    capture runs into its overall timeout. *)
Definition silent : BatchEnv := mkBatchEnv true true (fun _ => []).

Lemma batch_returns_one_record_per_chapter_witness :
  idle (pageAt 0)
  /\ dom (pageAt 0) !! 0%nat = Some (videoAt 0)
  /\ (2 <= readyState (videoAt 0))%nat
  /\ exists s' out,
       generateChapterThumbnailsFromElement 0 (generateEqualChapters 100 5 "Chapter")
         320 180 silent (pageAt 0) = Returned (s', out)
       /\ map definition out = generateEqualChapters 100 5 "Chapter".
Proof.
  assert (Hr : (2 <= readyState (videoAt 0))%nat) by (simpl; lia).
  split; [exact (pageAt_idle 0)|]. split; [reflexivity|]. split; [exact Hr|].
  destruct (proj1 (batch_returns_one_record_per_chapter 0 "/test-video.mp4"
                     (generateEqualChapters 100 5 "Chapter") 320 180 silent
                     (pageAt 0) (videoAt 0) (pageAt_idle 0) eq_refl) (or_introl Hr))
    as (s' & out & Hret & Hdefs & _).
  exists s', out. split; [exact Hret | exact Hdefs].
Defined.

(** The scenario of the specification: all five captures time out. *)
Example batch_all_captures_time_out :
  exists s',
    generateChapterThumbnailsFromElement 0 (generateEqualChapters 100 5 "Chapter")
      320 180 silent (pageAt 0)
    = Returned (s', map (fun d => mkChapter d None)
                      (generateEqualChapters 100 5 "Chapter")).
Proof. eexists. vm_compute. reflexivity. Qed.

(** A page whose video element has its metadata but no frame yet. *)
Definition notReady : State :=
  mkState [mkVideo "/test-video.mp4" "/test-video.mp4" None "" false false
             (Num 100) 0 1 true None None []] 0 [] 1 [] false None.

Definition neverReady : BatchEnv :=
  mkBatchEnv false true (fun _ => undisturbed 100 0).

(** C1 as stated fails: on an element that has not reached
    [readyState] 2 and never signals [canplay], the batch from an element
    stays suspended on its first [await] and returns no record at all. *)
Lemma batch_waits_forever_for_canplay :
  idle notReady
  /\ generateChapterThumbnailsFromElement 0 (generateEqualChapters 100 5 "Chapter")
       320 180 neverReady notReady = Pending
  /\ forall s' out,
       generateChapterThumbnailsFromElement 0 (generateEqualChapters 100 5 "Chapter")
         320 180 neverReady notReady <> Returned (s', out).
Proof.
  split; [split; [reflexivity | discriminate]|].
  split; [reflexivity|]. intros s' out. discriminate.
Qed.

(** C5, as the code has it. When [generateChapterThumbnailsFromElement]
    returns, the supplied element is at position 0. An element that was
    paused is still paused. An element that was playing was paused before
    anything else was done, nothing in between played, paused or seeked it,
    and the last thing the batch does is ask it to play again: it is
    playing again if the platform accepts that request, and stays paused if
    the request is rejected (the rejection is swallowed). *)
Theorem batch_resets_position_and_asks_to_resume
    (videoElement : nat) (chapters : list ChapterDefinition)
    (w h : nat) (env : BatchEnv) (s s' : State) (v : HTMLVideoElement)
    (out : list Chapter) :
  idle s -> dom s !! videoElement = Some v ->
  generateChapterThumbnailsFromElement videoElement chapters w h env s
  = Returned (s', out) ->
  exists v' l,
    dom s' !! videoElement = Some v'
    /\ currentTime v' = 0%Q
    /\ paused v' = (if paused v then true else negb (playAllowed env))
    /\ (paused v = true \/ playAllowed env = true -> paused v' = paused v)
    /\ log s'
       = log s ++ (if paused v then [] else [Pause videoElement]) ++ l
           ++ [SetCurrentTime videoElement 0]
           ++ (if paused v then [] else [Play videoElement])
    /\ Forall (fun a => steers videoElement a = false) l.
Proof.
  intros Hidle Hv Hret.
  pose proof (generateChapterThumbnailsFromElement_spec videoElement chapters w h
                env s v Hidle Hv) as Hspec.
  destruct ((readyState v <? 2)%nat && negb (canplayFires env)).
  - rewrite Hspec in Hret. discriminate.
  - destruct Hspec as (s2 & out2 & v' & l & Hret2 & _ & Hv' & Ht & Hp & Hlog & Hall).
    rewrite Hret in Hret2. injection Hret2 as <- <-.
    exists v', l. repeat (split; [assumption|]). split; [|split; assumption].
    intros [Hpv | Hpa]; rewrite Hp.
    + now rewrite Hpv.
    + rewrite Hpa. now destruct (paused v).
Qed.

Definition playRefused : BatchEnv :=
  mkBatchEnv true false (fun _ => undisturbed 100 0).

Definition afterBatch (env : BatchEnv) (s : State) : State :=
  match generateChapterThumbnailsFromElement 0 (generateEqualChapters 100 5 "Chapter")
          320 180 env s with
  | Returned (s', _) => s'
  | _ => s
  end.

Lemma batch_resets_position_and_asks_to_resume_witness :
  idle (pageAt 45)
  /\ dom (pageAt 45) !! 0%nat = Some (videoAt 45)
  /\ exists v',
       dom (afterBatch silent (pageAt 45)) !! 0%nat = Some v'
       /\ currentTime v' = 0%Q /\ paused v' = false.
Proof.
  split; [exact (pageAt_idle 45)|]. split; [reflexivity|].
  destruct (generateChapterThumbnailsFromElement_spec 0
              (generateEqualChapters 100 5 "Chapter") 320 180 silent
              (pageAt 45) (videoAt 45) (pageAt_idle 45) eq_refl)
    as (s' & out & _ & _ & Hret & _).
  destruct (batch_resets_position_and_asks_to_resume 0
              (generateEqualChapters 100 5 "Chapter") 320 180 silent
              (pageAt 45) s' (videoAt 45) out (pageAt_idle 45) eq_refl Hret)
    as (v' & l & Hv' & Ht & Hp & _).
  exists v'. unfold afterBatch. rewrite Hret. repeat split; assumption.
Defined.

(** C5 as stated fails: the element was playing, the platform rejects the
    final [play()], and the batch returns with the element paused. *)
Lemma batch_leaves_element_paused_when_play_is_rejected :
  paused (element 0 (pageAt 45)) = false
  /\ (exists s' out,
        generateChapterThumbnailsFromElement 0 (generateEqualChapters 100 5 "Chapter")
          320 180 playRefused (pageAt 45) = Returned (s', out))
  /\ paused (element 0 (afterBatch playRefused (pageAt 45))) = true
  /\ currentTime (element 0 (afterBatch playRefused (pageAt 45))) = 0%Q.
Proof.
  split; [reflexivity|]. split; [|split; vm_compute; reflexivity].
  eexists _, _. vm_compute. reflexivity.
Qed.

(** ** The requested seek time *)

(** The seek that a capture from an element asks of the decoder, from the
    requested time, the duration that the supplied element reports and the
    duration that the internal element reports when the seek is made. *)
Definition requestedFromElement (timeSeconds : Q) (duration thumbDuration : num) : num :=
  let duration := or_zero duration in
  let seekTime := nudge (clamp (Num timeSeconds) duration) duration in
  nudge (clamp seekTime thumbDuration) thumbDuration.

(** The same for a capture from a URL. *)
Definition requestedFromUrl (timeSeconds : Q) (duration : num) : num :=
  clamp (Num timeSeconds) duration.

Lemma seekThumb_requests (c : Closure) (s : State) :
  FromElement.seekThumb c s
  = setCurrentTime (thumbVideo c)
      (nudge (clamp (seekTime c) (duration (element (thumbVideo c) s)))
         (duration (element (thumbVideo c) s))) s.
Proof. reflexivity. Qed.

Lemma seekVideo_requests (c : Closure) (s : State) :
  FromUrl.seekVideo c s
  = setCurrentTime (thumbVideo c)
      (clamp (seekTime c) (duration (element (thumbVideo c) s))) s.
Proof. reflexivity. Qed.

Lemma clamp_range (q d : Q) :
  (0.1 <= d)%Q ->
  (0 <= Qmin (Qmax 0 q) (d - 0.1) /\ Qmin (Qmax 0 q) (d - 0.1) <= d - 0.1)%Q.
Proof.
  intros Hd.
  destruct (Q.min_spec (Qmax 0 q) (d - 0.1)) as [[H1 H2]|[H1 H2]];
    destruct (Q.max_spec 0 q) as [[H3 H4]|[H3 H4]];
    rewrite H2; try rewrite H4; split; lra.
Qed.

(** On a stream of at least 0.1 s every seek lands in [0, duration). *)
Lemma seek_within_stream (q d : Q) :
  (0.1 <= d)%Q ->
  exists r, nudge (clamp (Num q) (Num d)) (Num d) = Num r /\ (0 <= r /\ r < d)%Q.
Proof.
  intros Hd. unfold nudge, clamp. simpl.
  destruct (clamp_range q d Hd) as [H0 H1].
  destruct (Qeq_bool (Qmin (Qmax 0 q) (d - 0.1)) 0 && Qlt_bool 0.1 d) eqn:E.
  - apply andb_true_iff in E as [_ E]. apply Qlt_bool_iff in E.
    exists 0.1%Q. split; [reflexivity|]. lra.
  - eexists. split; [reflexivity|]. lra.
Qed.

(** On a shorter stream every seek is to a negative time. *)
Lemma seek_before_zero (q d : Q) :
  (d < 0.1)%Q ->
  exists r, nudge (clamp (Num q) (Num d)) (Num d) = Num r /\ (r < 0)%Q.
Proof.
  intros Hd. unfold nudge, clamp. simpl.
  assert (Hm : (Qmin (Qmax 0 q) (d - 0.1) <= d - 0.1)%Q) by apply Q.le_min_r.
  destruct (Qeq_bool (Qmin (Qmax 0 q) (d - 0.1)) 0) eqn:E; simpl.
  - apply Qeq_bool_iff in E. lra.
  - eexists. split; [reflexivity|]. lra.
Qed.

(** A capture from an element at time 0: 0.1 s when both durations allow
    it, and [duration - 0.1] on a stream between 0.1 s and 0.2 s. *)
Lemma requestedFromElement_at_zero (d d' : Q) :
  (0.1 < d)%Q ->
  exists r, requestedFromElement 0 (Num d) (Num d') = Num r
    /\ ((0.2 <= d')%Q -> (r == 0.1)%Q)
    /\ ((0.1 < d')%Q -> (d' < 0.2)%Q -> (r == d' - 0.1)%Q).
Proof.
  intros Hd. unfold requestedFromElement, or_zero.
  destruct (Qeq_bool d 0) eqn:E0; [apply Qeq_bool_iff in E0; lra|].
  assert (Hs : nudge (clamp (Num 0) (Num d)) (Num d) = Num 0.1).
  { unfold nudge, clamp. simpl.
    assert (Hm : (Qmin (Qmax 0 0) (d - 0.1) == 0)%Q).
    { destruct (Q.min_spec (Qmax 0 0) (d - 0.1)) as [[H1 H2]|[H1 H2]];
        destruct (Q.max_spec 0 0) as [[H3 H4]|[H3 H4]]; lra. }
    apply Qeq_bool_iff in Hm. rewrite Hm.
    assert (Hl : Qlt_bool 0.1 d = true) by now apply Qlt_bool_iff.
    now rewrite Hl. }
  rewrite Hs. unfold nudge, clamp. simpl.
  destruct (Q.min_spec (Qmax 0 0.1) (d' - 0.1)) as [[H1 H2]|[H1 H2]];
    destruct (Q.max_spec 0 0.1) as [[H3 H4]|[H3 H4]]; try lra.
  - assert (E : Qeq_bool (Qmin (Qmax 0 0.1) (d' - 0.1)) 0 = false).
    { destruct (Qeq_bool (Qmin (Qmax 0 0.1) (d' - 0.1)) 0) eqn:E; [|reflexivity].
      apply Qeq_bool_iff in E. lra. }
    rewrite E. simpl. eexists. split; [reflexivity|]. split; intros; lra.
  - destruct (Qeq_bool (Qmin (Qmax 0 0.1) (d' - 0.1)) 0 && Qlt_bool 0.1 d') eqn:E.
    + apply andb_true_iff in E as [E1 E2].
      apply Qeq_bool_iff in E1. apply Qlt_bool_iff in E2.
      exists 0.1%Q. split; [reflexivity|]. split; intros; lra.
    + eexists. split; [reflexivity|]. split; intros; lra.
Qed.

(** A capture from a URL at time 0 seeks to 0. *)
Lemma requestedFromUrl_at_zero (d : Q) :
  (0.1 <= d)%Q -> exists r, requestedFromUrl 0 (Num d) = Num r /\ (r == 0)%Q.
Proof.
  intros Hd. unfold requestedFromUrl, clamp. simpl. eexists. split; [reflexivity|].
  destruct (Q.min_spec (Qmax 0 0) (d - 0.1)) as [[H1 H2]|[H1 H2]];
    destruct (Q.max_spec 0 0) as [[H3 H4]|[H3 H4]]; lra.
Qed.

(** The seeks in a log: the element and the time, in lowest terms. *)
Definition seeks (l : list Action) : list (nat * Q) :=
  flat_map (fun a => match a with
                     | SetCurrentTime id t => [(id, Qred t)]
                     | _ => []
                     end) l.

(** C6 at a failing input: asked for the frame at 0 s of a 100 s video,
    [captureVideoFrame] seeks its element to exactly 0, where
    [captureVideoFrameFromElement] seeks to 0.1; and on a 0.15 s video
    [captureVideoFrameFromElement] seeks to 0.05, not to 0.1. *)
Theorem captureVideoFrame_seeks_to_exactly_zero :
  seeks (log (captureVideoFrame "/test-video.mp4" 0 320 180 (undisturbedUrl 100 0)
                (pageOf 100 0)))
  = [(1%nat, 0%Q)]
  /\ seeks (log (captureVideoFrameFromElement 0 0 320 180 (undisturbed 100 0)
                   (pageOf 100 0)))
     = [(1%nat, 0.1%Q)]
  /\ seeks (log (captureVideoFrameFromElement 0 0 320 180 (undisturbed 0.15 0)
                   (pageOf 0.15 0)))
     = [(1%nat, (1 # 20)%Q)].
Proof. repeat split; vm_compute; reflexivity. Qed.

(** C7 at a failing input: on a video of 0.05 s the capture asks the
    decoder for the time -0.05, whatever time was requested. *)
Theorem captureVideoFrameFromElement_seeks_before_zero :
  seeks (log (captureVideoFrameFromElement 0 0 320 180 (undisturbed 0.05 0)
                (pageOf 0.05 0)))
  = [(1%nat, (-1 # 20)%Q)]
  /\ seeks (log (captureVideoFrameFromElement 0 20 320 180 (undisturbed 0.05 0)
                   (pageOf 0.05 0)))
     = [(1%nat, (-1 # 20)%Q)]
  /\ seeks (log (captureVideoFrame "/test-video.mp4" 20 320 180 (undisturbedUrl 0.05 0)
                   (pageOf 0.05 0)))
     = [(1%nat, (-1 # 20)%Q)].
Proof. repeat split; vm_compute; reflexivity. Qed.

(** ** The element that a capture works on *)

(** Every capture from a supplied element begins by creating a video
    element of its own, pointing it at the supplied element's URL and
    loading it; whatever it does afterwards it does on that element. *)
Lemma captureVideoFrameFromElement_creates_element (videoElement : nat)
    (timeSeconds : Q) (w h : nat) (script : list Event) (s : State)
    (v : HTMLVideoElement) :
  idle s -> dom s !! videoElement = Some v ->
  forall x, x = inFlightFromElement videoElement timeSeconds w h script s
            \/ x = captureVideoFrameFromElement videoElement timeSeconds w h script s ->
  length (dom x) = S (length (dom s))
  /\ exists l,
       log x = log s ++ startLog (length (dom s)) (nextTimerId s)
                          (or_string (src v) (currentSrc v)) ++ l
       /\ Forall (fun a => forall id, touches a = Some id -> id = length (dom s)) l.
Proof.
  intros Hidle Hv x Hx.
  destruct (FromElement_flight videoElement timeSeconds w h s v Hidle Hv never
              never_releasing)
    as (c & s1 & Hstart & Hthumb & Htid & Hdom & Hlog & Hflight).
  specialize (Hflight script). cbv zeta in Hflight.
  destruct Hflight as ([HI1 _] & [HI2 _] & _).
  assert (HI : Inv c (FromElementFacts.el_cleanupLog c (nextTimerId s)) true
                 (nextTimerId s) s1 never x).
  { destruct Hx as [-> | ->].
    - unfold inFlightFromElement. now rewrite Hstart.
    - unfold captureVideoFrameFromElement. now rewrite Hstart. }
  split; [apply (Inv_frame _ _ _ _ _ _ _ _ _ HI Hthumb Hdom)|].
  destruct (inv_log _ _ _ _ _ _ _ HI) as (l & Hl & Hall).
  exists l. rewrite Hl, Hlog, <- app_assoc. split; [reflexivity|].
  unfold onThumb in Hall. now rewrite Hthumb in Hall.
Qed.

(** C9 at a failing input: a capture at 20 s from the one live element of
    the page (handle 0). The store then holds a second element (handle 1);
    it was given the same source and loaded, and the seek and the draw are
    made on it. *)
Theorem captureVideoFrameFromElement_decodes_on_a_second_element :
  length (dom (pageAt 45)) = 1%nat
  /\ length (dom (captureVideoFrameFromElement 0 20 320 180 (undisturbed 100 20)
                    (pageAt 45))) = 2%nat
  /\ log (captureVideoFrameFromElement 0 20 320 180 (undisturbed 100 20) (pageAt 45))
     = [ CreateVideo 1; SetTimeout 1 cbTimeout 10000;
         AddEventListener 1 ev_loadedmetadata onLoadedMetadata false;
         AddEventListener 1 ev_canplay onCanPlay false;
         AddEventListener 1 ev_seeked onSeeked true;
         AddEventListener 1 ev_error onError true;
         SetSrc 1 "/test-video.mp4"; Load 1;
         SetTimeout 2 cbSeekAfterMetadata 100;
         SetCurrentTime 1 20;
         SetTimeout 3 cbCaptureAfterSeeked 50;
         DrawImage 1 320 180;
         ClearTimeout 1;
         RemoveEventListener 1 ev_seeked onSeeked;
         RemoveEventListener 1 ev_error onError;
         RemoveEventListener 1 ev_loadedmetadata onLoadedMetadata;
         RemoveEventListener 1 ev_canplay onCanPlay;
         SetSrc 1 ""; Load 1;
         Resolve "frame" ].
Proof. repeat split; vm_compute; reflexivity. Qed.

(* ================================================================== *)
(** * Part III: the rest of the component and of the utilities         *)
(* ================================================================== *)

Section RootComponent.
Import Text Page.

(** ** The display of times *)


(** a nonnegative number split into whole minutes, whole seconds and a rest *)
Lemma split_seconds (s : Q) :
  let n := Qfloor s in
  (s == 60 * inject_Z (n / 60) + inject_Z (n mod 60) + (s - inject_Z n))%Q
  /\ (0 <= s - inject_Z n)%Q /\ (s - inject_Z n < 1)%Q
  /\ (0 <= n mod 60)%Z /\ (n mod 60 < 60)%Z.
Proof.
  intros n. pose proof (Qfloor_le s) as F1. pose proof (Qlt_floor s) as F2. fold n in F1, F2.
  rewrite inject_Z_plus in F2. change (inject_Z 1) with 1%Q in F2.
  pose proof (Z.div_mod n 60 ltac:(lia)) as D.
  pose proof (Z.mod_pos_bound n 60 ltac:(lia)) as B.
  assert (E : (inject_Z n == 60 * inject_Z (n / 60) + inject_Z (n mod 60))%Q).
  { rewrite D at 1. rewrite inject_Z_plus, inject_Z_mult. reflexivity. }
  split; [lra|]. split; [lra|]. split; [lra|]. split; lia.
Qed.

Lemma floor_minutes (s : Q) : Qfloor (s / 60) = (Qfloor s / 60)%Z.
Proof.
  destruct (split_seconds s) as (E & F0 & F1 & R0 & R1).
  assert (X : (s == 60 * (s / 60))%Q) by (field; discriminate).
  set (x := (s / 60)%Q) in *.
  assert (H0 : (0 <= inject_Z (Qfloor s mod 60))%Q)
    by (change 0%Q with (inject_Z 0); rewrite <- Zle_Qle; lia).
  assert (H1 : (inject_Z (Qfloor s mod 60) <= 59)%Q)
    by (change 59%Q with (inject_Z 59); rewrite <- Zle_Qle; lia).
  apply Qfloor_unique.
  - lra.
  - rewrite inject_Z_plus. change (inject_Z 1) with 1%Q. lra.
Qed.

Lemma trunc_nonneg (x : Q) : (0 <= x)%Q -> trunc x = Qfloor x.
Proof. intros H. unfold trunc. apply Qle_bool_iff in H. now rewrite H. Qed.

Lemma trunc_neg (x : Q) : (x < 0)%Q -> trunc x = Qceiling x.
Proof.
  intros H. unfold trunc. destruct (Qle_bool 0 x) eqn:E; [|reflexivity].
  apply Qle_bool_iff in E. lra.
Qed.

(** Whole seconds of a non-negative time. *)
Lemma floor_seconds (s : Q) :
  (0 <= s)%Q -> Qfloor (remainder s 60) = (Qfloor s mod 60)%Z.
Proof.
  intros Hs.
  destruct (split_seconds s) as (E & F0 & F1 & R0 & R1).
  assert (X : (s == 60 * (s / 60))%Q) by (field; discriminate).
  unfold remainder. rewrite trunc_nonneg by lra. rewrite floor_minutes.
  apply Qfloor_unique.
  - lra.
  - rewrite inject_Z_plus. change (inject_Z 1) with 1%Q. lra.
Qed.

Open Scope string_scope.







(** The seconds field of a time: two characters for 0 to 59. *)
Definition secondsField (r : Z) : string := padStart 2 (show_int r).

Definition wholeSeconds : list Z := map Z.of_nat (List.seq 0 60).

Lemma wholeSeconds_all (r : Z) : (0 <= r < 60)%Z -> In r wholeSeconds.
Proof.
  intros H. unfold wholeSeconds. apply in_map_iff. exists (Z.to_nat r).
  split; [lia|]. apply in_seq. lia.
Qed.

Lemma secondsField_length (r : Z) :
  (0 <= r < 60)%Z -> String.length (secondsField r) = 2%nat.
Proof.
  intros H. apply wholeSeconds_all in H. revert r H.
  apply (proj1 (List.Forall_forall (fun r => String.length (secondsField r) = 2%nat)
                  wholeSeconds)).
  unfold wholeSeconds. repeat constructor.
Qed.


(** A negative number prints with its sign: at least two characters. *)
Lemma padStart_negative (z : Z) : (z < 0)%Z -> padStart 2 (show_int z) = show_int z.
Proof.
  intros H. destruct z as [|p|p]; try lia.
  unfold padStart, show_int. simpl.
  pose proof (DecimalPos.Unsigned.to_uint_nonnil p) as N.
  unfold NilZero.string_of_uint.
  destruct (Pos.to_uint p); try contradiction; reflexivity.
Qed.

Lemma formatTime_nonneg (s : Q) :
  (0 <= s)%Q ->
  formatTime s = show_int (Qfloor s / 60) ++ ":" ++ secondsField (Qfloor s mod 60).
Proof.
  intros H. unfold formatTime, Math_floor.
  now rewrite floor_minutes, floor_seconds.
Qed.

(** X1. [formatTime] shows a double from 0 to below [2^55] seconds as
    whole minutes, a colon and whole seconds: the seconds are 0 to 59 and
    always take two characters, the minutes are below [2^50] (there is no
    hours field), and the fraction of a second is dropped. The rounding
    of the quotient does not show: the minutes of the doubles are those
    of the exact quotient. *)
Theorem formatTime_minutes_and_seconds (seconds : Q) :
  (round64 seconds == seconds)%Q ->
  (0 <= seconds)%Q -> (seconds < pow2 55)%Q ->
  exists mins secs : Z,
    (0 <= mins < 2 ^ 50)%Z /\ (0 <= secs < 60)%Z
    /\ (60 * mins + secs)%Z = Qfloor seconds
    /\ Math_floor (div64 seconds 60) = mins
    /\ formatTime64 seconds = show_int mins ++ ":" ++ padStart 2 (show_int secs)
    /\ formatTime seconds = formatTime64 seconds
    /\ String.length (padStart 2 (show_int secs)) = 2%nat.
Proof.
  intros R H H55. exists (Qfloor seconds / 60)%Z, (Qfloor seconds mod 60)%Z.
  assert (Hn : (0 <= Qfloor seconds)%Z).
  { change 0%Z with (Qfloor 0). now apply Qfloor_resp_le. }
  pose proof (Z.mod_pos_bound (Qfloor seconds) 60 ltac:(lia)) as B.
  assert (Hm : Math_floor (div64 seconds 60) = (Qfloor seconds / 60)%Z).
  { unfold Math_floor, div64. rewrite floor_sixtieth by assumption.
    apply floor_minutes. }
  assert (Hf : formatTime64 seconds = formatTime seconds).
  { unfold formatTime64, formatTime. rewrite Hm. unfold Math_floor.
    now rewrite floor_minutes. }
  assert (H50 : (Qfloor seconds / 60 < 2 ^ 50)%Z).
  { rewrite <- floor_minutes.
    pose proof (sixtieth_below_2_50 seconds H55) as L.
    pose proof (Qfloor_le (seconds / 60)) as F.
    rewrite Zlt_Qlt, <- (pow2_Z 50) by lia.
    eapply Qle_lt_trans; eassumption. }
  split; [split; [apply Z.div_pos; lia | assumption]|]. split; [assumption|].
  split; [symmetry; apply Z.div_mod; lia|].
  split; [assumption|].
  split; [rewrite Hf; now apply formatTime_nonneg|].
  split; [now symmetry | now apply secondsField_length].
Qed.

Lemma double_125_5 : (round64 125.5 == 125.5)%Q.
Proof. vm_compute. reflexivity. Qed.

Lemma below_2_55 : (125.5 < pow2 55)%Q.
Proof. vm_compute. reflexivity. Qed.

Lemma formatTime_minutes_and_seconds_witness :
  (round64 125.5 == 125.5)%Q /\ (0 <= 125.5)%Q /\ (125.5 < pow2 55)%Q
  /\ exists mins secs : Z,
       (60 * mins + secs)%Z = Qfloor 125.5
       /\ formatTime64 125.5 = (show_int mins ++ ":" ++ padStart 2 (show_int secs))%string.
Proof.
  split; [exact double_125_5|].
  split; [exact (Qle_bool_imp_le 0 125.5 eq_refl)|].
  split; [exact below_2_55|].
  destruct (formatTime_minutes_and_seconds 125.5 double_125_5
              (Qle_bool_imp_le 0 125.5 eq_refl) below_2_55)
    as (mins & secs & _ & _ & Hsum & _ & Htext & _).
  exists mins, secs. split; [exact Hsum | exact Htext].
Defined.



(** X3. A negative double that is not a whole number of minutes, from
    above [-2^55] up to [-2^-1022] (the negative doubles of full
    precision), is shown with two signs and a minute off: the minutes are
    negative, the seconds are -60 to -1 and are not padded, and together
    they amount to the whole seconds of the time less 60. The rounding of
    the quotient does not show. *)
Theorem formatTime_negative (seconds : Q) :
  (round64 seconds == seconds)%Q ->
  (- pow2 55 < seconds)%Q -> (seconds <= - pow2 (-1022))%Q ->
  (forall k : Z, ~ (seconds == 60 * inject_Z k)%Q) ->
  exists mins secs : Z,
    (- 2 ^ 50 <= mins < 0)%Z /\ (-60 <= secs < 0)%Z
    /\ (60 * mins + secs)%Z = (Qfloor seconds - 60)%Z
    /\ Math_floor (div64 seconds 60) = mins
    /\ formatTime64 seconds = show_int mins ++ ":" ++ show_int secs
    /\ formatTime seconds = formatTime64 seconds.
Proof.
  intros R H55 H22 Hnot.
  assert (Hneg : (seconds < 0)%Q).
  { pose proof (pow2_pos (-1022)). lra. }
  assert (X : (seconds == 60 * (seconds / 60))%Q) by (field; discriminate).
  pose proof (floor_sixtieth_neg seconds R H22 H55) as Hd.
  assert (L50 : (- pow2 50 < seconds / 60)%Q).
  { pose proof (sixtieth_below_2_50 (- seconds) ltac:(lra)) as L.
    assert (E : (- seconds / 60 == - (seconds / 60))%Q) by (field; discriminate).
    rewrite E in L. lra. }
  set (x := (seconds / 60)%Q) in *.
  set (c := Qceiling x).
  pose proof (Qle_ceiling x) as C1. pose proof (Qceiling_lt x) as C2. fold c in C1, C2.
  unfold Z.sub in C2. rewrite inject_Z_plus, inject_Z_opp in C2.
  change (inject_Z 1) with 1%Q in C2.
  assert (C3 : (x < inject_Z c)%Q).
  { destruct (Qlt_le_dec x (inject_Z c)) as [|Hge]; [assumption|].
    exfalso. apply (Hnot c). lra. }
  assert (C4 : (c <= 0)%Z).
  { change 0%Z with (Qceiling 0). apply Qceiling_resp_le. lra. }
  assert (C5 : (- 2 ^ 50 < c)%Z).
  { rewrite Zlt_Qlt, inject_Z_opp, <- (pow2_Z 50) by lia. lra. }
  assert (Hm : Qfloor x = (c - 1)%Z).
  { apply Qfloor_unique.
    - unfold Z.sub. rewrite inject_Z_plus, inject_Z_opp.
      change (inject_Z 1) with 1%Q. lra.
    - replace (c - 1 + 1)%Z with c by lia. assumption. }
  pose proof (Qfloor_le seconds) as F1. pose proof (Qlt_floor seconds) as F2.
  rewrite inject_Z_plus in F2. change (inject_Z 1) with 1%Q in F2.
  assert (Hr : (remainder seconds 60 == seconds - 60 * inject_Z c)%Q).
  { unfold remainder. fold x. rewrite trunc_neg by lra. reflexivity. }
  assert (Hs : Qfloor (remainder seconds 60) = (Qfloor seconds - 60 * c)%Z).
  { rewrite Hr. apply Qfloor_unique.
    - unfold Z.sub. rewrite inject_Z_plus, inject_Z_opp, inject_Z_mult.
      change (inject_Z 60) with 60%Q. lra.
    - unfold Z.sub. rewrite !inject_Z_plus, inject_Z_opp, inject_Z_mult.
      change (inject_Z 60) with 60%Q. change (inject_Z 1) with 1%Q. lra. }
  assert (Hlo : (-60 <= Qfloor (remainder seconds 60))%Z).
  { change (-60)%Z with (Qfloor (-60)). apply Qfloor_resp_le. rewrite Hr. lra. }
  assert (Hhi : (Qfloor (remainder seconds 60) < 0)%Z).
  { assert (G : (inject_Z (Qfloor (remainder seconds 60))
                   <= seconds - 60 * inject_Z c)%Q)
      by (rewrite <- Hr; apply Qfloor_le).
    rewrite Zlt_Qlt. change (inject_Z 0) with 0%Q. lra. }
  assert (Hm64 : Math_floor (div64 seconds 60) = (c - 1)%Z).
  { unfold Math_floor, div64. fold x. now rewrite Hd. }
  assert (Hf : formatTime seconds = formatTime64 seconds).
  { unfold formatTime, formatTime64. rewrite Hm64. unfold Math_floor. fold x.
    now rewrite Hm. }
  exists (c - 1)%Z, (Qfloor (remainder seconds 60)).
  split; [lia|]. split; [lia|]. split; [rewrite Hs; lia|].
  split; [assumption|]. split; [|assumption].
  unfold formatTime64. rewrite Hm64. unfold Math_floor.
  now rewrite padStart_negative.
Qed.

Lemma minus_30_no_minute (k : Z) : ~ (-30 == 60 * inject_Z k)%Q.
Proof. unfold Qeq. simpl. lia. Qed.

Lemma double_minus_30 : (round64 (-30) == -30)%Q.
Proof. vm_compute. reflexivity. Qed.

Lemma minus_30_above : (- pow2 55 < -30)%Q.
Proof. vm_compute. reflexivity. Qed.

Lemma minus_30_below : (-30 <= - pow2 (-1022))%Q.
Proof. vm_compute. discriminate. Qed.

Lemma formatTime_negative_witness :
  (round64 (-30) == -30)%Q
  /\ (- pow2 55 < -30)%Q /\ (-30 <= - pow2 (-1022))%Q
  /\ (forall k : Z, ~ (-30 == 60 * inject_Z k)%Q)
  /\ exists mins secs : Z,
       (mins < 0)%Z /\ (secs < 0)%Z
       /\ formatTime64 (-30) = (show_int mins ++ ":" ++ show_int secs)%string.
Proof.
  split; [exact double_minus_30|]. split; [exact minus_30_above|].
  split; [exact minus_30_below|]. split; [exact minus_30_no_minute|].
  destruct (formatTime_negative (-30) double_minus_30 minus_30_above minus_30_below
              minus_30_no_minute)
    as (mins & secs & [_ Hm] & [_ Hs] & _ & _ & Htext & _).
  exists mins, secs. split; [exact Hm|]. split; [exact Hs | exact Htext].
Defined.

(** Where the rounding shows: the double next below zero is shown as
    ["0:-1"], not as ["-1:-1"], because its sixtieth rounds to zero. *)
Example formatTime64_underflow :
  formatTime64 (- pow2 (-1074)) = "0:-1" /\ formatTime (- pow2 (-1074)) = "-1:-1".
Proof. split; vm_compute; reflexivity. Qed.

Example formatTime_examples :
  formatTime 0 = "0:00" /\ formatTime 59.9 = "0:59" /\ formatTime 125.5 = "2:05"
  /\ formatTime 3600 = "60:00" /\ formatTime (-30) = "-1:-30".
Proof. repeat split; vm_compute; reflexivity. Qed.

Example formatTime64_examples :
  formatTime64 0 = "0:00" /\ formatTime64 125.5 = "2:05"
  /\ formatTime64 3600 = "60:00" /\ formatTime64 (-30) = "-1:-30".
Proof. repeat split; vm_compute; reflexivity. Qed.

(** ** Thumbnails that fail to load *)

(** A value that counts as true in a condition: a string that is not empty. *)
Definition truthy (v : option string) : Prop :=
  exists c f, v = Some (String c f).

Lemma retarget_keeps (id : string) (ch : ListedChapter) :
  definition (shown (retarget id ch)) = definition (shown ch)
  /\ fallbackThumbnail (retarget id ch) = fallbackThumbnail ch.
Proof.
  unfold retarget. destruct (fallbackThumbnail ch) as [[|c f]|] eqn:E; simpl; auto.
  destruct (thumbnailUrl (shown ch)) as [url|]; [destruct (String.eqb url _)|];
    simpl; auto.
Qed.

(** The URL that one failure leads to. *)
Lemma retarget_url (id : string) (ch : ListedChapter) :
  (~ truthy (fallbackThumbnail ch) ->
   thumbnailUrl (shown (retarget id ch)) = Some (vumbnail id))
  /\ (truthy (fallbackThumbnail ch) ->
      thumbnailUrl (shown ch) = fallbackThumbnail ch ->
      thumbnailUrl (shown (retarget id ch)) = Some (vumbnail id))
  /\ (truthy (fallbackThumbnail ch) ->
      thumbnailUrl (shown ch) <> fallbackThumbnail ch ->
      thumbnailUrl (shown (retarget id ch)) = fallbackThumbnail ch).
Proof.
  unfold retarget, truthy.
  destruct (fallbackThumbnail ch) as [[|c f]|]; simpl.
  - split; [reflexivity|]. split; intros (c & f & [=]).
  - split; [intros H; exfalso; apply H; now exists c, f|].
    destruct (thumbnailUrl (shown ch)) as [url|].
    + destruct (String.eqb url (String c f)) eqn:E.
      * apply String.eqb_eq in E. subst url. split; [reflexivity|congruence].
      * apply String.eqb_neq in E. split; [congruence|reflexivity].
    + split; [discriminate|reflexivity].
  - split; [reflexivity|]. split; intros (c & f & [=]).
Qed.

Lemma truthy_dec (v : option string) : truthy v \/ ~ truthy v.
Proof.
  destruct v as [[|c f]|]; [right | left; now exists c, f | right];
    intros (c' & f' & [=]).
Qed.

Lemma option_string_dec (a b : option string) : a = b \/ a <> b.
Proof.
  destruct a as [x|], b as [y|]; try (right; discriminate); [|now left].
  destruct (String.eqb x y) eqn:E.
  - apply String.eqb_eq in E. left. congruence.
  - apply String.eqb_neq in E. right. congruence.
Qed.

Lemma handleThumbnailError_chapters (i : nat) (r : Refs) (s : State) (ch : ListedChapter) :
  chapters r !! i = Some ch ->
  fst (handleThumbnailError i r s)
  = set_chapters (alter (retarget (id r)) i (chapters r)) r.
Proof. intros H. unfold handleThumbnailError. now rewrite H. Qed.

(** A page of the embedded player: two chapters, and an oEmbed document
    with a thumbnail. *)
Definition answered : ReadyEnv :=
  mkReadyEnv
    (Returned (Some [mkChapterDefinition "Intro" 0; mkChapterDefinition "Main" 30]))
    (Returned (Some "https://i.vimeocdn.com/video/1.jpg"%string))
    Pending.

Definition readyPage : Refs :=
  match onPlayerReady answered setup (pageAt 0) with
  | Returned (r, _, _) => r
  | _ => setup
  end.

Definition readyPlatform : State :=
  match onPlayerReady answered setup (pageAt 0) with
  | Returned (_, s, _) => s
  | _ => pageAt 0
  end.

Definition introChapter : ListedChapter :=
  mkListedChapter
    (mkChapter (mkChapterDefinition "Intro" 0) (Some "https://i.vimeocdn.com/video/1.jpg"%string))
    (Some "https://i.vimeocdn.com/video/1.jpg"%string).

(** X4. A thumbnail that fails to load changes the thumbnail URL of its
    own entry and nothing else: the other entries, and the title, the
    start time and the fallback of the entry, stay. The new URL is the
    Vumbnail address of the video or the (non-empty) fallback of the
    entry. It is the URL that just failed, so that the image is not
    requested again, exactly when the entry already shows the Vumbnail
    address and its fallback is missing, empty or that same address. *)
Theorem handleThumbnailError_keeps_only_vumbnail
    (i : nat) (r : Refs) (s : State) (ch : ListedChapter) :
  chapters r !! i = Some ch ->
  let r' := fst (handleThumbnailError i r s) in
  exists ch',
    chapters r' !! i = Some ch'
    /\ (forall j, j <> i -> chapters r' !! j = chapters r !! j)
    /\ definition (shown ch') = definition (shown ch)
    /\ fallbackThumbnail ch' = fallbackThumbnail ch
    /\ (thumbnailUrl (shown ch') = Some (vumbnail (id r))
        \/ (truthy (fallbackThumbnail ch)
            /\ thumbnailUrl (shown ch') = fallbackThumbnail ch))
    /\ (thumbnailUrl (shown ch') = thumbnailUrl (shown ch)
        <-> thumbnailUrl (shown ch) = Some (vumbnail (id r))
            /\ (~ truthy (fallbackThumbnail ch)
                \/ fallbackThumbnail ch = Some (vumbnail (id r)))).
Proof.
  intros Hi r'. subst r'. rewrite (handleThumbnailError_chapters i r s ch Hi). simpl.
  exists (retarget (id r) ch).
  split; [now rewrite list_lookup_alter_eq, Hi|].
  split; [intros j Hj; apply list_lookup_alter_ne; congruence|].
  destruct (retarget_keeps (id r) ch) as [Hd Hf].
  split; [assumption|]. split; [assumption|].
  destruct (retarget_url (id r) ch) as (U1 & U2 & U3).
  destruct (truthy_dec (fallbackThumbnail ch)) as [Ht | Hn].
  - destruct (option_string_dec (thumbnailUrl (shown ch)) (fallbackThumbnail ch))
      as [Hu | Hu].
    + rewrite (U2 Ht Hu). split; [now left|]. split.
      * intros H. split; [now symmetry|]. right. congruence.
      * intros [H _]. now symmetry.
    + rewrite (U3 Ht Hu). split; [now right|]. split.
      * intros H. now symmetry in H.
      * intros [H [Hn | Hv]]; [contradiction | congruence].
  - rewrite (U1 Hn). split; [now left|]. split.
    + intros H. split; [now symmetry | now left].
    + intros [H _]. now symmetry.
Qed.

Lemma handleThumbnailError_keeps_only_vumbnail_witness :
  chapters readyPage !! 0%nat = Some introChapter
  /\ exists ch',
       chapters (fst (handleThumbnailError 0 readyPage readyPlatform)) !! 0%nat = Some ch'
       /\ definition (shown ch') = definition (shown introChapter).
Proof.
  split; [reflexivity|].
  destruct (handleThumbnailError_keeps_only_vumbnail 0 readyPage readyPlatform
              introChapter eq_refl) as (ch' & Hi & _ & Hd & _).
  exists ch'. split; [exact Hi | exact Hd].
Defined.

(** [n] failures in a row of the thumbnail of the entry at index [i]. *)
Fixpoint thumbnailErrors (n i : nat) (r : Refs) (s : State) : Refs * State :=
  match n with
  | O => (r, s)
  | S n' => let '(r', s') := thumbnailErrors n' i r s in handleThumbnailError i r' s'
  end.

(** The URL that the entry at index [i] shows after them. *)
Definition thumbnailAfter (n i : nat) (r : Refs) (s : State) : option string :=
  match chapters (fst (thumbnailErrors n i r s)) !! i with
  | Some ch => thumbnailUrl (shown ch)
  | None => None
  end.

Lemma thumbnailErrors_entry (n i : nat) (r : Refs) (s : State) (ch : ListedChapter) :
  chapters r !! i = Some ch ->
  chapters (fst (thumbnailErrors n i r s)) !! i = Some (Nat.iter n (retarget (id r)) ch)
  /\ id (fst (thumbnailErrors n i r s)) = id r.
Proof.
  intros Hi. induction n as [|n [Hn Hid]]; simpl.
  - now split.
  - destruct (thumbnailErrors n i r s) as [rn sn]. simpl in *.
    rewrite (handleThumbnailError_chapters i rn sn _ Hn). simpl.
    rewrite list_lookup_alter_eq, Hn, Hid. now split.
Qed.

Lemma thumbnailAfter_iter (n i : nat) (r : Refs) (s : State) (ch : ListedChapter) :
  chapters r !! i = Some ch ->
  thumbnailAfter n i r s = thumbnailUrl (shown (Nat.iter n (retarget (id r)) ch)).
Proof.
  intros Hi. unfold thumbnailAfter.
  now rewrite (proj1 (thumbnailErrors_entry n i r s ch Hi)).
Qed.

Lemma iter_retarget_fallback (n : nat) (id : string) (ch : ListedChapter) :
  fallbackThumbnail (Nat.iter n (retarget id) ch) = fallbackThumbnail ch.
Proof.
  induction n as [|n IH]; simpl; [reflexivity|].
  now rewrite (proj2 (retarget_keeps id _)).
Qed.

(** X5. With a fallback that is neither empty nor the Vumbnail address,
    the handler never comes to rest: every further failure changes the
    URL again, to the fallback or to the Vumbnail address, and the URLs
    repeat with period two. *)
Theorem handleThumbnailError_alternates
    (i : nat) (r : Refs) (s : State) (ch : ListedChapter) (fallback : string) :
  chapters r !! i = Some ch ->
  fallbackThumbnail ch = Some fallback ->
  fallback <> EmptyString ->
  fallback <> vumbnail (id r) ->
  forall n,
    thumbnailAfter (S n) i r s <> thumbnailAfter n i r s
    /\ (thumbnailAfter (S n) i r s = Some fallback
        \/ thumbnailAfter (S n) i r s = Some (vumbnail (id r)))
    /\ thumbnailAfter (S (S (S n))) i r s = thumbnailAfter (S n) i r s.
Proof.
  intros Hi Hf Hne Hv.
  assert (Ht : forall c, fallbackThumbnail c = fallbackThumbnail ch ->
                 truthy (fallbackThumbnail c)).
  { intros c ->. rewrite Hf. destruct fallback as [|a f]; [contradiction|].
    now exists a, f. }
  assert (Hstep : forall n,
            (thumbnailAfter n i r s = Some fallback
             -> thumbnailAfter (S n) i r s = Some (vumbnail (id r)))
            /\ (thumbnailAfter n i r s <> Some fallback
                -> thumbnailAfter (S n) i r s = Some fallback)).
  { intros n.
    rewrite !(thumbnailAfter_iter _ i r s ch Hi). simpl.
    set (chn := Nat.iter n (retarget (id r)) ch).
    assert (Hfn : fallbackThumbnail chn = fallbackThumbnail ch)
      by apply iter_retarget_fallback.
    destruct (retarget_url (id r) chn) as (_ & U2 & U3).
    rewrite Hfn, Hf in U2, U3. specialize (Ht chn Hfn). rewrite Hfn, Hf in Ht.
    split; intros H; auto. }
  assert (Hcases : forall n, thumbnailAfter (S n) i r s = Some fallback
                             \/ thumbnailAfter (S n) i r s = Some (vumbnail (id r))).
  { intros n.
    destruct (option_string_dec (thumbnailAfter n i r s) (Some fallback)) as [E | E].
    - right. now apply Hstep.
    - left. now apply Hstep. }
  intros n. split; [|split].
  - destruct (option_string_dec (thumbnailAfter n i r s) (Some fallback)) as [E | E].
    + rewrite (proj1 (Hstep n) E), E. congruence.
    + rewrite (proj2 (Hstep n) E). congruence.
  - apply Hcases.
  - destruct (Hcases n) as [E | E]; rewrite E.
    + apply Hstep. rewrite (proj1 (Hstep (S n)) E). congruence.
    + apply Hstep. apply Hstep. rewrite E. congruence.
Qed.

Lemma oembed_thumbnail_not_empty :
  "https://i.vimeocdn.com/video/1.jpg"%string <> EmptyString.
Proof. discriminate. Qed.

Lemma oembed_thumbnail_not_vumbnail :
  "https://i.vimeocdn.com/video/1.jpg"%string <> vumbnail (id readyPage).
Proof. intros H. vm_compute in H. discriminate. Qed.

Lemma handleThumbnailError_alternates_witness :
  chapters readyPage !! 0%nat = Some introChapter
  /\ fallbackThumbnail introChapter = Some "https://i.vimeocdn.com/video/1.jpg"%string
  /\ "https://i.vimeocdn.com/video/1.jpg"%string <> EmptyString
  /\ "https://i.vimeocdn.com/video/1.jpg"%string <> vumbnail (id readyPage)
  /\ thumbnailAfter 3 0 readyPage readyPlatform = thumbnailAfter 1 0 readyPage readyPlatform.
Proof.
  split; [reflexivity|]. split; [reflexivity|].
  split; [exact oembed_thumbnail_not_empty|].
  split; [exact oembed_thumbnail_not_vumbnail|].
  exact (proj2 (proj2 (handleThumbnailError_alternates 0 readyPage readyPlatform
                         introChapter "https://i.vimeocdn.com/video/1.jpg" eq_refl eq_refl
                         oembed_thumbnail_not_empty oembed_thumbnail_not_vumbnail 0))).
Defined.

(** ** The chapter reported by the embedded player *)

(** X6. [onChapterChange] makes the first listed chapter whose start time
    equals that of the chapter of the event the current one, and changes
    nothing else; when no listed chapter starts at that time, or the event
    carries no chapter, the refs stay as they are. *)
Theorem onChapterChange_selects_first_match (data : option (option Q)) (r : Refs) :
  match data with
  | Some (Some startTime) =>
      (exists k ch,
         chapters r !! k = Some ch /\ (startOf (shown ch) == startTime)%Q
         /\ (forall j cj, (j < k)%nat -> chapters r !! j = Some cj ->
               ~ (startOf (shown cj) == startTime)%Q)
         /\ onChapterChange data r = set_currentChapterIndex (Z.of_nat k) r)
      \/ ((forall j cj, chapters r !! j = Some cj ->
             ~ (startOf (shown cj) == startTime)%Q)
          /\ onChapterChange data r = r)
  | _ => onChapterChange data r = r
  end.
Proof.
  destruct data as [[startTime|]|]; try reflexivity.
  unfold onChapterChange, findIndex.
  destruct (findIndex_from_spec
              (fun (ch : ListedChapter) (_ : nat) => Qeq_bool (startOf (shown ch)) startTime)
              (chapters r) 0)
    as [[Hn Hall] | (k & ch & Hf & Hk & Hp & Hbefore)].
  - right. rewrite Hn. simpl. split; [|reflexivity].
    intros j cj Hj Heq. specialize (Hall j cj Hj). simpl in Hall.
    apply Qeq_bool_iff in Heq. congruence.
  - left. exists k, ch. simpl in Hf, Hp. rewrite Hf.
    split; [assumption|]. split; [now apply Qeq_bool_iff|]. split.
    + intros j cj Hlt Hj Heq. specialize (Hbefore j cj Hlt Hj). simpl in Hbefore.
      apply Qeq_bool_iff in Heq. congruence.
    + destruct (Z.of_nat k =? -1)%Z eqn:E; [apply Z.eqb_eq in E; lia|]. reflexivity.
Qed.

(** ** The chapters of the embedded player *)

Lemma fetchApiChapters_skipped (id : string) (env : ReadyEnv) (s : State)
    (requests : list string) :
  exists a, fetchApiChapters id env s requests = Returned (emit (ConsoleWarn a) s, requests).
Proof. eexists. reflexivity. Qed.

(** The refs that loading the chapters does not write. *)
Definition sameSetup (r r' : Refs) : Prop :=
  useVimeo r' = useVimeo r /\ id r' = id r /\ videoUrl r' = videoUrl r
  /\ playerRefPlayer r' = playerRefPlayer r /\ videoPlayerRef r' = videoPlayerRef r
  /\ currentChapterIndex r' = currentChapterIndex r.

(** The thumbnail that every chapter of the player is given. *)
Definition playerThumbnail (env : ReadyEnv) (r : Refs) : string :=
  match oembed env with
  | Returned thumbnail_url => or_else thumbnail_url (vumbnail (id r))
  | _ => vumbnail (id r)
  end.

Lemma onPlayerReady_spec (env : ReadyEnv) (r : Refs) (s : State) :
  match getChapters env, oembed env with
  | Pending, _ | Returned _, Pending => onPlayerReady env r s = Pending
  | Threw _, _ =>
      exists s', onPlayerReady env r s
        = Returned (set_loadingChapters false (set_chapters []
                      (set_loadingChapters true (set_playerReady true
                         (set_playerInstance true r)))), s', [])
        /\ dom s' = dom s /\ timers s' = timers s
  | Returned chaptersData, _ =>
      exists s', onPlayerReady env r s
        = Returned (set_loadingChapters false (set_chapters
                      (map (withThumbnails (playerThumbnail env r))
                         (default [] chaptersData))
                      (set_loadingChapters true (set_playerReady true
                         (set_playerInstance true r)))), s', [oembedUrl (id r)])
        /\ dom s' = dom s /\ timers s' = timers s
  end.
Proof.
  unfold onPlayerReady, playerThumbnail.
  destruct (getChapters env) as [data|e|]; [|eexists; repeat split|reflexivity].
  destruct (oembed env) as [t|e|]; [| |reflexivity]; simpl;
    eexists; repeat split.
Qed.

Lemma vumbnail_not_empty (id : string) : vumbnail id <> EmptyString.
Proof. unfold vumbnail. discriminate. Qed.

Lemma playerThumbnail_not_empty (env : ReadyEnv) (r : Refs) :
  playerThumbnail env r <> EmptyString.
Proof.
  unfold playerThumbnail.
  destruct (oembed env) as [[[|c t]|]|e|]; simpl;
    solve [apply vumbnail_not_empty | discriminate].
Qed.

(** What [onPlayerReady] leaves in [chapters.value] when it has the
    chapters [data] of the player: one entry per chapter, in order, each
    with the same thumbnail, which is also its fallback. *)
Definition listedWith (thumbnail : string) (data : list ChapterDefinition)
    (listed : list ListedChapter) : Prop :=
  map (fun c => definition (shown c)) listed = data
  /\ Forall (fun c => thumbnailUrl (shown c) = Some thumbnail
                      /\ fallbackThumbnail c = Some thumbnail) listed.

Lemma listedWith_map (thumbnail : string) (data : list ChapterDefinition) :
  listedWith thumbnail data (map (withThumbnails thumbnail) data).
Proof.
  split.
  - rewrite map_map. simpl. apply map_id.
  - apply List.Forall_forall. intros c Hc. apply in_map_iff in Hc as (d & <- & _).
    now split.
Qed.

Lemma oembedUrl_not_apiUrl (id : string) : oembedUrl id <> apiUrl id.
Proof.
  unfold oembedUrl, apiUrl. intros H.
  apply (f_equal (String.get 8)) in H. vm_compute in H. discriminate.
Qed.

(** X7. [onPlayerReady] never throws, and it stays pending exactly when
    [getChapters] or the oEmbed request does. When it returns, the player
    is stored and marked ready, loading is over, the other refs, the
    document and the timers are untouched, and the REST API was never
    asked (the access token is the placeholder). When [getChapters]
    answered, only the oEmbed document was requested and the chapters of
    the player ([null] counts as none) are listed in their order, each
    with the same thumbnail and fallback: the one of the oEmbed document,
    or the Vumbnail address when the document has none or could not be
    fetched. When [getChapters] failed, nothing was requested and no
    chapter is listed. *)
Theorem onPlayerReady_lists_the_chapters_of_the_player
    (env : ReadyEnv) (r : Refs) (s : State) :
  (forall e, onPlayerReady env r s <> Threw e)
  /\ (onPlayerReady env r s = Pending
      <-> getChapters env = Pending
          \/ ((exists data, getChapters env = Returned data) /\ oembed env = Pending))
  /\ forall r' s' requests,
       onPlayerReady env r s = Returned (r', s', requests) ->
       playerInstance r' = true /\ playerReady r' = true /\ loadingChapters r' = false
       /\ sameSetup r r' /\ videoDuration r' = videoDuration r
       /\ dom s' = dom s /\ timers s' = timers s
       /\ ~ In (apiUrl (id r)) requests
       /\ match getChapters env with
          | Returned data =>
              requests = [oembedUrl (id r)]
              /\ listedWith (playerThumbnail env r) (default [] data) (chapters r')
          | _ => requests = [] /\ chapters r' = []
          end.
Proof.
  pose proof (onPlayerReady_spec env r s) as H.
  assert (Hsame : forall a b c d, sameSetup r
            (set_loadingChapters a (set_chapters b
               (set_loadingChapters c (set_playerReady d (set_playerInstance true r))))))
    by (intros; repeat split).
  assert (Hapi : ~ In (apiUrl (id r)) [oembedUrl (id r)]).
  { intros [E | []]. now apply oembedUrl_not_apiUrl in E. }
  destruct (getChapters env) as [data|e|] eqn:Hg.
  - destruct (oembed env) as [t|e|] eqn:Ho.
    + destruct H as (s1 & -> & Hd & Ht).
      split; [discriminate|].
      split; [split; [discriminate | intros [[=] | [_ [=]]]]|].
      intros r' s' requests [= <- <- <-]. simpl.
      do 3 (split; [reflexivity|]). split; [apply Hsame|].
      split; [reflexivity|]. split; [assumption|]. split; [assumption|].
      split; [exact Hapi|]. split; [reflexivity | apply listedWith_map].
    + destruct H as (s1 & -> & Hd & Ht).
      split; [discriminate|].
      split; [split; [discriminate | intros [[=] | [_ [=]]]]|].
      intros r' s' requests [= <- <- <-]. simpl.
      do 3 (split; [reflexivity|]). split; [apply Hsame|].
      split; [reflexivity|]. split; [assumption|]. split; [assumption|].
      split; [exact Hapi|]. split; [reflexivity | apply listedWith_map].
    + rewrite H. split; [discriminate|]. split; [|discriminate].
      split; [intros _; right; eauto | reflexivity].
  - destruct H as (s1 & -> & Hd & Ht).
    split; [discriminate|].
    split; [split; [discriminate | intros [[=] | [[data [=]] _]]]|].
    intros r' s' requests [= <- <- <-]. simpl.
    do 3 (split; [reflexivity|]). split; [apply Hsame|].
    split; [reflexivity|]. split; [assumption|]. split; [assumption|].
    split; [intros []|]. split; reflexivity.
  - rewrite H. split; [discriminate|]. split; [|discriminate].
    split; [intros _; now left | reflexivity].
Qed.

Lemma alter_fixed {A : Type} (f : A -> A) (i : nat) (l : list A) (x : A) :
  l !! i = Some x -> f x = x -> alter f i l = l.
Proof.
  intros Hi Hx. apply list_eq. intros j.
  destruct (Nat.eq_dec j i) as [->|Hj].
  - rewrite list_lookup_alter_eq, Hi. simpl. now rewrite Hx.
  - apply list_lookup_alter_ne. congruence.
Qed.

Lemma ListedChapter_eq (a b : ListedChapter) :
  definition (shown a) = definition (shown b) ->
  thumbnailUrl (shown a) = thumbnailUrl (shown b) ->
  fallbackThumbnail a = fallbackThumbnail b -> a = b.
Proof. destruct a as [[d u] f], b as [[d' u'] f']. simpl. congruence. Qed.

Lemma set_chapters_same (r : Refs) : set_chapters (chapters r) r = r.
Proof. now destruct r. Qed.

(** X8. After [onPlayerReady], the first failure of a chapter thumbnail
    switches that chapter to the Vumbnail address. When the chapter showed
    that address already (no oEmbed thumbnail), the handler leaves the
    refs as they are; otherwise a second failure brings the oEmbed
    thumbnail back. *)
Theorem player_thumbnail_failure_leads_to_vumbnail
    (env : ReadyEnv) (r r' : Refs) (s s' : State) (requests : list string)
    (i : nat) (ch : ListedChapter) :
  onPlayerReady env r s = Returned (r', s', requests) ->
  chapters r' !! i = Some ch ->
  thumbnailAfter 1 i r' s' = Some (vumbnail (id r))
  /\ (playerThumbnail env r = vumbnail (id r) ->
      fst (handleThumbnailError i r' s') = r')
  /\ (playerThumbnail env r <> vumbnail (id r) ->
      thumbnailAfter 2 i r' s' = Some (playerThumbnail env r)).
Proof.
  intros Hret Hi.
  assert (Hch : id r' = id r
                /\ thumbnailUrl (shown ch) = Some (playerThumbnail env r)
                /\ fallbackThumbnail ch = Some (playerThumbnail env r)).
  { pose proof (onPlayerReady_spec env r s) as H.
    assert (Hl : forall data a b c,
              chapters (set_loadingChapters a (set_chapters
                          (map (withThumbnails (playerThumbnail env r)) data) b)) !! i
              = Some c ->
              thumbnailUrl (shown c) = Some (playerThumbnail env r)
              /\ fallbackThumbnail c = Some (playerThumbnail env r)).
    { intros data a b c Hc. simpl in Hc. rewrite list_lookup_fmap in Hc.
      destruct (data !! i); simpl in Hc; [|discriminate].
      injection Hc as <-. split; reflexivity. }
    destruct (getChapters env) as [data|e|].
    - destruct (oembed env) as [t|e|] eqn:Ho.
      + destruct H as (s1 & H & _). rewrite H in Hret.
        injection Hret as <- <- <-. split; [reflexivity|]. eapply Hl, Hi.
      + destruct H as (s1 & H & _). rewrite H in Hret.
        injection Hret as <- <- <-. split; [reflexivity|]. eapply Hl, Hi.
      + rewrite H in Hret. discriminate.
    - destruct H as (s1 & H & _). rewrite H in Hret.
      injection Hret as <- <- <-. simpl in Hi. discriminate.
    - rewrite H in Hret. discriminate. }
  destruct Hch as (Hid & Hu & Hf).
  assert (Ht : truthy (Some (playerThumbnail env r))).
  { pose proof (playerThumbnail_not_empty env r) as Hne.
    destruct (playerThumbnail env r) as [|c t]; [contradiction|]. now exists c, t. }
  destruct (retarget_url (id r) ch) as (_ & U2 & _).
  rewrite Hf, Hu in U2. specialize (U2 Ht eq_refl).
  rewrite !(thumbnailAfter_iter _ i r' s' ch Hi), Hid. simpl.
  split; [assumption|]. split.
  - intros Hv. rewrite (handleThumbnailError_chapters i r' s' ch Hi), Hid.
    rewrite (alter_fixed _ i (chapters r') ch Hi); [apply set_chapters_same|].
    apply ListedChapter_eq.
    + apply retarget_keeps.
    + rewrite U2, Hu. congruence.
    + apply retarget_keeps.
  - intros Hv.
    destruct (retarget_url (id r) (retarget (id r) ch)) as (_ & _ & U3).
    rewrite (proj2 (retarget_keeps (id r) ch)), Hf, U2 in U3.
    apply U3; [assumption | congruence].
Qed.

Lemma player_thumbnail_failure_leads_to_vumbnail_witness :
  onPlayerReady answered setup (pageAt 0)
  = Returned (readyPage, readyPlatform, [oembedUrl "758682785"])
  /\ chapters readyPage !! 1%nat
     = Some (mkListedChapter
               (mkChapter (mkChapterDefinition "Main" 30)
                  (Some "https://i.vimeocdn.com/video/1.jpg"%string))
               (Some "https://i.vimeocdn.com/video/1.jpg"%string))
  /\ thumbnailAfter 1 1 readyPage readyPlatform = Some (vumbnail (id setup)).
Proof.
  split; [reflexivity|]. split; [reflexivity|].
  exact (proj1 (player_thumbnail_failure_leads_to_vumbnail answered setup readyPage
                  (pageAt 0) readyPlatform [oembedUrl "758682785"] 1 _ eq_refl eq_refl)).
Defined.

(** ** Loading the chapters of the HTML5 element *)

(** The supplied element when [onVideoLoaded] has waited for it. *)
Definition awaited (env : LoadEnv) (v : HTMLVideoElement) : HTMLVideoElement :=
  if (readyState v <? 2)%nat
  then match canplay env with
       | Some d => drop_listener ev_canplay (hostListener "onCanPlay")
                     (set_decoder d
                        (add_listener ev_canplay (hostListener "onCanPlay") false v))
       | None => v
       end
  else v.

(** The chapters as [onVideoLoaded] lists them. *)
Definition unlisted (l : list ListedChapter) : list Chapter := map shown l.

Definition loaded (d : Q) (r0 r' : Refs) : Prop :=
  playerReady r' = true /\ loadingChapters r' = false /\ videoDuration r' = Num d
  /\ sameSetup r0 r' /\ playerInstance r' = playerInstance r0.

Lemma onVideoLoaded_spec (env : LoadEnv) (r : Refs) (s : State) (video : nat)
    (v : HTMLVideoElement) (d : Q) :
  idle s -> videoPlayerRef r = Some video -> dom s !! video = Some v ->
  duration v = Num d -> ~ (d == 0)%Q ->
  let neverReady := (readyState v <? 2)%nat
                    && match canplay env with
                       | Some dec => (d_readyState dec <? 2)%nat
                                     && negb (canplayFires (batch env))
                       | None => true
                       end in
  if neverReady then onVideoLoaded env r s = Pending
  else
    exists r' s' out v',
      onVideoLoaded env r s = Returned (r', s')
      /\ loaded d r r'
      /\ chapters r' = map (fun c => mkListedChapter c None) out
      /\ thumbnailsOf (elementCapture video 320 180 (batch env))
           (betweenCaptures video (readied (batch env) (awaited env v))) 0
           (generateEqualChapters d numChapters "Chapter") out
      /\ dom s' !! video = Some v'
      /\ currentTime v' = 0%Q
      /\ paused v' = (if paused v then true else negb (playAllowed (batch env))).
Proof.
  intros Hidle Hr Hv Hd Hd0 neverReady. subst neverReady.
  unfold onVideoLoaded. rewrite Hr, (element_lookup _ _ _ Hv), Hd.
  destruct (Qeq_bool d 0) eqn:E0; [apply Qeq_bool_iff in E0; contradiction|].
  set (r1 := set_videoDuration (Num d) (set_loadingChapters true (set_playerReady true r))).
  assert (Hstart : forall s1 v1,
            idle s1 -> dom s1 !! video = Some v1 -> paused v1 = paused v ->
            if (readyState v1 <? 2)%nat && negb (canplayFires (batch env))
            then generateChapterThumbnailsFromElement video
                   (generateEqualChapters d numChapters "Chapter") 320 180 (batch env)
                   (emit (ConsoleLog "Generating thumbnails for chapters")
                      (emit (ConsoleLog "Video duration") s1)) = Pending
            else exists s' out v',
              generateChapterThumbnailsFromElement video
                (generateEqualChapters d numChapters "Chapter") 320 180 (batch env)
                (emit (ConsoleLog "Generating thumbnails for chapters")
                   (emit (ConsoleLog "Video duration") s1)) = Returned (s', out)
              /\ thumbnailsOf (elementCapture video 320 180 (batch env))
                   (betweenCaptures video (readied (batch env) v1)) 0
                   (generateEqualChapters d numChapters "Chapter") out
              /\ dom s' !! video = Some v'
              /\ currentTime v' = 0%Q
              /\ paused v' = (if paused v then true else negb (playAllowed (batch env)))).
  { intros s1 v1 Hi1 Hv1 Hp1.
    pose proof (generateChapterThumbnailsFromElement_spec video
                  (generateEqualChapters d numChapters "Chapter") 320 180 (batch env)
                  (emit (ConsoleLog "Generating thumbnails for chapters")
                     (emit (ConsoleLog "Video duration") s1)) v1 Hi1 Hv1) as H.
    destruct ((readyState v1 <? 2)%nat && negb (canplayFires (batch env)));
      [assumption|].
    destruct H as (s' & out & v' & l & Hret & Hout & Hv' & Ht & Hp & _).
    exists s', out, v'. rewrite Hp1 in Hp. auto. }
  assert (Hloaded : forall out, loaded d r
            (set_loadingChapters false
               (set_chapters (map (fun c => mkListedChapter c None) out) r1)))
    by (intros; subst r1; repeat split).
  destruct (readyState v <? 2)%nat eqn:Hready; simpl.
  - destruct (canplay env) as [dec|] eqn:Hc; [|reflexivity].
    set (v1 := drop_listener ev_canplay (hostListener "onCanPlay")
                 (set_decoder dec
                    (add_listener ev_canplay (hostListener "onCanPlay") false v))).
    set (s1 := removeEventListener video ev_canplay (hostListener "onCanPlay")
                 (update_element video (set_decoder dec)
                    (addEventListener video ev_canplay (hostListener "onCanPlay")
                       false s))).
    assert (Hv1 : dom s1 !! video = Some v1).
    { subst s1 v1. simpl. now rewrite !list_lookup_alter_eq, Hv. }
    assert (Hp1 : paused v1 = paused v).
    { subst v1. simpl. apply add_listener_keeps. }
    assert (Ha : awaited env v = v1) by (unfold awaited; now rewrite Hready, Hc).
    pose proof (Hstart s1 v1 Hidle Hv1 Hp1) as H.
    change (readyState v1) with (d_readyState dec) in H.
    destruct ((d_readyState dec <? 2)%nat && negb (canplayFires (batch env))).
    + now rewrite H.
    + destruct H as (s' & out & v' & -> & Hout & Hv' & Ht & Hp).
      eexists _, _, out, (set_currentTime 0 v'). split; [reflexivity|].
      split; [apply Hloaded|]. split; [reflexivity|].
      split; [now rewrite Ha|].
      split; [simpl; now rewrite list_lookup_alter_eq, Hv'|].
      split; [reflexivity | exact Hp].
  - assert (Ha : awaited env v = v) by (unfold awaited; now rewrite Hready).
    pose proof (Hstart s v Hidle Hv eq_refl) as H. rewrite Hready in H. simpl in H.
    destruct H as (s' & out & v' & -> & Hout & Hv' & Ht & Hp).
    eexists _, _, out, (set_currentTime 0 v'). split; [reflexivity|].
    split; [apply Hloaded|]. split; [reflexivity|].
    split; [now rewrite Ha|].
    split; [simpl; now rewrite list_lookup_alter_eq, Hv'|].
    split; [reflexivity | exact Hp].
Qed.

(** X9. On an element with a duration other than zero, [onVideoLoaded]
    returns when the element is ready (readyState at least 2), or signals
    [canplay] and then is ready or signals [canplay] once more for the
    batch: the player is marked ready, loading is over, the duration is
    stored, the chapters listed are the five equal chapters of that
    duration, none with a fallback thumbnail, and the element is back at
    time 0. On an element that is not ready and whose [canplay] never
    comes (for [onVideoLoaded] or, after it, for the batch) the call stays
    pending, with the loading flag set. *)
Theorem onVideoLoaded_lists_five_equal_chapters
    (env : LoadEnv) (r : Refs) (s : State) (video : nat) (v : HTMLVideoElement) (d : Q) :
  idle s -> videoPlayerRef r = Some video -> dom s !! video = Some v ->
  duration v = Num d -> ~ (d == 0)%Q ->
  ((2 <= readyState v)%nat
   \/ (exists dec, canplay env = Some dec
         /\ ((2 <= d_readyState dec)%nat \/ canplayFires (batch env) = true)) ->
   exists r' s' v',
     onVideoLoaded env r s = Returned (r', s')
     /\ playerReady r' = true /\ loadingChapters r' = false
     /\ videoDuration r' = Num d
     /\ map (fun c => definition (shown c)) (chapters r')
        = generateEqualChapters d 5 "Chapter"
     /\ Forall (fun c => fallbackThumbnail c = None) (chapters r')
     /\ dom s' !! video = Some v' /\ currentTime v' = 0%Q)
  /\ ((readyState v < 2)%nat
      /\ (canplay env = None
          \/ (exists dec, canplay env = Some dec /\ (d_readyState dec < 2)%nat
                /\ canplayFires (batch env) = false)) ->
      onVideoLoaded env r s = Pending).
Proof.
  intros Hidle Hr Hv Hd Hd0.
  pose proof (onVideoLoaded_spec env r s video v d Hidle Hr Hv Hd Hd0) as H.
  cbv zeta in H. split.
  - intros Hready.
    assert (Hc : (readyState v <? 2)%nat
                 && match canplay env with
                    | Some dec => (d_readyState dec <? 2)%nat
                                  && negb (canplayFires (batch env))
                    | None => true
                    end = false).
    { destruct Hready as [Hr2 | (dec & -> & [Hr2 | Hc])].
      - apply Nat.ltb_ge in Hr2. now rewrite Hr2.
      - apply Nat.ltb_ge in Hr2. rewrite Hr2. apply andb_false_r.
      - rewrite Hc. simpl. rewrite andb_false_r. apply andb_false_r. }
    rewrite Hc in H.
    destruct H as (r' & s' & out & v' & Hret & (Hp & Hl & Hvd & _) & Hch & Hout
                   & Hv' & Ht & _).
    exists r', s', v'. repeat (split; [assumption|]).
    split; [|split; [|split; assumption]].
    + rewrite Hch, map_map. simpl.
      now apply thumbnailsOf_definitions in Hout.
    + rewrite Hch. apply List.Forall_forall. intros c Hc'.
      apply in_map_iff in Hc' as (c0 & <- & _). reflexivity.
  - intros [Hr2 Hnever]. apply Nat.ltb_lt in Hr2. rewrite Hr2 in H. simpl in H.
    destruct Hnever as [Hn | (dec & Hn & Hr3 & Hc)]; rewrite Hn in H; [assumption|].
    apply Nat.ltb_lt in Hr3. now rewrite Hr3, Hc in H.
Qed.

(** The component once its video element is mounted. *)
Definition mounted : Refs :=
  mkRefs false "758682785" "/test-video.mp4" false (Some 0%nat) false false [] false
    (-1) (Num 0).

Definition noSignal : LoadEnv := mkLoadEnv None silent.

Lemma hundred_not_zero : ~ (100 == 0)%Q.
Proof. discriminate. Qed.

Lemma onVideoLoaded_lists_five_equal_chapters_witness :
  idle (pageAt 0)
  /\ videoPlayerRef mounted = Some 0%nat
  /\ dom (pageAt 0) !! 0%nat = Some (videoAt 0)
  /\ duration (videoAt 0) = Num 100
  /\ ~ (100 == 0)%Q
  /\ exists r' s',
       onVideoLoaded noSignal mounted (pageAt 0) = Returned (r', s')
       /\ map (fun c => definition (shown c)) (chapters r')
          = generateEqualChapters 100 5 "Chapter".
Proof.
  split; [exact (pageAt_idle 0)|]. split; [reflexivity|]. split; [reflexivity|].
  split; [reflexivity|]. split; [exact hundred_not_zero|].
  destruct (proj1 (onVideoLoaded_lists_five_equal_chapters noSignal mounted (pageAt 0)
                     0 (videoAt 0) 100 (pageAt_idle 0) eq_refl eq_refl eq_refl
                     hundred_not_zero)
              (or_introl (le_S _ _ (le_S _ _ (le_n 2)))))
    as (r' & s' & v' & Hret & _ & _ & _ & Hdefs & _).
  exists r', s'. split; [exact Hret | exact Hdefs].
Defined.

(** X10. [onVideoLoaded] never throws. When it returns it has either done
    nothing (no video element is mounted), or the player is marked ready
    and loading is over. On an element whose duration is missing (NaN or
    0) it returns at once with an empty chapter list and one logged error,
    and leaves the stored duration as it was. *)
Theorem onVideoLoaded_never_throws (env : LoadEnv) (r : Refs) (s : State) :
  (forall e, onVideoLoaded env r s <> Threw e)
  /\ (forall r' s', onVideoLoaded env r s = Returned (r', s') ->
        (videoPlayerRef r = None /\ r' = r /\ s' = s)
        \/ (playerReady r' = true /\ loadingChapters r' = false))
  /\ (forall video,
        videoPlayerRef r = Some video ->
        or_zero (duration (element video s)) = Num 0 ->
        exists r',
          onVideoLoaded env r s
          = Returned (r', emit (ConsoleError "Error generating chapters") s)
          /\ chapters r' = [] /\ videoDuration r' = videoDuration r
          /\ playerReady r' = true /\ loadingChapters r' = false).
Proof.
  unfold onVideoLoaded.
  destruct (videoPlayerRef r) as [video|] eqn:Hr.
  2:{ split; [discriminate|]. split; [|discriminate].
      intros r' s' [= <- <-]. now left. }
  assert (Hbatch : forall (r1 : num) (s1 : State) (x : Completion (State * list Chapter)),
            let result :=
              match x with
              | Returned (s, chaptersWithThumbnails) =>
                  Returned (set_loadingChapters false
                              (set_chapters (map (fun c => mkListedChapter c None)
                                               chaptersWithThumbnails)
                                 (set_videoDuration r1
                                    (set_loadingChapters true (set_playerReady true r)))),
                            setCurrentTime video (Num 0)
                              (emit (ConsoleLog "Chapters loaded with thumbnails") s))
              | Threw _ =>
                  Returned (set_loadingChapters false
                              (set_chapters []
                                 (set_videoDuration r1
                                    (set_loadingChapters true (set_playerReady true r)))),
                            emit (ConsoleError "Error generating chapters") s1)
              | Pending => Pending
              end in
            (forall e, result <> Threw e)
            /\ forall r' s', result = Returned (r', s') ->
                 playerReady r' = true /\ loadingChapters r' = false).
  { intros r1 s1 [[s2 out]|e|]; simpl; (split; [discriminate|]);
      intros r' s'; [| |discriminate]; intros [= <- <-]; now split. }
  split; [|split].
  - intros e. destruct (duration (element video s)) as [|d]; [discriminate|].
    destruct (Qeq_bool d 0); [discriminate|].
    destruct (readyState (element video s) <? 2)%nat; [destruct (canplay env)|];
      try discriminate; apply Hbatch.
  - intros r' s' H. right.
    destruct (duration (element video s)) as [|d];
      [injection H as <- <-; now split|].
    destruct (Qeq_bool d 0); [injection H as <- <-; now split|].
    destruct (readyState (element video s) <? 2)%nat; [destruct (canplay env)|];
      try discriminate; eapply Hbatch; exact H.
  - intros video' [= <-] Hz.
    destruct (duration (element video s)) as [|d]; [eexists; repeat split|].
    simpl in Hz. destruct (Qeq_bool d 0) eqn:E; [eexists; repeat split|].
    injection Hz as ->. discriminate E.
Qed.

(** ** Tracking and navigation on the chapters of an equal division *)

Section OnEqualChapters.
Variables (d : Q) (n : nat) (b : string) (chs : list Chapter).
Hypothesis chs_equal : map definition chs = generateEqualChapters d n b.

(** The start of chapter [i], as the code computes it. *)
Definition equalStart (i : nat) : Q :=
  mul64 (inject_Z (Z.of_nat i)) (div64 d (inject_Z (Z.of_nat n))).

Lemma equal_start (i : nat) (c : Chapter) :
  chs !! i = Some c -> (i < n)%nat /\ startOf c = equalStart i.
Proof.
  intros Hi.
  assert (H : map definition chs !! i = Some (definition c))
    by (rewrite list_lookup_fmap, Hi; reflexivity).
  rewrite chs_equal in H.
  apply generateEqualChapters_lookup_inv in H as [Hlt Hc].
  split; [assumption|]. unfold startOf. now rewrite Hc.
Qed.

Lemma equal_lookup (i : nat) : (i < n)%nat -> exists c, chs !! i = Some c.
Proof.
  intros Hi. apply lookup_lt_is_Some_2.
  rewrite <- (length_map definition), chs_equal, generateEqualChapters_map.
  now rewrite length_map, length_seq.
Qed.

Hypothesis d_positive : (0 < d)%Q.

Lemma equalStart_ascending (i j : nat) : (i <= j)%nat -> (equalStart i <= equalStart j)%Q.
Proof.
  intros Hij.
  exact (equalChapter_ascending d n b i j (Qlt_le_weak _ _ d_positive) Hij).
Qed.

Lemma equalStart_nonneg (i : nat) : (0 <= equalStart i)%Q.
Proof.
  apply Qle_trans with (equalStart 0); [|apply equalStart_ascending; lia].
  unfold equalStart, mul64. rewrite round64_zero by apply Qmult_0_l. apply Qle_refl.
Qed.

Lemma equal_ascending : ascending chs.
Proof.
  intros i j ci cj Hij Hi Hj.
  destruct (equal_start i ci Hi) as [_ ->].
  destruct (equal_start j cj Hj) as [_ ->].
  now apply equalStart_ascending.
Qed.

(** The chapter of an equal division that a time falls into. *)
Lemma trackerIndex_equal (t : Q) (k : nat) :
  (k < n)%nat ->
  (equalStart k <= t)%Q ->
  ((S k < n)%nat -> (t < equalStart (S k))%Q) ->
  trackerIndex chs t = Z.of_nat k.
Proof.
  intros Hk Hlo Hhi.
  destruct (equal_lookup k Hk) as [ck Hck].
  destruct (equal_start k ck Hck) as [_ Hsk].
  destruct (trackerIndex_spec chs t equal_ascending) as [[_ Hnone] | (m & -> & Hg)].
  - exfalso. specialize (Hnone k ck Hck). rewrite Hsk in Hnone.
    exact (Qlt_not_le _ _ Hnone Hlo).
  - f_equal. destruct Hg as ((cm & Hcm & Hm) & Hmax & Hnext).
    assert (Hkm : (k <= m)%nat) by (apply (Hmax k ck Hck); now rewrite Hsk).
    destruct (Nat.eq_dec m k) as [|Hne]; [assumption|exfalso].
    destruct (equal_start m cm Hcm) as [Hmn Hsm].
    destruct (equal_lookup (S k) ltac:(lia)) as [cn Hcn].
    destruct (equal_start (S k) cn Hcn) as [_ Hsn].
    specialize (Hhi ltac:(lia)).
    assert (Hle : (startOf cn <= startOf cm)%Q)
      by (apply (equal_ascending (S k) m); [lia | assumption..]).
    rewrite Hsn in Hle. apply (Qlt_not_le _ _ Hhi).
    now apply Qle_trans with (startOf cm).
Qed.

End OnEqualChapters.

(** X11. On the chapters that [generateEqualChapters] makes of a positive
    duration, the tracker makes chapter [k] current at every time from
    the start of chapter [k] on and, unless [k] is the last chapter,
    below the start of chapter [k+1]; the starts are the doubles that the
    code computes, [i * (duration / count)] with both operations rounded.
    At a negative time it changes nothing. *)
Theorem onVideoTimeUpdate_on_equal_chapters
    (d : Q) (n : nat) (b : string) (st : Component) (s : State) (video k : nat) :
  (0 < d)%Q ->
  map definition (App.chapters st) = generateEqualChapters d n b ->
  App.videoPlayerRef st = Some video ->
  let t := currentTime (element video s) in
  let start := fun i : nat =>
    mul64 (inject_Z (Z.of_nat i)) (div64 d (inject_Z (Z.of_nat n))) in
  ((k < n)%nat ->
   (start k <= t)%Q ->
   ((S k < n)%nat -> (t < start (S k))%Q) ->
   App.currentChapterIndex (onVideoTimeUpdate st s) = Z.of_nat k)
  /\ ((t < 0)%Q -> onVideoTimeUpdate st s = st).
Proof.
  intros Hd Hchs Hv t start.
  destruct (onVideoTimeUpdate_index st s video Hv) as [Hnone Hsome].
  fold t in Hnone, Hsome. split.
  - intros Hk Hlo Hhi.
    rewrite <- (trackerIndex_equal d n b (App.chapters st) Hchs Hd t k Hk Hlo Hhi).
    apply Hsome.
    rewrite (trackerIndex_equal d n b (App.chapters st) Hchs Hd t k Hk Hlo Hhi). lia.
  - intros Hneg. apply Hnone.
    destruct (trackerIndex_spec (App.chapters st) t
                (equal_ascending d n b (App.chapters st) Hchs Hd))
      as [[H _] | (m & _ & (cm & Hcm & Hm) & _)]; [assumption|exfalso].
    destruct (equal_start d n b (App.chapters st) Hchs m cm Hcm) as [Hmn Hsm].
    rewrite Hsm in Hm.
    pose proof (equalStart_nonneg d n b Hd m) as H0.
    apply (Qlt_not_le _ _ Hneg). now apply Qle_trans with (2 := Hm).
Qed.

(** The component with the five equal chapters of a 100 s video. *)
Definition fiveChapters (index : Z) : Component :=
  mkComponent false false false (Some 0%nat)
    (map (fun d => mkChapter d None) (generateEqualChapters 100 5 "Chapter")) index.

(** In doubles the fourth of five chapters of 7 s starts at
    4.199999999999999, just below 4.2. *)
Example fourth_start_of_seven_seconds :
  (equalStart 7 5 3 < 42 # 10)%Q
  /\ (equalStart 7 5 3 == 4728779608739020 * pow2 (-50))%Q.
Proof. split; vm_compute; reflexivity. Qed.

Lemma onVideoTimeUpdate_on_equal_chapters_witness :
  (0 < 100)%Q
  /\ map definition (App.chapters (fiveChapters (-1))) = generateEqualChapters 100 5 "Chapter"
  /\ App.videoPlayerRef (fiveChapters (-1)) = Some 0%nat
  /\ App.currentChapterIndex (onVideoTimeUpdate (fiveChapters (-1)) (pageAt 45)) = 2%Z.
Proof.
  split; [reflexivity|]. split; [reflexivity|]. split; [reflexivity|].
  refine (proj1 (onVideoTimeUpdate_on_equal_chapters 100 5 "Chapter" (fiveChapters (-1))
                   (pageAt 45) 0 2 eq_refl eq_refl eq_refl) _ _ _).
  - lia.
  - vm_compute. discriminate.
  - intros _. vm_compute. reflexivity.
Defined.

(** ** Navigation and tracking agree *)

(** No two chapters start at the same time. *)
Definition strictlyAscending (chapters : list Chapter) : Prop :=
  forall i j ci cj, (i < j)%nat ->
    chapters !! i = Some ci -> chapters !! j = Some cj ->
    (startOf ci < startOf cj)%Q.

Lemma strictlyAscending_ascending (chapters : list Chapter) :
  strictlyAscending chapters -> ascending chapters.
Proof.
  intros H i j ci cj Hij Hi Hj.
  destruct (Nat.eq_dec i j) as [->|Hne].
  - rewrite Hi in Hj. injection Hj as ->. apply Qle_refl.
  - apply Qlt_le_weak. apply (H i j); [lia | assumption..].
Qed.

(** On such a list, the chapter that starts at the start time of the
    entry at index [i] is that entry, for navigation and for tracking. *)
Lemma selectChapter_own_index (st : Component) (i : nat) (chapter : Chapter) :
  strictlyAscending (App.chapters st) ->
  App.chapters st !! i = Some chapter ->
  selectChapter chapter st = App.set_currentChapterIndex (Z.of_nat i) st.
Proof.
  intros Hasc Hi. unfold selectChapter, findIndex.
  destruct (findIndex_from_spec
              (fun (ch : Chapter) (_ : nat) => Qeq_bool (startOf ch) (startOf chapter))
              (App.chapters st) 0)
    as [[_ Hall] | (k & ch & -> & Hk & Hp & Hbefore)].
  - exfalso. specialize (Hall i chapter Hi). simpl in Hall.
    assert (H : Qeq_bool (startOf chapter) (startOf chapter) = true)
      by (apply Qeq_bool_iff; reflexivity).
    congruence.
  - simpl in *. apply Qeq_bool_iff in Hp.
    assert (Hki : k = i).
    { destruct (Nat.lt_trichotomy k i) as [Hlt | [Heq | Hgt]]; [exfalso|assumption|exfalso].
      - pose proof (Hasc k i ch chapter Hlt Hk Hi) as H. rewrite Hp in H.
        exact (Qlt_irrefl _ H).
      - specialize (Hbefore i chapter Hgt Hi).
        assert (H : Qeq_bool (startOf chapter) (startOf chapter) = true)
          by (apply Qeq_bool_iff; reflexivity).
        congruence. }
    subst k.
    destruct (Z.of_nat i =? -1)%Z eqn:E; [apply Z.eqb_eq in E; lia|]. reflexivity.
Qed.

Lemma trackerIndex_own_index (chapters : list Chapter) (i : nat) (chapter : Chapter) :
  strictlyAscending chapters ->
  chapters !! i = Some chapter ->
  trackerIndex chapters (startOf chapter) = Z.of_nat i.
Proof.
  intros Hasc Hi.
  destruct (trackerIndex_spec chapters (startOf chapter)
              (strictlyAscending_ascending _ Hasc))
    as [[_ Hnone] | (m & -> & (cm & Hcm & Hm) & Hmax & _)].
  - exfalso. exact (Qlt_irrefl _ (Hnone i chapter Hi)).
  - f_equal. assert (Him : (i <= m)%nat) by (apply (Hmax i chapter Hi); apply Qle_refl).
    destruct (Nat.eq_dec m i) as [|Hne]; [assumption|exfalso].
    pose proof (Hasc i m chapter cm ltac:(lia) Hi Hcm) as H.
    exact (Qlt_not_le _ _ H Hm).
Qed.

Lemma playWith_currentTime (video : nat) (p : PlayResult) (s : State) :
  currentTime (element video (playWith video p s)) = currentTime (element video s).
Proof.
  unfold playWith, play, element.
  destruct p; simpl; rewrite ?list_lookup_alter_eq;
    destruct (dom s !! video); reflexivity.
Qed.

(** X12. Navigation and tracking agree: when no two chapters start at the
    same time, [goToChapter] on the HTML5 element returns with the chosen
    chapter current and the element at the start time of that chapter,
    and a time update that follows changes nothing. (When the first play
    request is rejected, the retry must answer with a promise.) *)
Theorem goToChapter_agrees_with_tracking
    (chapter : Chapter) (env : NavEnv) (st : Component) (s : State)
    (video i : nat) (v : HTMLVideoElement) :
  App.useVimeo st = false ->
  App.videoPlayerRef st = Some video ->
  dom s !! video = Some v ->
  strictlyAscending (App.chapters st) ->
  App.chapters st !! i = Some chapter ->
  (firstPlay env = PlayRejects -> secondPlay env <> PlayReturnsUndefined) ->
  exists st' s',
    goToChapter chapter env st s = Returned (st', s')
    /\ App.currentChapterIndex st' = Z.of_nat i
    /\ currentTime (element video s') = startOf chapter
    /\ onVideoTimeUpdate st' s' = st'.
Proof.
  intros Hu Hv Hdom Hasc Hi Henv.
  set (s1 := awaitSeeked video env
               (setCurrentTime video (Num (startOf chapter))
                  (emit (ConsoleLog ("Seeking to chapter: " ++ title (definition chapter))) s))).
  assert (H1 : currentTime (element video s1) = startOf chapter).
  { subst s1. unfold awaitSeeked, element. simpl.
    destruct (seekedFires env); simpl;
      rewrite !list_lookup_alter_eq, Hdom; simpl;
      unfold add_listener; destruct (existsb _ _); reflexivity. }
  assert (Hquiet : forall s2,
            currentTime (element video s2) = startOf chapter ->
            onVideoTimeUpdate (selectChapter chapter st) s2 = selectChapter chapter st).
  { intros s2 Ht2. rewrite (selectChapter_own_index st i chapter Hasc Hi).
    unfold onVideoTimeUpdate, timeUpdateAssignment. simpl. rewrite Hv, Ht2.
    rewrite (trackerIndex_own_index _ i chapter Hasc Hi), Z.eqb_refl, andb_false_r.
    reflexivity. }
  assert (Hindex : App.currentChapterIndex (selectChapter chapter st) = Z.of_nat i)
    by now rewrite (selectChapter_own_index st i chapter Hasc Hi).
  unfold goToChapter, goToChapterVideo. rewrite Hu, Hv. fold s1.
  assert (Hdone : forall s2,
            currentTime (element video s2) = startOf chapter ->
            exists st' s',
              Returned (selectChapter chapter st, s2) = Returned (st', s')
              /\ App.currentChapterIndex st' = Z.of_nat i
              /\ currentTime (element video s') = startOf chapter
              /\ onVideoTimeUpdate st' s' = st').
  { intros s2 Ht2. exists (selectChapter chapter st), s2. auto. }
  destruct (firstPlay env) eqn:Hf.
  - apply Hdone. now rewrite playWith_currentTime.
  - destruct (secondPlay env) eqn:Hs2.
    + apply Hdone. rewrite playWith_currentTime, element_emit.
      now rewrite playWith_currentTime.
    + apply Hdone. rewrite element_emit, playWith_currentTime, element_emit.
      now rewrite playWith_currentTime.
    + exfalso. now apply Henv.
  - apply Hdone. now rewrite playWith_currentTime.
Qed.

Lemma strictlyAscending_0_20_40_60_80 :
  strictlyAscending (chaptersAt [0; 20; 40; 60; 80]%Q).
Proof.
  intros i j ci cj Hij Hi Hj.
  do 5 (destruct j as [|j];
        [ do 5 (destruct i as [|i];
                [ first [ exfalso; lia
                        | cbn in Hi, Hj; injection Hi as <-; injection Hj as <-;
                          reflexivity ] | ]);
          exfalso; lia | ]).
  cbn in Hj. discriminate.
Qed.

Lemma blockedOnce_retries :
  firstPlay blockedOnce = PlayRejects -> secondPlay blockedOnce <> PlayReturnsUndefined.
Proof. intros _. discriminate. Qed.

Lemma goToChapter_agrees_with_tracking_witness :
  App.useVimeo (tracking [0; 20; 40; 60; 80]%Q 0) = false
  /\ App.videoPlayerRef (tracking [0; 20; 40; 60; 80]%Q 0) = Some 0%nat
  /\ dom (pageAt 0) !! 0%nat = Some (videoAt 0)
  /\ strictlyAscending (App.chapters (tracking [0; 20; 40; 60; 80]%Q 0))
  /\ App.chapters (tracking [0; 20; 40; 60; 80]%Q 0) !! 2%nat
     = Some (mkChapter (mkChapterDefinition "Chapter" 40) None)
  /\ (firstPlay blockedOnce = PlayRejects -> secondPlay blockedOnce <> PlayReturnsUndefined)
  /\ exists st' s',
       goToChapter (mkChapter (mkChapterDefinition "Chapter" 40) None) blockedOnce
         (tracking [0; 20; 40; 60; 80]%Q 0) (pageAt 0) = Returned (st', s')
       /\ App.currentChapterIndex st' = 2%Z
       /\ onVideoTimeUpdate st' s' = st'.
Proof.
  split; [reflexivity|]. split; [reflexivity|]. split; [reflexivity|].
  split; [exact strictlyAscending_0_20_40_60_80|]. split; [reflexivity|].
  split; [exact blockedOnce_retries|].
  destruct (goToChapter_agrees_with_tracking
              (mkChapter (mkChapterDefinition "Chapter" 40) None) blockedOnce
              (tracking [0; 20; 40; 60; 80]%Q 0) (pageAt 0) 0 2 (videoAt 0)
              eq_refl eq_refl eq_refl strictlyAscending_0_20_40_60_80 eq_refl
              blockedOnce_retries)
    as (st' & s' & Hret & Hidx & _ & Hfix).
  exists st', s'. split; [exact Hret|]. split; [exact Hidx | exact Hfix].
Defined.

(** X13. [goToChapter] finds the chapter by its start time: the chapter
    that it makes current is the first listed one with the start time of
    the chosen chapter, which comes before the chosen one when chapters
    share a start time; the chapter list stays as it is. *)
Theorem goToChapter_highlights_first_chapter_with_that_start
    (chapter : Chapter) (env : NavEnv) (st : Component) (s : State) (video j : nat) :
  App.useVimeo st = false ->
  App.videoPlayerRef st = Some video ->
  App.chapters st !! j = Some chapter ->
  (firstPlay env = PlayRejects -> secondPlay env <> PlayReturnsUndefined) ->
  exists st' s' k ck,
    goToChapter chapter env st s = Returned (st', s')
    /\ App.currentChapterIndex st' = Z.of_nat k
    /\ (k <= j)%nat
    /\ App.chapters st !! k = Some ck
    /\ (startOf ck == startOf chapter)%Q
    /\ (forall i ci, (i < k)%nat -> App.chapters st !! i = Some ci ->
          ~ (startOf ci == startOf chapter)%Q)
    /\ App.chapters st' = App.chapters st.
Proof.
  intros Hu Hv Hj Henv.
  assert (Hsel : exists k ck,
            selectChapter chapter st = App.set_currentChapterIndex (Z.of_nat k) st
            /\ (k <= j)%nat /\ App.chapters st !! k = Some ck
            /\ (startOf ck == startOf chapter)%Q
            /\ (forall i ci, (i < k)%nat -> App.chapters st !! i = Some ci ->
                  ~ (startOf ci == startOf chapter)%Q)).
  { unfold selectChapter, findIndex.
    assert (Hself : Qeq_bool (startOf chapter) (startOf chapter) = true)
      by (apply Qeq_bool_iff; reflexivity).
    destruct (findIndex_from_spec
                (fun (ch : Chapter) (_ : nat) => Qeq_bool (startOf ch) (startOf chapter))
                (App.chapters st) 0)
      as [[_ Hall] | (k & ck & -> & Hk & Hp & Hbefore)].
    - exfalso. specialize (Hall j chapter Hj). simpl in Hall. congruence.
    - simpl in *. exists k, ck.
      destruct (Z.of_nat k =? -1)%Z eqn:E; [apply Z.eqb_eq in E; lia|].
      split; [reflexivity|]. split.
      + destruct (Nat.le_gt_cases k j) as [|Hgt]; [assumption|exfalso].
        specialize (Hbefore j chapter Hgt Hj). congruence.
      + split; [assumption|]. split; [now apply Qeq_bool_iff|].
        intros i ci Hlt Hi Heq. specialize (Hbefore i ci Hlt Hi).
        apply Qeq_bool_iff in Heq. congruence. }
  destruct Hsel as (k & ck & Hsel & Hkj & Hk & Heq & Hfirst).
  unfold goToChapter, goToChapterVideo. rewrite Hu, Hv.
  destruct (firstPlay env) eqn:Hf; [| destruct (secondPlay env) eqn:Hs2 |];
    try (eexists _, _, k, ck; split; [reflexivity|]; rewrite Hsel; simpl;
         repeat (split; [first [reflexivity | assumption]|]); reflexivity).
  exfalso. now apply Henv.
Qed.

Lemma goToChapter_highlights_first_chapter_with_that_start_witness :
  App.useVimeo (tracking [0; 20; 20; 60]%Q 0) = false
  /\ App.videoPlayerRef (tracking [0; 20; 20; 60]%Q 0) = Some 0%nat
  /\ App.chapters (tracking [0; 20; 20; 60]%Q 0) !! 2%nat
     = Some (mkChapter (mkChapterDefinition "Chapter" 20) None)
  /\ (firstPlay blockedOnce = PlayRejects -> secondPlay blockedOnce <> PlayReturnsUndefined)
  /\ exists st' s' k,
       goToChapter (mkChapter (mkChapterDefinition "Chapter" 20) None) blockedOnce
         (tracking [0; 20; 20; 60]%Q 0) (pageAt 0) = Returned (st', s')
       /\ App.currentChapterIndex st' = Z.of_nat k
       /\ (k <= 2)%nat.
Proof.
  split; [reflexivity|]. split; [reflexivity|]. split; [reflexivity|].
  split; [exact blockedOnce_retries|].
  destruct (goToChapter_highlights_first_chapter_with_that_start
              (mkChapter (mkChapterDefinition "Chapter" 20) None) blockedOnce
              (tracking [0; 20; 20; 60]%Q 0) (pageAt 0) 0 2
              eq_refl eq_refl eq_refl blockedOnce_retries)
    as (st' & s' & k & ck & Hret & Hidx & Hle & _).
  exists st', s', k. split; [exact Hret|]. split; [exact Hidx | exact Hle].
Defined.

End RootComponent.

(** ** How a capture can end *)

(** Case analysis on the condition of the outermost conditional. *)
Ltac branch :=
  match goal with
  | |- context [if ?b then _ else _] => destruct b eqn:?
  end.

(** The event loop settles a promise only through the listeners and the
    timer callbacks of the program. *)
Section Outcomes.
Variables (P : Program) (id : nat) (Q : option Outcome -> Prop).
Hypothesis Q_invoke : forall h s, Q (settled s) -> Q (settled (invoke P h s)).
Hypothesis Q_fire : forall cb s, Q (settled s) -> Q (settled (fire P cb s)).

Lemma Q_deliver (s : State) (l : Listener) :
  Q (settled s) -> Q (settled (deliver P id s l)).
Proof.
  intros H. unfold deliver. destruct (registered l (element id s)); [|assumption].
  apply Q_invoke. now destruct (l_once l).
Qed.

Lemma Q_dispatch (ev : EventType) (s : State) :
  Q (settled s) -> Q (settled (dispatch P id ev s)).
Proof.
  unfold dispatch. generalize (List.filter (same_type ev) (listeners (element id s))).
  intros ls. revert s. induction ls as [|l ls IH]; intros s H; simpl; [assumption|].
  apply IH. now apply Q_deliver.
Qed.

Lemma Q_advance_loop (fuel : nat) (target : N) (s : State) :
  Q (settled s) -> Q (settled (advance_loop P fuel target s)).
Proof.
  revert s. induction fuel as [|fuel IH]; intros s H; simpl; [assumption|].
  destruct (timers s) as [|t rest]; [assumption|].
  destruct (deadline t <=? target)%N; [|assumption].
  apply IH. unfold fire_next. now apply Q_fire.
Qed.

Lemma Q_drain_loop (fuel : nat) (s : State) :
  Q (settled s) -> Q (settled (drain_loop P fuel s)).
Proof.
  revert s. induction fuel as [|fuel IH]; intros s H; simpl; [assumption|].
  destruct (timers s) as [|t rest]; [assumption|].
  apply IH. unfold fire_next. now apply Q_fire.
Qed.

Lemma Q_run (script : list Event) (s : State) :
  Q (settled s) -> Q (settled (run P id script s)).
Proof.
  unfold run. revert s. induction script as [|e script IH]; intros s H; simpl;
    [assumption|].
  apply IH. destruct e as [ms|d|ev]; simpl.
  - unfold advance. simpl. now apply Q_advance_loop.
  - assumption.
  - now apply Q_dispatch.
Qed.

Lemma Q_drain (s : State) : Q (settled s) -> Q (settled (drain P s)).
Proof. apply Q_drain_loop. Qed.
End Outcomes.

(** [load()] resets the error of the element. *)
Lemma error_after_load (i : nat) (s : State) : error (element i (load i s)) = None.
Proof.
  unfold load, element. simpl. rewrite list_lookup_alter_eq.
  destruct (dom s !! i); reflexivity.
Qed.

Lemma error_removeEventListener (i : nat) (ev : EventType) (h : Handler) (s : State) :
  error (element i (removeEventListener i ev h s)) = error (element i s).
Proof.
  unfold removeEventListener, element. simpl. rewrite list_lookup_alter_eq.
  destruct (dom s !! i); reflexivity.
Qed.

(** So the message of a load failure is built when the error is gone. *)
Lemma FromElement_errorMessage (c : Closure) (s : State) :
  FromElement.errorMessage c (FromElement.cleanup c s)
  = "Failed to load video for thumbnail: Unknown error. CORS may not be enabled on the video server."%string.
Proof.
  unfold FromElement.errorMessage, FromElement.cleanup.
  now rewrite error_after_load.
Qed.

Lemma FromUrl_errorMessage (c : Closure) (s : State) :
  FromUrl.errorMessage c (FromUrl.cleanup c s)
  = "Failed to load video: Unknown error"%string.
Proof.
  unfold FromUrl.errorMessage, FromUrl.cleanup.
  now rewrite !error_removeEventListener, error_after_load.
Qed.

(** The ways in which [captureVideoFrameFromElement] ends. *)
Definition endOfCaptureFromElement (o : Outcome) : Prop :=
  match o with
  | Resolved _ => True
  | Rejected msg =>
      In msg [ "Invalid video element provided";
               draw_error;
               "Video not ready for frame capture";
               "Failed to load video for thumbnail: Unknown error. CORS may not be enabled on the video server.";
               "Timeout while capturing video frame" ]%string
  end.

(** The ways in which [captureVideoFrame] ends. *)
Definition endOfCaptureFromUrl (o : Outcome) : Prop :=
  match o with
  | Resolved _ => True
  | Rejected msg =>
      In msg [ draw_error;
               "Failed to load video: Unknown error";
               "Timeout while capturing video frame" ]%string
  end.

Definition ends (ok : Outcome -> Prop) (o : option Outcome) : Prop :=
  match o with
  | Some x => ok x
  | None => True
  end.

Lemma ends_settle (ok : Outcome -> Prop) (o : Outcome) (s : State) :
  ok o -> ends ok (settled s) -> ends ok (settled (settle o s)).
Proof.
  intros Ho H. rewrite (proj2 (proj2 (proj2 (proj2 (proj2 (proj2 (settle_fields o s))))))).
  destruct (settled s); assumption.
Qed.

Lemma el_cleanup_settled' (c : Closure) (s : State) :
  settled (FromElement.cleanup c s) = settled s.
Proof.
  unfold FromElement.cleanup.
  destruct (timeoutId c) as [i|]; [destruct (i =? 0)%nat|]; reflexivity.
Qed.

Lemma el_finish_ends (c : Closure) (o : Outcome) (s : State) :
  endOfCaptureFromElement o -> ends endOfCaptureFromElement (settled s) ->
  ends endOfCaptureFromElement (settled (FromElement.finish c o s)).
Proof.
  intros Ho H. unfold FromElement.finish. apply ends_settle; [assumption|].
  now rewrite el_cleanup_settled'.
Qed.

Lemma el_drawAndFinish_ends (c : Closure) (s : State) :
  ends endOfCaptureFromElement (settled s) ->
  ends endOfCaptureFromElement (settled (FromElement.drawAndFinish c s)).
Proof.
  intros H. unfold FromElement.drawAndFinish, drawFrame.
  destruct (frame (element (thumbVideo c) s)) as [dataUrl|].
  - apply el_finish_ends; [exact I | assumption].
  - destruct (resolved _); [assumption|].
    apply el_finish_ends; [simpl; tauto | assumption].
Qed.

Lemma setCurrentTime_settled (i : nat) (t : num) (s : State) :
  settled (setCurrentTime i t s) = settled s.
Proof. now destruct t. Qed.

Lemma el_invoke_ends (c : Closure) (h : Handler) (s : State) :
  ends endOfCaptureFromElement (settled s) ->
  ends endOfCaptureFromElement (settled (invoke (FromElement.program c) h s)).
Proof.
  intros H. destruct h; simpl; try assumption.
  - unfold FromElement.handleCanPlay. branch; [|assumption].
    unfold FromElement.seekThumb. now rewrite setCurrentTime_settled.
  - unfold FromElement.handleSeeked. now destruct (resolved s).
  - unfold FromElement.handleError. destruct (negb (resolved s)); [|assumption].
    rewrite FromElement_errorMessage. apply ends_settle; [simpl; tauto|].
    now rewrite el_cleanup_settled'.
Qed.

Lemma el_fire_ends (c : Closure) (cb : Callback) (s : State) :
  ends endOfCaptureFromElement (settled s) ->
  ends endOfCaptureFromElement (settled (fire (FromElement.program c) cb s)).
Proof.
  intros H. destruct cb; simpl; try assumption.
  - unfold FromElement.timeout. destruct (negb (resolved s)); [|assumption].
    apply el_finish_ends; [simpl; tauto | assumption].
  - unfold FromElement.seekAfterMetadata. branch; [|assumption].
    unfold FromElement.seekThumb. now rewrite setCurrentTime_settled.
  - unfold FromElement.captureAfterSeeked, FromElement.captureFrame.
    destruct (resolved s); simpl; [assumption|].
    branch; [now apply el_drawAndFinish_ends | assumption].
  - unfold FromElement.retryCapture.
    branch; [now apply el_drawAndFinish_ends|].
    destruct (negb (resolved s)); [|assumption].
    apply el_finish_ends; [simpl; tauto | assumption].
Qed.

Lemma url_finish_ends (c : Closure) (o : Outcome) (s : State) :
  endOfCaptureFromUrl o -> ends endOfCaptureFromUrl (settled s) ->
  ends endOfCaptureFromUrl (settled (FromUrl.finish c o s)).
Proof. intros Ho H. unfold FromUrl.finish. now apply ends_settle. Qed.

Lemma url_invoke_ends (c : Closure) (h : Handler) (s : State) :
  ends endOfCaptureFromUrl (settled s) ->
  ends endOfCaptureFromUrl (settled (invoke (FromUrl.program c) h s)).
Proof.
  intros H. destruct h; simpl; try assumption.
  - unfold FromUrl.handleLoadedMetadata, FromUrl.seekVideo.
    now rewrite setCurrentTime_settled.
  - unfold FromUrl.handleCanPlay. branch; [|assumption].
    unfold FromUrl.seekVideo. now rewrite setCurrentTime_settled.
  - unfold FromUrl.handleSeeked. destruct (resolved s); [assumption|].
    branch; [|assumption]. unfold drawFrame.
    destruct (frame (element (thumbVideo c) s)) as [dataUrl|].
    + apply url_finish_ends; [exact I | assumption].
    + destruct (resolved _); [assumption|].
      apply url_finish_ends; [simpl; tauto | assumption].
  - unfold FromUrl.handleError. destruct (negb (resolved s)); [|assumption].
    rewrite FromUrl_errorMessage. apply ends_settle; [simpl; tauto | assumption].
Qed.

Lemma url_fire_ends (c : Closure) (cb : Callback) (s : State) :
  ends endOfCaptureFromUrl (settled s) ->
  ends endOfCaptureFromUrl (settled (fire (FromUrl.program c) cb s)).
Proof.
  intros H. destruct cb; simpl; try assumption.
  - unfold FromUrl.timeout. destruct (negb (resolved s)); [|assumption].
    apply url_finish_ends; [simpl; tauto | assumption].
  - unfold FromUrl.retryCapture. branch; [|assumption]. unfold drawFrame.
    destruct (frame (element (thumbVideo c) s)) as [dataUrl|]; [|assumption].
    apply url_finish_ends; [exact I | assumption].
Qed.

Lemma FromElement_start_settled (videoElement : nat) (timeSeconds : Q) (w h : nat)
    (s : State) :
  match FromElement.start videoElement timeSeconds w h s with
  | (s1, Some _) => settled s1 = None
  | (s1, None) => settled s1 = Some (Rejected "Invalid video element provided")
  end.
Proof.
  unfold FromElement.start. simpl.
  destruct (dom s !! videoElement) as [v|]; [|reflexivity].
  destruct (String.prefix "http://" (or_string (src v) (currentSrc v))
            || String.prefix "https://" (or_string (src v) (currentSrc v)));
    reflexivity.
Qed.

(** X14. A capture that has ended was resolved with a picture or rejected
    with one of a few messages. For [captureVideoFrameFromElement]: the
    invalid element, the error of the drawing, the element that is not
    ready, the load failure and the timeout; for [captureVideoFrame]: the
    error of the drawing, the load failure and the timeout. The message of
    a load failure never carries the error code of the element, since the
    element was reset before its error is read. *)
Theorem capture_ends_in_one_of_a_few_ways
    (videoElement : nat) (videoUrl : string) (timeSeconds : Q) (w h : nat)
    (script : list Event) (s : State) :
  ends endOfCaptureFromElement
    (settled (captureVideoFrameFromElement videoElement timeSeconds w h script s))
  /\ ends endOfCaptureFromUrl
       (settled (captureVideoFrame videoUrl timeSeconds w h script s)).
Proof.
  split.
  - unfold captureVideoFrameFromElement.
    pose proof (FromElement_start_settled videoElement timeSeconds w h s) as Hs.
    destruct (FromElement.start videoElement timeSeconds w h s) as [s1 [c|]].
    + apply Q_drain; [apply el_fire_ends|].
      apply Q_run; [apply el_invoke_ends | apply el_fire_ends|].
      now rewrite Hs.
    + rewrite Hs. simpl. tauto.
  - unfold captureVideoFrame.
    destruct (FromUrl.start videoUrl timeSeconds w h s) as [s1 c] eqn:Hs.
    apply Q_drain; [apply url_fire_ends|].
    apply Q_run; [apply url_invoke_ends | apply url_fire_ends|].
    unfold FromUrl.start in Hs. simpl in Hs. injection Hs as <- _. exact I.
Qed.

(** ** The overall timeout *)

(** The pending timers are in the order of their deadlines. *)
Fixpoint inOrder (l : list Timer) : Prop :=
  match l with
  | [] => True
  | t :: l' => Forall (fun u => (deadline t <= deadline u)%N) l' /\ inOrder l'
  end.

Lemma inOrder_insert_timer (t : Timer) (l : list Timer) :
  inOrder l -> inOrder (insert_timer t l).
Proof.
  induction l as [|u l IH]; simpl; [auto|].
  intros [Hu Hl]. destruct (deadline u <=? deadline t)%N eqn:E; simpl.
  - apply N.leb_le in E. split; [|auto].
    apply Forall_insert_timer; assumption.
  - apply N.leb_gt in E. split; [|now split].
    constructor; [lia|].
    eapply List.Forall_impl; [|exact Hu]. simpl. intros a Ha. lia.
Qed.

Lemma inOrder_filter (f : Timer -> bool) (l : list Timer) :
  inOrder l -> inOrder (List.filter f l).
Proof.
  induction l as [|u l IH]; simpl; [auto|].
  intros [Hu Hl]. destruct (f u); simpl; [|auto].
  split; [now apply Forall_filter_keep | auto].
Qed.

Lemma src_update_element (i : nat) (f : HTMLVideoElement -> HTMLVideoElement)
    (s : State) :
  (forall v, src (f v) = src v) ->
  src (element i (update_element i f s)) = src (element i s).
Proof.
  intros Hf. unfold element, update_element. simpl. rewrite list_lookup_alter_eq.
  destruct (dom s !! i); simpl; [apply Hf | reflexivity].
Qed.

Section Deadline.
Variables (c : Closure) (cleanup : State -> State) (clears : bool) (tid : nat).
Variables (P : Program) (D : N).

Hypothesis cleanup_resolved : forall s, resolved (cleanup s) = resolved s.
Hypothesis cleanup_timers : forall s,
  timers (cleanup s) = if clears then List.filter (kept tid) (timers s) else timers s.
Hypothesis cleanup_clock : forall s, clock (cleanup s) = clock s.
Hypothesis cleanup_src : forall s, src (element (thumbVideo c) (cleanup s)) = EmptyString.
Hypothesis invoke_eff : forall h s, Eff c cleanup s (invoke P h s).
Hypothesis fire_eff : forall cb s, Eff c cleanup s (fire P cb s).
Hypothesis fire_timeout :
  forall s, resolved s = false -> resolved (fire P cbTimeout s) = true.
Hypothesis fire_weight : forall t s,
  (weight (timers (fire P (callback t) s)) + 1 <= weight (timers s) + weight1 t)%nat.

(** The overall timeout is due at [D]; a resolved capture is settled and
    has let go of its source. *)
Definition Scheduled (s : State) : Prop :=
  inOrder (timers s)
  /\ Forall (fun t => is_timeout t -> deadline t = D) (timers s)
  /\ (resolved s = true ->
      settled s <> None /\ src (element (thumbVideo c) s) = EmptyString).

Lemma Scheduled_update (f : HTMLVideoElement -> HTMLVideoElement) (s : State) :
  (forall v, src (f v) = src v) ->
  Scheduled s -> Scheduled (update_element (thumbVideo c) f s).
Proof.
  intros Hf (HO & HD & HS). split; [assumption|]. split; [assumption|].
  intros Hr. destruct (HS Hr) as [H1 H2]. split; [assumption|].
  now rewrite src_update_element.
Qed.

(** Before [D] the capture may be unresolved; from [D] on it is not. *)
Definition Due (s : State) : Prop := resolved s = false -> (clock s < D)%N.

Lemma Eff_clock (s s' : State) : Eff c cleanup s s' -> clock s' = clock s.
Proof.
  induction 1 as [s | s cb ms Hcb | s t | s | s o Hr | s1 s2 s3 _ IH1 _ IH2].
  - reflexivity.
  - reflexivity.
  - now destruct t.
  - reflexivity.
  - rewrite (proj1 (proj2 (settle_fields o _))). now rewrite cleanup_clock.
  - congruence.
Qed.

Lemma Eff_resolved (s s' : State) :
  Eff c cleanup s s' -> resolved s = true -> resolved s' = true.
Proof.
  induction 1 as [s | s cb ms Hcb | s t | s | s o Hr | s1 s2 s3 _ IH1 _ IH2];
    intros H; auto.
  - now destruct t.
  - congruence.
Qed.

Lemma Eff_Scheduled (s s' : State) : Eff c cleanup s s' -> Scheduled s -> Scheduled s'.
Proof.
  induction 1 as [s | s cb ms Hcb | s t | s | s o Hr | s1 s2 s3 _ IH1 _ IH2];
    [auto | | | | | auto]; intros (HO & HD & HS).
  - split; [|split]; simpl.
    + now apply inOrder_insert_timer.
    + apply Forall_insert_timer; [|assumption].
      unfold is_timeout. simpl. intros E. contradiction.
    + assumption.
  - destruct t as [|q]; [exact (conj HO (conj HD HS))|]. unfold setCurrentTime.
    apply (Scheduled_update (set_currentTime q) s); [reflexivity|].
    exact (conj HO (conj HD HS)).
  - exact (conj HO (conj HD HS)).
  - destruct (settle_fields o (cleanup (set_resolved true s)))
      as (_ & _ & Ht & _ & _ & _ & Hs).
    split; [|split].
    + rewrite Ht, cleanup_timers. simpl. destruct clears; [|assumption].
      now apply inOrder_filter.
    + rewrite Ht, cleanup_timers. simpl. destruct clears; [|assumption].
      now apply Forall_filter_keep.
    + intros _. split.
      * rewrite Hs.
        destruct (settled (cleanup (set_resolved true s))); discriminate.
      * rewrite element_settle. apply cleanup_src.
Qed.

Lemma Eff_Armed (s s' : State) :
  Eff c cleanup s s' -> Armed s -> Armed s'.
Proof.
  induction 1 as [s | s cb ms Hcb | s t | s | s o Hr | s1 s2 s3 _ IH1 _ IH2];
    intros HA; auto.
  - intros Hres. simpl in *. apply Exists_insert_timer. auto.
  - destruct t as [|q]; assumption.
  - intros Hres.
    rewrite (proj1 (proj2 (proj2 (proj2 (proj2 (settle_fields o _)))))) in Hres.
    rewrite cleanup_resolved in Hres. discriminate.
Qed.

Definition Ticking (s : State) : Prop := Scheduled s /\ Armed s.

Lemma Ticking_fire_next (t : Timer) (rest : list Timer) (s : State) :
  Ticking s -> timers s = t :: rest -> Ticking (fire_next P t rest s).
Proof.
  intros [(HO & HD & HS) HA] Ht. unfold fire_next.
  set (s1 := set_clock (N.max (clock s) (deadline t)) (set_timers rest s)).
  rewrite Ht in HO, HD. destruct HO as [_ HO].
  assert (H1 : Scheduled s1).
  { split; [assumption|]. split; [eapply Forall_inv_tail; eassumption | assumption]. }
  split; [eapply Eff_Scheduled; [apply fire_eff | assumption]|].
  destruct (resolved s) eqn:Hr.
  - eapply Eff_Armed; [apply fire_eff|]. intros Hr1. simpl in Hr1. congruence.
  - specialize (HA Hr). rewrite Ht in HA.
    apply Exists_cons in HA as [Hto | Hrest].
    + unfold is_timeout in Hto. rewrite Hto. intros Hr'.
      rewrite fire_timeout in Hr' by assumption. discriminate.
    + eapply Eff_Armed; [apply fire_eff|]. intros _. assumption.
Qed.

Lemma fire_next_clock (t : Timer) (rest : list Timer) (s : State) :
  clock (fire_next P t rest s) = N.max (clock s) (deadline t).
Proof. unfold fire_next. now rewrite (Eff_clock _ _ (fire_eff _ _)). Qed.

Lemma fire_next_resolved (t : Timer) (rest : list Timer) (s : State) :
  resolved s = true -> resolved (fire_next P t rest s) = true.
Proof. intros H. unfold fire_next. eapply Eff_resolved; [apply fire_eff | exact H]. Qed.

Lemma advance_loop_facts (fuel : nat) (target : N) (s : State) :
  Ticking s ->
  Ticking (advance_loop P fuel target s)
  /\ (clock (advance_loop P fuel target s) <= N.max (clock s) target)%N
  /\ (resolved s = true -> resolved (advance_loop P fuel target s) = true).
Proof.
  revert s. induction fuel as [|fuel IH]; intros s HT; simpl.
  - split; [assumption|]. split; [lia | auto].
  - destruct (timers s) as [|t rest] eqn:Ht; [split; [assumption|]; split; [lia | auto]|].
    destruct (deadline t <=? target)%N eqn:E;
      [|split; [assumption|]; split; [lia | auto]].
    apply N.leb_le in E.
    destruct (IH (fire_next P t rest s) (Ticking_fire_next t rest s HT Ht))
      as (H1 & H2 & H3).
    split; [assumption|]. split.
    + rewrite fire_next_clock in H2. lia.
    + intros Hr. apply H3. now apply fire_next_resolved.
Qed.

Lemma deliver_facts (s : State) (l : Listener) :
  Ticking s ->
  Ticking (deliver P (thumbVideo c) s l)
  /\ clock (deliver P (thumbVideo c) s l) = clock s
  /\ (resolved s = true -> resolved (deliver P (thumbVideo c) s l) = true).
Proof.
  intros HT. unfold deliver.
  destruct (registered l (element (thumbVideo c) s)); [|auto].
  set (s1 := if l_once l
             then update_element (thumbVideo c) (drop_listener (l_type l) (l_handler l)) s
             else s).
  assert (H1 : Ticking s1 /\ clock s1 = clock s /\ resolved s1 = resolved s).
  { subst s1. destruct (l_once l); [|auto]. destruct HT as [HS HA].
    split; [split; [apply Scheduled_update; [reflexivity | assumption] | exact HA]|].
    split; reflexivity. }
  destruct H1 as ([HS HA] & Hc & Hr).
  pose proof (invoke_eff (l_handler l) s1) as He.
  split; [split; [eapply Eff_Scheduled | eapply Eff_Armed]; eassumption|].
  split; [now rewrite (Eff_clock _ _ He)|].
  intros H. eapply Eff_resolved; [exact He | congruence].
Qed.

Lemma dispatch_facts (ev : EventType) (s : State) :
  Ticking s ->
  Ticking (dispatch P (thumbVideo c) ev s)
  /\ clock (dispatch P (thumbVideo c) ev s) = clock s
  /\ (resolved s = true -> resolved (dispatch P (thumbVideo c) ev s) = true).
Proof.
  unfold dispatch.
  generalize (List.filter (same_type ev) (listeners (element (thumbVideo c) s))).
  intros ls. revert s. induction ls as [|l ls IH]; intros s HT; simpl; [auto|].
  destruct (deliver_facts s l HT) as (H1 & H2 & H3).
  destruct (IH _ H1) as (H4 & H5 & H6).
  split; [assumption|]. split; [congruence | auto].
Qed.

Lemma inOrder_head (t u : Timer) (l : list Timer) :
  inOrder (t :: l) -> In u (t :: l) -> (deadline t <= deadline u)%N.
Proof.
  intros [H _] [<- | Hin]; [lia|].
  now apply (proj1 (List.Forall_forall _ _) H).
Qed.

(** One event keeps the capture on schedule. *)
Lemma step_facts (e : Event) (s : State) :
  Ticking s -> Due s ->
  Ticking (step P (thumbVideo c) s e) /\ Due (step P (thumbVideo c) s e).
Proof.
  intros HT HD. destruct e as [ms|d|ev]; simpl.
  - unfold advance.
    set (target := (clock s + ms)%N).
    set (s' := advance_loop P (weight (timers s)) target s).
    destruct (advance_loop_facts (weight (timers s)) target s HT) as (HT' & Hc & Hr).
    fold s' in HT', Hc, Hr.
    pose proof (advance_loop_fires_all_due P fire_weight (weight (timers s)) target s
                  (le_n _)) as Hdue.
    fold s' in Hdue.
    split; [exact HT'|].
    intros Hres. simpl in Hres |- *.
    destruct HT' as [(HO & HDl & _) HA].
    specialize (HA Hres).
    assert (Hs : resolved s = false).
    { destruct (resolved s) eqn:E; [|reflexivity]. rewrite Hr in Hres by reflexivity.
      discriminate. }
    specialize (HD Hs).
    apply List.Exists_exists in HA as (u & Hin & Hu).
    destruct (timers s') as [|t rest] eqn:Ht; [destruct Hin|].
    pose proof (inOrder_head t u rest HO Hin) as Hle.
    rewrite (proj1 (List.Forall_forall _ _) HDl u Hin Hu) in Hle.
    subst target. lia.
  - destruct HT as [HS HA].
    split; [split; [apply Scheduled_update; [reflexivity | assumption] | exact HA]|].
    exact HD.
  - destruct (dispatch_facts ev s HT) as (H1 & H2 & H3).
    split; [assumption|]. intros Hres. rewrite H2. apply HD.
    destruct (resolved s) eqn:E; [|reflexivity]. rewrite H3 in Hres by reflexivity.
    discriminate.
Qed.

Lemma run_facts (script : list Event) (s : State) :
  Ticking s -> Due s ->
  Ticking (run P (thumbVideo c) script s) /\ Due (run P (thumbVideo c) script s).
Proof.
  unfold run. revert s. induction script as [|e script IH]; intros s HT HD; simpl.
  - now split.
  - destruct (step_facts e s HT HD) as [H1 H2]. now apply IH.
Qed.

(** Once the clock has reached [D], the capture is settled. *)
Lemma settled_when_due (script : list Event) (s : State) :
  Ticking s -> Due s ->
  (D <= clock (run P (thumbVideo c) script s))%N ->
  settled (run P (thumbVideo c) script s) <> None.
Proof.
  intros HT HD Hc.
  destruct (run_facts script s HT HD) as [[(_ & _ & HS) _] HD'].
  apply HS. destruct (resolved _) eqn:E; [reflexivity|].
  specialize (HD' E). lia.
Qed.

Lemma drain_loop_Ticking (fuel : nat) (s : State) :
  Ticking s -> Ticking (drain_loop P fuel s).
Proof.
  revert s. induction fuel as [|fuel IH]; intros s HT; simpl; [assumption|].
  destruct (timers s) as [|t rest] eqn:Ht; [assumption|].
  apply IH. now apply Ticking_fire_next.
Qed.

(** When the event loop has run and no timer is left, the element of the
    capture has an empty [src]. *)
Lemma released_when_drained (script : list Event) (s : State) :
  Ticking s -> Due s ->
  timers (drain P (run P (thumbVideo c) script s)) = [] ->
  src (element (thumbVideo c) (drain P (run P (thumbVideo c) script s))) = EmptyString.
Proof.
  intros HT HD He.
  destruct (run_facts script s HT HD) as [HT' _].
  pose proof (drain_loop_Ticking (weight (timers (run P (thumbVideo c) script s))) _ HT')
    as [(_ & _ & HS) HA].
  fold (drain P (run P (thumbVideo c) script s)) in HS, HA.
  apply HS. destruct (resolved _) eqn:E; [reflexivity|].
  specialize (HA E). rewrite He in HA. inversion HA.
Qed.
End Deadline.

Lemma clock_update_element (i : nat) (f : HTMLVideoElement -> HTMLVideoElement)
    (s : State) : clock (update_element i f s) = clock s.
Proof. reflexivity. Qed.

Lemma el_cleanup_clock (c : Closure) (s : State) :
  clock (FromElement.cleanup c s) = clock s.
Proof.
  unfold FromElement.cleanup.
  destruct (timeoutId c) as [i|]; [destruct (i =? 0)%nat|]; reflexivity.
Qed.

Lemma url_cleanup_clock (c : Closure) (s : State) :
  clock (FromUrl.cleanup c s) = clock s.
Proof. reflexivity. Qed.

Lemma el_cleanup_src (c : Closure) (s : State) :
  src (element (thumbVideo c) (FromElement.cleanup c s)) = EmptyString.
Proof.
  unfold FromElement.cleanup, load, setSrc, element. simpl.
  rewrite !list_lookup_alter_eq.
  destruct (timeoutId c) as [i|]; [destruct (i =? 0)%nat|]; simpl;
    rewrite ?list_lookup_alter_eq;
    destruct (dom s !! thumbVideo c); reflexivity.
Qed.

Lemma url_cleanup_src (c : Closure) (s : State) :
  src (element (thumbVideo c) (FromUrl.cleanup c s)) = EmptyString.
Proof.
  unfold FromUrl.cleanup, load, setSrc, element. simpl.
  rewrite !list_lookup_alter_eq.
  destruct (dom s !! thumbVideo c); reflexivity.
Qed.

Lemma FromElement_start_clock (videoElement : nat) (timeSeconds : Q) (w h : nat)
    (s : State) :
  clock (fst (FromElement.start videoElement timeSeconds w h s)) = clock s.
Proof.
  unfold FromElement.start. simpl.
  destruct (dom s !! videoElement) as [v|]; [|reflexivity].
  destruct (String.prefix "http://" (or_string (src v) (currentSrc v))
            || String.prefix "https://" (or_string (src v) (currentSrc v)));
    reflexivity.
Qed.

Lemma FromUrl_start_clock (videoUrl : string) (timeSeconds : Q) (w h : nat) (s : State) :
  clock (fst (FromUrl.start videoUrl timeSeconds w h s)) = clock s.
Proof. reflexivity. Qed.

(** X15. A capture is settled once its overall timeout is due, whatever
    the decoder does: [captureVideoFrameFromElement] 10 s after the call,
    [captureVideoFrame] 15 s after it. *)
Theorem capture_settles_by_its_timeout
    (videoElement : nat) (videoUrl : string) (timeSeconds : Q) (w h : nat)
    (script : list Event) (s : State) (v : HTMLVideoElement) :
  idle s -> dom s !! videoElement = Some v ->
  let x := inFlightFromElement videoElement timeSeconds w h script s in
  let x' := inFlightFromUrl videoUrl timeSeconds w h script s in
  ((clock s + 10000 <= clock x)%N -> settled x <> None)
  /\ ((clock s + 15000 <= clock x')%N -> settled x' <> None).
Proof.
  intros [Hidle Hnext] Hv x x'. split.
  - destruct (FromElement_start_spec videoElement timeSeconds w h s v Hidle Hv)
      as (c & s1 & Hstart & Hthumb & Htid & _ & _ & _ & _ & Ht1 & Hr1 & Hs1 & _).
    pose proof (FromElement_start_clock videoElement timeSeconds w h s) as Hc1.
    subst x. unfold inFlightFromElement. rewrite Hstart in *. simpl in Hc1.
    apply (settled_when_due c (FromElement.cleanup c) true (nextTimerId s)
             (FromElement.program c) (clock s + 10000)%N
             (FromElementFacts.el_cleanup_resolved c _ Htid Hnext)
             (FromElementFacts.el_cleanup_timers c _ Htid Hnext)
             (el_cleanup_clock c) (el_cleanup_src c)
             (FromElementFacts.el_invoke_eff c)
             (FromElementFacts.el_fire_eff c)
             (FromElementFacts.el_fire_timeout c _ Htid Hnext)
             (FromElementFacts.el_fire_weight c _ Htid Hnext)).
    + split; [split; [|split]|].
      * rewrite Ht1. simpl. auto.
      * rewrite Ht1. repeat constructor.
      * rewrite Hr1. discriminate.
      * intros _. rewrite Ht1. apply Exists_cons_hd. reflexivity.
    + intros _. rewrite Hc1. lia.
  - destruct (FromUrl_start_spec videoUrl timeSeconds w h s Hidle)
      as (c & s1 & Hstart & Hthumb & Hrest).
    pose proof (FromUrl_start_clock videoUrl timeSeconds w h s) as Hc1.
    subst x'. unfold inFlightFromUrl. rewrite Hstart in *. simpl in Hc1.
    destruct Hrest as (_ & _ & _ & _ & _ & Ht1 & Hr1 & Hs1 & _).
    apply (settled_when_due c (FromUrl.cleanup c) false (nextTimerId s)
             (FromUrl.program c) (clock s + 15000)%N
             (FromUrlFacts.url_cleanup_resolved c)
             (FromUrlFacts.url_cleanup_timers c (nextTimerId s))
             (url_cleanup_clock c) (url_cleanup_src c)
             (FromUrlFacts.url_invoke_eff c)
             (FromUrlFacts.url_fire_eff c)
             (FromUrlFacts.url_fire_timeout c)
             (FromUrlFacts.url_fire_weight c)).
    + split; [split; [|split]|].
      * rewrite Ht1. simpl. auto.
      * rewrite Ht1. repeat constructor.
      * rewrite Hr1. discriminate.
      * intros _. rewrite Ht1. apply Exists_cons_hd. reflexivity.
    + intros _. rewrite Hc1. lia.
Qed.

Lemma capture_settles_by_its_timeout_witness :
  idle (pageAt 45)
  /\ dom (pageAt 45) !! 0%nat = Some (videoAt 45)
  /\ settled (inFlightFromElement 0 20 320 180 [Wait 10000] (pageAt 45)) <> None
  /\ settled (inFlightFromUrl "/test-video.mp4" 20 320 180 [Wait 15000] (pageAt 45)) <> None.
Proof.
  split; [exact (pageAt_idle 45)|]. split; [reflexivity|]. split.
  - apply (proj1 (capture_settles_by_its_timeout 0 "/test-video.mp4" 20 320 180
                    [Wait 10000] (pageAt 45) (videoAt 45) (pageAt_idle 45) eq_refl)).
    vm_compute. discriminate.
  - apply (proj2 (capture_settles_by_its_timeout 0 "/test-video.mp4" 20 320 180
                    [Wait 15000] (pageAt 45) (videoAt 45) (pageAt_idle 45) eq_refl)).
    vm_compute. discriminate.
Defined.

(** ** The time that a capture seeks to *)

Lemma FromElement_start_seekTime (videoElement : nat) (timeSeconds : Q) (w h : nat)
    (s s1 : State) (v : HTMLVideoElement) (c : Closure) :
  dom s !! videoElement = Some v ->
  FromElement.start videoElement timeSeconds w h s = (s1, Some c) ->
  seekTime c = nudge (clamp (Num timeSeconds) (or_zero (duration v)))
                 (or_zero (duration v)).
Proof.
  intros Hv. unfold FromElement.start. simpl. rewrite Hv.
  destruct (String.prefix "http://" (or_string (src v) (currentSrc v))
            || String.prefix "https://" (or_string (src v) (currentSrc v)));
    intros [= _ <-]; reflexivity.
Qed.

Lemma FromUrl_start_seekTime (videoUrl : string) (timeSeconds : Q) (w h : nat)
    (s : State) :
  seekTime (snd (FromUrl.start videoUrl timeSeconds w h s)) = Num timeSeconds.
Proof. reflexivity. Qed.

(** The clamp and the nudge on a time inside the stream. *)
Lemma clamp_inside (t d : Q) :
  (0 <= t)%Q -> (t <= d - 0.1)%Q ->
  exists r, clamp (Num t) (Num d) = Num r /\ (r == t)%Q.
Proof.
  intros H0 H1. unfold clamp. simpl. eexists. split; [reflexivity|].
  destruct (Q.min_spec (Qmax 0 t) (d - 0.1)) as [[A B]|[A B]];
    destruct (Q.max_spec 0 t) as [[C E]|[C E]]; lra.
Qed.

Lemma nudge_positive (r d : Q) : (0 < r)%Q -> nudge (Num r) (Num d) = Num r.
Proof.
  intros H. unfold nudge. simpl.
  destruct (Qeq_bool r 0) eqn:E; [|reflexivity].
  apply Qeq_bool_iff in E. lra.
Qed.

Lemma or_zero_positive (d : Q) : (0 < d)%Q -> or_zero (Num d) = Num d.
Proof.
  intros H. simpl. destruct (Qeq_bool d 0) eqn:E; [|reflexivity].
  apply Qeq_bool_iff in E. lra.
Qed.

(** X16. A requested time that lies within the video, at least 0.1 s
    before its end and not beyond the bound [duration - 0.1] that the
    doubles give, is the time that the capture seeks to: for
    [captureVideoFrameFromElement] when it is positive, for
    [captureVideoFrame] also at 0. Both bounds are needed: the double
    bound lies below the exact one for a duration of 0.125 s and above it
    for one of 100 s. *)
Theorem capture_seeks_to_the_requested_time
    (videoElement : nat) (videoUrl : string) (timeSeconds : Q) (w h : nat)
    (s s1 s' : State) (v : HTMLVideoElement) (c : Closure) (d : Q) :
  dom s !! videoElement = Some v -> duration v = Num d ->
  FromElement.start videoElement timeSeconds w h s = (s1, Some c) ->
  duration (element (thumbVideo c) s') = Num d ->
  (timeSeconds <= d - 0.1)%Q ->
  (timeSeconds <= clampBound64 d)%Q ->
  ((0 <= timeSeconds)%Q ->
   (Qmin (Qmax 0 timeSeconds) (clampBound64 d) == timeSeconds)%Q)
  /\ ((0 < timeSeconds)%Q ->
   exists r, FromElement.seekThumb c s' = setCurrentTime (thumbVideo c) (Num r) s'
             /\ (r == timeSeconds)%Q)
  /\ ((0 <= timeSeconds)%Q ->
      let c' := snd (FromUrl.start videoUrl timeSeconds w h s) in
      forall s'', duration (element (thumbVideo c') s'') = Num d ->
      exists r, FromUrl.seekVideo c' s'' = setCurrentTime (thumbVideo c') (Num r) s''
                /\ (r == timeSeconds)%Q).
Proof.
  intros Hv Hd Hstart Hd' Hle Hle64. split; [|split].
  - intros Hnn.
    destruct (Q.min_spec (Qmax 0 timeSeconds) (clampBound64 d)) as [[A B]|[A B]];
      destruct (Q.max_spec 0 timeSeconds) as [[C E]|[C E]];
      rewrite B; rewrite E in *; lra.
  - intros Hpos.
    rewrite seekThumb_requests, Hd'.
    rewrite (FromElement_start_seekTime _ _ _ _ _ _ _ _ Hv Hstart), Hd.
    rewrite or_zero_positive by lra.
    destruct (clamp_inside timeSeconds d ltac:(lra) Hle) as (r0 & -> & Hr0).
    rewrite nudge_positive by lra.
    destruct (clamp_inside r0 d ltac:(lra) ltac:(lra)) as (r & -> & Hr).
    rewrite nudge_positive by lra.
    exists r. split; [reflexivity | lra].
  - intros Hnn c' s'' Hd''. rewrite seekVideo_requests, Hd''. subst c'.
    rewrite FromUrl_start_seekTime.
    destruct (clamp_inside timeSeconds d Hnn Hle) as (r & -> & Hr).
    now exists r.
Qed.

(** A capture at 20 s from the element of the page, once its own element
    has the metadata. *)
Definition captureAt20 : Closure := mkClosure 1 (Num 20) (Some 1%nat) 320 180.

Definition started20 : State :=
  Eval vm_compute in fst (FromElement.start 0 20 320 180 (pageAt 45)).

Lemma captureAt20_start :
  FromElement.start 0 20 320 180 (pageAt 45) = (started20, Some captureAt20).
Proof. vm_compute. reflexivity. Qed.

Definition afterMetadata : State :=
  update_element 1 (set_decoder (mkDecoder (Num 100) 0 1 None None)) started20.

Lemma twenty_in_range : (20 <= 100 - 0.1)%Q.
Proof. vm_compute. discriminate. Qed.

Lemma twenty_in_range64 : (20 <= clampBound64 100)%Q.
Proof. vm_compute. discriminate. Qed.

(** The two bounds differ, either way. *)
Example clampBound64_examples :
  (clampBound64 0.125 < 0.125 - 0.1)%Q /\ (100 - 0.1 < clampBound64 100)%Q.
Proof. split; vm_compute; reflexivity. Qed.

Lemma capture_seeks_to_the_requested_time_witness :
  dom (pageAt 45) !! 0%nat = Some (videoAt 45)
  /\ duration (videoAt 45) = Num 100
  /\ FromElement.start 0 20 320 180 (pageAt 45) = (started20, Some captureAt20)
  /\ duration (element (thumbVideo captureAt20) afterMetadata) = Num 100
  /\ (20 <= 100 - 0.1)%Q
  /\ (20 <= clampBound64 100)%Q
  /\ exists r, FromElement.seekThumb captureAt20 afterMetadata
               = setCurrentTime (thumbVideo captureAt20) (Num r) afterMetadata
               /\ (r == 20)%Q.
Proof.
  split; [reflexivity|]. split; [reflexivity|]. split; [exact captureAt20_start|].
  split; [reflexivity|]. split; [exact twenty_in_range|].
  split; [exact twenty_in_range64|].
  exact (proj1 (proj2 (capture_seeks_to_the_requested_time 0 "/test-video.mp4" 20 320 180
                  (pageAt 45) started20 afterMetadata (videoAt 45) captureAt20 100
                  eq_refl eq_refl captureAt20_start eq_refl twenty_in_range
                  twenty_in_range64)) eq_refl).
Defined.








(** ** What a batch leaves in the document *)

(** An element that a capture has let go of: no source, no listener. *)
Definition letGo (e : HTMLVideoElement) : Prop :=
  src e = EmptyString /\ listeners e = [].

Lemma element_in_range (i : nat) (s : State) :
  (i < length (dom s))%nat -> dom s !! i = Some (element i s).
Proof.
  intros H. unfold element.
  destruct (lookup_lt_is_Some_2 (dom s) i H) as [e ->]. reflexivity.
Qed.

Lemma captureVideoFrameFromElement_lets_go (videoElement : nat) (timeSeconds : Q)
    (w h : nat) (script : list Event) (s : State) (v : HTMLVideoElement) :
  idle s -> dom s !! videoElement = Some v ->
  exists e,
    dom (captureVideoFrameFromElement videoElement timeSeconds w h script s)
      !! length (dom s) = Some e
    /\ letGo e.
Proof.
  intros Hidle Hv.
  set (x := captureVideoFrameFromElement videoElement timeSeconds w h script s).
  destruct (captureVideoFrameFromElement_summary videoElement timeSeconds w h script
              s v Hidle Hv x (or_intror eq_refl)) as (Hlen & _ & _ & _ & Hfin).
  destruct (Hfin eq_refl) as [Hset Hempty].
  exists (element (length (dom s)) x).
  split; [apply element_in_range; lia|]. split.
  - destruct Hidle as [Ht Hnext].
    destruct (FromElement_start_spec videoElement timeSeconds w h s v Ht Hv)
      as (c & s1 & Hstart & Hthumb & Htid & _ & _ & _ & _ & Ht1 & Hr1 & Hs1 & _).
    pose proof (FromElement_start_clock videoElement timeSeconds w h s) as Hc1.
    subst x. unfold captureVideoFrameFromElement in *. rewrite Hstart in *.
    simpl in Hc1. rewrite <- Hthumb.
    apply (released_when_drained c (FromElement.cleanup c) true (nextTimerId s)
             (FromElement.program c) (clock s + 10000)%N
             (FromElementFacts.el_cleanup_resolved c _ Htid Hnext)
             (FromElementFacts.el_cleanup_timers c _ Htid Hnext)
             (el_cleanup_clock c) (el_cleanup_src c)
             (FromElementFacts.el_invoke_eff c)
             (FromElementFacts.el_fire_eff c)
             (FromElementFacts.el_fire_timeout c _ Htid Hnext)
             (FromElementFacts.el_fire_weight c _ Htid Hnext)).
    + split; [split; [|split]|].
      * rewrite Ht1. simpl. auto.
      * rewrite Ht1. repeat constructor.
      * rewrite Hr1. discriminate.
      * intros _. rewrite Ht1. apply Exists_cons_hd. reflexivity.
    + intros _. rewrite Hc1. lia.
    + assumption.
  - apply (captureVideoFrameFromElement_releases videoElement timeSeconds w h script
             s v Hidle Hv x (or_intror eq_refl)). assumption.
Qed.

Lemma captureVideoFrame_lets_go (videoUrl : string) (timeSeconds : Q)
    (w h : nat) (script : list Event) (s : State) :
  idle s ->
  exists e,
    dom (captureVideoFrame videoUrl timeSeconds w h script s) !! length (dom s) = Some e
    /\ letGo e.
Proof.
  intros Hidle.
  set (x := captureVideoFrame videoUrl timeSeconds w h script s).
  destruct (captureVideoFrame_summary videoUrl timeSeconds w h script
              s Hidle x (or_intror eq_refl)) as (Hlen & _ & _ & _ & Hfin).
  destruct (Hfin eq_refl) as [Hset Hempty].
  exists (element (length (dom s)) x).
  split; [apply element_in_range; lia|]. split.
  - destruct Hidle as [Ht Hnext].
    destruct (FromUrl_start_spec videoUrl timeSeconds w h s Ht)
      as (c & s1 & Hstart & Hthumb & _ & _ & _ & _ & _ & Ht1 & Hr1 & Hs1 & _).
    pose proof (FromUrl_start_clock videoUrl timeSeconds w h s) as Hc1.
    subst x. unfold captureVideoFrame in *. rewrite Hstart in *.
    simpl in Hc1. rewrite <- Hthumb.
    apply (released_when_drained c (FromUrl.cleanup c) false (nextTimerId s)
             (FromUrl.program c) (clock s + 15000)%N
             (FromUrlFacts.url_cleanup_resolved c)
             (FromUrlFacts.url_cleanup_timers c (nextTimerId s))
             (url_cleanup_clock c) (url_cleanup_src c)
             (FromUrlFacts.url_invoke_eff c)
             (FromUrlFacts.url_fire_eff c)
             (FromUrlFacts.url_fire_timeout c)
             (FromUrlFacts.url_fire_weight c)).
    + split; [split; [|split]|].
      * rewrite Ht1. simpl. auto.
      * rewrite Ht1. repeat constructor.
      * rewrite Hr1. discriminate.
      * intros _. rewrite Ht1. apply Exists_cons_hd. reflexivity.
    + intros _. rewrite Hc1. lia.
    + assumption.
  - apply (captureVideoFrame_releases videoUrl timeSeconds w h script
             s Hidle x (or_intror eq_refl)). assumption.
Qed.

(** From handle [first] on, the document holds only elements that were
    let go of. *)
Definition allLetGo (first : nat) (s : State) : Prop :=
  forall j, (first <= j < length (dom s))%nat ->
    exists e, dom s !! j = Some e /\ letGo e.

(** One more capture: the document grows by one element that is let go of,
    and the others stay. *)
Lemma allLetGo_grow (first : nat) (s x : State) (e : HTMLVideoElement) :
  (first <= length (dom s))%nat ->
  allLetGo first s ->
  length (dom x) = S (length (dom s)) ->
  (forall j, (j < length (dom s))%nat -> dom x !! j = dom s !! j) ->
  dom x !! length (dom s) = Some e -> letGo e ->
  allLetGo first x.
Proof.
  intros Hf Hall Hlen Hsame He Hgo j Hj.
  destruct (Nat.eq_dec j (length (dom s))) as [->|Hne].
  - now exists e.
  - rewrite Hsame by lia. apply Hall. lia.
Qed.

Section ElementLoopDocument.
Variables (videoElement w h : nat) (env : BatchEnv) (n first : nat).
Variable v : HTMLVideoElement.

Lemma elementLoop_document (todo : list ChapterDefinition) :
  forall (i : nat) (acc : list Chapter) (s : State),
    betweenCaptures videoElement v s ->
    (first <= length (dom s))%nat -> allLetGo first s ->
    exists s' out,
      elementLoop videoElement w h env n i todo acc s = Returned (s', out)
      /\ betweenCaptures videoElement v s'
      /\ length (dom s') = (length (dom s) + length todo)%nat
      /\ allLetGo first s'.
Proof.
  induction todo as [|ch todo IH]; intros i acc s Hs Hf Hall.
  - exists s, acc. simpl. rewrite Nat.add_0_r. auto.
  - simpl.
    set (s1 := emit (ConsoleLog (generating i n ch)) s).
    set (s2 := if (0 <? i)%nat then sleep 300 s1 else s1).
    assert (H2 : betweenCaptures videoElement v s2 /\ dom s2 = dom s).
    { destruct Hs as [Hidle Hv]. subst s2. destruct (0 <? i)%nat.
      - destruct (sleep_spec 300 s1 Hidle) as (Hi & Hd & _).
        split; [split; [assumption | now rewrite Hd] | assumption].
      - split; [split; assumption | reflexivity]. }
    destruct H2 as ([Hidle2 Hv2] & Hd2).
    set (s3 := captureVideoFrameFromElement videoElement (startTime ch) w h
                 (scripts env i) s2).
    destruct (captureVideoFrameFromElement_summary videoElement (startTime ch) w h
                (scripts env i) s2 v Hidle2 Hv2 s3 (or_intror eq_refl))
      as (Hlen & Hsame & _ & Hn3 & Hfin).
    destruct (Hfin eq_refl) as [Hset3 Ht3].
    destruct (captureVideoFrameFromElement_lets_go videoElement (startTime ch) w h
                (scripts env i) s2 v Hidle2 Hv2) as (e & He & Hgo).
    fold s3 in He. rewrite Hd2 in Hlen, Hsame, He.
    pose proof (lookup_lt_Some _ _ _ (proj2 Hs)) as Hlt.
    assert (H3 : forall a, betweenCaptures videoElement v (emit a s3)
                           /\ (first <= length (dom (emit a s3)))%nat
                           /\ allLetGo first (emit a s3)
                           /\ length (dom (emit a s3)) = S (length (dom s))).
    { intros a. split; [split; [split; assumption|]|].
      - simpl. rewrite Hsame by assumption. apply Hs.
      - split; [simpl; lia|]. split; [|exact Hlen].
        apply (allLetGo_grow first s (emit a s3) e); assumption. }
    destruct (settled s3) as [[thumbnailUrl | error]|] eqn:Hs3; [| |contradiction].
    + destruct (H3 (ConsoleLog ("Thumbnail generated for " ++ title ch)))
        as (Hb & Hf' & Hall' & Hlen').
      destruct (IH (S i) (acc ++ [mkChapter ch (Some thumbnailUrl)]) _ Hb Hf' Hall')
        as (s' & out & Hret & Hb' & Hl' & Ha').
      exists s', out. rewrite Hret. split; [reflexivity|]. split; [assumption|].
      split; [|assumption]. rewrite Hl', Hlen'. simpl. lia.
    + destruct (H3 (ConsoleError ("Failed to generate thumbnail for chapter "
                                    ++ title ch ++ ": " ++ error)))
        as (Hb & Hf' & Hall' & Hlen').
      destruct (IH (S i) (acc ++ [mkChapter ch None]) _ Hb Hf' Hall')
        as (s' & out & Hret & Hb' & Hl' & Ha').
      exists s', out. rewrite Hret. split; [reflexivity|]. split; [assumption|].
      split; [|assumption]. rewrite Hl', Hlen'. simpl. lia.
Qed.
End ElementLoopDocument.

Section UrlLoopDocument.
Variables (videoUrl : string) (w h : nat) (env : BatchEnv) (n first : nat).

Lemma urlLoop_document (todo : list ChapterDefinition) :
  forall (i : nat) (acc : list Chapter) (s : State),
    idle s -> (first <= length (dom s))%nat -> allLetGo first s ->
    exists s' out,
      urlLoop videoUrl w h env n i todo acc s = Returned (s', out)
      /\ idle s'
      /\ length (dom s') = (length (dom s) + length todo)%nat
      /\ allLetGo first s'.
Proof.
  induction todo as [|ch todo IH]; intros i acc s Hs Hf Hall.
  - exists s, acc. simpl. rewrite Nat.add_0_r. auto.
  - simpl.
    set (s1 := emit (ConsoleLog (generating i n ch)) s).
    set (s3 := captureVideoFrame videoUrl (startTime ch) w h (scripts env i) s1).
    assert (Hs1 : idle s1) by exact Hs.
    destruct (captureVideoFrame_summary videoUrl (startTime ch) w h
                (scripts env i) s1 Hs1 s3 (or_intror eq_refl))
      as (Hlen & Hsame & _ & Hn3 & Hfin).
    destruct (Hfin eq_refl) as [Hset3 Ht3].
    destruct (captureVideoFrame_lets_go videoUrl (startTime ch) w h
                (scripts env i) s1 Hs1) as (e & He & Hgo).
    fold s3 in He. change (dom s1) with (dom s) in Hlen, Hsame, He.
    assert (H3 : forall a,
              let s4 := if (i <? n - 1)%nat then sleep 200 (emit a s3) else emit a s3 in
              idle s4 /\ (first <= length (dom s4))%nat /\ allLetGo first s4
              /\ length (dom s4) = S (length (dom s))).
    { intros a s4.
      assert (Hi : idle (emit a s3)) by (split; assumption).
      assert (Hd : idle s4 /\ dom s4 = dom s3).
      { subst s4. destruct (i <? n - 1)%nat.
        - destruct (sleep_spec 200 _ Hi) as (H1 & H2 & _). now split.
        - now split. }
      destruct Hd as [Hi4 Hd4]. split; [assumption|].
      split; [rewrite Hd4; lia|]. split; [|now rewrite Hd4].
      apply (allLetGo_grow first s s4 e); try assumption; now rewrite Hd4. }
    destruct (settled s3) as [[thumbnailUrl | error]|] eqn:Hs3; [| |contradiction].
    + destruct (H3 (ConsoleLog ("Thumbnail generated for " ++ title ch)))
        as (Hb & Hf' & Hall' & Hlen').
      destruct (IH (S i) (acc ++ [mkChapter ch (Some thumbnailUrl)]) _ Hb Hf' Hall')
        as (s' & out & Hret & Hb' & Hl' & Ha').
      exists s', out. rewrite Hret. split; [reflexivity|]. split; [assumption|].
      split; [|assumption]. rewrite Hl', Hlen'. simpl. lia.
    + destruct (H3 (ConsoleError ("Failed to generate thumbnail for chapter "
                                    ++ title ch ++ ": " ++ error)))
        as (Hb & Hf' & Hall' & Hlen').
      destruct (IH (S i) (acc ++ [mkChapter ch None]) _ Hb Hf' Hall')
        as (s' & out & Hret & Hb' & Hl' & Ha').
      exists s', out. rewrite Hret. split; [reflexivity|]. split; [assumption|].
      split; [|assumption]. rewrite Hl', Hlen'. simpl. lia.
Qed.
End UrlLoopDocument.

Lemma allLetGo_none (s : State) : allLetGo (length (dom s)) s.
Proof. intros j Hj. lia. Qed.

Lemma allLetGo_same_dom (first : nat) (s s' : State) :
  length (dom s') = length (dom s) ->
  (forall j, (first <= j)%nat -> dom s' !! j = dom s !! j) ->
  allLetGo first s -> allLetGo first s'.
Proof.
  intros Hlen Hsame Hall j Hj. rewrite Hsame by lia. apply Hall. lia.
Qed.

(** X18. A batch that returns has created one video element for each
    chapter and has let go of all of them: each is left without source
    and without listeners. (Timers of the captures may still be pending
    when the batch returns; each of them finds its capture settled.) *)
Theorem batch_lets_go_of_every_element_it_creates
    (videoElement : nat) (videoUrl : string) (chapters : list ChapterDefinition)
    (w h : nat) (env : BatchEnv) (s : State) (v : HTMLVideoElement) :
  idle s -> dom s !! videoElement = Some v ->
  (forall s' out,
     generateChapterThumbnailsFromElement videoElement chapters w h env s
     = Returned (s', out) ->
     length (dom s') = (length (dom s) + length chapters)%nat
     /\ forall j, (length (dom s) <= j < length (dom s'))%nat ->
          exists e, dom s' !! j = Some e /\ src e = EmptyString /\ listeners e = [])
  /\ (forall s' out,
        generateChapterThumbnails videoUrl chapters w h env s = Returned (s', out) ->
        length (dom s') = (length (dom s) + length chapters)%nat
        /\ forall j, (length (dom s) <= j < length (dom s'))%nat ->
             exists e, dom s' !! j = Some e /\ src e = EmptyString /\ listeners e = []).
Proof.
  intros Hidle Hv. split.
  - intros s' out Hret.
    unfold generateChapterThumbnailsFromElement in Hret. rewrite Hv in Hret.
    set (s1 := if negb (paused v) then pause videoElement s else s) in Hret.
    set (v1 := if paused v then v else set_paused true v).
    pose proof (lookup_lt_Some _ _ _ Hv) as Hlt.
    assert (H1 : idle s1 /\ dom s1 !! videoElement = Some v1
                 /\ length (dom s1) = length (dom s)
                 /\ allLetGo (length (dom s)) s1).
    { subst s1 v1. destruct (paused v); simpl.
      - split; [assumption|]. split; [assumption|]. split; [reflexivity|].
        apply allLetGo_none.
      - split; [exact Hidle|]. split; [now rewrite list_lookup_alter_eq, Hv|].
        split; [apply length_alter|].
        intros j Hj. simpl in Hj. rewrite length_alter in Hj. lia. }
    destruct H1 as (Hidle1 & Hv1 & Hlen1 & Hall1).
    assert (Hloop : forall s2 v2,
              idle s2 -> dom s2 !! videoElement = Some v2 ->
              length (dom s2) = length (dom s) -> allLetGo (length (dom s)) s2 ->
              match elementLoop videoElement w h env (length chapters) 0 chapters [] s2 with
              | Returned (s3, chaptersWithThumbnails) =>
                  Returned
                    ((if negb (paused v)
                      then play videoElement (playAllowed env)
                             (setCurrentTime videoElement (Num 0) s3)
                      else setCurrentTime videoElement (Num 0) s3),
                     chaptersWithThumbnails)
              | Threw e => Threw e
              | Pending => Pending
              end = Returned (s', out) ->
              length (dom s') = (length (dom s) + length chapters)%nat
              /\ allLetGo (length (dom s)) s').
    { intros s2 v2 Hi2 Hv2 Hl2 Ha2 Hr.
      destruct (elementLoop_document videoElement w h env (length chapters)
                  (length (dom s)) v2 chapters 0 [] s2 (conj Hi2 Hv2)
                  ltac:(lia) Ha2)
        as (s3 & out3 & Hret3 & [Hi3 Hv3] & Hl3 & Ha3).
      rewrite Hret3 in Hr. injection Hr as <- <-.
      assert (Hfinal : forall s4,
                length (dom s4) = length (dom s3) ->
                (forall j, (length (dom s) <= j)%nat -> dom s4 !! j = dom s3 !! j) ->
                length (dom s4) = (length (dom s) + length chapters)%nat
                /\ allLetGo (length (dom s)) s4).
      { intros s4 L S. split; [lia|].
        now apply (allLetGo_same_dom _ s3). }
      pose proof (lookup_lt_Some _ _ _ Hv3) as Hlt3.
      destruct (negb (paused v)); apply Hfinal.
      - unfold play. destruct (playAllowed env); simpl; now rewrite ?length_alter.
      - intros j Hj. unfold play. destruct (playAllowed env); simpl;
          rewrite ?list_lookup_alter_ne by lia; reflexivity.
      - simpl. now rewrite length_alter.
      - intros j Hj. simpl. rewrite list_lookup_alter_ne by lia. reflexivity. }
    assert (Hgoal : length (dom s') = (length (dom s) + length chapters)%nat
                    /\ allLetGo (length (dom s)) s').
    { destruct (readyState (element videoElement s1) <? 2)%nat.
      - destruct (canplayFires env); [|discriminate].
        refine (Hloop _ (drop_listener ev_canplay onCanPlayReady
                           (add_listener ev_canplay onCanPlayReady false v1))
                  _ _ _ _ Hret).
        + exact Hidle1.
        + simpl. now rewrite !list_lookup_alter_eq, Hv1.
        + simpl. now rewrite !length_alter.
        + apply (allLetGo_same_dom _ s1); [simpl; now rewrite !length_alter| |assumption].
          intros j Hj. simpl. rewrite !list_lookup_alter_ne by lia. reflexivity.
      - exact (Hloop s1 v1 Hidle1 Hv1 Hlen1 Hall1 Hret). }
    destruct Hgoal as (G1 & G3). split; [assumption|].
    intros j Hj. destruct (G3 j Hj) as (e & He & Hs & Hl). now exists e.
  - intros s' out Hret. unfold generateChapterThumbnails in Hret.
    destruct (urlLoop_document videoUrl w h env (length chapters) (length (dom s))
                chapters 0 [] s Hidle ltac:(lia) (allLetGo_none s))
      as (s3 & out3 & Hret3 & Hi3 & Hl3 & Ha3).
    rewrite Hret3 in Hret. injection Hret as <- <-.
    split; [assumption|].
    intros j Hj. destruct (Ha3 j Hj) as (e & He & Hs & Hl). now exists e.
Qed.

Lemma batch_lets_go_of_every_element_it_creates_witness :
  idle (pageAt 0)
  /\ dom (pageAt 0) !! 0%nat = Some (videoAt 0)
  /\ exists s' out,
       generateChapterThumbnailsFromElement 0 (generateEqualChapters 100 5 "Chapter")
         320 180 silent (pageAt 0) = Returned (s', out)
       /\ length (dom s') = 6%nat
       /\ forall j, (1 <= j < 6)%nat ->
            exists e, dom s' !! j = Some e /\ src e = EmptyString /\ listeners e = [].
Proof.
  split; [exact (pageAt_idle 0)|]. split; [reflexivity|].
  destruct (generateChapterThumbnailsFromElement 0 (generateEqualChapters 100 5 "Chapter")
              320 180 silent (pageAt 0)) as [[s' out] | e |] eqn:E.
  - exists s', out. split; [reflexivity|].
    destruct (proj1 (batch_lets_go_of_every_element_it_creates 0 "/test-video.mp4"
                       (generateEqualChapters 100 5 "Chapter") 320 180 silent (pageAt 0)
                       (videoAt 0) (pageAt_idle 0) eq_refl) s' out E)
      as (Hlen & Hgone).
    split; [exact Hlen|].
    intros j Hj. apply Hgone. rewrite Hlen. exact Hj.
  - vm_compute in E. discriminate.
  - vm_compute in E. discriminate.
Defined.

(** ** [getVideoDuration] *)

Module MetadataFacts.
Import Metadata.

(** The two listeners of a call. *)
Definition twoListeners : list Listener :=
  [ mkListener ev_loadedmetadata onLoadedMetadata false;
    mkListener ev_error onError false ].

(** An action that gives something back: a listener or a timer. *)
Definition gives_back (a : Action) : bool :=
  match a with
  | RemoveEventListener _ _ _ | ClearTimeout _ => true
  | _ => false
  end.

(** The ways in which the promise can end. *)
Definition endOfCall (message : string) (o : Settlement) : Prop :=
  match o with
  | Fulfilled _ => True
  | Broken msg =>
      msg = ("Failed to load video: " ++ or_string message "Unknown error")%string
      \/ msg = "Timeout while loading video metadata"%string
  end.

Section Call.
Variables (videoUrl message : string) (s : State).
Hypothesis s_idle : idle s.

Definition video : nat := length (dom s).
Definition theTimeout : Timer := mkTimer (nextTimerId s) (clock s + 10000)%N cbTimeout.

(** What holds of a call in flight, whatever the decoder does. *)
Record InFlight (r : Run) : Prop := mkInFlight {
  f_range : (video < length (dom (platform r)))%nat;
  f_frame : forall j, (j < video)%nat -> dom (platform r) !! j = dom s !! j;
  f_listeners : listeners (element video (platform r)) = twoListeners;
  f_timers :
    (timers (platform r) = [theTimeout] /\ (clock (platform r) < clock s + 10000)%N)
    \/ (timers (platform r) = [] /\ (clock s + 10000 <= clock (platform r))%N
        /\ promise r <> None);
  f_log : count gives_back (log (platform r)) = count gives_back (log s);
  f_promise : match promise r with Some o => endOfCall message o | None => True end
}.

Lemma start_InFlight : InFlight (snd (start videoUrl s)).
Proof.
  destruct s_idle as [Ht Hn]. unfold start. simpl.
  constructor; simpl.
  - rewrite !length_alter, length_app. simpl. unfold video. lia.
  - intros j Hj. unfold video in Hj.
    rewrite !list_lookup_alter_ne by lia. now apply lookup_app_l.
  - unfold element. simpl. rewrite !alter_last. unfold video.
    rewrite lookup_app_r by lia. rewrite Nat.sub_diag. reflexivity.
  - left. rewrite Ht. split; [reflexivity | lia].
  - rewrite !count_app. unfold count. simpl. lia.
  - exact I.
Qed.

Lemma settleWith_platform (o : Settlement) (r : Run) :
  platform (settleWith o r) = platform r.
Proof. unfold settleWith. now destruct (promise r). Qed.

Lemma settleWith_promise (o : Settlement) (r : Run) :
  promise (settleWith o r) = match promise r with Some x => Some x | None => Some o end.
Proof. unfold settleWith. destruct (promise r) eqn:E; [exact E | reflexivity]. Qed.

Lemma InFlight_settle (o : Settlement) (r : Run) :
  endOfCall message o -> InFlight r -> InFlight (settleWith o r).
Proof.
  intros Ho []. constructor; rewrite ?settleWith_platform; try assumption.
  - destruct f_timers0 as [H | (H1 & H2 & H3)]; [now left|].
    right. split; [assumption|]. split; [assumption|].
    rewrite settleWith_promise. destruct (promise r); discriminate.
  - rewrite settleWith_promise. destruct (promise r); assumption.
Qed.

Lemma InFlight_handleLoadedMetadata (r : Run) :
  InFlight r -> InFlight (handleLoadedMetadata video r).
Proof.
  intros HI. unfold handleLoadedMetadata. apply InFlight_settle; [exact I|].
  destruct HI. constructor; simpl; try assumption.
  - now rewrite !length_alter.
  - intros j Hj. rewrite !list_lookup_alter_ne by lia. auto.
  - unfold element in *. simpl. rewrite !list_lookup_alter_eq.
    destruct (dom (platform r) !! video); simpl in *; assumption.
  - rewrite !count_app. unfold count at 2 3. simpl. lia.
Qed.

Lemma InFlight_handleError (r : Run) : InFlight r -> InFlight (handleError message r).
Proof. intros HI. unfold handleError. apply InFlight_settle; [now left | assumption]. Qed.

(** With the two listeners in place, a dispatch runs the one for its event. *)
Lemma dispatch_known (ev : EventType) (r : Run) :
  listeners (element video (platform r)) = twoListeners ->
  dispatch video message ev r
  = match ev with
    | ev_loadedmetadata => handleLoadedMetadata video r
    | ev_error => handleError message r
    | _ => r
    end.
Proof.
  intros H. unfold dispatch. rewrite H.
  destruct ev; simpl; try reflexivity; unfold deliver, registered; rewrite H; reflexivity.
Qed.

Lemma InFlight_dispatch (ev : EventType) (r : Run) :
  InFlight r -> InFlight (dispatch video message ev r).
Proof.
  intros HI. rewrite (dispatch_known ev r (f_listeners r HI)).
  destruct ev; auto using InFlight_handleLoadedMetadata, InFlight_handleError.
Qed.

Lemma InFlight_decoder (d : DecoderState) (r : Run) :
  InFlight r -> InFlight (on (update_element video (set_decoder d)) r).
Proof.
  intros []. constructor; simpl; try assumption.
  - now rewrite length_alter.
  - intros j Hj. rewrite list_lookup_alter_ne by lia. auto.
  - unfold element in *. simpl. rewrite list_lookup_alter_eq.
    destruct (dom (platform r) !! video); simpl in *; assumption.
Qed.

Lemma InFlight_fire_next (r : Run) :
  InFlight r -> timers (platform r) = [theTimeout] ->
  InFlight (fire_next theTimeout [] r)
  /\ timers (platform (fire_next theTimeout [] r)) = [].
Proof.
  intros HI Ht. unfold fire_next, fire, timeout. simpl.
  set (r1 := on _ r).
  assert (Hs : promise (settleWith (Broken "Timeout while loading video metadata") r1) <> None).
  { rewrite settleWith_promise. destruct (promise r1); discriminate. }
  split; [| now rewrite settleWith_platform].
  destruct HI. constructor; rewrite ?settleWith_platform; simpl; try assumption.
  - right. split; [reflexivity|]. split; [lia | exact Hs].
  - rewrite settleWith_promise. simpl. destruct (promise r); [assumption | now right].
Qed.

Lemma InFlight_clock (k : N) (r : Run) :
  InFlight r ->
  (timers (platform r) = [theTimeout] -> (k < clock s + 10000)%N) ->
  InFlight (on (fun s0 => set_clock (N.max (clock s0) k) s0) r).
Proof.
  intros [] Hk. constructor; simpl; try assumption.
  destruct f_timers0 as [[H1 H2] | (H1 & H2 & H3)].
  - left. split; [assumption|]. specialize (Hk H1). lia.
  - right. split; [assumption|]. split; [lia | assumption].
Qed.

Lemma advance_known (target : N) (r : Run) :
  InFlight r ->
  advance target r
  = on (fun s0 => set_clock (N.max (clock s0) target) s0)
      (match timers (platform r) with
       | [] => r
       | _ :: _ => if (clock s + 10000 <=? target)%N
                   then fire_next theTimeout [] r else r
       end).
Proof.
  intros HI. unfold advance.
  destruct (f_timers r HI) as [[Ht _] | (Ht & _)]; rewrite !Ht; simpl; rewrite ?Ht.
  - change (deadline theTimeout) with (clock s + 10000)%N.
    destruct (clock s + 10000 <=? target)%N; reflexivity.
  - reflexivity.
Qed.

Lemma InFlight_advance (target : N) (r : Run) :
  InFlight r -> InFlight (advance target r).
Proof.
  intros HI. rewrite (advance_known target r HI).
  destruct (f_timers r HI) as [[Ht Hc] | (Ht & Hc & Hp)]; rewrite Ht.
  - destruct (clock s + 10000 <=? target)%N eqn:E.
    + destruct (InFlight_fire_next r HI Ht) as [H1 H2].
      apply InFlight_clock; [assumption|]. rewrite H2. discriminate.
    + apply N.leb_gt in E. apply InFlight_clock; [assumption | intros _; exact E].
  - apply InFlight_clock; [assumption|]. rewrite Ht. discriminate.
Qed.

Lemma InFlight_step (e : Event) (r : Run) :
  InFlight r -> InFlight (step video message r e).
Proof.
  destruct e; simpl; auto using InFlight_advance, InFlight_decoder, InFlight_dispatch.
Qed.

Lemma InFlight_script (script : list Event) (r : Run) :
  InFlight r -> InFlight (fold_left (step video message) script r).
Proof.
  revert r. induction script as [| e script IH]; intros r HI; simpl; [assumption|].
  apply IH, InFlight_step, HI.
Qed.

Lemma InFlight_inFlight (script : list Event) :
  InFlight (inFlight videoUrl message script s).
Proof.
  unfold inFlight.
  change (start videoUrl s) with (video, snd (start videoUrl s)).
  apply InFlight_script, start_InFlight.
Qed.

Lemma drain_known (r : Run) :
  InFlight r ->
  drain r = match timers (platform r) with
            | [] => r
            | _ :: _ => fire_next theTimeout [] r
            end.
Proof.
  intros HI. unfold drain.
  destruct (f_timers r HI) as [[Ht _] | (Ht & _)]; rewrite !Ht; simpl; rewrite ?Ht;
    reflexivity.
Qed.

Lemma InFlight_drain (r : Run) :
  InFlight r -> InFlight (drain r) /\ timers (platform (drain r)) = [].
Proof.
  intros HI. rewrite (drain_known r HI).
  destruct (f_timers r HI) as [[Ht Hc] | (Ht & Hc & Hp)]; rewrite Ht.
  - now apply InFlight_fire_next.
  - split; assumption.
Qed.

(** A settled promise stays as it is. *)
Lemma settleWith_settled (o x : Settlement) (r : Run) :
  promise r = Some x -> promise (settleWith o r) = Some x.
Proof. intros H. rewrite settleWith_promise, H. reflexivity. Qed.

Lemma step_settled (e : Event) (x : Settlement) (r : Run) :
  InFlight r -> promise r = Some x -> promise (step video message r e) = Some x.
Proof.
  intros HI Hp. destruct e as [ms | d | ev]; cbn [step].
  - rewrite (advance_known _ r HI). simpl.
    destruct (timers (platform r)); [assumption|].
    destruct (_ <=? _)%N; [| assumption].
    unfold fire_next, fire, timeout. simpl. now apply settleWith_settled.
  - assumption.
  - rewrite (dispatch_known ev r (f_listeners r HI)).
    destruct ev; try assumption.
    + unfold handleLoadedMetadata. now apply settleWith_settled.
    + unfold handleError. now apply settleWith_settled.
Qed.

Lemma script_settled (script : list Event) (x : Settlement) (r : Run) :
  InFlight r -> promise r = Some x ->
  promise (fold_left (step video message) script r) = Some x.
Proof.
  revert r. induction script as [| e script IH]; intros r HI Hp; simpl; [assumption|].
  apply IH; [now apply InFlight_step | now apply step_settled].
Qed.

Lemma drain_settled (x : Settlement) (r : Run) :
  InFlight r -> promise r = Some x -> promise (drain r) = Some x.
Proof.
  intros HI Hp. rewrite (drain_known r HI).
  destruct (timers (platform r)); [assumption|].
  unfold fire_next, fire, timeout. simpl. now apply settleWith_settled.
Qed.

(** While no [loadedmetadata] event arrives, the element keeps its source
    and the promise is not fulfilled. *)
Definition no_metadata (e : Event) : bool :=
  match e with
  | Fire ev_loadedmetadata => false
  | _ => true
  end.

Definition Attached (r : Run) : Prop :=
  src (element video (platform r)) = videoUrl
  /\ forall d, promise r <> Some (Fulfilled d).

Lemma Attached_settle (msg : string) (r : Run) :
  Attached r -> Attached (settleWith (Broken msg) r).
Proof.
  intros [H1 H2]. split.
  - now rewrite settleWith_platform.
  - intros d. rewrite settleWith_promise. destruct (promise r) eqn:E.
    + apply H2.
    + discriminate.
Qed.

Lemma Attached_step (e : Event) (r : Run) :
  InFlight r -> no_metadata e = true -> Attached r ->
  Attached (step video message r e).
Proof.
  intros HI He HA. destruct e as [ms | d | ev]; cbn [step].
  - rewrite (advance_known _ r HI).
    assert (Hc : forall k r', Attached r' ->
               Attached (on (fun s0 => set_clock (N.max (clock s0) k) s0) r')).
    { intros k r' [H1 H2]. split; assumption. }
    apply Hc. destruct (timers (platform r)); [assumption|].
    destruct (_ <=? _)%N; [| assumption].
    unfold fire_next, fire, timeout. simpl. apply Attached_settle.
    destruct HA as [H1 H2]. split; assumption.
  - destruct HA as [H1 H2]. split; [| assumption].
    unfold element in *. simpl. rewrite list_lookup_alter_eq.
    destruct (dom (platform r) !! video); simpl in *; assumption.
  - rewrite (dispatch_known ev r (f_listeners r HI)).
    destruct ev; try assumption; try discriminate.
    unfold handleError. now apply Attached_settle.
Qed.

Lemma Attached_script (script : list Event) (r : Run) :
  InFlight r -> forallb no_metadata script = true -> Attached r ->
  Attached (fold_left (step video message) script r).
Proof.
  revert r. induction script as [| e script IH]; intros r HI Hs HA; simpl; [assumption|].
  simpl in Hs. apply andb_true_iff in Hs as [He Hs].
  apply IH; [now apply InFlight_step | assumption | now apply Attached_step].
Qed.

Lemma Attached_start : Attached (snd (start videoUrl s)).
Proof.
  unfold start. simpl. split; [| discriminate].
  unfold element. simpl. rewrite !alter_last. unfold video.
  rewrite lookup_app_r by lia. rewrite Nat.sub_diag. reflexivity.
Qed.

Lemma Attached_drain (r : Run) : InFlight r -> Attached r -> Attached (drain r).
Proof.
  intros HI HA. rewrite (drain_known r HI).
  destruct (timers (platform r)); [assumption|].
  unfold fire_next, fire, timeout. simpl. apply Attached_settle.
  destruct HA as [H1 H2]. split; assumption.
Qed.

End Call.
End MetadataFacts.

Section GetVideoDuration.
Import MetadataFacts.

(** X19. [getVideoDuration] settles exactly once, and at the latest ten
    seconds after the call: once the clock has reached the deadline the
    promise is settled, and when the loop has run dry it is fulfilled, or
    rejected with one of the two messages of the code. The first of the
    three events decides: a settled promise keeps its outcome whatever
    follows; while it is unsettled, a [loadedmetadata] event fulfils it
    with the duration that the decoder shows at that moment (a number or
    NaN, unchecked), an [error] event rejects it with the message of the
    event or "Unknown error", and with neither the timer rejects it. *)
Theorem getVideoDuration_first_event_decides
    (videoUrl message : string) (script : list Event) (s : State) :
  idle s ->
  let r := Metadata.inFlight videoUrl message script s in
  let final := getVideoDuration videoUrl message script s in
  ((clock s + 10000 <= clock (Metadata.platform r))%N -> Metadata.promise r <> None)
  /\ (exists o, Metadata.promise final = Some o /\ endOfCall message o)
  /\ (forall o, Metadata.promise r = Some o ->
        Metadata.promise final = Some o
        /\ forall more,
             Metadata.promise (getVideoDuration videoUrl message (script ++ more) s)
             = Some o)
  /\ (Metadata.promise r = None ->
        Metadata.promise final
        = Some (Metadata.Broken "Timeout while loading video metadata")
        /\ (forall d rest,
              Metadata.promise
                (getVideoDuration videoUrl message
                   (script ++ Decoder d :: Fire ev_loadedmetadata :: rest) s)
              = Some (Metadata.Fulfilled (d_duration d)))
        /\ (forall rest,
              Metadata.promise
                (getVideoDuration videoUrl message (script ++ Fire ev_error :: rest) s)
              = Some (Metadata.Broken
                        ("Failed to load video: "
                         ++ or_string message "Unknown error")))).
Proof.
  intros Hidle r final.
  pose proof (InFlight_inFlight videoUrl message s Hidle script) as HI. fold r in HI.
  assert (HFD : InFlight message s final /\ timers (Metadata.platform final) = [])
    by exact (InFlight_drain message s r HI).
  destruct HFD as [HF Hdry].
  assert (Hcont : forall more,
            Metadata.inFlight videoUrl message (script ++ more) s
            = fold_left (Metadata.step (video s) message) more r).
  { intros more. unfold r, Metadata.inFlight.
    change (Metadata.start videoUrl s)
      with (video s, snd (Metadata.start videoUrl s)).
    cbv beta iota. now rewrite fold_left_app. }
  assert (Hstands : forall o more r', InFlight message s r' ->
            Metadata.promise r' = Some o ->
            Metadata.promise
              (Metadata.drain (fold_left (Metadata.step (video s) message) more r'))
            = Some o).
  { intros o more r' HI' Hp.
    apply (drain_settled message s); [now apply InFlight_script|].
    now apply (script_settled message s). }
  split; [| split; [| split]].
  - intros Hc. destruct (f_timers message s r HI) as [[_ H] | (_ & _ & H)];
      [lia | exact H].
  - destruct (f_timers message s final HF) as [[H _] | (_ & _ & H)].
    + rewrite Hdry in H. discriminate.
    + pose proof (f_promise message s final HF) as Ho.
      destruct (Metadata.promise final) as [o|]; [| congruence]. now exists o.
  - intros o Hp. split.
    + now apply (drain_settled message s).
    + intros more. unfold getVideoDuration. rewrite Hcont. now apply Hstands.
  - intros Hp. split; [| split].
    + unfold final, getVideoDuration. fold r. rewrite (drain_known message s r HI).
      destruct (f_timers message s r HI) as [[Ht _] | (_ & _ & H)]; [| congruence].
      rewrite Ht. unfold Metadata.fire_next, Metadata.fire, Metadata.timeout. simpl.
      rewrite settleWith_promise. simpl. now rewrite Hp.
    + intros d rest. unfold getVideoDuration. rewrite Hcont.
      cbn [fold_left Metadata.step].
      set (r1 := Metadata.on _ r).
      assert (H1 : InFlight message s r1) by now apply InFlight_decoder.
      rewrite (dispatch_known message s ev_loadedmetadata r1
                 (f_listeners message s r1 H1)).
      apply Hstands; [now apply InFlight_handleLoadedMetadata|].
      unfold Metadata.handleLoadedMetadata. rewrite settleWith_promise. simpl.
      rewrite Hp. do 2 f_equal.
      unfold element. simpl. rewrite list_lookup_alter_eq.
      pose proof (f_range message s r HI) as Hr.
      destruct (lookup_lt_is_Some_2 _ _ Hr) as [v Hv]. now rewrite Hv.
    + intros rest. unfold getVideoDuration. rewrite Hcont.
      cbn [fold_left Metadata.step].
      rewrite (dispatch_known message s ev_error r (f_listeners message s r HI)).
      apply Hstands; [now apply InFlight_handleError|].
      unfold Metadata.handleError. rewrite settleWith_promise. now rewrite Hp.
Qed.

Lemma getVideoDuration_first_event_decides_witness :
  idle (pageAt 0)
  /\ exists o,
       Metadata.promise
         (getVideoDuration "/test-video.mp4" "" [decoded 100 0 1 ""; Fire ev_loadedmetadata]
            (pageAt 0)) = Some o
       /\ endOfCall "" o.
Proof.
  split; [exact (pageAt_idle 0)|].
  exact (proj1 (proj2 (getVideoDuration_first_event_decides "/test-video.mp4" ""
                         [decoded 100 0 1 ""; Fire ev_loadedmetadata] (pageAt 0)
                         (pageAt_idle 0)))).
Defined.

(** X20. [getVideoDuration] gives nothing back. Its two listeners stay on
    its element and it never clears its timer: the 10 s timer stays
    pending until it is due, also after the promise is settled. The
    element is reset only by the [loadedmetadata] listener: when that
    event never arrives the promise is rejected and the element still
    points at the video. *)
Theorem getVideoDuration_gives_nothing_back
    (videoUrl message : string) (script : list Event) (s : State) :
  idle s ->
  let video := length (dom s) in
  let r := Metadata.inFlight videoUrl message script s in
  let final := getVideoDuration videoUrl message script s in
  listeners (element video (Metadata.platform r)) = twoListeners
  /\ listeners (element video (Metadata.platform final)) = twoListeners
  /\ count gives_back (log (Metadata.platform final)) = count gives_back (log s)
  /\ ((clock (Metadata.platform r) < clock s + 10000)%N ->
        timers (Metadata.platform r)
        = [mkTimer (nextTimerId s) (clock s + 10000)%N cbTimeout])
  /\ (forallb no_metadata script = true ->
        src (element video (Metadata.platform final)) = videoUrl
        /\ exists msg, Metadata.promise final = Some (Metadata.Broken msg)).
Proof.
  intros Hidle video0 r final.
  pose proof (InFlight_inFlight videoUrl message s Hidle script) as HI. fold r in HI.
  assert (HFD : InFlight message s final /\ timers (Metadata.platform final) = [])
    by exact (InFlight_drain message s r HI).
  destruct HFD as [HF Hdry].
  split; [exact (f_listeners message s r HI)|].
  split; [exact (f_listeners message s final HF)|].
  split; [exact (f_log message s final HF)|].
  split.
  - intros Hc. destruct (f_timers message s r HI) as [[H _] | (_ & H & _)];
      [exact H | lia].
  - intros Hs.
    assert (HA : Attached videoUrl s final).
    { apply (Attached_drain videoUrl message s); [exact HI|].
      unfold r, Metadata.inFlight.
      change (Metadata.start videoUrl s)
        with (video s, snd (Metadata.start videoUrl s)).
      cbv beta iota. apply Attached_script; [now apply start_InFlight | exact Hs |].
      apply Attached_start. }
    destruct HA as [H1 H2]. split; [exact H1|].
    destruct (f_timers message s final HF) as [[H _] | (_ & _ & H)].
    + rewrite Hdry in H. discriminate.
    + destruct (Metadata.promise final) as [[d | msg]|] eqn:E.
      * now destruct (H2 d).
      * now exists msg.
      * congruence.
Qed.

Lemma getVideoDuration_gives_nothing_back_witness :
  idle (pageAt 0)
  /\ listeners
       (element 1 (Metadata.platform
                     (getVideoDuration "/test-video.mp4" ""
                        [decoded 100 0 1 ""; Fire ev_loadedmetadata] (pageAt 0))))
     = twoListeners.
Proof.
  split; [exact (pageAt_idle 0)|].
  exact (proj1 (proj2 (getVideoDuration_gives_nothing_back "/test-video.mp4" ""
                         [decoded 100 0 1 ""; Fire ev_loadedmetadata] (pageAt 0)
                         (pageAt_idle 0)))).
Defined.

(** The durations that a call reports. *)
Example getVideoDuration_examples :
  Metadata.promise
    (getVideoDuration "/test-video.mp4" "" [decoded 100 0 1 ""; Fire ev_loadedmetadata]
       (pageAt 0)) = Some (Metadata.Fulfilled (Num 100))
  /\ Metadata.promise
       (getVideoDuration "/test-video.mp4" "" [Fire ev_loadedmetadata] (pageAt 0))
     = Some (Metadata.Fulfilled NaN)
  /\ Metadata.promise (getVideoDuration "/test-video.mp4" "" [Fire ev_error] (pageAt 0))
     = Some (Metadata.Broken "Failed to load video: Unknown error")
  /\ Metadata.promise (getVideoDuration "/test-video.mp4" "" [] (pageAt 0))
     = Some (Metadata.Broken "Timeout while loading video metadata").
Proof. repeat split; reflexivity. Qed.

End GetVideoDuration.

(** ** Where the picture of a capture comes from *)

(** The timers that lead to a drawing. *)
Definition capturing (cb : Callback) : bool :=
  match cb with
  | cbCaptureAfterSeeked | cbRetryCapture => true
  | _ => false
  end.

Lemma element_update_cases (i : nat) (f : HTMLVideoElement -> HTMLVideoElement)
    (s : State) :
  element i (update_element i f s) = f (element i s)
  \/ element i (update_element i f s) = element i s.
Proof.
  unfold element, update_element. simpl. rewrite list_lookup_alter_eq.
  destruct (dom s !! i); simpl; auto.
Qed.

Lemma same_type_eq (ev : EventType) (l : Listener) :
  same_type ev l = true -> l_type l = ev.
Proof. unfold same_type. destruct ev, (l_type l); simpl; congruence. Qed.

Section Pictures.
Variable id : nat.                       (* the element of the capture *)
Variable H : DecoderState -> Prop.       (* what the decoder reports *)
Variable K : Prop.                       (* a [seeked] event occurs *)

(** The element shows nothing, or what the decoder reported. *)
Definition showsDecoded (v : HTMLVideoElement) : Prop :=
  frame v = None
  \/ exists d, H d /\ frame v = d_frame d /\ readyState v = d_readyState d.

(** A picture that the decoder reported when it had a frame. *)
Definition fromDecoder (pic : string) : Prop :=
  exists d, H d /\ d_frame d = Some pic /\ (2 <= d_readyState d)%nat.

Record Sourced (s : State) : Prop := mkSourced {
  so_typed : forallb capture_listener (listeners (element id s)) = true;
  so_shown : showsDecoded (element id s);
  so_timers : Forall (fun t => capturing (callback t) = true -> K) (timers s);
  so_settled : forall pic, settled s = Some (Resolved pic) -> K /\ fromDecoder pic
}.

(** The events of a script that is in line with [H] and [K]. *)
Definition known (e : Event) : Prop :=
  match e with
  | Decoder d => H d
  | Fire ev_seeked => K
  | _ => True
  end.

Lemma Sourced_emit (a : Action) (s : State) : Sourced s -> Sourced (emit a s).
Proof. intros []. constructor; assumption. Qed.

Lemma Sourced_set_resolved (b : bool) (s : State) :
  Sourced s -> Sourced (set_resolved b s).
Proof. intros []. constructor; assumption. Qed.

Lemma Sourced_set_clock (k : N) (s : State) : Sourced s -> Sourced (set_clock k s).
Proof. intros []. constructor; assumption. Qed.

Lemma Sourced_update (f : HTMLVideoElement -> HTMLVideoElement) (s : State) :
  (forall v, forallb capture_listener (listeners v) = true ->
             forallb capture_listener (listeners (f v)) = true) ->
  (forall v, showsDecoded v -> showsDecoded (f v)) ->
  Sourced s -> Sourced (update_element id f s).
Proof.
  intros Hl Hf []. constructor; try assumption.
  - destruct (element_update_cases id f s) as [-> | ->]; auto.
  - destruct (element_update_cases id f s) as [-> | ->]; auto.
Qed.

Lemma Sourced_timers (ts : list Timer) (s : State) :
  Forall (fun t => capturing (callback t) = true -> K) ts ->
  Sourced s -> Sourced (set_timers ts s).
Proof. intros Hts []. constructor; assumption. Qed.

Lemma Sourced_setTimeout (cb : Callback) (ms : N) (s : State) :
  (capturing cb = true -> K) -> Sourced s -> Sourced (snd (setTimeout cb ms s)).
Proof.
  intros Hcb HS. unfold setTimeout. simpl. apply Sourced_emit.
  destruct HS. constructor; simpl; try assumption.
  apply Forall_insert_timer; assumption.
Qed.

Lemma Sourced_clearTimeout (tid : nat) (s : State) :
  Sourced s -> Sourced (clearTimeout tid s).
Proof.
  intros HS. unfold clearTimeout. apply Sourced_emit, Sourced_timers; [|assumption].
  apply Forall_filter_keep, (so_timers s HS).
Qed.

Lemma Sourced_setCurrentTime (t : num) (s : State) :
  Sourced s -> Sourced (setCurrentTime id t s).
Proof.
  intros HS. unfold setCurrentTime. destruct t as [|q]; [assumption|].
  apply Sourced_emit, Sourced_update; auto.
Qed.

Lemma Sourced_removeEventListener (ev : EventType) (h : Handler) (s : State) :
  Sourced s -> Sourced (removeEventListener id ev h s).
Proof.
  intros HS. unfold removeEventListener. apply Sourced_emit, Sourced_update; auto.
  intros v Hv. simpl. now apply forallb_filter_keep.
Qed.

Lemma Sourced_setSrc (url : string) (s : State) : Sourced s -> Sourced (setSrc id url s).
Proof. intros HS. unfold setSrc. apply Sourced_emit, Sourced_update; auto. Qed.

Lemma Sourced_load (s : State) : Sourced s -> Sourced (load id s).
Proof.
  intros HS. unfold load. apply Sourced_emit, Sourced_update; auto.
  intros v _. now left.
Qed.

Lemma Sourced_decoder (d : DecoderState) (s : State) :
  H d -> Sourced s -> Sourced (update_element id (set_decoder d) s).
Proof.
  intros Hd HS. apply Sourced_update; auto.
  intros v _. right. exists d. repeat split. assumption.
Qed.

Lemma Sourced_reject (msg : string) (s : State) :
  Sourced s -> Sourced (settle (Rejected msg) s).
Proof.
  intros [].
  destruct (settle_fields (Rejected msg) s) as (Hd & _ & Ht & _ & _ & _ & Hs).
  constructor.
  - now rewrite element_settle.
  - now rewrite element_settle.
  - now rewrite Ht.
  - intros pic. rewrite Hs. destruct (settled s) eqn:E; [|discriminate]. auto.
Qed.

Lemma Sourced_resolve (pic : string) (s : State) :
  K -> fromDecoder pic -> Sourced s -> Sourced (settle (Resolved pic) s).
Proof.
  intros HK Hpic [].
  destruct (settle_fields (Resolved pic) s) as (Hd & _ & Ht & _ & _ & _ & Hs).
  constructor.
  - now rewrite element_settle.
  - now rewrite element_settle.
  - now rewrite Ht.
  - intros p. rewrite Hs. destruct (settled s) eqn:E; [auto|].
    intros [= <-]. now split.
Qed.

(** A drawing of an element that has a frame gives a decoded picture. *)
Lemma Sourced_drawn (s : State) (pic : string) :
  Sourced s ->
  (2 <=? readyState (element id s))%nat = true ->
  frame (element id s) = Some pic ->
  fromDecoder pic.
Proof.
  intros HS Hr Hf. destruct (so_shown s HS) as [Hn | (d & Hd & Hfd & Hrd)].
  - congruence.
  - exists d. split; [assumption|]. split; [congruence|].
    apply Nat.leb_le in Hr. lia.
Qed.

(** *** The event loop *)

Variable P : Program.
Hypothesis P_invoke : forall l s,
  capture_listener l = true -> (l_type l = ev_seeked -> K) ->
  Sourced s -> Sourced (invoke P (l_handler l) s).
Hypothesis P_fire : forall cb s,
  (capturing cb = true -> K) -> Sourced s -> Sourced (fire P cb s).

Lemma Sourced_deliver (l : Listener) (s : State) :
  capture_listener l = true -> (l_type l = ev_seeked -> K) ->
  Sourced s -> Sourced (deliver P id s l).
Proof.
  intros Hl HK HS. unfold deliver.
  destruct (registered l (element id s)); [|assumption].
  apply P_invoke; [assumption | assumption |].
  destruct (l_once l); [|assumption].
  apply Sourced_update; auto.
  intros v Hv. simpl. now apply forallb_filter_keep.
Qed.

Lemma Sourced_dispatch (ev : EventType) (s : State) :
  known (Fire ev) -> Sourced s -> Sourced (dispatch P id ev s).
Proof.
  intros Hev HS. unfold dispatch.
  set (ls := List.filter (same_type ev) (listeners (element id s))).
  assert (Hls : Forall (fun l => capture_listener l = true /\ l_type l = ev) ls).
  { apply List.Forall_forall. intros l Hl. apply filter_In in Hl as [Hin Hty].
    split; [| now apply same_type_eq].
    pose proof (so_typed s HS) as Hall. rewrite forallb_forall in Hall. auto. }
  clearbody ls. revert s HS.
  induction Hls as [|l ls [Hl Hty] _ IH]; intros s HS; simpl; [assumption|].
  apply IH. apply Sourced_deliver; [assumption | | assumption].
  intros Hs. rewrite <- Hty, Hs in Hev. exact Hev.
Qed.

Lemma Sourced_fire_next (t : Timer) (rest : list Timer) (s : State) :
  Sourced s -> timers s = t :: rest -> Sourced (fire_next P t rest s).
Proof.
  intros HS Ht. unfold fire_next.
  pose proof (so_timers s HS) as Hall. rewrite Ht in Hall.
  apply P_fire; [exact (Forall_inv Hall)|].
  apply Sourced_set_clock, Sourced_timers; [exact (Forall_inv_tail Hall) | assumption].
Qed.

Lemma Sourced_advance_loop (fuel : nat) (target : N) (s : State) :
  Sourced s -> Sourced (advance_loop P fuel target s).
Proof.
  revert s. induction fuel as [|fuel IH]; intros s HS; simpl; [assumption|].
  destruct (timers s) as [|t rest] eqn:Ht; [assumption|].
  destruct (deadline t <=? target)%N; [|assumption].
  apply IH. now apply Sourced_fire_next.
Qed.

Lemma Sourced_drain_loop (fuel : nat) (s : State) :
  Sourced s -> Sourced (drain_loop P fuel s).
Proof.
  revert s. induction fuel as [|fuel IH]; intros s HS; simpl; [assumption|].
  destruct (timers s) as [|t rest] eqn:Ht; [assumption|].
  apply IH. now apply Sourced_fire_next.
Qed.

Lemma Sourced_run (script : list Event) (s : State) :
  Forall known script -> Sourced s -> Sourced (run P id script s).
Proof.
  unfold run. intros Hk. revert s.
  induction Hk as [|e script He _ IH]; intros s HS; simpl; [assumption|].
  apply IH. destruct e as [ms | d | ev]; simpl.
  - unfold advance. apply Sourced_set_clock. now apply Sourced_advance_loop.
  - now apply Sourced_decoder.
  - now apply Sourced_dispatch.
Qed.

Lemma Sourced_drain (s : State) : Sourced s -> Sourced (drain P s).
Proof. apply Sourced_drain_loop. Qed.

End Pictures.

(** *** The two capture functions *)

Section ElementPictures.
Variables (c : Closure) (H : DecoderState -> Prop) (K : Prop).

Lemma el_cleanup_sourced (s : State) :
  Sourced (thumbVideo c) H K s -> Sourced (thumbVideo c) H K (FromElement.cleanup c s).
Proof.
  intros HS. unfold FromElement.cleanup.
  apply Sourced_load, Sourced_setSrc.
  do 4 apply Sourced_removeEventListener.
  destruct (timeoutId c) as [tid|]; [|assumption].
  destruct (tid =? 0)%nat; [assumption|]. now apply Sourced_clearTimeout.
Qed.

Lemma el_reject_sourced (msg : string) (s : State) :
  Sourced (thumbVideo c) H K s ->
  Sourced (thumbVideo c) H K (FromElement.finish c (Rejected msg) s).
Proof.
  intros HS. unfold FromElement.finish.
  now apply Sourced_reject, el_cleanup_sourced, Sourced_set_resolved.
Qed.

Lemma el_drawAndFinish_sourced (s : State) :
  K -> (2 <=? readyState (element (thumbVideo c) s))%nat = true ->
  Sourced (thumbVideo c) H K s ->
  Sourced (thumbVideo c) H K (FromElement.drawAndFinish c s).
Proof.
  intros HK Hr HS. unfold FromElement.drawAndFinish, drawFrame.
  destruct (frame (element (thumbVideo c) s)) as [pic|] eqn:Hf.
  - unfold FromElement.finish.
    apply Sourced_resolve; [assumption | now apply (Sourced_drawn (thumbVideo c) H K s) |].
    now apply el_cleanup_sourced, Sourced_set_resolved, Sourced_emit.
  - destruct (resolved _); [now apply Sourced_emit|].
    now apply el_reject_sourced, Sourced_emit.
Qed.

Lemma el_seekThumb_sourced (s : State) :
  Sourced (thumbVideo c) H K s -> Sourced (thumbVideo c) H K (FromElement.seekThumb c s).
Proof. intros HS. unfold FromElement.seekThumb. now apply Sourced_setCurrentTime. Qed.

Lemma el_invoke_sourced (l : Listener) (s : State) :
  capture_listener l = true -> (l_type l = ev_seeked -> K) ->
  Sourced (thumbVideo c) H K s ->
  Sourced (thumbVideo c) H K (invoke (FromElement.program c) (l_handler l) s).
Proof.
  intros Hl HK HS. destruct l as [ty h once]. simpl in *.
  unfold capture_listener, same_listener in Hl. simpl in Hl.
  destruct ty, h; simpl in Hl; try discriminate; simpl.
  - unfold FromElement.handleLoadedMetadata.
    apply Sourced_setTimeout; [discriminate | assumption].
  - unfold FromElement.handleCanPlay.
    destruct (_ && _); [now apply el_seekThumb_sourced | assumption].
  - unfold FromElement.handleSeeked. destruct (resolved s); [assumption|].
    apply Sourced_setTimeout; auto.
  - unfold FromElement.handleError. destruct (negb (resolved s)); [|assumption].
    now apply Sourced_reject, el_cleanup_sourced, Sourced_set_resolved.
Qed.

Lemma el_fire_sourced (cb : Callback) (s : State) :
  (capturing cb = true -> K) ->
  Sourced (thumbVideo c) H K s ->
  Sourced (thumbVideo c) H K (fire (FromElement.program c) cb s).
Proof.
  intros HK HS. destruct cb; simpl in *.
  - unfold FromElement.timeout. destruct (negb (resolved s)); [|assumption].
    now apply el_reject_sourced.
  - unfold FromElement.seekAfterMetadata.
    destruct (_ && _); [now apply el_seekThumb_sourced | assumption].
  - unfold FromElement.captureAfterSeeked, FromElement.captureFrame.
    destruct (negb (resolved s)); [|assumption].
    destruct (resolved s); [assumption|].
    destruct (2 <=? readyState (element (thumbVideo c) s))%nat eqn:Hr.
    + apply el_drawAndFinish_sourced; auto.
    + apply Sourced_setTimeout; auto.
  - unfold FromElement.retryCapture.
    destruct (resolved s); cbn [negb andb]; [assumption|].
    destruct (2 <=? readyState (element (thumbVideo c) s))%nat eqn:Hr.
    + apply el_drawAndFinish_sourced; auto.
    + now apply el_reject_sourced.
  - assumption.
Qed.

Lemma url_cleanup_sourced (s : State) :
  Sourced (thumbVideo c) H K s -> Sourced (thumbVideo c) H K (FromUrl.cleanup c s).
Proof.
  intros HS. unfold FromUrl.cleanup.
  do 4 apply Sourced_removeEventListener. now apply Sourced_load, Sourced_setSrc.
Qed.

Lemma url_reject_sourced (msg : string) (s : State) :
  Sourced (thumbVideo c) H K s ->
  Sourced (thumbVideo c) H K (FromUrl.finish c (Rejected msg) s).
Proof.
  intros HS. unfold FromUrl.finish.
  now apply Sourced_reject, url_cleanup_sourced, Sourced_set_resolved.
Qed.

Lemma url_resolve_sourced (s : State) (pic : string) :
  K -> (2 <=? readyState (element (thumbVideo c) s))%nat = true ->
  frame (element (thumbVideo c) s) = Some pic ->
  Sourced (thumbVideo c) H K s ->
  Sourced (thumbVideo c) H K
    (FromUrl.finish c (Resolved pic)
       (emit (DrawImage (thumbVideo c) (width c) (height c)) s)).
Proof.
  intros HK Hr Hf HS. unfold FromUrl.finish.
  apply Sourced_resolve; [assumption | now apply (Sourced_drawn (thumbVideo c) H K s) |].
  now apply url_cleanup_sourced, Sourced_set_resolved, Sourced_emit.
Qed.

Lemma url_seekVideo_sourced (s : State) :
  Sourced (thumbVideo c) H K s -> Sourced (thumbVideo c) H K (FromUrl.seekVideo c s).
Proof. intros HS. unfold FromUrl.seekVideo. now apply Sourced_setCurrentTime. Qed.

Lemma url_invoke_sourced (l : Listener) (s : State) :
  capture_listener l = true -> (l_type l = ev_seeked -> K) ->
  Sourced (thumbVideo c) H K s ->
  Sourced (thumbVideo c) H K (invoke (FromUrl.program c) (l_handler l) s).
Proof.
  intros Hl HK HS. destruct l as [ty h once]. simpl in *.
  unfold capture_listener, same_listener in Hl. simpl in Hl.
  destruct ty, h; simpl in Hl; try discriminate; simpl.
  - now apply url_seekVideo_sourced.
  - unfold FromUrl.handleCanPlay.
    destruct (_ <=? _)%nat; [now apply url_seekVideo_sourced | assumption].
  - unfold FromUrl.handleSeeked, drawFrame. destruct (resolved s); [assumption|].
    destruct (2 <=? readyState (element (thumbVideo c) s))%nat eqn:Hr.
    + destruct (frame (element (thumbVideo c) s)) as [pic|] eqn:Hf.
      * apply url_resolve_sourced; auto.
      * destruct (resolved _); [now apply Sourced_emit|].
        now apply url_reject_sourced, Sourced_emit.
    + apply Sourced_setTimeout; auto.
  - unfold FromUrl.handleError. destruct (negb (resolved s)); [|assumption].
    now apply Sourced_reject, url_cleanup_sourced, Sourced_set_resolved.
Qed.

Lemma url_fire_sourced (cb : Callback) (s : State) :
  (capturing cb = true -> K) ->
  Sourced (thumbVideo c) H K s ->
  Sourced (thumbVideo c) H K (fire (FromUrl.program c) cb s).
Proof.
  intros HK HS. destruct cb; simpl in *; try assumption.
  - unfold FromUrl.timeout. destruct (negb (resolved s)); [|assumption].
    now apply url_reject_sourced.
  - unfold FromUrl.retryCapture, drawFrame.
    destruct (resolved s); cbn [negb andb]; [assumption|].
    destruct (2 <=? readyState (element (thumbVideo c) s))%nat eqn:Hr; [|assumption].
    destruct (frame (element (thumbVideo c) s)) as [pic|] eqn:Hf.
    + apply url_resolve_sourced; auto.
    + now apply Sourced_emit.
Qed.

End ElementPictures.

(** The frames that the script reports when the element has one. *)
Definition reports (script : list Event) (d : DecoderState) : Prop :=
  In (Decoder d) script.

Lemma script_known (script : list Event) :
  Forall (known (reports script) (In (Fire ev_seeked) script)) script.
Proof.
  apply List.Forall_forall. intros e He.
  destruct e as [ms | d | ev]; simpl; [exact I | exact He |].
  destruct ev; try exact I. exact He.
Qed.

(** X21. The picture of a capture comes from the decoder, after a seek:
    a capture is resolved only when its element has signalled [seeked],
    and only with a picture that the decoder of that element has shown
    with a frame available (readyState at least 2). *)
Theorem capture_resolves_with_a_decoded_frame_after_seeked
    (videoElement : nat) (videoUrl : string) (timeSeconds : Q) (w h : nat)
    (script : list Event) (s : State) (pic : string) :
  idle s ->
  (settled (captureVideoFrameFromElement videoElement timeSeconds w h script s)
   = Some (Resolved pic)
   \/ settled (captureVideoFrame videoUrl timeSeconds w h script s)
      = Some (Resolved pic)) ->
  In (Fire ev_seeked) script
  /\ exists d, In (Decoder d) script /\ d_frame d = Some pic
               /\ (2 <= d_readyState d)%nat.
Proof.
  intros [Ht Hnext] Hres.
  set (H := reports script). set (K := In (Fire ev_seeked) script).
  assert (Hstart : forall c s1 x,
            thumbVideo c = length (dom s) -> dom s1 = dom s ++ [x] ->
            forallb capture_listener (listeners x) = true -> frame x = None ->
            timers s1 = [mkTimer (nextTimerId s) (clock s + 10000)%N cbTimeout]
            \/ timers s1 = [mkTimer (nextTimerId s) (clock s + 15000)%N cbTimeout] ->
            settled s1 = None ->
            Sourced (thumbVideo c) H K s1).
  { intros c s1 x Hc Hd Hl Hf Htm Hs. constructor.
    - rewrite Hc, (element_last _ _ _ Hd). exact Hl.
    - left. rewrite Hc, (element_last _ _ _ Hd). exact Hf.
    - destruct Htm as [-> | ->]; repeat constructor; discriminate.
    - intros p. rewrite Hs. discriminate. }
  destruct Hres as [Hres | Hres].
  - unfold captureVideoFrameFromElement in Hres.
    destruct (dom s !! videoElement) as [v|] eqn:Hv.
    + destruct (FromElement_start_spec videoElement timeSeconds w h s v Ht Hv)
        as (c & s1 & Hst & Hc & _ & _ & _ & _ & Hd & Htm & _ & Hs & _).
      rewrite Hst in Hres.
      assert (HS : Sourced (thumbVideo c) H K
                     (drain (FromElement.program c)
                        (run (FromElement.program c) (thumbVideo c) script s1))).
      { apply Sourced_drain; [apply el_fire_sourced|].
        apply Sourced_run;
          [apply el_invoke_sourced | apply el_fire_sourced | apply script_known |].
        apply (Hstart c s1 _ Hc Hd); auto. }
      exact (so_settled _ _ _ _ HS pic Hres).
    + unfold FromElement.start in Hres. simpl in Hres. rewrite Hv in Hres.
      simpl in Hres. discriminate.
  - unfold captureVideoFrame in Hres.
    destruct (FromUrl_start_spec videoUrl timeSeconds w h s Ht)
      as (c & s1 & Hst & Hc & _ & _ & _ & _ & Hd & Htm & _ & Hs & _).
    rewrite Hst in Hres.
    assert (HS : Sourced (thumbVideo c) H K
                   (drain (FromUrl.program c)
                      (run (FromUrl.program c) (thumbVideo c) script s1))).
    { apply Sourced_drain; [apply url_fire_sourced|].
      apply Sourced_run;
        [apply url_invoke_sourced | apply url_fire_sourced | apply script_known |].
      apply (Hstart c s1 _ Hc Hd); auto. }
    exact (so_settled _ _ _ _ HS pic Hres).
Qed.

Lemma undisturbed_capture_resolves :
  settled (captureVideoFrameFromElement 0 20 320 180 (undisturbed 100 20) (pageAt 45))
  = Some (Resolved "frame").
Proof. vm_compute. reflexivity. Qed.

Lemma capture_resolves_with_a_decoded_frame_after_seeked_witness :
  idle (pageAt 45)
  /\ settled (captureVideoFrameFromElement 0 20 320 180 (undisturbed 100 20) (pageAt 45))
     = Some (Resolved "frame")
  /\ In (Fire ev_seeked) (undisturbed 100 20).
Proof.
  split; [exact (pageAt_idle 45)|]. split; [exact undisturbed_capture_resolves|].
  exact (proj1 (capture_resolves_with_a_decoded_frame_after_seeked 0 "/test-video.mp4"
                  20 320 180 (undisturbed 100 20) (pageAt 45) "frame" (pageAt_idle 45)
                  (or_introl undisturbed_capture_resolves))).
Defined.
